(** * camelcalc: the Camel Up race engine and its leg-bet calculator

    A shallow embedding of [camelcalc/camelup.py], [camelcalc/linkedlist.py],
    [camelcalc/camelcalc.py] and [camelcalc/utils.py], the properties of
    the engine that the design document states, and what else the code
    guarantees.

    Conventions of the embedding.
    - A [DoublyLinkedList[Camel]] is the list of its nodes' camels from
      [head] to [tail] (bottom of the stack to its top).  There is one
      [Camel] object per colour, so a camel is named by its colour; its
      mutable [pos] field lives in the [camels] dictionary of the game.
    - Python dictionaries are [gmap]s, Python sets are [gset]s; a set of
      objects compared by identity ([Team.leg_bet_cards]) is a list.
    - Methods that mutate [self] are computations in a state-and-exception
      monad over [Game]: an exception leaves the state as it was when it
      was raised.
    - Recursive methods take the remaining recursion depth; exhausting it
      raises [RecursionError], as the interpreter does.
    - [random.randint] and [set.pop] are replaced by arguments. *)

From Stdlib Require Import ZArith Lia Ascii.
From stdpp Require Import base decidable option list sets gmap fin_maps.

Local Open Scope Z_scope.
Set Warnings "-clear-no-such-hyp".

(** ** Enumerations *)

Module Color.
Inductive t := BLUE | GREEN | ORANGE | YELLOW | WHITE.

(** Iteration order of [for c in Color]. *)
Definition all : list t := [BLUE; GREEN; ORANGE; YELLOW; WHITE].

Definition to_pos (c : t) : positive :=
  match c with
  | BLUE => 1 | GREEN => 2 | ORANGE => 3 | YELLOW => 4 | WHITE => 5
  end%positive.

Definition of_pos (p : positive) : option t :=
  match p with
  | 1 => Some BLUE | 2 => Some GREEN | 3 => Some ORANGE
  | 4 => Some YELLOW | 5 => Some WHITE | _ => None
  end%positive.
End Color.
Abbreviation Color := Color.t.

Module TeamName.
Inductive t := A | B | C | D | E | F | G | H.

(** Iteration order of [list(TeamName)]. *)
Definition all : list t := [A; B; C; D; E; F; G; H].

(** [A = 0] and [auto()] counts upwards. *)
Definition value (x : t) : Z :=
  match x with
  | A => 0 | B => 1 | C => 2 | D => 3 | E => 4 | F => 5 | G => 6 | H => 7
  end.

(** [TeamName(v)]: lookup by value, [ValueError] ([None]) otherwise. *)
Definition of_value (v : Z) : option t :=
  match v with
  | 0 => Some A | 1 => Some B | 2 => Some C | 3 => Some D
  | 4 => Some E | 5 => Some F | 6 => Some G | 7 => Some H
  | _ => None
  end.

Definition to_pos (x : t) : positive := Z.to_pos (value x + 1).
Definition of_pos (p : positive) : option t := of_value (Z.pos p - 1).
End TeamName.
Abbreviation TeamName := TeamName.t.

#[global] Instance Color_eq_dec : EqDecision Color.
Proof. solve_decision. Defined.
#[global] Instance Color_countable : Countable Color.
Proof.
  apply (inj_countable' Color.to_pos (fun p => default Color.BLUE (Color.of_pos p))).
  by intros [].
Defined.

#[global] Instance TeamName_eq_dec : EqDecision TeamName.
Proof. solve_decision. Defined.
#[global] Instance TeamName_countable : Countable TeamName.
Proof.
  apply (inj_countable' TeamName.to_pos
           (fun p => default TeamName.A (TeamName.of_pos p))).
  by intros [].
Defined.

(** ** Exceptions *)

Inductive Exn :=
| InvalidMoveException
| AssertionError
| KeyError
| IndexError
| ValueError
| ZeroDivisionError
| StopIteration
| RecursionError
| NoSuchObject.

Inductive outcome (A : Type) :=
| Return (a : A)
| Raise (e : Exn).
Arguments Return {A} a.
Arguments Raise {A} e.

#[global] Instance Exn_eq_dec : EqDecision Exn.
Proof. solve_decision. Defined.

(** ** Entities *)

(** There are 16 spots on the board (zero indexed). *)
Definition BOARD_SPOTS : Z := 15.

Record LegBetCard := {
  lb_color : Color;
  lb_max_payoff : Z
}.

Record MovementCard := {
  mc_team : TeamName;
  mc_forward : bool
}.

Record OverallBetCard := {
  ob_color : Color;
  ob_team : TeamName
}.

Record Team := {
  t_name : TeamName;
  t_coins : Z;
  t_leg_bet_cards : list LegBetCard;
  t_placed_movement_card : bool;
  t_overall_bets_made : gset Color
}.

Record Spot := {
  s_position : Z;
  s_camels : list Color;
  s_movement_card : option MovementCard
}.

Record Game := {
  teams : gmap TeamName Team;
  active_team : TeamName;
  die_remaining : gset Color;
  camels : gmap Color Z;
  spots : list Spot;
  leg_bet_cards : gmap Color (list LegBetCard);
  overall_winner_cards : list OverallBetCard;
  overall_loser_cards : list OverallBetCard;
  playing : bool;
  winners : option (gset TeamName)
}.

(** [LegBetCard.get_payoff] *)
Definition get_payoff (card : LegBetCard) (place : Z) : Z :=
  if decide (place = 1) then lb_max_payoff card
  else if decide (place = 2) then 1
  else -1.

(** [Team.__init__] *)
Definition new_team (name : TeamName) : Team :=
  {| t_name := name; t_coins := 3; t_leg_bet_cards := [];
     t_placed_movement_card := false; t_overall_bets_made := ∅ |}.

(** [Spot.__init__] *)
Definition new_spot (position : Z) : Spot :=
  {| s_position := position; s_camels := []; s_movement_card := None |}.

(** [generate_initial_leg_bet_cards]: payoffs 5, 3, 2 for every colour. *)
Definition generate_initial_leg_bet_cards : gmap Color (list LegBetCard) :=
  foldl (fun bets color =>
           <[color := map (fun v => {| lb_color := color; lb_max_payoff := v |})
                          [5; 3; 2]]> bets)
        ∅ Color.all.

(** Field updates. *)

Definition set_t_coins (v : Z) (t : Team) : Team :=
  {| t_name := t_name t; t_coins := v; t_leg_bet_cards := t_leg_bet_cards t;
     t_placed_movement_card := t_placed_movement_card t;
     t_overall_bets_made := t_overall_bets_made t |}.

Definition set_t_leg_bet_cards (v : list LegBetCard) (t : Team) : Team :=
  {| t_name := t_name t; t_coins := t_coins t; t_leg_bet_cards := v;
     t_placed_movement_card := t_placed_movement_card t;
     t_overall_bets_made := t_overall_bets_made t |}.

Definition set_t_placed_movement_card (v : bool) (t : Team) : Team :=
  {| t_name := t_name t; t_coins := t_coins t;
     t_leg_bet_cards := t_leg_bet_cards t;
     t_placed_movement_card := v;
     t_overall_bets_made := t_overall_bets_made t |}.

Definition set_t_overall_bets_made (v : gset Color) (t : Team) : Team :=
  {| t_name := t_name t; t_coins := t_coins t;
     t_leg_bet_cards := t_leg_bet_cards t;
     t_placed_movement_card := t_placed_movement_card t;
     t_overall_bets_made := v |}.

Definition set_s_camels (v : list Color) (s : Spot) : Spot :=
  {| s_position := s_position s; s_camels := v;
     s_movement_card := s_movement_card s |}.

Definition set_s_movement_card (v : option MovementCard) (s : Spot) : Spot :=
  {| s_position := s_position s; s_camels := s_camels s;
     s_movement_card := v |}.

Definition set_teams (v : gmap TeamName Team) (g : Game) : Game :=
  {| teams := v; active_team := active_team g;
     die_remaining := die_remaining g; camels := camels g; spots := spots g;
     leg_bet_cards := leg_bet_cards g;
     overall_winner_cards := overall_winner_cards g;
     overall_loser_cards := overall_loser_cards g;
     playing := playing g; winners := winners g |}.

Definition set_active_team (v : TeamName) (g : Game) : Game :=
  {| teams := teams g; active_team := v;
     die_remaining := die_remaining g; camels := camels g; spots := spots g;
     leg_bet_cards := leg_bet_cards g;
     overall_winner_cards := overall_winner_cards g;
     overall_loser_cards := overall_loser_cards g;
     playing := playing g; winners := winners g |}.

Definition set_die_remaining (v : gset Color) (g : Game) : Game :=
  {| teams := teams g; active_team := active_team g;
     die_remaining := v; camels := camels g; spots := spots g;
     leg_bet_cards := leg_bet_cards g;
     overall_winner_cards := overall_winner_cards g;
     overall_loser_cards := overall_loser_cards g;
     playing := playing g; winners := winners g |}.

Definition set_camels (v : gmap Color Z) (g : Game) : Game :=
  {| teams := teams g; active_team := active_team g;
     die_remaining := die_remaining g; camels := v; spots := spots g;
     leg_bet_cards := leg_bet_cards g;
     overall_winner_cards := overall_winner_cards g;
     overall_loser_cards := overall_loser_cards g;
     playing := playing g; winners := winners g |}.

Definition set_spots (v : list Spot) (g : Game) : Game :=
  {| teams := teams g; active_team := active_team g;
     die_remaining := die_remaining g; camels := camels g; spots := v;
     leg_bet_cards := leg_bet_cards g;
     overall_winner_cards := overall_winner_cards g;
     overall_loser_cards := overall_loser_cards g;
     playing := playing g; winners := winners g |}.

Definition set_leg_bet_cards (v : gmap Color (list LegBetCard)) (g : Game)
  : Game :=
  {| teams := teams g; active_team := active_team g;
     die_remaining := die_remaining g; camels := camels g; spots := spots g;
     leg_bet_cards := v;
     overall_winner_cards := overall_winner_cards g;
     overall_loser_cards := overall_loser_cards g;
     playing := playing g; winners := winners g |}.

Definition set_overall_winner_cards (v : list OverallBetCard) (g : Game)
  : Game :=
  {| teams := teams g; active_team := active_team g;
     die_remaining := die_remaining g; camels := camels g; spots := spots g;
     leg_bet_cards := leg_bet_cards g;
     overall_winner_cards := v;
     overall_loser_cards := overall_loser_cards g;
     playing := playing g; winners := winners g |}.

Definition set_overall_loser_cards (v : list OverallBetCard) (g : Game)
  : Game :=
  {| teams := teams g; active_team := active_team g;
     die_remaining := die_remaining g; camels := camels g; spots := spots g;
     leg_bet_cards := leg_bet_cards g;
     overall_winner_cards := overall_winner_cards g;
     overall_loser_cards := v;
     playing := playing g; winners := winners g |}.

Definition set_playing (v : bool) (g : Game) : Game :=
  {| teams := teams g; active_team := active_team g;
     die_remaining := die_remaining g; camels := camels g; spots := spots g;
     leg_bet_cards := leg_bet_cards g;
     overall_winner_cards := overall_winner_cards g;
     overall_loser_cards := overall_loser_cards g;
     playing := v; winners := winners g |}.

Definition set_winners (v : option (gset TeamName)) (g : Game) : Game :=
  {| teams := teams g; active_team := active_team g;
     die_remaining := die_remaining g; camels := camels g; spots := spots g;
     leg_bet_cards := leg_bet_cards g;
     overall_winner_cards := overall_winner_cards g;
     overall_loser_cards := overall_loser_cards g;
     playing := playing g; winners := v |}.

(** ** Python list indexing

    [l[i]] accepts [-len(l) <= i < len(l)]; a negative index counts from
    the end. *)

Definition py_norm (len : nat) (i : Z) : option nat :=
  if decide (0 <= i < Z.of_nat len) then Some (Z.to_nat i)
  else if decide (- Z.of_nat len <= i < 0) then Some (Z.to_nat (Z.of_nat len + i))
  else None.

Definition py_get {A} (l : list A) (i : Z) : option A :=
  match py_norm (length l) i with
  | Some n => l !! n
  | None => None
  end.

(** ** The state-and-exception monad

    [ST S A] is a computation over a mutable state [S]; [M] is the monad
    of the methods of [Game]. *)

Definition ST (S A : Type) : Type := S -> S * outcome A.
Abbreviation M := (ST Game).

Definition ret {S A} (a : A) : ST S A := fun s => (s, Return a).
Definition raise {S A} (e : Exn) : ST S A := fun s => (s, Raise e).
Definition bind {S A B} (m : ST S A) (k : A -> ST S B) : ST S B :=
  fun s => match m s with
           | (s', Return a) => k a s'
           | (s', Raise e) => (s', Raise e)
           end.
Definition get {S} : ST S S := fun s => (s, Return s).
Definition gets {S A} (f : S -> A) : ST S A := fun s => (s, Return (f s)).
Definition modify {S} (f : S -> S) : ST S unit := fun s => (f s, Return tt).
(** A computation that reads the state and may raise. *)
Definition lift {S A} (f : S -> outcome A) : ST S A := fun s => (s, f s).
Definition of_option {S A} (e : Exn) (o : option A) : ST S A :=
  match o with Some a => ret a | None => raise e end.

Notation "'let!' x ':=' m 'in' k" := (bind m (fun x => k))
  (at level 10, x pattern, m at level 100, k at level 200, only parsing).
Notation "m '>>' k" := (bind m (fun _ => k))
  (at level 90, right associativity, only parsing).

(** [for x in l: body x] *)
Fixpoint for_each {S A} (l : list A) (body : A -> ST S unit) : ST S unit :=
  match l with
  | [] => ret tt
  | x :: rest => body x >> for_each rest body
  end.

(** A [for] loop that updates a local variable [acc]. *)
Fixpoint for_fold {S A B} (l : list A) (body : B -> A -> ST S B) (acc : B)
  : ST S B :=
  match l with
  | [] => ret acc
  | x :: rest => let! acc' := body acc x in for_fold rest body acc'
  end.

(** ** The stack of a spot ([linkedlist.py])

    The list holds the nodes' data from [head] to [tail]. *)

Module DoublyLinkedList.

(** The walk [while temp_node is not None and temp_node.data != camel]
    from [head]: the nodes before the camel's node, and the chain from that
    node to [tail].  [None] when the walk ends on [None]. *)
Fixpoint find_chain (camel : Color) (l : list Color)
  : option (list Color * list Color) :=
  match l with
  | [] => None
  | x :: rest =>
      if decide (x = camel) then Some ([], l)
      else match find_chain camel rest with
           | Some (below, chain) => Some (x :: below, chain)
           | None => None
           end
  end.

(** [remove_chain(node)]: what stays when the chain found by [find_chain]
    is cut off ([tail = node.prev], or the empty list when [node] is the
    head). *)
Definition remove_chain (below : list Color) : list Color := below.

(** [insert_chain_tail(node, tail)] *)
Definition insert_chain_tail (l chain : list Color) : list Color := l ++ chain.

(** [insert_chain_head(node, tail)] *)
Definition insert_chain_head (l chain : list Color) : list Color := chain ++ l.

(** [insert_single_head(data)] *)
Definition insert_single_head (l : list Color) (data : Color) : list Color :=
  data :: l.

End DoublyLinkedList.

(** ** Accessors *)

(** [self.teams[name]] *)
Definition get_team (name : TeamName) : M Team :=
  fun g => of_option KeyError (teams g !! name) g.

(** [self.teams[name].field = ...]: the team object is updated in place. *)
Definition modify_team (name : TeamName) (f : Team -> Team) : M unit :=
  let! t := get_team name in
  modify (fun g => set_teams (<[name := f t]> (teams g)) g).

(** [self.teams[name].coins += v] *)
Definition add_coins (name : TeamName) (v : Z) : M unit :=
  modify_team name (fun t => set_t_coins (t_coins t + v) t).

(** [self.spots[i]] *)
Definition get_spot (i : Z) : M Spot :=
  fun g => of_option IndexError (py_get (spots g) i) g.

(** [self.spots[i].field = ...]: the spot object is updated in place. *)
Definition modify_spot (i : Z) (f : Spot -> Spot) : M unit :=
  fun g =>
    match py_norm (length (spots g)) i with
    | Some n => (set_spots (alter f n (spots g)) g, Return tt)
    | None => (g, Raise IndexError)
    end.

(** The keys of [self.teams] in insertion order: [Game.__init__] inserts
    them in the order of [TeamName]. *)
Definition team_names (g : Game) : list TeamName :=
  filter (fun n => is_Some (teams g !! n)) TeamName.all.

(** [self.teams.values()] *)
Definition team_values (g : Game) : list Team :=
  omap (fun n => teams g !! n) TeamName.all.

(** ** Race engine ([camelup.py]) *)

(** [Game.update_camel_positions]: every camel from [node] to the tail
    gets [new_pos]. *)
Definition update_camel_positions (chain : list Color) (new_pos : Z) : M unit :=
  modify (fun g =>
    set_camels (foldl (fun m c => <[c := new_pos]> m) (camels g) chain) g).

(** Inner loop of [get_positions]: one stack, from [tail] along [prev]. *)
Fixpoint rank_stack (top_down : list Color) (place : Z)
  (results : gmap Color Z) : Z * gmap Color Z :=
  match top_down with
  | [] => (place, results)
  | c :: rest => rank_stack rest (place + 1) (<[c := place]> results)
  end.

(** Outer loop of [get_positions].  [index] only decreases, so the loop
    ends by [place >= 6] or by the [IndexError] of [self.spots[index]];
    [steps] bounds the iterations before that error. *)
Fixpoint get_positions_loop (steps : nat) (sp : list Spot) (index place : Z)
  (results : gmap Color Z) : outcome (gmap Color Z) :=
  if decide (place < 6) then
    match steps with
    | O => Raise IndexError
    | S steps' =>
        match py_get sp index with
        | None => Raise IndexError
        | Some spot =>
            let '(place', results') :=
              rank_stack (reverse (s_camels spot)) place results in
            get_positions_loop steps' sp (index - 1) place' results'
        end
    end
  else Return results.

(** [Game.get_positions] *)
Definition get_positions (g : Game) : outcome (gmap Color Z) :=
  get_positions_loop (17 + length (spots g)) (spots g) 15 1 ∅.

(** [{c for c in Color}] *)
Definition all_dice : gset Color := list_to_set Color.all.

(** [Game.finish_leg] *)
Definition finish_leg : M unit :=
  modify (set_die_remaining all_dice) >>
  let! positions := lift get_positions in
  let! names := gets team_names in
  for_each names (fun name =>
    let! team := get_team name in
    for_each (t_leg_bet_cards team) (fun card =>
      let! place := of_option KeyError (positions !! lb_color card) in
      add_coins name (get_payoff card place)) >>
    modify_team name (set_t_leg_bet_cards [])) >>
  modify (set_leg_bet_cards generate_initial_leg_bet_cards) >>
  for_each names (fun name =>
    modify_team name (set_t_placed_movement_card false)) >>
  modify (fun g => set_spots (map (set_s_movement_card None) (spots g)) g).

Definition payoffs : list Z := [8; 5; 3; 2; 1].

(** The two loops of [finish_game] over the overall bets: [target] is the
    place that makes a card correct, [index] counts the payouts made. *)
Fixpoint settle_overall (positions : gmap Color Z) (target : Z)
  (cards : list OverallBetCard) (index : nat) : M unit :=
  match cards with
  | [] => ret tt
  | card :: rest =>
      let! place := of_option KeyError (positions !! ob_color card) in
      if decide (place = target) then
        if decide (index < length payoffs)%nat then
          add_coins (ob_team card) (nth index payoffs 0) >>
          settle_overall positions target rest (S index)
        else settle_overall positions target rest index
      else
        add_coins (ob_team card) (-1) >>
        settle_overall positions target rest index
  end.

(** [max(...)] of a list of integers, [ValueError] when it is empty. *)
Definition py_max (l : list Z) : option Z :=
  match l with
  | [] => None
  | x :: rest => Some (foldl Z.max x rest)
  end.

(** [Game.is_playing] *)
Definition is_playing : M bool := gets playing.

(** [Game.get_winners] *)
Definition get_winners : M (gset TeamName) :=
  let! g := get in
  if playing g then raise ValueError
  else of_option AssertionError (winners g).

(** [Game.finish_game] *)
Definition finish_game : M unit :=
  finish_leg >>
  let! positions := lift get_positions in
  let! winner_cards := gets overall_winner_cards in
  settle_overall positions 1 winner_cards 0 >>
  let! loser_cards := gets overall_loser_cards in
  settle_overall positions 5 loser_cards 0 >>
  let! values := gets team_values in
  let! max_coins := of_option ValueError (py_max (map t_coins values)) in
  modify (set_winners
            (Some (list_to_set
                     (map t_name
                          (filter (fun t => t_coins t = max_coins) values))))) >>
  modify (set_playing false).

(** [Game.move_camel]; [fuel] is the recursion depth left. *)
Fixpoint move_camel (fuel : nat) (color : Color) (n : Z) : M unit :=
  match fuel with
  | O => raise RecursionError
  | S fuel' =>
      if decide (n = 0) then ret tt
      else
        let! pos := (fun g => of_option KeyError (camels g !! color) g) in
        let! spot := get_spot pos in
        let! (below, chain) :=
          of_option AssertionError
            (DoublyLinkedList.find_chain color (s_camels spot)) in
        let new_pos := pos + n in
        let cascade : M unit :=
          let! landed := get_spot new_pos in
          match s_movement_card landed with
          | None => ret tt
          | Some movement_card =>
              add_coins (mc_team movement_card) 1 >>
              move_camel fuel' color
                (if mc_forward movement_card then 1 else -1)
          end in
        if decide (n > 0) then
          if decide (new_pos > BOARD_SPOTS) then
            move_camel fuel' color (BOARD_SPOTS - pos) >>
            finish_game
          else
            update_camel_positions chain new_pos >>
            modify_spot pos
              (set_s_camels (DoublyLinkedList.remove_chain below)) >>
            modify_spot new_pos (fun s =>
              set_s_camels
                (DoublyLinkedList.insert_chain_tail (s_camels s) chain) s) >>
            cascade
        else
          update_camel_positions chain new_pos >>
          modify_spot pos
            (set_s_camels (DoublyLinkedList.remove_chain below)) >>
          modify_spot new_pos (fun s =>
            set_s_camels
              (DoublyLinkedList.insert_chain_head (s_camels s) chain) s) >>
          cascade
  end.

(** [Game.finish_turn] *)
Definition finish_turn : M unit :=
  let! g := get in
  let len := Z.of_nat (size (teams g)) in
  if decide (len = 0) then raise ZeroDivisionError
  else
    let! next :=
      of_option ValueError
        (TeamName.of_value ((TeamName.value (active_team g) + 1) `mod` len)) in
    modify (set_active_team next).

(** [Game.can_bet_on_leg] *)
Definition can_bet_on_leg (color : Color) : M bool :=
  let! g := get in
  let! cards := of_option KeyError (leg_bet_cards g !! color) in
  ret (bool_decide (0 < length cards)%nat).

(** [Game.can_place_movement_card] *)
Definition can_place_movement_card (position : Z) : M bool :=
  let! g := get in
  let! team := get_team (active_team g) in
  if t_placed_movement_card team then ret false
  else if decide (position < 1 \/ position > BOARD_SPOTS) then ret false
  else
    let! behind := get_spot (position - 1) in
    if decide (s_movement_card behind <> None) then ret false
    else
      let! ahead_has_card :=
        (if decide (position < BOARD_SPOTS) then
           let! ahead := get_spot (position + 1) in
           ret (bool_decide (s_movement_card ahead <> None))
         else ret false) in
      if ahead_has_card then ret false
      else
        let! here := get_spot position in
        if decide (s_movement_card here <> None) then ret false
        else if decide (s_camels here <> []) then ret false
        else ret true.

(** [Game.can_make_overall_bet] *)
Definition can_make_overall_bet (color : Color) : M bool :=
  let! g := get in
  let! team := get_team (active_team g) in
  ret (bool_decide (color ∉ t_overall_bets_made team)).

(** [Game.roll_dice].  [color] is the element that
    [self.die_remaining.pop()] yields and [move] the value of the die. *)
Definition roll_dice (fuel : nat) (color : Color) (move : Z)
  : M (Color * Z) :=
  let! active := gets active_team in
  add_coins active 1 >>
  let! dice := gets die_remaining in
  if decide (dice = ∅) then raise KeyError
  else
    modify (set_die_remaining (dice ∖ {[color]})) >>
    move_camel fuel color move >>
    let! dice' := gets die_remaining in
    (if decide (size dice' = 0%nat) then finish_leg else ret tt) >>
    finish_turn >>
    ret (color, move).

(** [Game.bet_on_leg] *)
Definition bet_on_leg (color : Color) : M Z :=
  let! ok := can_bet_on_leg color in
  if negb ok then raise InvalidMoveException
  else
    let! deck := gets leg_bet_cards in
    let! cards := of_option KeyError (deck !! color) in
    match cards with
    | [] => raise IndexError
    | card :: rest =>
        modify (set_leg_bet_cards (<[color := rest]> deck)) >>
        let! active := gets active_team in
        modify_team active
          (fun t => set_t_leg_bet_cards (card :: t_leg_bet_cards t) t) >>
        finish_turn >>
        ret (lb_max_payoff card)
    end.

(** [Game.place_movement_card] *)
Definition place_movement_card (direction : bool) (position : Z) : M unit :=
  let! ok := can_place_movement_card position in
  if negb ok then raise InvalidMoveException
  else
    let! active := gets active_team in
    modify_spot position
      (set_s_movement_card
         (Some {| mc_team := active; mc_forward := direction |})) >>
    let! active := gets active_team in
    modify_team active (set_t_placed_movement_card true) >>
    finish_turn.

(** [Game.make_overall_bet] *)
Definition make_overall_bet (winner : bool) (color : Color) : M unit :=
  let! ok := can_make_overall_bet color in
  if negb ok then raise InvalidMoveException
  else
    let! active := gets active_team in
    modify_team active
      (fun t => set_t_overall_bets_made ({[color]} ∪ t_overall_bets_made t) t) >>
    let card := {| ob_color := color; ob_team := active |} in
    if winner then
      modify (fun g =>
        set_overall_winner_cards (overall_winner_cards g ++ [card]) g)
    else
      modify (fun g =>
        set_overall_loser_cards (overall_loser_cards g ++ [card]) g).

(** One iteration of the loop of [generate_initial_board] over the
    colours; [rolls c] is the value of the die thrown for colour [c]. *)
Definition place_camel (rolls : Color -> Z)
  (acc : outcome (list Spot * gmap Color Z)) (c : Color)
  : outcome (list Spot * gmap Color Z) :=
  match acc with
  | Raise e => Raise e
  | Return (sp, cm) =>
      let roll := rolls c - 1 in
      match py_norm (length sp) roll with
      | Some n =>
          match sp !! n with
          | Some s =>
              Return
                (<[n := set_s_camels
                          (DoublyLinkedList.insert_single_head (s_camels s) c)
                          s]> sp,
                 <[c := roll]> cm)
          | None => Raise IndexError
          end
      | None => Raise IndexError
      end
  end.

(** [generate_initial_board] *)
Definition generate_initial_board (rolls : Color -> Z)
  : outcome (list Spot * gmap Color Z) :=
  foldl (place_camel rolls)
        (Return (map (fun i => new_spot (Z.of_nat i))
                     (seq 0 (Z.to_nat (BOARD_SPOTS + 1))), ∅))
        Color.all.

(** [Game.__init__] *)
Definition new_game (number_of_teams : Z) (rolls : Color -> Z)
  : outcome Game :=
  if decide (number_of_teams < 2 \/ number_of_teams > 8) then Raise ValueError
  else
    let names := take (Z.to_nat number_of_teams) TeamName.all in
    match names with
    | [] => Raise StopIteration
    | first :: _ =>
        match generate_initial_board rolls with
        | Raise e => Raise e
        | Return (sp, cm) =>
            Return
              {| teams := list_to_map (map (fun n => (n, new_team n)) names);
                 active_team := first;
                 die_remaining := all_dice;
                 camels := cm;
                 spots := sp;
                 leg_bet_cards := generate_initial_leg_bet_cards;
                 overall_winner_cards := [];
                 overall_loser_cards := [];
                 playing := true;
                 winners := None |}
        end
    end.

(** ** Leg-bet calculator ([camelcalc.py])

    The calculator handles several [Game] objects at once, so here a game
    is a reference into a store of objects.  [deepcopy] copies everything
    reachable from a game (teams, spots, nodes, camels, cards; the members
    of the enumerations are immutable), so the copy is a new object with
    the same state that shares nothing mutable with the original.
    [NoSuchObject] marks a reference outside the store, which Python
    cannot produce. *)

(** The object behind a reference. *)
Definition deref (l : nat) : ST (list Game) Game :=
  fun σ => of_option NoSuchObject (σ !! l) σ.

(** [deepcopy(game)] *)
Definition deepcopy (l : nat) : ST (list Game) nat :=
  let! g := deref l in
  fun σ => (σ ++ [g], Return (length σ)).

(** [g.method(...)]: run a method on the object behind [l]. *)
Definition call {A} (l : nat) (m : M A) : ST (list Game) A :=
  let! g := deref l in
  fun σ => let '(g', r) := m g in (<[l := g']> σ, r).

(** [generate_outcomes]; [fuel] is the recursion depth left. *)
Fixpoint generate_outcomes (fuel : nat) (game : nat)
  : ST (list Game) (list nat) :=
  match fuel with
  | O => raise RecursionError
  | S fuel' =>
      let! game_state := deref game in
      let dice := die_remaining game_state in
      if decide (size dice = 0%nat) then ret [game]
      else
        for_fold (elements dice) (fun outcomes color =>
          for_fold [1; 2; 3] (fun outcomes roll =>
            let! g := deepcopy game in
            call g (move_camel fuel' color roll) >>
            call g (modify (fun s =>
              set_die_remaining (die_remaining s ∖ {[color]}) s)) >>
            let! sub := generate_outcomes fuel' g in
            ret (outcomes ++ sub)) outcomes) []
  end.

(** [max(d, key=d.get)] for a dictionary whose keys are [keys] in
    insertion order: the first key whose value is maximal. *)
Definition py_max_key (keys : list Color) (d : gmap Color Z) : option Color :=
  match keys with
  | [] => None
  | k :: rest =>
      Some (foldl (fun best c =>
                     if decide (default 0 (d !! c) > default 0 (d !! best))
                     then c else best) k rest)
  end.

(** The dictionary [expected_payoffs] of [calculate_best_leg_bet] once the
    loop over the outcomes is over, and the number of outcomes. *)
Definition expected_payoffs (fuel : nat) (game : nat)
  : ST (list Game) (gmap Color Z * nat) :=
  let expected0 : gmap Color Z :=
    foldl (fun m c => <[c := 0]> m) ∅ Color.all in
  let! game_state := deref game in
  let deck := leg_bet_cards game_state in
  let payoffs : gmap Color (option LegBetCard) := head <$> deck in
  let! outcomes := generate_outcomes fuel game in
  let! expected :=
    for_fold outcomes (fun expected outcome =>
      let! positions := (let! o := deref outcome in lift (fun _ => get_positions o)) in
      for_fold Color.all (fun expected c =>
        let! payoff := of_option KeyError (payoffs !! c) in
        match payoff with
        | Some card =>
            let! place := of_option KeyError (positions !! c) in
            let! total := of_option KeyError (expected !! c) in
            ret (<[c := total + get_payoff card place]> expected)
        | None => ret expected
        end) expected) expected0 in
  ret (expected, length outcomes).

(** [calculate_best_leg_bet].  The expected payoff is a float in Python,
    the quotient of two integers; the model returns the two integers. *)
Definition calculate_best_leg_bet (fuel : nat) (game : nat)
  : ST (list Game) (Color * (Z * Z)) :=
  let! (expected, count) := expected_payoffs fuel game in
  let! best_bet := of_option ValueError (py_max_key Color.all expected) in
  let! total := of_option KeyError (expected !! best_bet) in
  if decide (count = 0%nat) then raise ZeroDivisionError
  else ret (best_bet, (total, Z.of_nat count)).

(** A [for] loop that updates a local variable and may raise, without a
    state. *)
Fixpoint fold_outcome {A B} (l : list A) (step : B -> A -> outcome B)
  (acc : B) : outcome B :=
  match l with
  | [] => Return acc
  | x :: rest =>
      match step acc x with
      | Return acc' => fold_outcome rest step acc'
      | Raise e => Raise e
      end
  end.

(** The outcomes when every branch is explored on a value of its own:
    the states that [generate_outcomes] is meant to return. *)
Fixpoint outcome_states (fuel : nat) (g : Game) : outcome (list Game) :=
  match fuel with
  | O => Raise RecursionError
  | S fuel' =>
      if decide (size (die_remaining g) = 0%nat) then Return [g]
      else
        fold_outcome (elements (die_remaining g)) (fun outcomes color =>
          fold_outcome [1; 2; 3] (fun outcomes roll =>
            match move_camel fuel' color roll g with
            | (_, Raise e) => Raise e
            | (g', Return _) =>
                match outcome_states fuel'
                        (set_die_remaining
                           (die_remaining g' ∖ {[color]}) g') with
                | Raise e => Raise e
                | Return sub => Return (outcomes ++ sub)
                end
            end) outcomes) []
  end.

(** ** Text in columns ([utils.py])

    A Python [str] is the list of its characters. *)

Module utils.

Inductive Error :=
| TypeError
| ValueError.

Inductive result (A : Type) :=
| Ok (a : A)
| Err (e : Error).
Arguments Ok {A} a.
Arguments Err {A} e.

Abbreviation str := (list ascii).

Definition newline : ascii := "010"%char.
Definition space : ascii := " "%char.

(** [s.split("\n")] *)
Fixpoint split_lines (s : str) : list str :=
  match s with
  | [] => [[]]
  | c :: rest =>
      if decide (c = newline) then [] :: split_lines rest
      else match split_lines rest with
           | [] => [[c]]
           | line :: lines => (c :: line) :: lines
           end
  end.

(** [sep.join(parts)] *)
Fixpoint join (sep : str) (parts : list str) : str :=
  match parts with
  | [] => []
  | [part] => part
  | part :: rest => part ++ sep ++ join sep rest
  end.

(** [f"{s:<{width}}"]: [s] with spaces on its right up to [width]
    characters. *)
Definition ljust (width : nat) (s : str) : str :=
  s ++ replicate (width - length s) space.

(** [max(len(s) for s in l)], a [ValueError] when [l] is empty. *)
Definition max_len (l : list str) : result nat :=
  match l with
  | [] => Err ValueError
  | s :: rest => Ok (foldl Nat.max (length s) (map length rest))
  end.

(** [multiline_concat] *)
Definition multiline_concat (s1 s2 : str) (merge_from_bottom : bool)
  (sep : str) : result str :=
  let s1_split := split_lines s1 in
  let s2_split := split_lines s2 in
  let s1_split_length := length s1_split in
  let s2_split_length := length s2_split in
  let s1_padding :=
    replicate (Nat.max s1_split_length s2_split_length - s1_split_length)
              ([] : str) in
  let s2_padding :=
    replicate (Nat.max s1_split_length s2_split_length - s2_split_length)
              ([] : str) in
  let s1_fixed_length :=
    if merge_from_bottom then s1_padding ++ s1_split
    else s1_split ++ s1_padding in
  let s2_fixed_length :=
    if merge_from_bottom then s2_padding ++ s2_split
    else s2_split ++ s2_padding in
  match max_len s1_fixed_length with
  | Err e => Err e
  | Ok s1_length_max =>
      match max_len s2_fixed_length with
      | Err e => Err e
      | Ok s2_length_max =>
          let s1_fixed_width := map (ljust s1_length_max) s1_fixed_length in
          let s2_fixed_width := map (ljust s2_length_max) s2_fixed_length in
          Ok (join [newline]
                (zip_with (fun a b => join sep [a; b])
                          s1_fixed_width s2_fixed_width))
      end
  end.

(** [multiline_concat_list]: [reduce] without an initial value raises
    [TypeError] on an empty sequence. *)
Definition multiline_concat_list (s : list str) (merge_from_bottom : bool)
  (sep : str) : result str :=
  match s with
  | [] => Err TypeError
  | first :: rest =>
      foldl (fun acc y =>
               match acc with
               | Err e => Err e
               | Ok x => multiline_concat x y merge_from_bottom sep
               end)
            (Ok first) rest
  end.

(** [to_string]: [str] applied to every element. *)
Definition to_string {T} (to_str : T -> str) (list_ : list T) : list str :=
  map to_str list_.

End utils.

(** ** The nodes of a stack ([linkedlist.py])

    The pointer structure behind the lists of the module
    [DoublyLinkedList]: [Node] and [DoublyLinkedList] objects live in a
    memory and name each other by reference. *)

Module linkedlist.

Inductive Error :=
| StopIteration
| AttributeError
| AssertionError
| Dangling      (* a reference to no object, which Python cannot produce *)
| OutOfSteps.   (* a loop that has not ended within the steps allowed *)

Inductive result (A : Type) :=
| Ok (a : A)
| Err (e : Error).
Arguments Ok {A} a.
Arguments Err {A} e.

Section objects.
Context {T : Type}.

Record Node := {
  data : T;
  prev : option nat;
  next : option nat
}.

(** [curr] is an annotation of the class only: an object has the
    attribute once [__iter__] has run ([None] before). *)
Record DoublyLinkedList := {
  head : option nat;
  tail : option nat;
  curr : option (option nat)
}.

Record Mem := {
  nodes : gmap nat Node;
  lists : gmap nat DoublyLinkedList
}.

Definition with_prev (v : option nat) (n : Node) : Node :=
  {| data := data n; prev := v; next := next n |}.
Definition with_next (v : option nat) (n : Node) : Node :=
  {| data := data n; prev := prev n; next := v |}.
Definition with_head (v : option nat) (d : DoublyLinkedList)
  : DoublyLinkedList :=
  {| head := v; tail := tail d; curr := curr d |}.
Definition with_tail (v : option nat) (d : DoublyLinkedList)
  : DoublyLinkedList :=
  {| head := head d; tail := v; curr := curr d |}.
Definition with_curr (v : option (option nat)) (d : DoublyLinkedList)
  : DoublyLinkedList :=
  {| head := head d; tail := tail d; curr := v |}.

(** Methods are computations over the memory that may raise. *)
Definition Op (A : Type) : Type := Mem -> Mem * result A.

Definition pure {A} (a : A) : Op A := fun m => (m, Ok a).
Definition fail {A} (e : Error) : Op A := fun m => (m, Err e).
Definition and_then {A B} (o : Op A) (k : A -> Op B) : Op B :=
  fun m => match o m with
           | (m', Ok a) => k a m'
           | (m', Err e) => (m', Err e)
           end.

Notation "'do!' x ':=' o 'in' k" := (and_then o (fun x => k))
  (at level 10, x pattern, o at level 100, k at level 200, only parsing).
Notation "o '>>>' k" := (and_then o (fun _ => k))
  (at level 90, right associativity, only parsing).

(** Reading and writing the attributes of an object. *)
Definition get_node (r : nat) : Op Node :=
  fun m => match nodes m !! r with
           | Some n => (m, Ok n)
           | None => (m, Err Dangling)
           end.

Definition set_node (r : nat) (f : Node -> Node) : Op unit :=
  fun m => match nodes m !! r with
           | Some n =>
               ({| nodes := <[r := f n]> (nodes m); lists := lists m |}, Ok tt)
           | None => (m, Err Dangling)
           end.

Definition get_list (self : nat) : Op DoublyLinkedList :=
  fun m => match lists m !! self with
           | Some d => (m, Ok d)
           | None => (m, Err Dangling)
           end.

Definition set_list (self : nat) (f : DoublyLinkedList -> DoublyLinkedList)
  : Op unit :=
  fun m => match lists m !! self with
           | Some d =>
               ({| nodes := nodes m; lists := <[self := f d]> (lists m) |},
                Ok tt)
           | None => (m, Err Dangling)
           end.

(** [Node(val)]: a new object. *)
Definition new_node (val : T) : Op nat :=
  fun m =>
    let r := fresh (dom (nodes m)) in
    ({| nodes := <[r := {| data := val; prev := None; next := None |}]>
                   (nodes m);
        lists := lists m |}, Ok r).

(** [DoublyLinkedList()] *)
Definition new_list : Op nat :=
  fun m =>
    let l := fresh (dom (lists m)) in
    ({| nodes := nodes m;
        lists := <[l := {| head := None; tail := None; curr := None |}]>
                   (lists m) |}, Ok l).

(** [DoublyLinkedList.__iter__] *)
Definition __iter__ (self : nat) : Op nat :=
  do! d := get_list self in
  set_list self (with_curr (Some (head d))) >>>
  pure self.

(** [DoublyLinkedList.__next__] *)
Definition __next__ (self : nat) : Op T :=
  do! d := get_list self in
  match curr d with
  | None => fail AttributeError
  | Some None => fail StopIteration
  | Some (Some c) =>
      do! n := get_node c in
      set_list self (with_curr (Some (next n))) >>>
      pure (data n)
  end.

(** [DoublyLinkedList.remove_chain] *)
Definition remove_chain (self node : nat) : Op unit :=
  do! n := get_node node in
  match prev n with
  | None =>
      set_list self (with_head None) >>>
      set_list self (with_tail None)
  | Some p =>
      set_list self (with_tail (Some p)) >>>
      set_node p (with_next None) >>>
      set_node node (with_prev None)
  end.

(** [DoublyLinkedList.insert_chain_tail] *)
Definition insert_chain_tail (self node tl : nat) : Op unit :=
  do! d := get_list self in
  match tail d with
  | None =>
      set_list self (with_head (Some node)) >>>
      set_list self (with_tail (Some tl))
  | Some t =>
      set_node t (with_next (Some node)) >>>
      set_node node (with_prev (Some t)) >>>
      set_list self (with_tail (Some tl))
  end.

(** [DoublyLinkedList.insert_chain_head] *)
Definition insert_chain_head (self node tl : nat) : Op unit :=
  do! d := get_list self in
  match head d with
  | None =>
      set_list self (with_head (Some node)) >>>
      set_list self (with_tail (Some tl))
  | Some h =>
      set_node h (with_prev (Some tl)) >>>
      set_node tl (with_next (Some h)) >>>
      set_list self (with_head (Some node))
  end.

(** [DoublyLinkedList.insert_single_head] *)
Definition insert_single_head (self : nat) (val : T) : Op unit :=
  do! node := new_node val in
  do! d := get_list self in
  match head d with
  | None =>
      set_list self (with_head (Some node)) >>>
      set_list self (with_tail (Some node))
  | Some h =>
      set_node node (with_next (Some h)) >>>
      set_node h (with_prev (Some node)) >>>
      set_list self (with_head (Some node))
  end.

(** [DoublyLinkedList.extend] *)
Definition extend (self dll : nat) : Op unit :=
  do! o := get_list dll in
  match head o with
  | Some h =>
      match tail o with
      | Some t => insert_chain_tail self h t
      | None => fail AssertionError
      end
  | None => pure tt
  end.

(** The calls of [__next__] that a [for] loop or [list(...)] makes after
    [__iter__], until [StopIteration]. *)
Fixpoint drain (steps : nat) (self : nat) (acc : list T) : Op (list T) :=
  match steps with
  | O => fail OutOfSteps
  | S steps' =>
      fun m =>
        match __next__ self m with
        | (m', Ok x) => drain steps' self (acc ++ [x]) m'
        | (m', Err StopIteration) => (m', Ok acc)
        | (m', Err e) => (m', Err e)
        end
  end.

(** [list(self)] *)
Definition to_list (steps : nat) (self : nat) : Op (list T) :=
  do! it := __iter__ self in
  drain steps it [].

End objects.

Arguments Node : clear implicits.
Arguments Mem : clear implicits.

End linkedlist.

(** * Properties *)

(** ** Reasoning about computations *)

Lemma bind_Return {S A B} (m : ST S A) (k : A -> ST S B) s s' a :
  m s = (s', Return a) -> bind m k s = k a s'.
Proof. intros H. unfold bind. by rewrite H. Qed.

Lemma bind_Raise {S A B} (m : ST S A) (k : A -> ST S B) s s' e :
  m s = (s', Raise e) -> bind m k s = (s', Raise e).
Proof. intros H. unfold bind. by rewrite H. Qed.

(** [triple P m Q E]: from a state in [P], [m] ends in a state in [Q a]
    when it returns [a] and in a state in [E e] when it raises [e]. *)
Definition triple {S A} (P : S -> Prop) (m : ST S A)
  (Q : A -> S -> Prop) (E : Exn -> S -> Prop) : Prop :=
  forall s, P s ->
    match m s with
    | (s', Return a) => Q a s'
    | (s', Raise e) => E e s'
    end.

(** No exception at all. *)
Definition no_exn {S} : Exn -> S -> Prop := fun _ _ => False.

Section triples.
Context {S : Type}.
Implicit Types (P : S -> Prop) (E : Exn -> S -> Prop).

Lemma triple_ret {A} P (a : A) (Q : A -> S -> Prop) E :
  (forall s, P s -> Q a s) -> triple P (ret a) Q E.
Proof. intros H s Hs. by apply H. Qed.

Lemma triple_raise {A} P e (Q : A -> S -> Prop) E :
  (forall s, P s -> E e s) -> triple P (raise e) Q E.
Proof. intros H s Hs. by apply H. Qed.

Lemma triple_bind {A B} P (m : ST S A) (k : A -> ST S B)
  (R : A -> S -> Prop) (Q : B -> S -> Prop) E :
  triple P m R E -> (forall a, triple (R a) (k a) Q E) ->
  triple P (bind m k) Q E.
Proof.
  intros Hm Hk s Hs. specialize (Hm s Hs). unfold bind.
  destruct (m s) as [s' [a|e]]; [by apply Hk | done].
Qed.

Lemma triple_conseq {A} P P' (m : ST S A) (Q Q' : A -> S -> Prop) E E' :
  triple P' m Q' E' ->
  (forall s, P s -> P' s) -> (forall a s, Q' a s -> Q a s) ->
  (forall e s, E' e s -> E e s) ->
  triple P m Q E.
Proof.
  intros Hm HP HQ HE s Hs. specialize (Hm s (HP s Hs)).
  destruct (m s) as [s' [a|e]]; auto.
Qed.

Lemma triple_weaken {A} P P' (m : ST S A) (Q : A -> S -> Prop) E :
  triple P' m Q E -> (forall s, P s -> P' s) -> triple P m Q E.
Proof. intros Hm HP s Hs. by apply Hm, HP. Qed.

Lemma triple_gets {A} P (f : S -> A) (Q : A -> S -> Prop) E :
  (forall s, P s -> Q (f s) s) -> triple P (gets f) Q E.
Proof. intros H s Hs. by apply H. Qed.

Lemma triple_get P (Q : S -> S -> Prop) E :
  (forall s, P s -> Q s s) -> triple P get Q E.
Proof. intros H s Hs. by apply H. Qed.

Lemma triple_modify P (f : S -> S) (Q : unit -> S -> Prop) E :
  (forall s, P s -> Q tt (f s)) -> triple P (modify f) Q E.
Proof. intros H s Hs. by apply H. Qed.

Lemma triple_of_option {A} P e (o : option A) (Q : A -> S -> Prop) E :
  (forall a s, o = Some a -> P s -> Q a s) ->
  (forall s, o = None -> P s -> E e s) ->
  triple P (of_option e o) Q E.
Proof. intros H1 H2 s Hs. destruct o; simpl; auto. Qed.

(** A loop keeps an invariant that every iteration keeps. *)
Lemma triple_for_each {A} (I : S -> Prop) (l : list A)
  (body : A -> ST S unit) E :
  (forall x, x ∈ l -> triple I (body x) (fun _ => I) E) ->
  triple I (for_each l body) (fun _ => I) E.
Proof.
  induction l as [|x l IH]; intros Hbody.
  - by apply triple_ret.
  - simpl. eapply triple_bind.
    + apply Hbody. left.
    + intros ?. apply IH. intros y Hy. apply Hbody. by right.
Qed.

Lemma triple_for_fold {A B} (I : B -> S -> Prop) (l : list A)
  (body : B -> A -> ST S B) (acc : B) E :
  (forall b x, x ∈ l -> triple (I b) (body b x) I E) ->
  triple (I acc) (for_fold l body acc) I E.
Proof.
  revert acc. induction l as [|x l IH]; intros acc Hbody.
  - by apply triple_ret.
  - simpl. eapply triple_bind.
    + apply Hbody. left.
    + intros b. apply IH. intros b' y Hy. apply Hbody. by right.
Qed.

End triples.

(** Python indexing inside the list. *)
Lemma py_get_nonneg {A} (l : list A) (i : Z) :
  0 <= i -> py_get l i = l !! Z.to_nat i.
Proof.
  intros Hi. unfold py_get, py_norm.
  destruct (decide (0 <= i < Z.of_nat (length l))) as [|Hn]; [done|].
  destruct (decide (- Z.of_nat (length l) <= i < 0)); [lia|].
  symmetry. apply lookup_ge_None. lia.
Qed.

Lemma py_norm_nonneg (len : nat) (i : Z) :
  0 <= i < Z.of_nat len -> py_norm len i = Some (Z.to_nat i).
Proof. intros Hi. unfold py_norm. by rewrite decide_True. Qed.
(** ** The board invariant *)

(** All the camels on the board, spot by spot, bottom to top. *)
Definition board (g : Game) : list Color := concat (map s_camels (spots g)).

(** The state the engine keeps between two calls: every camel stands on
    the spot its [pos] names, movement cards are never on spot 0 nor on
    neighbouring spots, and every team that a card names plays. *)
Record game_inv (g : Game) : Prop := {
  inv_length : length (spots g) = 16%nat;
  inv_present : forall c, exists i s, spots g !! i = Some s /\ c ∈ s_camels s;
  inv_stack : forall i s, spots g !! i = Some s -> NoDup (s_camels s);
  inv_pos : forall i s c,
    spots g !! i = Some s -> c ∈ s_camels s ->
    camels g !! c = Some (Z.of_nat i);
  inv_cards : forall i s card,
    spots g !! i = Some s -> s_movement_card s = Some card ->
    (1 <= i)%nat /\ is_Some (teams g !! mc_team card) /\
    forall s', spots g !! (S i) = Some s' -> s_movement_card s' = None;
  inv_teams : exists n, (2 <= n <= 8)%nat /\
    dom (teams g) = list_to_set (take n TeamName.all);
  inv_active : is_Some (teams g !! active_team g);
  inv_winner_cards :
    Forall (fun card => is_Some (teams g !! ob_team card))
           (overall_winner_cards g);
  inv_loser_cards :
    Forall (fun card => is_Some (teams g !! ob_team card))
           (overall_loser_cards g)
}.

(** The chain of [color] leaves spot [ip] and joins spot [q], on top of
    its stack when [forward] and below it otherwise: the three updates of
    [move_camel] between locating the camel and looking for a movement
    card. *)
Definition move_chain (forward : bool) (ip q : nat)
  (below chain : list Color) (g : Game) : Game :=
  set_spots
    (alter (fun s =>
              set_s_camels
                (if forward
                 then DoublyLinkedList.insert_chain_tail (s_camels s) chain
                 else DoublyLinkedList.insert_chain_head (s_camels s) chain) s)
           q
           (alter (set_s_camels (DoublyLinkedList.remove_chain below)) ip
                  (spots g)))
    (set_camels (foldl (fun m c => <[c := Z.of_nat q]> m) (camels g) chain) g).

Lemma find_chain_spec c l below chain :
  DoublyLinkedList.find_chain c l = Some (below, chain) ->
  l = below ++ chain /\ (c ∉ below) /\ exists rest, chain = c :: rest.
Proof.
  revert below chain. induction l as [|x l IH]; intros below chain; simpl.
  - done.
  - destruct (decide (x = c)) as [->|Hne].
    + intros [= <- <-]. split; [done|]. split; [apply not_elem_of_nil|eauto].
    + destruct (DoublyLinkedList.find_chain c l) as [[b ch]|] eqn:Hf; [|done].
      intros [= <- <-]. destruct (IH _ _ eq_refl) as (-> & Hnot & rest & ->).
      split; [done|]. split; [|eauto].
      rewrite elem_of_cons. intros [?|?]; [congruence|done].
Qed.

Lemma find_chain_is_Some c l :
  c ∈ l -> is_Some (DoublyLinkedList.find_chain c l).
Proof.
  induction l as [|x l IH]; simpl.
  - by intros ?%elem_of_nil.
  - destruct (decide (x = c)); [by eauto|].
    intros [?|Hin]%elem_of_cons; [congruence|].
    destruct (IH Hin) as [[b ch] ->]. eauto.
Qed.

Lemma foldl_insert_lookup (v : Z) (chain : list Color) (m : gmap Color Z) x :
  foldl (fun m c => <[c := v]> m) m chain !! x =
  if decide (x ∈ chain) then Some v else m !! x.
Proof.
  revert m. induction chain as [|c chain IH]; intros m; cbn [foldl].
  - rewrite decide_False; [done|apply not_elem_of_nil].
  - rewrite IH. destruct (decide (x ∈ chain)) as [Hin|Hnin].
    + rewrite decide_True; [done|by right].
    + destruct (decide (x = c)) as [->|Hne].
      * rewrite lookup_insert_eq. rewrite decide_True; [done|left].
      * rewrite lookup_insert_ne by done.
        rewrite decide_False; [done|].
        rewrite elem_of_cons. intros [?|?]; done.
Qed.

(** What a spot of the board holds after [move_chain]. *)
Lemma move_chain_lookup forward ip q below chain g i s' :
  ip <> q ->
  spots (move_chain forward ip q below chain g) !! i = Some s' ->
  exists s, spots g !! i = Some s /\
    s_movement_card s' = s_movement_card s /\
    s_position s' = s_position s /\
    s_camels s' =
      if decide (i = q) then
        (if forward then s_camels s ++ chain else chain ++ s_camels s)
      else if decide (i = ip) then below
      else s_camels s.
Proof.
  intros Hne. unfold move_chain. simpl.
  destruct (decide (i = q)) as [->|Hq].
  - rewrite list_lookup_alter_eq, list_lookup_alter_ne by done.
    destruct (spots g !! q) as [s|]; [|done]. simpl. intros [= <-].
    exists s. by destruct forward.
  - rewrite list_lookup_alter_ne by done.
    destruct (decide (i = ip)) as [->|Hp].
    + rewrite list_lookup_alter_eq.
      destruct (spots g !! ip) as [s|]; [|done]. simpl. intros [= <-].
      by exists s.
    + rewrite list_lookup_alter_ne by done. intros Hs. by exists s'.
Qed.

Lemma move_chain_lookup_Some forward ip q below chain g i s :
  ip <> q ->
  spots g !! i = Some s ->
  exists s', spots (move_chain forward ip q below chain g) !! i = Some s' /\
    s_camels s' =
      if decide (i = q) then
        (if forward then s_camels s ++ chain else chain ++ s_camels s)
      else if decide (i = ip) then below
      else s_camels s.
Proof.
  intros Hne Hs.
  destruct (spots (move_chain forward ip q below chain g) !! i) as [s'|] eqn:E.
  - exists s'. split; [done|].
    destruct (move_chain_lookup _ _ _ _ _ _ _ _ Hne E) as (s0 & Hs0 & _ & _ & ->).
    by simplify_eq.
  - apply lookup_ge_None in E. apply lookup_lt_Some in Hs.
    unfold move_chain in E. simpl in E. rewrite !length_alter in E. lia.
Qed.

Lemma move_chain_inv forward ip q sp below chain g :
  game_inv g ->
  spots g !! ip = Some sp -> s_camels sp = below ++ chain ->
  ip <> q -> (q < 16)%nat ->
  game_inv (move_chain forward ip q below chain g).
Proof.
  intros Hinv Hsp Hstack Hne Hq.
  assert (Hchain_pos : forall x, x ∈ chain -> camels g !! x = Some (Z.of_nat ip)).
  { intros x Hx. eapply inv_pos; [done..|]. rewrite Hstack, elem_of_app. auto. }
  assert (Hnodup : NoDup (below ++ chain)).
  { rewrite <- Hstack. by eapply inv_stack. }
  apply NoDup_app in Hnodup as (Hnd_below & Hdisj & Hnd_chain).
  split.
  - unfold move_chain. simpl. rewrite !length_alter. by apply inv_length.
  - intros c. destruct (inv_present g Hinv c) as (i & s & Hs & Hc).
    destruct (decide (c ∈ chain)) as [Hin|Hnin].
    + assert (is_Some (spots g !! q)) as [sq Hsq].
      { apply lookup_lt_is_Some. rewrite (inv_length g Hinv). lia. }
      destruct (move_chain_lookup_Some forward ip q below chain g q sq Hne Hsq)
        as (s' & Hs' & Hcam).
      exists q, s'. split; [done|]. rewrite Hcam, decide_True by done.
      destruct forward; rewrite elem_of_app; auto.
    + destruct (move_chain_lookup_Some forward ip q below chain g i s Hne Hs)
        as (s' & Hs' & Hcam).
      exists i, s'. split; [done|]. rewrite Hcam.
      destruct (decide (i = q)).
      { destruct forward; rewrite elem_of_app; auto. }
      destruct (decide (i = ip)) as [->|]; [|done].
      simplify_eq. rewrite Hstack, elem_of_app in Hc. by destruct Hc.
  - intros i s' Hs'.
    destruct (move_chain_lookup _ _ _ _ _ _ _ _ Hne Hs') as (s & Hs & _ & _ & ->).
    assert (Hs_nd := inv_stack g Hinv i s Hs).
    destruct (decide (i = q)) as [->|].
    + assert (forall x, x ∈ s_camels s -> x ∉ chain) as Hd.
      { intros x Hx Hx'. apply Hchain_pos in Hx'.
        rewrite (inv_pos g Hinv q s x Hs Hx) in Hx'. simplify_eq; lia. }
      destruct forward; apply NoDup_app; split_and!; try done.
      intros x Hx Hx'. by apply (Hd x).
    + by destruct (decide (i = ip)).
  - intros i s' c Hs' Hc.
    destruct (move_chain_lookup _ _ _ _ _ _ _ _ Hne Hs') as (s & Hs & _ & _ & Hcam).
    rewrite Hcam in Hc. unfold move_chain. simpl. rewrite foldl_insert_lookup.
    destruct (decide (i = q)) as [->|Hiq].
    + destruct (decide (c ∈ chain)); [done|].
      eapply inv_pos; [done..|].
      destruct forward; rewrite elem_of_app in Hc; by destruct Hc.
    + destruct (decide (i = ip)) as [->|Hip].
      * rewrite decide_False by (by apply Hdisj).
        eapply inv_pos; [done..|]. simplify_eq.
        rewrite Hstack, elem_of_app. auto.
      * rewrite decide_False.
        { by eapply inv_pos. }
        intros Hx%Hchain_pos. rewrite (inv_pos g Hinv i s c Hs Hc) in Hx.
        simplify_eq; lia.
  - intros i s' card Hs' Hcard.
    destruct (move_chain_lookup _ _ _ _ _ _ _ _ Hne Hs') as (s & Hs & Hmc & _ & _).
    rewrite Hmc in Hcard.
    destruct (inv_cards g Hinv i s card Hs Hcard) as (Hi & Hteam & Hnext).
    split_and!; [done..|].
    intros s2' Hs2'.
    destruct (move_chain_lookup _ _ _ _ _ _ _ _ Hne Hs2') as (s2 & Hs2 & -> & _ & _).
    by apply Hnext.
  - apply (inv_teams g Hinv).
  - apply (inv_active g Hinv).
  - apply (inv_winner_cards g Hinv).
  - apply (inv_loser_cards g Hinv).
Qed.

(** ** The camels on the board *)

Lemma elem_of_board g c :
  c ∈ board g <-> exists i s, spots g !! i = Some s /\ c ∈ s_camels s.
Proof.
  unfold board. rewrite list_elem_of_In, in_concat. split.
  - intros (l & Hl & Hc). apply in_map_iff in Hl as (s & <- & Hs).
    apply list_elem_of_In, list_elem_of_lookup in Hs as [i Hi].
    exists i, s. by rewrite list_elem_of_In.
  - intros (i & s & Hs & Hc). exists (s_camels s). split.
    + apply in_map. apply list_elem_of_In. by eapply list_elem_of_lookup_2.
    + by apply list_elem_of_In.
Qed.

Lemma NoDup_concat_lookup {A} (ls : list (list A)) :
  (forall i l, ls !! i = Some l -> NoDup l) ->
  (forall i j l1 l2 x,
     ls !! i = Some l1 -> ls !! j = Some l2 -> x ∈ l1 -> x ∈ l2 -> i = j) ->
  NoDup (concat ls).
Proof.
  induction ls as [|l ls IH]; intros Hnd Hdisj; simpl.
  - constructor.
  - apply NoDup_app. split_and!.
    + by apply (Hnd 0%nat).
    + intros x Hx Hx'. apply list_elem_of_In, in_concat in Hx' as (l2 & Hl2 & Hx2).
      apply list_elem_of_In, list_elem_of_lookup in Hl2 as [j Hj].
      apply list_elem_of_In in Hx2.
      by specialize (Hdisj 0%nat (S j) l l2 x eq_refl Hj Hx Hx2).
    + apply IH.
      * intros i l'. apply (Hnd (S i)).
      * intros i j l1 l2 x H1 H2 Hx1 Hx2.
        by specialize (Hdisj (S i) (S j) l1 l2 x H1 H2 Hx1 Hx2) as [= ->].
Qed.

Lemma NoDup_Color_all : NoDup Color.all.
Proof. compute_done. Qed.

Lemma elem_of_Color_all (c : Color) : c ∈ Color.all.
Proof. destruct c; compute_done. Qed.

(** Under the invariant the board holds every colour exactly once. *)
Lemma game_inv_board g : game_inv g -> board g ≡ₚ Color.all.
Proof.
  intros Hinv. apply NoDup_Permutation.
  - unfold board. apply NoDup_concat_lookup.
    + intros i l Hl. rewrite list_lookup_fmap in Hl.
      destruct (spots g !! i) as [s|] eqn:Hs; [|done].
      simpl in Hl. injection Hl as <-. by eapply inv_stack.
    + intros i j l1 l2 x H1 H2 Hx1 Hx2. rewrite list_lookup_fmap in H1, H2.
      destruct (spots g !! i) as [s1|] eqn:Hs1; [|done].
      destruct (spots g !! j) as [s2|] eqn:Hs2; [|done].
      simpl in H1, H2. injection H1 as <-. injection H2 as <-.
      assert (Hp1 := inv_pos g Hinv i s1 x Hs1 Hx1).
      assert (Hp2 := inv_pos g Hinv j s2 x Hs2 Hx2).
      rewrite Hp1 in Hp2. injection Hp2 as Hp2. lia.
  - apply NoDup_Color_all.
  - intros c. split; [intros _; apply elem_of_Color_all|].
    intros _. apply elem_of_board. by apply inv_present.
Qed.

(** ** The ranking *)

Lemma rank_stack_spec l place results :
  exists results',
    rank_stack l place results = (place + Z.of_nat (length l), results') /\
    forall c, is_Some (results' !! c) <-> is_Some (results !! c) \/ c ∈ l.
Proof.
  revert place results. induction l as [|x l IH]; intros place results; simpl.
  - exists results. split; [f_equal; lia|].
    intros c. rewrite elem_of_nil. tauto.
  - destruct (IH (place + 1) (<[x := place]> results)) as (r & -> & Hr).
    exists r. split; [f_equal; lia|].
    intros c. rewrite Hr, elem_of_cons, lookup_insert_is_Some.
    destruct (decide (x = c)); naive_solver.
Qed.

Lemma get_positions_loop_total (sp : list Spot) (i : nat) :
  forall steps place results,
    (i <= length sp)%nat -> (i < steps)%nat ->
    place + Z.of_nat (length (concat (map s_camels (take i sp)))) = 6 ->
    (forall c, is_Some (results !! c) \/ c ∈ concat (map s_camels (take i sp))) ->
    exists r,
      get_positions_loop steps sp (Z.of_nat i - 1) place results = Return r /\
      forall c, is_Some (r !! c).
Proof.
  induction i as [|i IH]; intros steps place results Hlen Hsteps Hsum Hcover.
  - simpl in Hsum, Hcover. destruct steps; [lia|]. simpl.
    rewrite decide_False by lia. exists results. split; [done|].
    intros c. destruct (Hcover c) as [?|Hc]; [done|by apply elem_of_nil in Hc].
  - destruct steps as [|steps]; [lia|].
    assert (is_Some (sp !! i)) as [spot Hspot] by (apply lookup_lt_is_Some; lia).
    rewrite (take_S_r _ _ _ Hspot), map_app, concat_app in Hsum, Hcover.
    simpl in Hsum, Hcover. rewrite app_nil_r in Hsum, Hcover.
    rewrite length_app in Hsum.
    cbn [get_positions_loop]. destruct (decide (place < 6)) as [Hlt|Hge].
    + replace (Z.of_nat (S i) - 1) with (Z.of_nat i) by lia.
      rewrite py_get_nonneg by lia. rewrite Nat2Z.id, Hspot.
      destruct (rank_stack_spec (reverse (s_camels spot)) place results)
        as (r' & -> & Hr').
      apply IH; [lia|lia| |].
      * rewrite length_reverse. lia.
      * intros c. rewrite Hr', elem_of_reverse.
        destruct (Hcover c) as [?|Hc]; [by auto|].
        apply elem_of_app in Hc. tauto.
    + exists results. split; [done|].
      intros c. destruct (Hcover c) as [?|Hc]; [done|].
      assert (length (concat (map s_camels (take i sp)) ++ s_camels spot) = 0%nat)
        as Hnil by (rewrite length_app; lia).
      apply nil_length_inv in Hnil. rewrite Hnil in Hc.
      by apply elem_of_nil in Hc.
Qed.

(** [get_positions] ranks every colour. *)
Lemma get_positions_total g :
  game_inv g ->
  exists positions,
    get_positions g = Return positions /\ forall c, is_Some (positions !! c).
Proof.
  intros Hinv. unfold get_positions.
  assert (Hlen := inv_length g Hinv).
  assert (Hperm := game_inv_board g Hinv). unfold board in Hperm.
  replace 15 with (Z.of_nat 16 - 1) by done.
  apply get_positions_loop_total.
  - lia.
  - lia.
  - rewrite firstn_all2 by lia. rewrite Hperm. done.
  - intros c. right. rewrite firstn_all2 by lia. rewrite Hperm.
    apply elem_of_Color_all.
Qed.

(** ** Team records *)

(** A property of the game that does not depend on what the records of
    the teams hold. *)
Definition teams_insensitive (I : Game -> Prop) : Prop :=
  forall g name t,
    is_Some (teams g !! name) -> I g ->
    I (set_teams (<[name := t]> (teams g)) g).

(** [g] is [g1] with other records for the same teams. *)
Definition same_but_teams (g1 g : Game) : Prop :=
  exists ts, dom ts = dom (teams g1) /\ g = set_teams ts g1.

Lemma same_but_teams_refl g : same_but_teams g g.
Proof. exists (teams g). split; [done|]. by destruct g. Qed.

Lemma same_but_teams_insensitive g1 : teams_insensitive (same_but_teams g1).
Proof.
  intros g name t Hsome (ts & Hdom & ->). simpl in *.
  exists (<[name := t]> ts). split; [|done].
  rewrite dom_insert_L, <- Hdom. apply elem_of_dom in Hsome. set_solver.
Qed.

Lemma same_but_teams_lookup g1 g name :
  same_but_teams g1 g -> is_Some (teams g1 !! name) ->
  is_Some (teams g !! name).
Proof.
  intros (ts & Hdom & ->) Hsome. simpl.
  apply elem_of_dom. rewrite Hdom. by apply elem_of_dom.
Qed.

Lemma get_team_triple (I : Game -> Prop) name E :
  (forall g, I g -> teams g !! name = None -> E KeyError g) ->
  triple I (get_team name) (fun t g => I g /\ teams g !! name = Some t) E.
Proof.
  intros HE g Hg. unfold get_team.
  destruct (teams g !! name) eqn:Ht; simpl; auto.
Qed.

Lemma modify_team_triple (I : Game -> Prop) name f E :
  teams_insensitive I ->
  (forall g, I g -> teams g !! name = None -> E KeyError g) ->
  triple I (modify_team name f) (fun _ => I) E.
Proof.
  intros HI HE g Hg. unfold modify_team, bind, get_team.
  destruct (teams g !! name) eqn:Ht; simpl.
  - apply HI; [by rewrite Ht|done].
  - by apply HE.
Qed.

Lemma add_coins_triple (I : Game -> Prop) name v E :
  teams_insensitive I ->
  (forall g, I g -> teams g !! name = None -> E KeyError g) ->
  triple I (add_coins name v) (fun _ => I) E.
Proof. apply modify_team_triple. Qed.

Lemma elem_of_team_names g name :
  name ∈ team_names g <-> is_Some (teams g !! name).
Proof.
  unfold team_names. rewrite list_elem_of_filter. split; [tauto|].
  intros H. split; [done|]. destruct name; compute_done.
Qed.

(** ** End of a leg *)

(** The state after [finish_leg], up to the records [ts] of the teams. *)
Definition finish_leg_state (ts : gmap TeamName Team) (g : Game) : Game :=
  set_spots (map (set_s_movement_card None) (spots g))
    (set_leg_bet_cards generate_initial_leg_bet_cards
       (set_teams ts (set_die_remaining all_dice g))).

(** The loops of [finish_leg] and [finish_game] keep a property [I] that
    does not depend on the team records; they raise [KeyError] only for a
    colour without a rank or a team that does not play. *)
Section team_loops.
Context (I : Game -> Prop) (E : Exn -> Game -> Prop).
Context (HI : teams_insensitive I).
Context (positions : gmap Color Z).
Context (Hpos : forall c g, I g -> positions !! c = None -> E KeyError g).

Lemma settle_leg_triple (names : list TeamName) :
  (forall name g, name ∈ names -> I g -> teams g !! name = None ->
                  E KeyError g) ->
  triple I
    (for_each names (fun name =>
       let! team := get_team name in
       for_each (t_leg_bet_cards team) (fun card =>
         let! place := of_option KeyError (positions !! lb_color card) in
         add_coins name (get_payoff card place)) >>
       modify_team name (set_t_leg_bet_cards [])))
    (fun _ => I) E.
Proof.
  intros Hteam. apply triple_for_each. intros name Hname.
  eapply triple_bind.
  { apply get_team_triple. intros g Hg. by apply Hteam. }
  intros team. eapply triple_bind.
  { apply triple_weaken with (P' := I); [|by intros ? []].
    apply triple_for_each. intros card _.
    eapply triple_bind.
    - apply triple_of_option with (Q := fun _ => I); [done|].
      intros g Hnone Hg. by eapply Hpos.
    - intros place. apply add_coins_triple; [done|].
      intros g Hg. by apply Hteam. }
  intros ?. apply modify_team_triple; [done|].
  intros g Hg. by apply Hteam.
Qed.

Lemma reset_flags_triple (names : list TeamName) :
  (forall name g, name ∈ names -> I g -> teams g !! name = None ->
                  E KeyError g) ->
  triple I
    (for_each names (fun name =>
       modify_team name (set_t_placed_movement_card false)))
    (fun _ => I) E.
Proof.
  intros Hteam. apply triple_for_each. intros name Hname.
  apply modify_team_triple; [done|]. intros g Hg. by apply Hteam.
Qed.

Lemma settle_overall_triple target cards index :
  (forall card g, card ∈ cards -> I g -> teams g !! ob_team card = None ->
                  E KeyError g) ->
  triple I (settle_overall positions target cards index) (fun _ => I) E.
Proof.
  revert index. induction cards as [|card cards IH]; intros index Hteam;
    cbn [settle_overall].
  - by apply triple_ret.
  - assert (forall index,
      triple I (settle_overall positions target cards index) (fun _ => I) E)
      as IH'.
    { intros i. apply IH. intros c g Hc. apply Hteam. by right. }
    assert (forall v, triple I (add_coins (ob_team card) v) (fun _ => I) E)
      as Hadd.
    { intros v. apply add_coins_triple; [done|].
      intros g Hg. apply Hteam; [left|done]. }
    eapply triple_bind.
    { apply triple_of_option with (Q := fun _ => I); [done|].
      intros g Hnone Hg. by eapply Hpos. }
    intros place. destruct (decide (place = target)).
    + destruct (decide _); [|apply IH'].
      eapply triple_bind; [apply Hadd|intros ?; apply IH'].
    + eapply triple_bind; [apply Hadd|intros ?; apply IH'].
Qed.

End team_loops.

Lemma triple_run {S A} (P : S -> Prop) (m : ST S A) (Q : A -> S -> Prop) s :
  triple P m Q no_exn -> P s -> exists s' a, m s = (s', Return a) /\ Q a s'.
Proof.
  intros Hm Hs. specialize (Hm s Hs).
  destruct (m s) as [s' [a|e]]; [eauto|done].
Qed.

(** The invariant looks at the team records only through the set of the
    teams that play. *)
Lemma game_inv_set_teams ts g :
  game_inv g -> dom ts = dom (teams g) -> game_inv (set_teams ts g).
Proof.
  intros [Hlen Hpres Hstack Hpos Hcards Hteams Hact Hwin Hlose] Hdom.
  assert (forall t, is_Some (teams g !! t) -> is_Some (ts !! t)) as Hsome.
  { intros t Ht. apply elem_of_dom. rewrite Hdom. by apply elem_of_dom. }
  split; simpl; try done.
  - intros i s card Hs Hcard.
    destruct (Hcards i s card Hs Hcard) as (? & ? & ?). auto.
  - destruct Hteams as (n & ? & ?). exists n. split; [done|congruence].
  - auto.
  - eapply Forall_impl; [done|]. simpl. auto.
  - eapply Forall_impl; [done|]. simpl. auto.
Qed.

Lemma game_inv_teams_insensitive : teams_insensitive game_inv.
Proof.
  intros g name t Hsome Hinv. apply game_inv_set_teams; [done|].
  rewrite dom_insert_L. apply elem_of_dom in Hsome. set_solver.
Qed.

Lemma game_inv_set_die_remaining v g :
  game_inv g -> game_inv (set_die_remaining v g).
Proof. intros []. by split. Qed.

Lemma game_inv_set_leg_bet_cards v g :
  game_inv g -> game_inv (set_leg_bet_cards v g).
Proof. intros []. by split. Qed.

Lemma game_inv_set_winners v g : game_inv g -> game_inv (set_winners v g).
Proof. intros []. by split. Qed.

Lemma game_inv_set_playing v g : game_inv g -> game_inv (set_playing v g).
Proof. intros []. by split. Qed.

Lemma game_inv_set_active_team v g :
  game_inv g -> is_Some (teams g !! v) -> game_inv (set_active_team v g).
Proof. intros [] ?. by split. Qed.

Lemma game_inv_clear_cards g :
  game_inv g ->
  game_inv (set_spots (map (set_s_movement_card None) (spots g)) g).
Proof.
  intros [Hlen Hpres Hstack Hpos Hcards Hteams Hact Hwin Hlose].
  assert (forall i s',
    map (set_s_movement_card None) (spots g) !! i = Some s' ->
    exists s, spots g !! i = Some s /\ s_camels s' = s_camels s /\
              s_movement_card s' = None) as Hlook.
  { intros i s'. change (map ?f ?l) with (f <$> l). rewrite list_lookup_fmap.
    destruct (spots g !! i) as [s|]; [|done]. simpl. intros [= <-]. eauto. }
  split; simpl; try done.
  - by rewrite length_map.
  - intros c. destruct (Hpres c) as (i & s & Hs & Hc).
    exists i, (set_s_movement_card None s). split; [|done].
    change (map ?f ?l) with (f <$> l). by rewrite list_lookup_fmap, Hs.
  - intros i s' (s & Hs & -> & _)%Hlook. eauto.
  - intros i s' c (s & Hs & -> & _)%Hlook. eauto.
  - intros i s' card (s & Hs & _ & Hnone)%Hlook. congruence.
Qed.

Lemma game_inv_finish_leg_state ts g :
  game_inv g -> dom ts = dom (teams g) -> game_inv (finish_leg_state ts g).
Proof.
  intros Hinv Hdom. unfold finish_leg_state.
  apply (game_inv_clear_cards
           (set_leg_bet_cards _ (set_teams ts (set_die_remaining _ g)))).
  apply game_inv_set_leg_bet_cards, game_inv_set_teams; [|done].
  by apply game_inv_set_die_remaining.
Qed.

(** Under the invariant [finish_leg] returns: it resets the dice, the
    leg-bet cards and the movement cards and changes nothing else but the
    records of the teams. *)
Lemma finish_leg_spec g :
  game_inv g ->
  exists ts, dom ts = dom (teams g) /\
             finish_leg g = (finish_leg_state ts g, Return tt).
Proof.
  intros Hinv. unfold finish_leg.
  set (g1 := set_die_remaining all_dice g).
  assert (game_inv g1) as Hinv1 by by apply game_inv_set_die_remaining.
  destruct (get_positions_total g1 Hinv1) as (positions & Hpos & Htotal).
  assert (forall c (g' : Game), same_but_teams g1 g' ->
            positions !! c = None -> @no_exn Game KeyError g') as Hpos_ok.
  { intros c g' _ Hnone. destruct (Htotal c) as [? ?]. congruence. }
  assert (forall name (g' : Game), name ∈ team_names g1 ->
            same_but_teams g1 g' -> teams g' !! name = None ->
            @no_exn Game KeyError g') as Hteam_ok.
  { intros name g' Hname%elem_of_team_names Hsame Hnone.
    destruct (same_but_teams_lookup _ _ _ Hsame Hname). congruence. }
  destruct (triple_run _ _ _ g1
              (settle_leg_triple (same_but_teams g1) no_exn
                 (same_but_teams_insensitive g1) positions Hpos_ok
                 (team_names g1) Hteam_ok)
              (same_but_teams_refl g1)) as (g2 & [] & Hrun2 & (ts2 & Hdom2 & Hg2)).
  set (g3 := set_leg_bet_cards generate_initial_leg_bet_cards g2).
  assert (same_but_teams
            (set_leg_bet_cards generate_initial_leg_bet_cards g1) g3) as Hsame3.
  { exists ts2. split; [done|]. unfold g3. by rewrite Hg2. }
  assert (forall name (g' : Game), name ∈ team_names g1 ->
            same_but_teams
              (set_leg_bet_cards generate_initial_leg_bet_cards g1) g' ->
            teams g' !! name = None -> @no_exn Game KeyError g') as Hteam_ok'.
  { intros name g' Hname%elem_of_team_names Hsame Hnone.
    destruct (same_but_teams_lookup _ _ name Hsame) as [? ?]; [done|congruence]. }
  destruct (triple_run _ _ _ g3
              (reset_flags_triple (same_but_teams _) no_exn
                 (same_but_teams_insensitive _) (team_names g1) Hteam_ok')
              Hsame3) as (g4 & [] & Hrun4 & (ts4 & Hdom4 & Hg4)).
  exists ts4. split; [done|].
  unfold bind at 1. unfold modify at 1. fold g1.
  unfold bind at 1. unfold lift at 1. rewrite Hpos.
  unfold bind at 1. unfold gets at 1.
  unfold bind at 1. rewrite Hrun2.
  unfold bind at 1. unfold modify at 1. fold g3.
  unfold bind at 1. rewrite Hrun4.
  unfold modify. rewrite Hg4. done.
Qed.

(** ** End of the game *)

Lemma team_values_nonempty g name :
  is_Some (teams g !! name) -> team_values g <> [].
Proof.
  intros [t Ht] Hnil.
  assert (t ∈ team_values g) as Hin.
  { unfold team_values. apply list_elem_of_omap. exists name. split; [|done].
    destruct name; compute_done. }
  rewrite Hnil in Hin. by apply elem_of_nil in Hin.
Qed.

(** Under the invariant [finish_game] returns: the state is the one after
    [finish_leg] up to the records of the teams, with the winners set and
    the game marked as finished. *)
Lemma finish_game_spec g :
  game_inv g ->
  exists ts w, dom ts = dom (teams g) /\
    finish_game g =
      (set_playing false (set_winners (Some w) (finish_leg_state ts g)),
       Return tt).
Proof.
  intros Hinv. unfold finish_game.
  destruct (finish_leg_spec g Hinv) as (ts1 & Hdom1 & Hleg).
  set (g1 := finish_leg_state ts1 g) in *.
  assert (game_inv g1) as Hinv1 by by apply game_inv_finish_leg_state.
  destruct (get_positions_total g1 Hinv1) as (positions & Hpos & Htotal).
  assert (forall c (g' : Game), same_but_teams g1 g' ->
            positions !! c = None -> @no_exn Game KeyError g') as Hpos_ok.
  { intros c g' _ Hnone. destruct (Htotal c) as [? ?]. congruence. }
  assert (forall cards,
            Forall (fun card => is_Some (teams g1 !! ob_team card)) cards ->
            forall card (g' : Game), card ∈ cards ->
              same_but_teams g1 g' -> teams g' !! ob_team card = None ->
              @no_exn Game KeyError g') as Hteam_ok.
  { intros cards Hall card g' Hcard Hsame Hnone.
    rewrite Forall_forall in Hall.
    destruct (same_but_teams_lookup _ _ _ Hsame (Hall card Hcard)). congruence. }
  destruct (triple_run _ _ _ g1
              (settle_overall_triple (same_but_teams g1) no_exn
                 (same_but_teams_insensitive g1) positions Hpos_ok 1
                 (overall_winner_cards g1) 0
                 (Hteam_ok _ (inv_winner_cards g1 Hinv1)))
              (same_but_teams_refl g1))
    as (g2 & [] & Hrun2 & Hsame2).
  assert (overall_loser_cards g2 = overall_loser_cards g1) as Hlosers.
  { destruct Hsame2 as (? & _ & ->). done. }
  destruct (triple_run _ _ _ g2
              (settle_overall_triple (same_but_teams g1) no_exn
                 (same_but_teams_insensitive g1) positions Hpos_ok 5
                 (overall_loser_cards g1) 0
                 (Hteam_ok _ (inv_loser_cards g1 Hinv1)))
              Hsame2)
    as (g3 & [] & Hrun3 & Hsame3).
  assert (is_Some (py_max (map t_coins (team_values g3)))) as [max_coins Hmax].
  { assert (team_values g3 <> []) as Hne.
    { apply (team_values_nonempty g3 (active_team g1)).
      apply (same_but_teams_lookup g1 g3); [done|]. by apply inv_active. }
    destruct (team_values g3); [done|]. simpl. eauto. }
  destruct Hsame3 as (ts3 & Hdom3 & Hg3).
  exists ts3. eexists. split; [by rewrite Hdom3|].
  unfold bind at 1. rewrite Hleg.
  unfold bind at 1. unfold lift at 1. rewrite Hpos.
  unfold bind at 1. unfold gets at 1.
  unfold bind at 1. rewrite Hrun2.
  unfold bind at 1. unfold gets at 1. rewrite Hlosers.
  unfold bind at 1. rewrite Hrun3.
  unfold bind at 1. unfold gets at 1.
  unfold bind at 1. rewrite Hmax. unfold of_option, ret.
  unfold bind, modify. rewrite Hg3. done.
Qed.

Lemma game_inv_finish_game_state ts w g :
  game_inv g -> dom ts = dom (teams g) ->
  game_inv (set_playing false (set_winners (Some w) (finish_leg_state ts g))).
Proof.
  intros Hinv Hdom.
  by apply game_inv_set_playing, game_inv_set_winners,
    game_inv_finish_leg_state.
Qed.

(** Whatever the state, [finish_leg] and [finish_game] leave the camels
    where they are, and when they return all the dice are back. *)
Lemma finish_leg_camels_dice (g0 : Game) :
  triple (fun g => camels g = camels g0 /\ spots g = spots g0) finish_leg
    (fun _ g => camels g = camels g0 /\
                map s_camels (spots g) = map s_camels (spots g0) /\
                die_remaining g = all_dice)
    (fun _ _ => True).
Proof.
  set (J := fun g : Game =>
              camels g = camels g0 /\ spots g = spots g0 /\
              die_remaining g = all_dice).
  assert (teams_insensitive J) as HJ by (by intros g name t _ (? & ? & ?)).
  unfold finish_leg.
  eapply triple_bind with (R := fun _ => J).
  { apply triple_modify. by intros g [? ?]. }
  intros _. eapply triple_bind with (R := fun _ => J).
  { intros g Hg. unfold lift. by destruct (get_positions g). }
  intros positions. eapply triple_bind with (R := fun _ => J).
  { by apply triple_gets. }
  intros names. eapply triple_bind with (R := fun _ => J).
  { by apply settle_leg_triple. }
  intros _. eapply triple_bind with (R := fun _ => J).
  { apply triple_modify. by intros g (? & ? & ?). }
  intros _. eapply triple_bind with (R := fun _ => J).
  { by apply reset_flags_triple. }
  intros _. apply triple_modify. intros g (? & Hsp & ?). simpl.
  split_and!; [done| |done].
  rewrite map_map. simpl. by rewrite Hsp.
Qed.

Lemma finish_game_camels_dice (g0 : Game) :
  triple (fun g => camels g = camels g0 /\ spots g = spots g0) finish_game
    (fun _ g => camels g = camels g0 /\
                map s_camels (spots g) = map s_camels (spots g0) /\
                die_remaining g = all_dice)
    (fun _ _ => True).
Proof.
  set (J := fun g : Game =>
              camels g = camels g0 /\
              map s_camels (spots g) = map s_camels (spots g0) /\
              die_remaining g = all_dice).
  assert (teams_insensitive J) as HJ by (by intros g name t _ (? & ? & ?)).
  unfold finish_game.
  eapply triple_bind with (R := fun _ => J).
  { apply finish_leg_camels_dice. }
  intros _. eapply triple_bind with (R := fun _ => J).
  { intros g Hg. unfold lift. by destruct (get_positions g). }
  intros positions. eapply triple_bind with (R := fun _ => J).
  { by apply triple_gets. }
  intros winner_cards. eapply triple_bind with (R := fun _ => J).
  { by apply settle_overall_triple. }
  intros _. eapply triple_bind with (R := fun _ => J).
  { by apply triple_gets. }
  intros loser_cards. eapply triple_bind with (R := fun _ => J).
  { by apply settle_overall_triple. }
  intros _. eapply triple_bind with (R := fun _ => J).
  { by apply triple_gets. }
  intros values. eapply triple_bind with (R := fun _ => J).
  { by apply triple_of_option. }
  intros max_coins. eapply triple_bind with (R := fun _ => J).
  { apply triple_modify. by intros g (? & ? & ?). }
  intros _. apply triple_modify. by intros g (? & ? & ?).
Qed.

(** ** One move *)

(** Under the invariant the walk of [move_camel] finds the camel on the
    spot that its [pos] names. *)
Lemma locate_camel g c :
  game_inv g ->
  exists ip sp below chain,
    (ip < 16)%nat /\ camels g !! c = Some (Z.of_nat ip) /\
    spots g !! ip = Some sp /\
    DoublyLinkedList.find_chain c (s_camels sp) = Some (below, chain) /\
    s_camels sp = below ++ chain.
Proof.
  intros Hinv. destruct (inv_present g Hinv c) as (ip & sp & Hsp & Hc).
  destruct (find_chain_is_Some c _ Hc) as [[below chain] Hfind].
  exists ip, sp, below, chain. split_and!; try done.
  - apply lookup_lt_Some in Hsp. by rewrite (inv_length g Hinv) in Hsp.
  - by eapply inv_pos.
  - by apply find_chain_spec in Hfind as (? & _).
Qed.

(** The card that a camel finds on spot [q]. *)
Definition card_at (g : Game) (q : nat) : option MovementCard :=
  match spots g !! q with
  | Some s => s_movement_card s
  | None => None
  end.

(** What [move_camel] does after a move that stays on the board: it pays
    the owner of the card on the spot, if there is one, and moves the
    camel once more. *)
Definition cascade (fuel : nat) (color : Color) (card : option MovementCard)
  : M unit :=
  match card with
  | None => ret tt
  | Some movement_card =>
      add_coins (mc_team movement_card) 1 >>
      move_camel fuel color (if mc_forward movement_card then 1 else -1)
  end.

Section move_camel_equations.
Context (g : Game) (c : Color) (ip : nat) (sp : Spot).
Context (below chain : list Color).
Context (Hlen : length (spots g) = 16%nat).
Context (Hpos : camels g !! c = Some (Z.of_nat ip)).
Context (Hsp : spots g !! ip = Some sp).
Context (Hfind :
  DoublyLinkedList.find_chain c (s_camels sp) = Some (below, chain)).

(** A move past the last spot. *)
Lemma move_camel_overflow fuel n :
  n > 0 -> Z.of_nat ip + n > BOARD_SPOTS ->
  move_camel (S fuel) c n g =
  (move_camel fuel c (BOARD_SPOTS - Z.of_nat ip) >> finish_game) g.
Proof.
  intros Hn Hover. cbn [move_camel].
  rewrite decide_False by lia.
  unfold bind at 1. rewrite Hpos. cbn [of_option ret].
  unfold bind at 1. unfold get_spot. rewrite py_get_nonneg by lia.
  rewrite Nat2Z.id, Hsp. cbn [of_option ret].
  unfold bind at 1. rewrite Hfind. cbn [of_option ret].
  rewrite decide_True by done. rewrite decide_True by done. done.
Qed.

(** A move that stays on the board. *)
Lemma move_camel_land fuel n :
  n <> 0 -> 0 <= Z.of_nat ip + n <= BOARD_SPOTS ->
  let q := Z.to_nat (Z.of_nat ip + n) in
  move_camel (S fuel) c n g =
  cascade fuel c (card_at g q)
    (move_chain (bool_decide (n > 0)) ip q below chain g).
Proof.
  intros Hn Hrange q. unfold BOARD_SPOTS in Hrange.
  assert (ip < 16)%nat as Hip by (apply lookup_lt_Some in Hsp; lia).
  assert (q < 16)%nat as Hq by lia.
  assert (ip <> q) as Hne by lia.
  cbn [move_camel].
  rewrite decide_False by lia.
  unfold bind at 1. rewrite Hpos. cbn [of_option ret].
  unfold bind at 1. unfold get_spot at 1. rewrite py_get_nonneg by lia.
  rewrite Nat2Z.id, Hsp. cbn [of_option ret].
  unfold bind at 1. rewrite Hfind. cbn [of_option ret].
  assert (forall forward,
    (update_camel_positions chain (Z.of_nat ip + n) >>
     modify_spot (Z.of_nat ip)
       (set_s_camels (DoublyLinkedList.remove_chain below)) >>
     modify_spot (Z.of_nat ip + n) (fun s =>
       set_s_camels
         (if forward : bool
          then DoublyLinkedList.insert_chain_tail (s_camels s) chain
          else DoublyLinkedList.insert_chain_head (s_camels s) chain) s) >>
     (let! landed := get_spot (Z.of_nat ip + n) in
      cascade fuel c (s_movement_card landed))) g =
    cascade fuel c (card_at g q) (move_chain forward ip q below chain g))
    as Hsteps.
  { intros forward.
    unfold bind at 1. unfold update_camel_positions, modify at 1.
    unfold bind at 1. unfold modify_spot at 1. cbn [spots set_camels].
    rewrite Hlen, py_norm_nonneg by lia. rewrite Nat2Z.id.
    unfold bind at 1. unfold modify_spot at 1. cbn [spots set_spots].
    rewrite length_alter, Hlen, py_norm_nonneg by lia. fold q.
    replace (Z.of_nat ip + n) with (Z.of_nat q) by lia.
    unfold bind at 1. unfold get_spot. rewrite py_get_nonneg by lia.
    rewrite Nat2Z.id. cbn [spots set_spots].
    rewrite list_lookup_alter_eq, list_lookup_alter_ne by done.
    unfold card_at.
    assert (is_Some (spots g !! q)) as [sq Hsq]
      by (apply lookup_lt_is_Some; lia).
    rewrite Hsq. cbn [fmap option_fmap option_map of_option ret].
    unfold move_chain. by destruct forward. }
  destruct (decide (n > 0)) as [Hpos_n|Hneg_n].
  - rewrite decide_False by (unfold BOARD_SPOTS; lia).
    rewrite bool_decide_eq_true_2 by done. apply (Hsteps true).
  - rewrite bool_decide_eq_false_2 by done. apply (Hsteps false).
Qed.

End move_camel_equations.

Lemma move_camel_zero fuel c g : move_camel (S fuel) c 0 g = (g, Return tt).
Proof. done. Qed.

Lemma add_coins_Some name v g t :
  teams g !! name = Some t ->
  add_coins name v g =
  (set_teams (<[name := set_t_coins (t_coins t + v) t]> (teams g)) g, Return tt).
Proof.
  intros Ht. unfold add_coins, modify_team, bind, get_team. by rewrite Ht.
Qed.

Lemma card_at_move_chain forward ip q below chain g i :
  ip <> q ->
  card_at (move_chain forward ip q below chain g) i = card_at g i.
Proof.
  intros Hne. unfold card_at.
  destruct (spots (move_chain forward ip q below chain g) !! i) as [s'|] eqn:E.
  - destruct (move_chain_lookup _ _ _ _ _ _ _ _ Hne E) as (s & -> & -> & _).
    done.
  - destruct (spots g !! i) as [s|] eqn:E'; [|done].
    destruct (move_chain_lookup_Some forward ip q below chain g i s Hne E')
      as (s' & Hs' & _). congruence.
Qed.

Lemma camels_move_chain forward ip q below chain g c rest :
  chain = c :: rest ->
  camels (move_chain forward ip q below chain g) !! c = Some (Z.of_nat q).
Proof.
  intros ->. unfold move_chain. cbn [camels set_spots set_camels].
  rewrite foldl_insert_lookup.
  destruct (decide (c ∈ c :: rest)) as [|Hnot]; [done|].
  exfalso. apply Hnot. left.
Qed.

(** Movement cards are never on neighbouring spots. *)
Lemma card_at_neighbours g q card :
  game_inv g -> card_at g q = Some card ->
  (1 <= q)%nat /\ is_Some (teams g !! mc_team card) /\
  card_at g (S q) = None /\ card_at g (q - 1) = None.
Proof.
  intros Hinv Hcard. unfold card_at in *.
  destruct (spots g !! q) as [s|] eqn:Hs; [|done].
  destruct (inv_cards g Hinv q s card Hs Hcard) as (Hq & Hteam & Hnext).
  split_and!; try done.
  - destruct (spots g !! S q) as [s'|] eqn:Hs'; [|done]. by apply Hnext.
  - destruct (spots g !! (q - 1)%nat) as [s'|] eqn:Hs'; [|done].
    destruct (s_movement_card s') as [card'|] eqn:Hcard'; [|done].
    destruct (inv_cards g Hinv _ s' card' Hs' Hcard') as (_ & _ & Hnext').
    replace (S (q - 1)) with q in Hnext' by lia.
    rewrite (Hnext' s Hs) in Hcard. done.
Qed.

(** [move_camel] keeps the invariant, whatever the recursion depth it is
    given and whether it returns or raises. *)
Lemma move_camel_inv fuel :
  forall c n g,
    game_inv g ->
    (n < 0 -> n = -1 /\ forall p, camels g !! c = Some p -> 1 <= p) ->
    game_inv (move_camel fuel c n g).1.
Proof.
  induction fuel as [|fuel IH]; intros c n g Hinv Hn; [done|].
  destruct (decide (n = 0)) as [->|Hn0]; [done|].
  destruct (locate_camel g c Hinv)
    as (ip & sp & below & chain & Hip & Hpos & Hsp & Hfind & Hstack).
  assert (Hlen := inv_length g Hinv).
  destruct (decide (n > 0 /\ Z.of_nat ip + n > BOARD_SPOTS)) as [[Hn1 Hover]|Hland].
  - rewrite (move_camel_overflow g c ip sp below chain (inv_length g Hinv) Hpos Hsp Hfind) by done.
    unfold bind.
    assert (game_inv (move_camel fuel c (BOARD_SPOTS - Z.of_nat ip) g).1) as Hinv1.
    { apply IH; [done|]. unfold BOARD_SPOTS. lia. }
    destruct (move_camel fuel c (BOARD_SPOTS - Z.of_nat ip) g) as [g1 [[]|e]];
      [|done].
    destruct (finish_game_spec g1 Hinv1) as (ts & w & Hdom & ->).
    by apply game_inv_finish_game_state.
  - assert (0 <= Z.of_nat ip + n <= BOARD_SPOTS) as Hrange.
    { unfold BOARD_SPOTS in *. destruct (decide (n < 0)) as [Hneg|]; [|lia].
      destruct (Hn Hneg) as [-> Hp]. specialize (Hp _ Hpos). lia. }
    rewrite (move_camel_land g c ip sp below chain Hlen Hpos Hsp Hfind)
      by done.
    set (q := Z.to_nat (Z.of_nat ip + n)).
    assert (ip <> q) as Hne by lia.
    assert (q < 16)%nat as Hq by (unfold BOARD_SPOTS in *; lia).
    set (g1 := move_chain (bool_decide (n > 0)) ip q below chain g).
    assert (game_inv g1) as Hinv1 by by eapply move_chain_inv.
    destruct (card_at g q) as [card|] eqn:Hcard; [|done].
    rewrite <- (card_at_move_chain (bool_decide (n > 0)) ip q below chain g q Hne)
      in Hcard. fold g1 in Hcard.
    destruct (card_at_neighbours g1 q card Hinv1 Hcard)
      as (Hq1 & [t Ht] & _ & _).
    unfold cascade, bind. rewrite (add_coins_Some _ _ _ _ Ht).
    apply IH.
    + by apply game_inv_teams_insensitive.
    + intros Hlt. split; [destruct (mc_forward card); [lia|done]|].
      intros p. cbn [camels set_teams].
      apply find_chain_spec in Hfind as (_ & _ & rest & Hchain).
      unfold g1. rewrite (camels_move_chain _ _ _ _ _ _ _ _ Hchain).
      intros [= <-]. lia.
Qed.

Lemma finish_game_returns g : game_inv g -> (finish_game g).2 = Return tt.
Proof. intros Hinv. by destruct (finish_game_spec g Hinv) as (? & ? & _ & ->). Qed.

(** A move that lands on a spot without a card. *)
Lemma move_camel_plain fuel c n g ip :
  game_inv g -> camels g !! c = Some (Z.of_nat ip) ->
  n <> 0 -> 0 <= Z.of_nat ip + n <= BOARD_SPOTS ->
  card_at g (Z.to_nat (Z.of_nat ip + n)) = None ->
  (move_camel (S fuel) c n g).2 = Return tt.
Proof.
  intros Hinv Hpos Hn Hrange Hcard.
  destruct (locate_camel g c Hinv)
    as (ip' & sp & below & chain & Hip & Hpos' & Hsp & Hfind & Hstack).
  assert (ip' = ip) as -> by (rewrite Hpos in Hpos'; injection Hpos'; lia).
  rewrite (move_camel_land g c ip sp below chain (inv_length g Hinv)
             Hpos Hsp Hfind) by done.
  by rewrite Hcard.
Qed.

(** The second move of a camel that stands on a card. *)
Lemma move_camel_from_card fuel c g q card :
  game_inv g -> camels g !! c = Some (Z.of_nat q) ->
  card_at g q = Some card -> (2 <= fuel)%nat ->
  (move_camel fuel c (if mc_forward card then 1 else -1) g).2 = Return tt.
Proof.
  intros Hinv Hpos Hcard Hfuel.
  destruct fuel as [|fuel]; [lia|].
  destruct (card_at_neighbours g q card Hinv Hcard) as (Hq & _ & Hnext & Hprev).
  destruct (locate_camel g c Hinv)
    as (ip & sp & below & chain & Hip & Hpos' & Hsp & Hfind & Hstack).
  assert (ip = q) as -> by (rewrite Hpos in Hpos'; injection Hpos'; lia).
  destruct (mc_forward card).
  - destruct (decide (Z.of_nat q + 1 > BOARD_SPOTS)) as [Hover|Hin].
    + rewrite (move_camel_overflow g c q sp below chain (inv_length g Hinv) Hpos Hsp Hfind)
        by (done || lia).
      destruct fuel as [|fuel]; [lia|].
      unfold bind. replace (BOARD_SPOTS - Z.of_nat q) with 0
        by (unfold BOARD_SPOTS in *; lia).
      rewrite move_camel_zero. by apply finish_game_returns.
    + eapply move_camel_plain; [done..| |].
      * unfold BOARD_SPOTS in *. lia.
      * replace (Z.to_nat (Z.of_nat q + 1)) with (S q) by lia. done.
  - eapply move_camel_plain; [done..| |].
    + unfold BOARD_SPOTS in *. lia.
    + replace (Z.to_nat (Z.of_nat q + -1)) with (q - 1)%nat by lia. done.
Qed.

(** A move that stays on the board. *)
Lemma move_camel_land_returns fuel c n g ip :
  game_inv g -> camels g !! c = Some (Z.of_nat ip) ->
  n <> 0 -> 0 <= Z.of_nat ip + n <= BOARD_SPOTS -> (3 <= fuel)%nat ->
  (move_camel fuel c n g).2 = Return tt.
Proof.
  intros Hinv Hpos Hn Hrange Hfuel.
  destruct fuel as [|fuel]; [lia|].
  destruct (locate_camel g c Hinv)
    as (ip' & sp & below & chain & Hip & Hpos' & Hsp & Hfind & Hstack).
  assert (ip' = ip) as -> by (rewrite Hpos in Hpos'; injection Hpos'; lia).
  rewrite (move_camel_land g c ip sp below chain (inv_length g Hinv)
             Hpos Hsp Hfind) by done.
  set (q := Z.to_nat (Z.of_nat ip + n)).
  assert (ip <> q) as Hne by lia.
  assert (q < 16)%nat as Hq by (unfold BOARD_SPOTS in *; lia).
  set (g1 := move_chain (bool_decide (n > 0)) ip q below chain g).
  assert (game_inv g1) as Hinv1 by by eapply move_chain_inv.
  destruct (card_at g q) as [card|] eqn:Hcard; [|done].
  rewrite <- (card_at_move_chain (bool_decide (n > 0)) ip q below chain g q Hne)
    in Hcard. fold g1 in Hcard.
  destruct (card_at_neighbours g1 q card Hinv1 Hcard)
    as (Hq1 & [t Ht] & _ & _).
  unfold cascade, bind. rewrite (add_coins_Some _ _ _ _ Ht).
  apply (move_camel_from_card fuel c _ q card).
  - by apply game_inv_teams_insensitive.
  - cbn [camels set_teams].
    apply find_chain_spec in Hfind as (_ & _ & rest & Hchain).
    unfold g1. by rewrite (camels_move_chain _ _ _ _ _ _ _ _ Hchain).
  - done.
  - lia.
Qed.

(** Under the invariant a move forward returns when it is given four
    levels of recursion: the move itself, the move that lands on the last
    spot when it would go further, and the two moves that a card on the
    last spot may start. *)
Lemma move_camel_returns fuel c n g :
  game_inv g -> n > 0 -> (4 <= fuel)%nat ->
  (move_camel fuel c n g).2 = Return tt.
Proof.
  intros Hinv Hn Hfuel.
  destruct (locate_camel g c Hinv)
    as (ip & sp & below & chain & Hip & Hpos & Hsp & Hfind & Hstack).
  destruct (decide (Z.of_nat ip + n > BOARD_SPOTS)) as [Hover|Hin].
  - destruct fuel as [|fuel]; [lia|].
    rewrite (move_camel_overflow g c ip sp below chain (inv_length g Hinv) Hpos Hsp Hfind) by done.
    unfold bind.
    assert (game_inv (move_camel fuel c (BOARD_SPOTS - Z.of_nat ip) g).1) as Hinv1.
    { apply move_camel_inv; [done|]. unfold BOARD_SPOTS. lia. }
    assert ((move_camel fuel c (BOARD_SPOTS - Z.of_nat ip) g).2 = Return tt)
      as Hret.
    { destruct (decide (BOARD_SPOTS - Z.of_nat ip = 0)) as [->|Hne].
      - destruct fuel; [lia|done].
      - apply (move_camel_land_returns _ _ _ _ ip); try done; [|lia].
        unfold BOARD_SPOTS in *. lia. }
    destruct (move_camel fuel c (BOARD_SPOTS - Z.of_nat ip) g) as [g1 r].
    simpl in Hret, Hinv1. subst r. by apply finish_game_returns.
  - apply (move_camel_land_returns _ _ _ _ ip); try done; lia.
Qed.

(** ** Turns *)

Lemma teams_playing g n :
  dom (teams g) = list_to_set (take n TeamName.all) ->
  forall t, is_Some (teams g !! t) <-> t ∈ take n TeamName.all.
Proof.
  intros Hdom t. by rewrite <- elem_of_dom, Hdom, elem_of_list_to_set.
Qed.

Lemma size_teams g n :
  (n <= 8)%nat ->
  dom (teams g) = list_to_set (take n TeamName.all) ->
  size (teams g) = n.
Proof.
  intros Hn Hdom. rewrite <- (size_dom (D := gset TeamName)), Hdom.
  destruct n as [|[|[|[|[|[|[|[|[|n]]]]]]]]]; try lia; compute_done.
Qed.

(** Under the invariant [finish_turn] hands the turn to a team that
    plays. *)
Lemma finish_turn_spec g :
  game_inv g ->
  exists next,
    is_Some (teams g !! next) /\
    finish_turn g = (set_active_team next g, Return tt).
Proof.
  intros Hinv. destruct (inv_teams g Hinv) as (n & Hn & Hdom).
  assert (Hsize := size_teams g n ltac:(lia) Hdom).
  assert (Hmem := teams_playing g n Hdom).
  assert (Hact := inv_active g Hinv). apply Hmem in Hact.
  unfold finish_turn, bind, get. rewrite Hsize.
  destruct n as [|[|[|[|[|[|[|[|[|n]]]]]]]]]; try lia;
    (rewrite decide_False by done);
    destruct (active_team g);
    first [ by apply bool_decide_pack in Hact; vm_compute in Hact
          | simpl; eexists; split; [|reflexivity]; apply Hmem; compute_done ].
Qed.

(** ** Placing a movement card *)

(** The stack of spot [q]. *)
Definition camels_at (g : Game) (q : nat) : list Color :=
  match spots g !! q with
  | Some s => s_camels s
  | None => []
  end.

(** When [can_place_movement_card] answers yes. *)
Definition placement_allowed (g : Game) (position : Z) : Prop :=
  (exists team, teams g !! active_team g = Some team /\
                t_placed_movement_card team = false) /\
  1 <= position <= BOARD_SPOTS /\
  card_at g (Z.to_nat (position - 1)) = None /\
  (position < BOARD_SPOTS -> card_at g (Z.to_nat (position + 1)) = None) /\
  card_at g (Z.to_nat position) = None /\
  camels_at g (Z.to_nat position) = [].

Lemma get_spot_Some g i :
  length (spots g) = 16%nat -> 0 <= i <= BOARD_SPOTS ->
  exists s, spots g !! Z.to_nat i = Some s /\ get_spot i g = (g, Return s).
Proof.
  intros Hlen Hi. unfold BOARD_SPOTS in Hi.
  assert (is_Some (spots g !! Z.to_nat i)) as [s Hs]
    by (apply lookup_lt_is_Some; lia).
  exists s. split; [done|].
  unfold get_spot. rewrite py_get_nonneg by lia. by rewrite Hs.
Qed.

Lemma can_place_movement_card_spec g position team :
  length (spots g) = 16%nat ->
  teams g !! active_team g = Some team ->
  exists b, can_place_movement_card position g = (g, Return b) /\
            (b = true <-> placement_allowed g position).
Proof.
  intros Hlen Hteam.
  unfold can_place_movement_card. unfold bind at 1. unfold get at 1.
  unfold bind at 1. unfold get_team at 1.
  rewrite Hteam. cbn [of_option ret].
  destruct (t_placed_movement_card team) eqn:Hplaced.
  { exists false. split; [done|]. split; [done|].
    intros ((team' & Ht' & Hp) & _). congruence. }
  destruct (decide (position < 1 \/ position > BOARD_SPOTS)) as [Hout|Hin].
  { exists false. split; [done|]. split; [done|].
    intros (_ & Hr & _). lia. }
  assert (1 <= position <= BOARD_SPOTS) as Hrange by lia.
  destruct (get_spot_Some g (position - 1) Hlen) as (behind & Hb & Hgb);
    [unfold BOARD_SPOTS in *; lia|].
  unfold bind at 1. rewrite Hgb.
  destruct (decide (s_movement_card behind <> None)) as [Hbc|Hbc].
  { exists false. split; [done|]. split; [done|].
    intros (_ & _ & Hc & _). unfold card_at in Hc. by rewrite Hb in Hc. }
  apply dec_stable in Hbc.
  assert (exists ahead_has_card,
    (if decide (position < BOARD_SPOTS)
     then bind (get_spot (position + 1))
            (fun ahead => ret (bool_decide (s_movement_card ahead <> None)))
     else ret false) g = (g, Return ahead_has_card) /\
    (ahead_has_card = false <->
     (position < BOARD_SPOTS ->
      card_at g (Z.to_nat (position + 1)) = None))) as (ahb & Hga & Hahead).
  { destruct (decide (position < BOARD_SPOTS)) as [Hlt|Hge].
    - destruct (get_spot_Some g (position + 1) Hlen) as (ahead & Ha & Hget);
        [unfold BOARD_SPOTS in *; lia|].
      unfold bind. rewrite Hget. eexists. split; [done|].
      unfold card_at. rewrite Ha.
      destruct (s_movement_card ahead); simpl; split; auto; try done.
      intros H. by specialize (H Hlt).
    - exists false. split; [done|]. split; [intros _ ?; lia|done]. }
  unfold bind at 1. rewrite Hga.
  destruct ahb.
  { exists false. split; [done|]. split; [done|].
    intros (_ & _ & _ & Hc & _). apply Hahead in Hc. done. }
  destruct (get_spot_Some g position Hlen) as (here & Hh & Hgh); [lia|].
  unfold bind at 1. rewrite Hgh.
  destruct (decide (s_movement_card here <> None)) as [Hhc|Hhc].
  { exists false. split; [done|]. split; [done|].
    intros (_ & _ & _ & _ & Hc & _). unfold card_at in Hc. by rewrite Hh in Hc. }
  apply dec_stable in Hhc.
  destruct (decide (s_camels here <> [])) as [Hhs|Hhs].
  { exists false. split; [done|]. split; [done|].
    intros (_ & _ & _ & _ & _ & Hc). unfold camels_at in Hc. by rewrite Hh in Hc. }
  apply dec_stable in Hhs.
  exists true. split; [done|]. split; [intros _|done].
  unfold placement_allowed, card_at, camels_at. rewrite Hb, Hh.
  split_and!; try done; [eauto|lia|lia|]. by apply Hahead.
Qed.

(** ** The player actions keep the invariant *)

Lemma modify_team_Some name f g t :
  teams g !! name = Some t ->
  modify_team name f g = (set_teams (<[name := f t]> (teams g)) g, Return tt).
Proof. intros Ht. unfold modify_team, bind, get_team. by rewrite Ht. Qed.

(** The result of an action keeps the invariant and the dice. *)
Definition keeps {A} (g : Game) (x : Game * outcome A) : Prop :=
  game_inv x.1 /\ die_remaining x.1 = die_remaining g.

Lemma bet_on_leg_inv color g : game_inv g -> keeps g (bet_on_leg color g).
Proof.
  intros Hinv. unfold bet_on_leg, can_bet_on_leg.
  unfold bind at 1. unfold bind at 1. unfold get at 1. unfold bind at 1.
  destruct (leg_bet_cards g !! color) as [cards|] eqn:Hcards; [|by split].
  cbn [of_option ret]. destruct (bool_decide (0 < length cards)%nat); [|by split].
  cbn [negb]. unfold bind at 1. unfold gets at 1.
  unfold bind at 1. rewrite Hcards. cbn [of_option ret].
  destruct cards as [|card rest]; [by split|].
  unfold bind at 1. unfold modify at 1.
  unfold bind at 1. unfold gets at 1.
  set (g1 := set_leg_bet_cards _ g).
  assert (game_inv g1) as Hinv1 by by apply game_inv_set_leg_bet_cards.
  destruct (inv_active g1 Hinv1) as [t Ht].
  unfold bind at 1. rewrite (modify_team_Some _ _ _ _ Ht).
  set (g2 := set_teams _ g1).
  assert (game_inv g2) as Hinv2.
  { apply game_inv_teams_insensitive; [by rewrite Ht|done]. }
  destruct (finish_turn_spec g2 Hinv2) as (next & Hnext & Hturn).
  unfold bind at 1. rewrite Hturn. unfold ret.
  split; [|done]. by apply (game_inv_set_active_team next g2).
Qed.

Lemma make_overall_bet_inv winner color g :
  game_inv g -> keeps g (make_overall_bet winner color g).
Proof.
  intros Hinv. unfold make_overall_bet, can_make_overall_bet.
  unfold bind at 1. unfold bind at 1. unfold get at 1. unfold bind at 1.
  unfold get_team at 1.
  destruct (inv_active g Hinv) as [t Ht]. rewrite Ht. cbn [of_option ret].
  destruct (bool_decide (color ∉ t_overall_bets_made t)); [|by split].
  cbn [negb]. unfold bind at 1. unfold gets at 1.
  unfold bind at 1. rewrite (modify_team_Some _ _ _ _ Ht).
  set (g1 := set_teams _ g).
  assert (game_inv g1) as Hinv1.
  { apply game_inv_teams_insensitive; [by rewrite Ht|done]. }
  assert (is_Some (teams g1 !! active_team g)) as Hact
    by apply (inv_active g1 Hinv1).
  destruct Hinv1 as [Hlen Hpres Hstack Hpos Hcards Hteams Hact' Hwin Hlose].
  destruct winner; unfold modify; (split; [|done]);
    split; simpl; try done.
  - apply Forall_app. split; [done|]. by repeat constructor.
  - apply Forall_app. split; [done|]. by repeat constructor.
Qed.

Lemma game_inv_place_card g position direction :
  game_inv g -> placement_allowed g position ->
  game_inv
    (set_spots
       (alter (set_s_movement_card
                 (Some {| mc_team := active_team g; mc_forward := direction |}))
              (Z.to_nat position) (spots g)) g).
Proof.
  intros Hinv (_ & Hrange & Hbehind & Hahead & Hhere & _).
  set (q := Z.to_nat position) in *.
  set (f := set_s_movement_card _).
  assert (forall i s', alter f q (spots g) !! i = Some s' ->
            exists s, spots g !! i = Some s /\ s_camels s' = s_camels s /\
              s_movement_card s' =
                if decide (i = q)
                then Some {| mc_team := active_team g; mc_forward := direction |}
                else s_movement_card s) as Hlook.
  { intros i s'. destruct (decide (i = q)) as [->|Hne].
    - rewrite list_lookup_alter_eq. destruct (spots g !! q) as [s|]; [|done].
      simpl. intros [= <-]. eauto.
    - rewrite list_lookup_alter_ne by done. eauto. }
  destruct Hinv as [Hlen Hpres Hstack Hpos Hcards Hteams Hact Hwin Hlose].
  split; simpl; try done.
  - by rewrite length_alter.
  - intros c. destruct (Hpres c) as (i & s & Hs & Hc).
    destruct (alter f q (spots g) !! i) as [s'|] eqn:Hs'.
    + destruct (Hlook i s' Hs') as (s0 & Hs0 & Hcam & _).
      exists i, s'. split; [done|]. rewrite Hcam. by simplify_eq.
    + apply lookup_ge_None in Hs'. rewrite length_alter in Hs'.
      apply lookup_lt_Some in Hs. lia.
  - intros i s' (s & Hs & -> & _)%Hlook. eauto.
  - intros i s' c (s & Hs & -> & _)%Hlook. eauto.
  - intros i s' card (s & Hs & _ & Hcard)%Hlook Hc. rewrite Hcard in Hc.
    destruct (decide (i = q)) as [->|Hne].
    + injection Hc as <-. simpl. split_and!; [lia|done|].
      intros s2' (s2 & Hs2 & _ & Hcard2)%Hlook. rewrite Hcard2.
      rewrite decide_False by lia.
      destruct (decide (position < BOARD_SPOTS)) as [Hlt|Hge].
      * specialize (Hahead Hlt). unfold card_at in Hahead.
        replace (Z.to_nat (position + 1)) with (S q) in Hahead by lia.
        by rewrite Hs2 in Hahead.
      * apply lookup_lt_Some in Hs2. unfold BOARD_SPOTS in *. lia.
    + destruct (Hcards i s card Hs Hc) as (Hi & Hteam & Hnext).
      split_and!; [done..|].
      intros s2' (s2 & Hs2 & _ & Hcard2)%Hlook. rewrite Hcard2.
      destruct (decide (S i = q)) as [Heq|]; [|by apply Hnext].
      unfold card_at in Hbehind.
      replace (Z.to_nat (position - 1)) with i in Hbehind by lia.
      rewrite Hs in Hbehind. congruence.
Qed.

Lemma place_movement_card_inv direction position g :
  game_inv g -> keeps g (place_movement_card direction position g).
Proof.
  intros Hinv. unfold place_movement_card.
  destruct (inv_active g Hinv) as [t Ht].
  destruct (can_place_movement_card_spec g position t (inv_length g Hinv) Ht)
    as (ok & Hcan & Hok).
  unfold bind at 1. rewrite Hcan. destruct ok; [|by split]. cbn [negb].
  assert (placement_allowed g position) as Hallowed by by apply Hok.
  assert (1 <= position <= BOARD_SPOTS) as Hrange by apply Hallowed.
  unfold bind at 1. unfold gets at 1.
  unfold bind at 1. unfold modify_spot at 1.
  rewrite (inv_length g Hinv), py_norm_nonneg
    by (unfold BOARD_SPOTS in *; lia).
  set (g1 := set_spots _ g).
  assert (game_inv g1) as Hinv1 by by apply game_inv_place_card.
  unfold bind at 1. unfold gets at 1.
  unfold bind at 1. cbn [active_team g1 set_spots].
  assert (teams g1 !! active_team g = Some t) as Ht1 by done.
  rewrite (modify_team_Some _ _ _ _ Ht1).
  set (g2 := set_teams _ g1).
  assert (game_inv g2) as Hinv2.
  { apply game_inv_teams_insensitive; [by rewrite Ht1|done]. }
  destruct (finish_turn_spec g2 Hinv2) as (next & Hnext & ->).
  split; [|done]. by apply (game_inv_set_active_team next g2).
Qed.

Lemma all_dice_nonempty : all_dice <> ∅.
Proof. compute_done. Qed.

(** A roll of the dice returns, and the leg always has a die left
    afterwards. *)
Lemma roll_dice_spec fuel color move g :
  game_inv g -> die_remaining g <> ∅ -> move > 0 -> (4 <= fuel)%nat ->
  exists g', roll_dice fuel color move g = (g', Return (color, move)) /\
             game_inv g' /\ die_remaining g' <> ∅.
Proof.
  intros Hinv Hdice Hmove Hfuel. unfold roll_dice.
  unfold bind at 1. unfold gets at 1.
  destruct (inv_active g Hinv) as [t Ht].
  unfold bind at 1. rewrite (add_coins_Some _ _ _ _ Ht).
  set (g1 := set_teams _ g).
  assert (game_inv g1) as Hinv1.
  { apply game_inv_teams_insensitive; [by rewrite Ht|done]. }
  unfold bind at 1. unfold gets at 1. cbn [die_remaining g1 set_teams].
  rewrite decide_False by done.
  unfold bind at 1. unfold modify at 1.
  set (g2 := set_die_remaining _ g1).
  assert (game_inv g2) as Hinv2 by by apply game_inv_set_die_remaining.
  assert (Hinv3 := move_camel_inv fuel color move g2 Hinv2 ltac:(lia)).
  assert (Hret := move_camel_returns fuel color move g2 Hinv2 Hmove Hfuel).
  unfold bind at 1. destruct (move_camel fuel color move g2) as [g3 r].
  simpl in Hinv3, Hret. subst r.
  unfold bind at 1. unfold gets at 1.
  assert (exists g4,
    (if decide (size (die_remaining g3) = 0%nat) then finish_leg else ret tt) g3
      = (g4, Return tt) /\ game_inv g4 /\ die_remaining g4 <> ∅)
    as (g4 & Hleg & Hinv4 & Hdice4).
  { destruct (decide (size (die_remaining g3) = 0%nat)) as [Hsize|Hsize].
    - destruct (finish_leg_spec g3 Hinv3) as (ts & Hdom & ->).
      eexists. split; [done|]. split.
      + by apply game_inv_finish_leg_state.
      + apply all_dice_nonempty.
    - exists g3. split; [done|]. split; [done|].
      intros Hempty. apply Hsize. by rewrite Hempty. }
  unfold bind at 1. rewrite Hleg.
  destruct (finish_turn_spec g4 Hinv4) as (next & Hnext & Hturn).
  unfold bind at 1. rewrite Hturn. unfold ret.
  eexists. split; [done|]. split; [|done].
  by apply (game_inv_set_active_team next g4).
Qed.

(** ** A new game *)

(** The board while [generate_initial_board] places the camels: [placed]
    are the colours already on it. *)
Definition placed_inv (placed : list Color) (sp : list Spot)
  (cm : gmap Color Z) : Prop :=
  length sp = 16%nat /\
  (forall c, c ∈ placed -> exists i s, sp !! i = Some s /\ c ∈ s_camels s) /\
  (forall i s, sp !! i = Some s ->
     NoDup (s_camels s) /\ s_movement_card s = None /\
     forall c, c ∈ s_camels s -> c ∈ placed /\ cm !! c = Some (Z.of_nat i)).

Lemma place_camels_inv rolls (l : list Color) :
  (forall c, 1 <= rolls c <= 3) ->
  forall placed sp cm,
    placed_inv placed sp cm -> NoDup (placed ++ l) ->
    exists sp' cm',
      foldl (place_camel rolls) (Return (sp, cm)) l = Return (sp', cm') /\
      placed_inv (placed ++ l) sp' cm'.
Proof.
  intros Hrolls. induction l as [|c l IH]; intros placed sp cm Hinv Hnd.
  - exists sp, cm. by rewrite app_nil_r.
  - destruct Hinv as (Hlen & Hpres & Hspots).
    assert (c ∉ placed) as Hfresh.
    { apply NoDup_app in Hnd as (_ & Hdisj & _).
      intros Hin. apply (Hdisj c Hin). left. }
    specialize (Hrolls c) as Hroll.
    set (n := Z.to_nat (rolls c - 1)).
    assert (is_Some (sp !! n)) as [s Hs] by (apply lookup_lt_is_Some; lia).
    cbn [foldl]. unfold place_camel at 2.
    rewrite Hlen, py_norm_nonneg by lia. fold n. rewrite Hs.
    replace (placed ++ c :: l) with ((placed ++ [c]) ++ l) in *
      by by rewrite <- app_assoc.
    apply IH; [|done].
    split_and!.
    + by rewrite length_insert.
    + intros c' [Hc'|Hc']%elem_of_app.
      * destruct (Hpres c' Hc') as (i & s' & Hs' & Hin).
        destruct (decide (i = n)) as [->|Hne].
        -- eexists n, _. rewrite list_lookup_insert_eq by lia.
           split; [done|]. simpl. right. by simplify_eq.
        -- exists i, s'. by rewrite list_lookup_insert_ne.
      * apply list_elem_of_singleton in Hc' as ->.
        eexists n, _. rewrite list_lookup_insert_eq by lia.
        split; [done|]. simpl. left.
    + intros i s' Hs'. destruct (decide (i = n)) as [->|Hne].
      * rewrite list_lookup_insert_eq in Hs' by lia. injection Hs' as <-.
        destruct (Hspots n s Hs) as (Hnd_s & Hcard & Hin). simpl.
        split_and!; [|done|].
        -- apply NoDup_cons. split; [|done].
           intros Hc. by destruct (Hin c Hc).
        -- intros c' [->|Hc']%elem_of_cons.
           ++ split; [apply elem_of_app; right; left|].
              rewrite lookup_insert_eq. f_equal. lia.
           ++ destruct (Hin c' Hc') as [Hpl Hcm].
              split; [apply elem_of_app; by left|].
              rewrite lookup_insert_ne; [done|]. by intros ->.
      * rewrite list_lookup_insert_ne in Hs' by done.
        destruct (Hspots i s' Hs') as (Hnd_s & Hcard & Hin).
        split_and!; [done..|].
        intros c' Hc'. destruct (Hin c' Hc') as [Hpl Hcm].
        split; [apply elem_of_app; by left|].
        rewrite lookup_insert_ne; [done|]. by intros ->.
Qed.

Lemma generate_initial_board_inv rolls :
  (forall c, 1 <= rolls c <= 3) ->
  exists sp cm,
    generate_initial_board rolls = Return (sp, cm) /\
    placed_inv Color.all sp cm.
Proof.
  intros Hrolls. unfold generate_initial_board.
  apply (place_camels_inv rolls Color.all Hrolls []).
  - split_and!; [done|by intros c ?%elem_of_nil|].
    intros i s Hs. apply list_elem_of_lookup_2, list_elem_of_In in Hs.
    apply in_map_iff in Hs as (k & <- & _). simpl.
    split_and!; [constructor|done|by intros c ?%elem_of_nil].
  - apply NoDup_Color_all.
Qed.

(** Reduce the projections of a game that is given field by field. *)
Ltac game_simpl :=
  cbn [teams active_team die_remaining camels spots leg_bet_cards
       overall_winner_cards overall_loser_cards playing winners
       set_teams set_active_team set_die_remaining set_camels set_spots
       set_leg_bet_cards set_overall_winner_cards set_overall_loser_cards
       set_playing set_winners fst snd].

(** [Game.__init__] sets up a state that satisfies the invariant. *)
Lemma new_game_inv number_of_teams rolls g :
  (forall c, 1 <= rolls c <= 3) ->
  new_game number_of_teams rolls = Return g ->
  game_inv g /\ die_remaining g = all_dice.
Proof.
  intros Hrolls. unfold new_game.
  destruct (decide (number_of_teams < 2 \/ number_of_teams > 8)) as [|Hok];
    [done|].
  set (n := Z.to_nat number_of_teams).
  destruct (take n TeamName.all) as [|first names] eqn:Hnames; [done|].
  destruct (generate_initial_board_inv rolls Hrolls)
    as (sp & cm & -> & Hlen & Hpres & Hspots).
  intros [= <-]. split; [|done].
  assert (dom (list_to_map (map (fun n => (n, new_team n)) (first :: names))
                 : gmap TeamName Team) =
          list_to_set (take n TeamName.all)) as Hdom.
  { rewrite dom_list_to_map_L. f_equal. rewrite Hnames.
    change ((map ?f ?l).*1) with (map fst (map f l)).
    rewrite map_map. simpl. by rewrite map_id. }
  split; game_simpl.
  - done.
  - intros c. apply Hpres, elem_of_Color_all.
  - intros i s Hs. by destruct (Hspots i s Hs).
  - intros i s c Hs Hc. destruct (Hspots i s Hs) as (_ & _ & Hin).
    by destruct (Hin c Hc).
  - intros i s card Hs Hcard. destruct (Hspots i s Hs) as (_ & Hnone & _).
    congruence.
  - exists n. split; [lia|done].
  - apply elem_of_dom. rewrite dom_insert_L. set_solver.
  - constructor.
  - constructor.
Qed.

(** ** Reachable states *)

(** The states of a game that is set up by [Game.__init__] and then
    played through the four player actions, whether they return or raise.
    The dice give 1, 2 or 3, [set.pop] gives a die of [die_remaining],
    and the interpreter allows at least four nested calls. *)
Inductive reachable : Game -> Prop :=
| reach_new number_of_teams rolls g :
    (forall c, 1 <= rolls c <= 3) ->
    new_game number_of_teams rolls = Return g ->
    reachable g
| reach_roll_dice fuel color move g x :
    reachable g -> (4 <= fuel)%nat ->
    color ∈ die_remaining g -> 1 <= move <= 3 ->
    roll_dice fuel color move g = x ->
    reachable x.1
| reach_bet_on_leg color g x :
    reachable g -> bet_on_leg color g = x -> reachable x.1
| reach_place_movement_card direction position g x :
    reachable g -> place_movement_card direction position g = x ->
    reachable x.1
| reach_make_overall_bet winner color g x :
    reachable g -> make_overall_bet winner color g = x -> reachable x.1.

Lemma reachable_inv g :
  reachable g -> game_inv g /\ die_remaining g <> ∅.
Proof.
  induction 1 as [n rolls g Hrolls Hnew
                 |fuel color move g x _ [Hinv Hdice] Hfuel Hcolor Hmove <-
                 |color g x _ [Hinv Hdice] <-
                 |direction position g x _ [Hinv Hdice] <-
                 |winner color g x _ [Hinv Hdice] <-].
  - destruct (new_game_inv n rolls g Hrolls Hnew) as [Hinv ->].
    split; [done|apply all_dice_nonempty].
  - destruct (roll_dice_spec fuel color move g Hinv Hdice ltac:(lia) Hfuel)
      as (g' & -> & Hinv' & Hdice'). done.
  - destruct (bet_on_leg_inv color g Hinv) as [Hinv' Hdice'].
    split; [done|congruence].
  - destruct (place_movement_card_inv direction position g Hinv)
      as [Hinv' Hdice']. split; [done|congruence].
  - destruct (make_overall_bet_inv winner color g Hinv) as [Hinv' Hdice'].
    split; [done|congruence].
Qed.

(** ** Concrete games *)

Definition empty_game : Game :=
  {| teams := ∅; active_team := TeamName.A; die_remaining := ∅;
     camels := ∅; spots := []; leg_bet_cards := ∅;
     overall_winner_cards := []; overall_loser_cards := [];
     playing := false; winners := None |}.

Definition game_of (o : outcome Game) : Game :=
  match o with
  | Return g => g
  | Raise _ => empty_game
  end.

(** The state after a call. *)
Definition after {A} (m : M A) (g : Game) : Game := (m g).1.

(** A new game of two teams in which every camel threw a 3: the five
    camels are stacked on spot 2, blue on top. *)
Definition stacked_game : Game := game_of (new_game 2 (fun _ => 3)).

Lemma stacked_game_new : new_game 2 (fun _ => 3) = Return stacked_game.
Proof. by vm_compute. Qed.

Lemma stacked_game_reachable : reachable stacked_game.
Proof.
  apply (reach_new 2 (fun _ => 3)); [intros c; lia|apply stacked_game_new].
Qed.

(** ** The camels on the board (C8) *)

(** C8.  Every state that is reachable from a new game through the player
    actions satisfies the invariant; under the invariant the stacks of the
    spots hold five camels, one of each colour, each of them once; and
    every call of [move_camel] keeps the invariant: a move forward by any
    number of spots, and the move back by one spot that a movement card
    starts, whatever recursion depth is left and whether the call returns
    or raises. *)
Theorem camels_on_board_once :
  (forall g, reachable g -> game_inv g) /\
  (forall g, game_inv g -> board g ≡ₚ Color.all) /\
  (forall g, reachable g -> board g ≡ₚ Color.all) /\
  (forall fuel color n g,
     game_inv g ->
     (n < 0 -> n = -1 /\ forall p, camels g !! color = Some p -> 1 <= p) ->
     game_inv (move_camel fuel color n g).1 /\
     board (move_camel fuel color n g).1 ≡ₚ Color.all).
Proof.
  split_and!.
  - intros g Hg. by apply reachable_inv.
  - apply game_inv_board.
  - intros g Hg. by apply game_inv_board, reachable_inv.
  - intros fuel color n g Hinv Hn.
    assert (game_inv (move_camel fuel color n g).1) as Hinv'
      by by apply move_camel_inv.
    split; [done|by apply game_inv_board].
Qed.

Lemma camels_on_board_once_witness :
  board stacked_game ≡ₚ Color.all /\
  board (move_camel 4 Color.WHITE 3 stacked_game).1 ≡ₚ Color.all.
Proof.
  destruct camels_on_board_once as (Hreach & _ & Hboard & Hmove).
  split.
  - apply Hboard, (reach_new 2 (fun _ => 3)); [intros c; lia|by vm_compute].
  - apply Hmove; [|lia].
    apply Hreach, (reach_new 2 (fun _ => 3)); [intros c; lia|by vm_compute].
Defined.

(** ** The dice of the leg (C10) *)

(** C10.  In every state that is reachable from a new game through the
    player actions [die_remaining] is not empty, so that [roll_dice]
    returns: [self.die_remaining.pop()], the only statement of the engine
    that fails on an empty set, never does. *)
Theorem die_remaining_never_empty :
  (forall g, reachable g -> die_remaining g <> ∅) /\
  (forall g fuel color move,
     reachable g -> (4 <= fuel)%nat ->
     color ∈ die_remaining g -> 1 <= move <= 3 ->
     exists g', roll_dice fuel color move g = (g', Return (color, move)) /\
                die_remaining g' <> ∅).
Proof.
  split.
  - intros g Hg. by apply reachable_inv.
  - intros g fuel color move Hg Hfuel _ Hmove.
    destruct (reachable_inv g Hg) as [Hinv Hdice].
    destruct (roll_dice_spec fuel color move g Hinv Hdice ltac:(lia) Hfuel)
      as (g' & Hroll & _ & Hdice').
    eauto.
Qed.

Lemma die_remaining_never_empty_witness :
  die_remaining stacked_game <> ∅ /\
  exists g', roll_dice 4 Color.WHITE 3 stacked_game
             = (g', Return (Color.WHITE, 3)) /\
             die_remaining g' <> ∅.
Proof.
  destruct die_remaining_never_empty as (Hdice & Hroll).
  assert (reachable stacked_game) as Hreach.
  { apply (reach_new 2 (fun _ => 3)); [intros c; lia|by vm_compute]. }
  split.
  - by apply Hdice.
  - apply Hroll; [done|lia|by vm_compute|lia].
Defined.

(** ** The predicates do not change the state *)

(** A computation that leaves the state as it is. *)
Definition readonly {A} (m : M A) : Prop := forall g, (m g).1 = g.

Lemma readonly_ret {A} (a : A) : readonly (ret a).
Proof. done. Qed.

Lemma readonly_raise {A} e : readonly (@raise Game A e).
Proof. done. Qed.

Lemma readonly_get : readonly get.
Proof. done. Qed.

Lemma readonly_of_option {A} e (o : option A) : readonly (of_option e o).
Proof. by destruct o. Qed.

Lemma readonly_get_team name : readonly (get_team name).
Proof. intros g. unfold get_team. by destruct (teams g !! name). Qed.

Lemma readonly_get_spot i : readonly (get_spot i).
Proof. intros g. unfold get_spot. by destruct (py_get (spots g) i). Qed.

Lemma readonly_bind {A B} (m : M A) (k : A -> M B) :
  readonly m -> (forall a, readonly (k a)) -> readonly (bind m k).
Proof.
  intros Hm Hk g. unfold bind. specialize (Hm g).
  destruct (m g) as [g' [a|e]]; simpl in *; subst; [apply Hk|done].
Qed.

Ltac readonly :=
  repeat first
    [ apply readonly_ret | apply readonly_raise | apply readonly_get
    | apply readonly_of_option | apply readonly_get_team
    | apply readonly_get_spot
    | apply readonly_bind; [|intros ?]
    | match goal with
      | |- readonly (if ?b then _ else _) => destruct b
      end ].

Lemma readonly_can_bet_on_leg color : readonly (can_bet_on_leg color).
Proof. unfold can_bet_on_leg. readonly. Qed.

Lemma readonly_can_place_movement_card position :
  readonly (can_place_movement_card position).
Proof. unfold can_place_movement_card. readonly. Qed.

Lemma readonly_can_make_overall_bet color :
  readonly (can_make_overall_bet color).
Proof. unfold can_make_overall_bet. readonly. Qed.

(** ** Rejected actions (C7) *)

(** C7.  When the predicate of an action answers no, [bet_on_leg],
    [place_movement_card] and [make_overall_bet] raise
    [InvalidMoveException] and leave the game as it was. *)
Theorem invalid_move_changes_nothing g :
  (forall color g',
     can_bet_on_leg color g = (g', Return false) ->
     bet_on_leg color g = (g, Raise InvalidMoveException)) /\
  (forall direction position g',
     can_place_movement_card position g = (g', Return false) ->
     place_movement_card direction position g
     = (g, Raise InvalidMoveException)) /\
  (forall winner color g',
     can_make_overall_bet color g = (g', Return false) ->
     make_overall_bet winner color g = (g, Raise InvalidMoveException)).
Proof.
  split_and!.
  - intros color g' Hcan.
    assert (g' = g) as ->.
    { rewrite <- (readonly_can_bet_on_leg color g). by rewrite Hcan. }
    unfold bet_on_leg. by rewrite (bind_Return _ _ _ _ _ Hcan).
  - intros direction position g' Hcan.
    assert (g' = g) as ->.
    { rewrite <- (readonly_can_place_movement_card position g).
      by rewrite Hcan. }
    unfold place_movement_card. by rewrite (bind_Return _ _ _ _ _ Hcan).
  - intros winner color g' Hcan.
    assert (g' = g) as ->.
    { rewrite <- (readonly_can_make_overall_bet color g). by rewrite Hcan. }
    unfold make_overall_bet. by rewrite (bind_Return _ _ _ _ _ Hcan).
Qed.

(** The stacked game after team A placed a card on spot 5, team B took
    the first leg-bet card of the blue camel, and team A bet on the green
    camel to win the race and took the second blue card and team B the
    third: it is team A's turn, and none of the three actions is
    allowed. *)
Definition blocked_game : Game :=
  after (bet_on_leg Color.BLUE)
    (after (bet_on_leg Color.BLUE)
       (after (make_overall_bet true Color.GREEN)
          (after (bet_on_leg Color.BLUE)
             (after (place_movement_card true 5) stacked_game)))).

Lemma invalid_move_changes_nothing_witness :
  bet_on_leg Color.BLUE blocked_game
  = (blocked_game, Raise InvalidMoveException) /\
  place_movement_card false 9 blocked_game
  = (blocked_game, Raise InvalidMoveException) /\
  make_overall_bet false Color.GREEN blocked_game
  = (blocked_game, Raise InvalidMoveException).
Proof.
  destruct (invalid_move_changes_nothing blocked_game) as (Hbet & Hplace & Hbet').
  split_and!.
  - apply (Hbet Color.BLUE blocked_game). by vm_compute.
  - apply (Hplace false 9 blocked_game). by vm_compute.
  - apply (Hbet' false Color.GREEN blocked_game). by vm_compute.
Defined.

(** ** Placing a movement card (C5) *)

(** The condition as the design document words it: the last position that
    takes a card is 14. *)
Definition placement_allowed_as_specified (g : Game) (position : Z) : Prop :=
  (exists team, teams g !! active_team g = Some team /\
                t_placed_movement_card team = false) /\
  1 <= position <= 14 /\
  card_at g (Z.to_nat (position - 1)) = None /\
  (position + 1 <= 14 -> card_at g (Z.to_nat (position + 1)) = None) /\
  card_at g (Z.to_nat position) = None /\
  camels_at g (Z.to_nat position) = [].

(** C5 as stated fails: in a new game the first team may place a card on
    spot 15, the last spot of the board. *)
Lemma placement_on_last_spot :
  can_place_movement_card 15 stacked_game = (stacked_game, Return true) /\
  (place_movement_card true 15 stacked_game).2 = Return tt /\
  card_at (after (place_movement_card true 15) stacked_game) 15
  = Some {| mc_team := TeamName.A; mc_forward := true |} /\
  ~ placement_allowed_as_specified stacked_game 15.
Proof.
  split_and!; [by vm_compute..|].
  intros (_ & Hrange & _). lia.
Qed.

Lemma place_movement_card_returns direction position g :
  game_inv g -> placement_allowed g position ->
  (place_movement_card direction position g).2 = Return tt.
Proof.
  intros Hinv Hallowed. unfold place_movement_card.
  destruct (inv_active g Hinv) as [t Ht].
  destruct (can_place_movement_card_spec g position t (inv_length g Hinv) Ht)
    as (ok & Hcan & Hok).
  apply Hok in Hallowed as Htrue. subst ok.
  assert (placement_allowed g position) as Hallowed' by done.
  destruct Hallowed' as (_ & Hrange & _).
  unfold bind at 1. rewrite Hcan. cbn [negb].
  unfold bind at 1. unfold gets at 1.
  unfold bind at 1. unfold modify_spot at 1.
  rewrite (inv_length g Hinv), py_norm_nonneg
    by (unfold BOARD_SPOTS in *; lia).
  set (g1 := set_spots _ g).
  assert (game_inv g1) as Hinv1 by by apply game_inv_place_card.
  unfold bind at 1. unfold gets at 1.
  unfold bind at 1. cbn [active_team g1 set_spots].
  assert (teams g1 !! active_team g = Some t) as Ht1 by done.
  rewrite (modify_team_Some _ _ _ _ Ht1).
  set (g2 := set_teams _ g1).
  assert (game_inv g2) as Hinv2.
  { apply game_inv_teams_insensitive; [by rewrite Ht1|done]. }
  by destruct (finish_turn_spec g2 Hinv2) as (next & Hnext & ->).
Qed.

(** C5, amended.  Under the invariant of the engine, placing a movement
    card succeeds exactly when the active team has not placed one in this
    leg, [1 <= position <= 15], spot [position - 1] carries no card, spot
    [position + 1] carries no card when [position < 15], and spot
    [position] carries no card and no camel; otherwise the call raises
    [InvalidMoveException]. *)
Theorem movement_card_placement g direction position :
  game_inv g ->
  (can_place_movement_card position g = (g, Return true) <->
   placement_allowed g position) /\
  ((place_movement_card direction position g).2 = Return tt <->
   placement_allowed g position) /\
  (~ placement_allowed g position ->
   place_movement_card direction position g
   = (g, Raise InvalidMoveException)).
Proof.
  intros Hinv. destruct (inv_active g Hinv) as [t Ht].
  destruct (can_place_movement_card_spec g position t (inv_length g Hinv) Ht)
    as (ok & Hcan & Hok).
  assert (~ placement_allowed g position ->
          place_movement_card direction position g
          = (g, Raise InvalidMoveException)) as Hreject.
  { intros Hnot. unfold place_movement_card.
    rewrite (bind_Return _ _ _ _ _ Hcan).
    destruct ok; [|done]. exfalso. by apply Hnot, Hok. }
  split_and!; [| |done].
  - rewrite Hcan. split.
    + intros [= ->]. by apply Hok.
    + intros Hallowed. apply Hok in Hallowed. by subst ok.
  - split; [|by apply place_movement_card_returns].
    intros Hret. destruct (decide (ok = true)) as [->|Hno]; [by apply Hok|].
    rewrite Hreject in Hret; [done|]. intros Hallowed. by apply Hno, Hok.
Qed.

Lemma movement_card_placement_witness :
  placement_allowed stacked_game 15 /\
  (place_movement_card true 15 stacked_game).2 = Return tt.
Proof.
  assert (game_inv stacked_game) as Hinv
    by apply reachable_inv, stacked_game_reachable.
  destruct (movement_card_placement stacked_game true 15 Hinv)
    as (Hcan & Hplace & _).
  assert (placement_allowed stacked_game 15) as Hallowed.
  { apply Hcan. by vm_compute. }
  split; [done|]. by apply Hplace.
Defined.

(** ** Overall bets (C3) *)

(** C3 fails on the code: [make_overall_bet] records the bet but, unlike
    [roll_dice], [bet_on_leg] and [place_movement_card], it does not call
    [finish_turn].  In a new game of two teams, after team A bets that the
    blue camel wins the race, the card of team A is in the list and it is
    still the turn of team A, where [finish_turn] gives the turn to
    team B. *)
Lemma make_overall_bet_keeps_the_turn :
  let x := make_overall_bet true Color.BLUE stacked_game in
  active_team stacked_game = TeamName.A /\
  x.2 = Return tt /\
  overall_winner_cards x.1
  = [{| ob_color := Color.BLUE; ob_team := TeamName.A |}] /\
  die_remaining x.1 = die_remaining stacked_game /\
  active_team x.1 = TeamName.A /\
  active_team (after finish_turn x.1) = TeamName.B.
Proof. by vm_compute. Qed.

(** No call of [make_overall_bet] changes the active team. *)
Lemma make_overall_bet_active_team winner color g :
  active_team (make_overall_bet winner color g).1 = active_team g.
Proof.
  unfold make_overall_bet, can_make_overall_bet.
  unfold bind at 1. unfold bind at 1. unfold get at 1. unfold bind at 1.
  unfold get_team at 1.
  destruct (teams g !! active_team g) as [t|] eqn:Ht; [|done].
  cbn [of_option ret].
  destruct (bool_decide (color ∉ t_overall_bets_made t)); [|done].
  cbn [negb]. unfold bind at 1. unfold gets at 1.
  unfold bind at 1. rewrite (modify_team_Some _ _ _ _ Ht).
  by destruct winner.
Qed.

(** ** The move that ends the game (C4) *)

(** The stacked game after team A placed a backward card on spot 15 and
    the white, yellow, orange and green dice each gave a 3: the stack has
    moved up to spot 14, where the blue camel stands on the green one,
    and only the blue die is left. *)
Definition card_on_last_spot_game : Game :=
  after (roll_dice 4 Color.GREEN 3)
    (after (roll_dice 4 Color.ORANGE 3)
       (after (roll_dice 4 Color.YELLOW 3)
          (after (roll_dice 4 Color.WHITE 3)
             (after (place_movement_card false 15) stacked_game)))).

Lemma reachable_after_roll_dice fuel color move g :
  reachable g -> (4 <= fuel)%nat ->
  color ∈ die_remaining g -> 1 <= move <= 3 ->
  reachable (after (roll_dice fuel color move) g).
Proof. intros. by eapply reach_roll_dice. Qed.

Lemma reachable_after_bet_on_leg color g :
  reachable g -> reachable (after (bet_on_leg color) g).
Proof. intros. by eapply reach_bet_on_leg. Qed.

Lemma reachable_after_place_movement_card direction position g :
  reachable g ->
  reachable (after (place_movement_card direction position) g).
Proof. intros. by eapply reach_place_movement_card. Qed.

Lemma reachable_after_make_overall_bet winner color g :
  reachable g -> reachable (after (make_overall_bet winner color) g).
Proof. intros. by eapply reach_make_overall_bet. Qed.

(** Build a reachable state action by action. *)
Ltac reachable_steps :=
  repeat first
    [ apply stacked_game_reachable
    | apply reachable_after_roll_dice; [|lia|by vm_compute|lia]
    | apply reachable_after_bet_on_leg
    | apply reachable_after_place_movement_card
    | apply reachable_after_make_overall_bet ].

Lemma card_on_last_spot_game_reachable : reachable card_on_last_spot_game.
Proof. unfold card_on_last_spot_game. reachable_steps. Qed.

(** The coins of a team. *)
Definition coins_of (g : Game) (name : TeamName) : option Z :=
  t_coins <$> teams g !! name.

(** C4.  The code breaks the claim.  In a game that can be reached,
    with a backward card on spot 15, the blue camel, on spot 14, moves 3
    spots; the move is cut to land on spot 15, but the call that makes
    the cut move looks the card up: the card pays team A a coin and
    sends the camel back, and the game ends with the blue camel on spot
    14 and nobody on spot 15. *)
Lemma finishing_move_on_a_card :
  let g := card_on_last_spot_game in
  let x := move_camel 4 Color.BLUE 3 g in
  reachable g /\
  camels g !! Color.BLUE = Some 14 /\
  card_at g 15 = Some {| mc_team := TeamName.A; mc_forward := false |} /\
  coins_of g TeamName.A = Some 5 /\
  x.2 = Return tt /\
  playing x.1 = false /\
  camels x.1 !! Color.BLUE = Some 14 /\
  camels_at x.1 14 = [Color.BLUE; Color.GREEN] /\
  camels_at x.1 15 = [] /\
  coins_of x.1 TeamName.A = Some 6.
Proof.
  intros g x. split; [apply card_on_last_spot_game_reachable|].
  by vm_compute.
Qed.

(** The same position with a forward card on spot 15 and team A's bet
    that the blue camel wins the race. *)
Definition forward_card_game : Game :=
  after (roll_dice 4 Color.GREEN 3)
    (after (roll_dice 4 Color.ORANGE 3)
       (after (roll_dice 4 Color.YELLOW 3)
          (after (roll_dice 4 Color.WHITE 3)
             (after (place_movement_card true 15)
                (after (make_overall_bet true Color.BLUE) stacked_game))))).

Lemma forward_card_game_reachable : reachable forward_card_game.
Proof. unfold forward_card_game. reachable_steps. Qed.

(** With the forward card the cut move lands on spot 15, the card pays
    its coin and moves the camel again, which ends the game a first
    time; back in the outer call [finish_game] runs a second time, and
    the single winning bet of team A is paid 8 coins twice: 5 coins
    become 5 + 1 + 8 + 8. *)
Lemma finishing_move_on_a_forward_card :
  let g := forward_card_game in
  let x := move_camel 5 Color.BLUE 3 g in
  camels g !! Color.BLUE = Some 14 /\
  card_at g 15 = Some {| mc_team := TeamName.A; mc_forward := true |} /\
  overall_winner_cards g =
    [{| ob_color := Color.BLUE; ob_team := TeamName.A |}] /\
  coins_of g TeamName.A = Some 5 /\
  x.2 = Return tt /\
  camels x.1 !! Color.BLUE = Some 15 /\
  coins_of x.1 TeamName.A = Some 22.
Proof. by vm_compute. Qed.

Lemma camels_at_move_chain_target ip q below chain g :
  ip <> q -> (q < length (spots g))%nat ->
  camels_at (move_chain true ip q below chain g) q = camels_at g q ++ chain.
Proof.
  intros Hne Hq. unfold camels_at.
  destruct (lookup_lt_is_Some_2 _ _ Hq) as [s Hs].
  destruct (move_chain_lookup_Some true ip q below chain g q s Hne Hs)
    as (s' & -> & ->).
  by rewrite Hs, decide_True.
Qed.

Lemma camels_at_clear_cards sp q :
  match map (set_s_movement_card None) sp !! q with
  | Some s => s_camels s
  | None => []
  end =
  match sp !! q with
  | Some s => s_camels s
  | None => []
  end.
Proof.
  change (map ?f ?l) with (f <$> l). rewrite list_lookup_fmap.
  by destruct (sp !! q).
Qed.

(** Without a card on spot 15 the move that ends the game does what it
    is meant to do.  Under the invariant of the engine, when
    [move_camel] is called with [n > 0] for a camel whose position plus
    [n] exceeds 15 and spot 15 carries no movement card (or the camel
    stands on spot 15 already), the call is [finish_game] applied to the state in which
    the camel and the camels above it have been put on top of spot 15:
    it returns, the game is finished, the chain is on spot 15, and no
    card is looked up, so that no coin is paid for a card and no further
    move is made. *)
Theorem finishing_move fuel color n g p :
  game_inv g -> camels g !! color = Some p ->
  n > 0 -> p + n > BOARD_SPOTS ->
  card_at g 15 = None \/ p = 15 ->
  (2 <= fuel)%nat ->
  exists sp below chain,
    spots g !! Z.to_nat p = Some sp /\
    DoublyLinkedList.find_chain color (s_camels sp) = Some (below, chain) /\
    let g1 := if decide (p = 15) then g
              else move_chain true (Z.to_nat p) 15 below chain g in
    let x := move_camel fuel color n g in
    x = finish_game g1 /\
    x.2 = Return tt /\
    playing x.1 = false /\
    (forall c, c ∈ chain -> camels x.1 !! c = Some 15) /\
    camels_at x.1 15 =
      if decide (p = 15) then camels_at g 15 else camels_at g 15 ++ chain.
Proof.
  intros Hinv Hpos Hn Hover Hcard Hfuel.
  destruct (locate_camel g color Hinv)
    as (ip & sp & below & chain & Hip & Hpos' & Hsp & Hfind & Hstack).
  assert (p = Z.of_nat ip) as -> by congruence. clear Hpos'.
  rewrite Nat2Z.id. exists sp, below, chain. split; [done|]. split; [done|].
  assert (Hlen := inv_length g Hinv).
  destruct fuel as [|fuel]; [lia|].
  rewrite (move_camel_overflow g color ip sp below chain Hlen Hpos Hsp Hfind)
    by done.
  set (g1 := if decide (Z.of_nat ip = 15) then g
             else move_chain true ip 15 below chain g).
  assert (move_camel fuel color (BOARD_SPOTS - Z.of_nat ip) g
          = (g1, Return tt)) as Hclamp.
  { unfold g1. destruct fuel as [|fuel]; [lia|].
    destruct (decide (Z.of_nat ip = 15)) as [Heq|Hne].
    - replace (BOARD_SPOTS - Z.of_nat ip) with 0
        by (unfold BOARD_SPOTS; lia). done.
    - rewrite (move_camel_land g color ip sp below chain Hlen Hpos Hsp Hfind)
        by (unfold BOARD_SPOTS; lia).
      replace (Z.to_nat (Z.of_nat ip + (BOARD_SPOTS - Z.of_nat ip)))
        with 15%nat by (unfold BOARD_SPOTS; lia).
      destruct Hcard as [->|?]; [|lia].
      rewrite bool_decide_eq_true_2 by (unfold BOARD_SPOTS; lia). done. }
  assert (game_inv g1) as Hinv1.
  { unfold g1. destruct (decide (Z.of_nat ip = 15)); [done|].
    eapply move_chain_inv; [done..|lia|lia]. }
  unfold bind at 1. rewrite Hclamp.
  destruct (finish_game_spec g1 Hinv1) as (ts & w & Hdom & Hfinish).
  rewrite Hfinish. split_and!; [done..| |].
  - intros c Hc. game_simpl. unfold finish_leg_state. game_simpl.
    unfold g1. destruct (decide (Z.of_nat ip = 15)) as [Heq|Hne].
    + rewrite (inv_pos g Hinv ip sp c Hsp); [by rewrite Heq|].
      rewrite Hstack, elem_of_app. by right.
    + unfold move_chain. game_simpl. rewrite foldl_insert_lookup.
      by rewrite decide_True.
  - unfold camels_at at 1. game_simpl.
    unfold finish_leg_state. game_simpl.
    rewrite camels_at_clear_cards. fold (camels_at g1 15).
    unfold g1. destruct (decide (Z.of_nat ip = 15)) as [Heq|Hne]; [done|].
    apply camels_at_move_chain_target; lia.
Qed.

Lemma finishing_move_witness :
  let x := move_camel 4 Color.BLUE 3
             (after (roll_dice 4 Color.GREEN 3)
                (after (roll_dice 4 Color.ORANGE 3)
                   (after (roll_dice 4 Color.YELLOW 3)
                      (after (roll_dice 4 Color.WHITE 3) stacked_game)))) in
  x.2 = Return tt /\ playing x.1 = false /\
  camels x.1 !! Color.BLUE = Some 15.
Proof.
  set (g := after (roll_dice 4 Color.GREEN 3) _).
  assert (reachable g) as Hreach.
  { unfold g. reachable_steps. }
  assert (game_inv g) as Hinv by by apply reachable_inv.
  assert (camels g !! Color.BLUE = Some 14) as Hpos by by vm_compute.
  assert (card_at g 15 = None) as Hcard by by vm_compute.
  destruct (finishing_move 4 Color.BLUE 3 g 14 Hinv Hpos ltac:(lia)
              ltac:(unfold BOARD_SPOTS; lia) (or_introl Hcard) ltac:(lia))
    as (sp & below & chain & Hsp & Hfind & _ & Hret & Hplaying & Hchain & _).
  split_and!; [done..|].
  apply Hchain.
  apply find_chain_spec in Hfind as (_ & _ & rest & ->). left.
Defined.

(** ** Settling the overall bets (C6) *)

(** The rule in the words of the design document.  A card is correct when
    its colour finished in place [target].  The [k]-th correct card of a
    list, counted from 0 in the order of placement, earns the [k]-th
    entry of [[8; 5; 3; 2; 1]], and nothing when there is no such entry;
    a card that is not correct costs one coin. *)
Definition correct (positions : gmap Color Z) (target : Z)
  (card : OverallBetCard) : Prop :=
  positions !! ob_color card = Some target.

#[global] Instance correct_dec positions target card :
  Decision (correct positions target card).
Proof. unfold correct. apply _. Defined.

Definition overall_delta (positions : gmap Color Z) (target : Z)
  (cards : list OverallBetCard) (i : nat) : Z :=
  match cards !! i with
  | None => 0
  | Some card =>
      if decide (correct positions target card)
      then nth (length (filter (correct positions target) (take i cards)))
               [8; 5; 3; 2; 1] 0
      else -1
  end.

(** What the cards of a list bring to a team. *)
Definition overall_gain (positions : gmap Color Z) (target : Z)
  (cards : list OverallBetCard) (team : TeamName) : Z :=
  foldr Z.add 0
    (imap (fun i card =>
             if decide (ob_team card = team)
             then overall_delta positions target cards i else 0)
          cards).

(** The gain as the loop of [finish_game] computes it, from payout number
    [index] on. *)
Fixpoint loop_gain (positions : gmap Color Z) (target : Z)
  (cards : list OverallBetCard) (index : nat) (team : TeamName) : Z :=
  match cards with
  | [] => 0
  | card :: rest =>
      if decide (correct positions target card) then
        if decide (index < length payoffs)%nat then
          (if decide (ob_team card = team) then nth index payoffs 0 else 0)
          + loop_gain positions target rest (S index) team
        else loop_gain positions target rest index team
      else
        (if decide (ob_team card = team) then -1 else 0)
        + loop_gain positions target rest index team
  end.

Lemma loop_gain_from positions target team (rest : list OverallBetCard) :
  forall pre,
    loop_gain positions target rest
      (length (filter (correct positions target) pre) `min` 5) team =
    foldr Z.add 0
      (imap (fun i card =>
               if decide (ob_team card = team)
               then overall_delta positions target (pre ++ rest)
                      (length pre + i)
               else 0)
            rest).
Proof.
  induction rest as [|card rest IH]; intros pre; [done|].
  cbn [loop_gain imap foldr].
  assert (forall i, (length pre + S i = length (pre ++ [card]) + i)%nat)
    as Hshift by (intros i; rewrite length_app; simpl; lia).
  assert (imap
            ((fun i c =>
                if decide (ob_team c = team)
                then overall_delta positions target (pre ++ card :: rest)
                       (length pre + i)
                else 0) ∘ S) rest =
          imap
            (fun i c =>
               if decide (ob_team c = team)
               then overall_delta positions target ((pre ++ [card]) ++ rest)
                      (length (pre ++ [card]) + i)
               else 0) rest) as ->.
  { apply imap_ext. intros i c _. simpl.
    by rewrite Hshift, <- app_assoc. }
  rewrite <- IH. rewrite filter_app, length_app.
  assert (overall_delta positions target (pre ++ card :: rest)
            (length pre + 0) =
          if decide (correct positions target card)
          then nth (length (filter (correct positions target) pre))
                   [8; 5; 3; 2; 1] 0
          else -1) as ->.
  { unfold overall_delta. rewrite Nat.add_0_r.
    rewrite lookup_app_r, Nat.sub_diag by done. simpl.
    by rewrite take_app_length. }
  set (k := length (filter (correct positions target) pre)).
  destruct (decide (correct positions target card)) as [Hc|Hc].
  - rewrite (filter_cons_True _ _ _ Hc), filter_nil. simpl length.
    change (length payoffs) with 5%nat.
    destruct (decide (k `min` 5 < 5)%nat) as [Hlt|Hge].
    + replace (k `min` 5)%nat with k by lia.
      replace ((k + 1) `min` 5)%nat with (S k) by lia. done.
    + replace (k `min` 5)%nat with 5%nat by lia.
      replace ((k + 1) `min` 5)%nat with 5%nat by lia.
      rewrite (nth_overflow _ _ (n := k)) by (simpl; lia).
      destruct (decide (ob_team card = team)); lia.
  - rewrite (filter_cons_False _ _ _ Hc), filter_nil. simpl length.
    by rewrite Nat.add_0_r.
Qed.

Lemma loop_gain_overall_gain positions target cards team :
  loop_gain positions target cards 0 team =
  overall_gain positions target cards team.
Proof. apply (loop_gain_from positions target team cards []). Qed.

(** The loop pays every team what [loop_gain] says. *)
Lemma settle_overall_coins positions target cards :
  forall index g,
    (forall c, is_Some (positions !! c)) ->
    Forall (fun card => is_Some (teams g !! ob_team card)) cards ->
    exists g',
      settle_overall positions target cards index g = (g', Return tt) /\
      same_but_teams g g' /\
      forall team t, teams g !! team = Some t ->
        exists t', teams g' !! team = Some t' /\
          t_coins t' = t_coins t + loop_gain positions target cards index team.
Proof.
  induction cards as [|card cards IH]; intros index g Htotal Hteams.
  - exists g. split; [done|]. split; [apply same_but_teams_refl|].
    intros team t Ht. exists t. split; [done|]. simpl. lia.
  - apply Forall_cons in Hteams as [[tc Htc] Hteams].
    assert (forall v index',
      let g1 := set_teams
                  (<[ob_team card := set_t_coins (t_coins tc + v) tc]>
                     (teams g)) g in
      exists g',
        settle_overall positions target cards index' g1 = (g', Return tt) /\
        same_but_teams g g' /\
        forall team t, teams g !! team = Some t ->
          exists t', teams g' !! team = Some t' /\
            t_coins t' =
            t_coins t + ((if decide (ob_team card = team) then v else 0)
                         + loop_gain positions target cards index' team))
      as Hpaid.
    { intros v index' g1.
      assert (same_but_teams g g1) as Hsame1.
      { apply (same_but_teams_insensitive g g (ob_team card));
          [by rewrite Htc|apply same_but_teams_refl]. }
      destruct (IH index' g1 Htotal) as (g' & Hrun & Hsame & Hcoins).
      { eapply Forall_impl; [done|]. simpl. intros c Hc.
        by apply (same_but_teams_lookup g g1). }
      exists g'. split; [done|]. split.
      { destruct Hsame1 as (ts1 & Hdom1 & Hg1).
        destruct Hsame as (ts & Hdom & ->).
        exists ts. split; [|by rewrite Hg1].
        rewrite Hdom. unfold g1. game_simpl. rewrite dom_insert_L.
        apply elem_of_dom_2 in Htc. set_solver. }
      intros team t Ht. unfold g1 in Hcoins. game_simpl.
      destruct (decide (ob_team card = team)) as [<-|Hne].
      - destruct (Hcoins (ob_team card) _ (lookup_insert_eq _ _ _))
          as (t' & Ht' & Hc').
        exists t'. split; [done|]. rewrite Hc'. simpl.
        assert (t = tc) as -> by congruence. lia.
      - destruct (Hcoins team t) as (t' & Ht' & Hc').
        { game_simpl. by rewrite lookup_insert_ne. }
        exists t'. split; [done|]. lia. }
    destruct (Htotal (ob_color card)) as [place Hplace].
    cbn [settle_overall loop_gain]. unfold bind at 1.
    rewrite Hplace. cbn [of_option ret].
    destruct (decide (place = target)) as [->|Hne].
    + destruct (decide (correct positions target card)) as [_|Hc];
        [|by destruct Hc].
      destruct (decide (index < length payoffs)%nat).
      * unfold bind. rewrite (add_coins_Some _ _ _ _ Htc). apply Hpaid.
      * apply (IH index g Htotal Hteams).
    + destruct (decide (correct positions target card)) as [Hc|_];
        [unfold correct in Hc; congruence|].
      unfold bind. rewrite (add_coins_Some _ _ _ _ Htc). apply Hpaid.
Qed.

(** C6.  Under the invariant of the engine [finish_game] returns, and
    when it is over every team has the coins it had after the leg was
    settled, plus what its cards in [overall_winner_cards] bring with
    place 1 as the place to reach, plus what its cards in
    [overall_loser_cards] bring with place 5: in the order of placement,
    the first five correct cards earn 8, 5, 3, 2 and 1, a later correct
    card earns and costs nothing, and every card that is not correct
    costs one coin. *)
Theorem overall_bets_settlement g :
  game_inv g ->
  exists g1 positions,
    finish_leg g = (g1, Return tt) /\
    get_positions g1 = Return positions /\
    (finish_game g).2 = Return tt /\
    forall team t1, teams g1 !! team = Some t1 ->
      exists t', teams (finish_game g).1 !! team = Some t' /\
        t_coins t' =
        t_coins t1
        + overall_gain positions 1 (overall_winner_cards g) team
        + overall_gain positions 5 (overall_loser_cards g) team.
Proof.
  intros Hinv.
  destruct (finish_leg_spec g Hinv) as (ts1 & Hdom1 & Hleg).
  set (g1 := finish_leg_state ts1 g) in *.
  assert (game_inv g1) as Hinv1 by by apply game_inv_finish_leg_state.
  destruct (get_positions_total g1 Hinv1) as (positions & Hpos & Htotal).
  exists g1, positions. split; [done|]. split; [done|].
  destruct (settle_overall_coins positions 1 (overall_winner_cards g1) 0 g1
              Htotal (inv_winner_cards g1 Hinv1))
    as (g2 & Hrun2 & Hsame2 & Hcoins2).
  assert (Forall (fun card => is_Some (teams g2 !! ob_team card))
            (overall_loser_cards g2)) as Hlosers.
  { assert (overall_loser_cards g2 = overall_loser_cards g1) as ->
      by (by destruct Hsame2 as (? & _ & ->)).
    eapply Forall_impl; [apply (inv_loser_cards g1 Hinv1)|]. simpl.
    intros c Hc. by apply (same_but_teams_lookup g1 g2). }
  destruct (settle_overall_coins positions 5 (overall_loser_cards g2) 0 g2
              Htotal Hlosers)
    as (g3 & Hrun3 & Hsame3 & Hcoins3).
  assert (overall_loser_cards g2 = overall_loser_cards g) as Hl
    by (by destruct Hsame2 as (? & _ & ->)).
  assert (is_Some (py_max (map t_coins (team_values g3)))) as [max_coins Hmax].
  { assert (team_values g3 <> []) as Hne.
    { apply (team_values_nonempty g3 (active_team g1)).
      apply (same_but_teams_lookup g2 g3); [done|].
      apply (same_but_teams_lookup g1 g2); [done|]. by apply inv_active. }
    destruct (team_values g3); [done|]. simpl. eauto. }
  assert (exists w,
    finish_game g = (set_playing false (set_winners w g3), Return tt))
    as [w Hfinish].
  { eexists. unfold finish_game.
    unfold bind at 1. rewrite Hleg.
    unfold bind at 1. unfold lift at 1. rewrite Hpos.
    unfold bind at 1. unfold gets at 1.
    unfold bind at 1. rewrite Hrun2.
    unfold bind at 1. unfold gets at 1.
    unfold bind at 1. rewrite Hrun3.
    unfold bind at 1. unfold gets at 1.
    unfold bind at 1. rewrite Hmax. unfold of_option, ret.
    unfold bind, modify. reflexivity. }
  rewrite Hfinish. split; [done|]. game_simpl.
  intros team t1 Ht1.
  destruct (Hcoins2 team t1 Ht1) as (t2 & Ht2 & Hc2).
  destruct (Hcoins3 team t2 Ht2) as (t3 & Ht3 & Hc3).
  exists t3. split; [done|].
  rewrite Hc3, Hc2, !loop_gain_overall_gain, Hl. done.
Qed.

(** A turn in which the active team bets on the blue camel to win the
    race and then takes a leg-bet card. *)
Definition overall_bet_and_leg_bet (color : Color) (g : Game) : Game :=
  after (bet_on_leg color) (after (make_overall_bet true Color.BLUE) g).

(** A game of six teams in which every team took such a turn, with a
    leg-bet card of the blue camel for teams A, B and C and of the green
    camel for teams D, E and F.  The camels are stacked on spot 2 with
    blue on top and green below it. *)
Definition six_bets_game : Game :=
  overall_bet_and_leg_bet Color.GREEN
    (overall_bet_and_leg_bet Color.GREEN
       (overall_bet_and_leg_bet Color.GREEN
          (overall_bet_and_leg_bet Color.BLUE
             (overall_bet_and_leg_bet Color.BLUE
                (overall_bet_and_leg_bet Color.BLUE
                   (game_of (new_game 6 (fun _ => 3)))))))).

Lemma reachable_overall_bet_and_leg_bet color g :
  reachable g -> reachable (overall_bet_and_leg_bet color g).
Proof.
  intros Hg. unfold overall_bet_and_leg_bet.
  by apply reachable_after_bet_on_leg, reachable_after_make_overall_bet.
Qed.

Lemma six_bets_game_reachable : reachable six_bets_game.
Proof.
  unfold six_bets_game. do 6 apply reachable_overall_bet_and_leg_bet.
  apply (reach_new 6 (fun _ => 3)); [intros c; lia|by vm_compute].
Qed.

(** Six correct bets on the winner: teams A to E receive 8, 5, 3, 2 and
    1, and the coins of team F do not change. *)
Lemma six_correct_bets :
  map ob_team (overall_winner_cards six_bets_game)
  = [TeamName.A; TeamName.B; TeamName.C; TeamName.D; TeamName.E; TeamName.F]
  /\
  map (coins_of (after finish_leg six_bets_game)) TeamName.all
  = [Some 8; Some 6; Some 5; Some 4; Some 4; Some 4; None; None] /\
  map (coins_of (after finish_game six_bets_game)) TeamName.all
  = [Some 16; Some 11; Some 8; Some 6; Some 5; Some 4; None; None].
Proof. by vm_compute. Qed.

Lemma overall_bets_settlement_witness :
  (finish_game six_bets_game).2 = Return tt.
Proof.
  assert (game_inv six_bets_game) as Hinv
    by apply reachable_inv, six_bets_game_reachable.
  by destruct (overall_bets_settlement six_bets_game Hinv)
    as (g1 & positions & _ & _ & Hret & _).
Defined.

(** ** The store of the calculator *)

Lemma deref_Some l σ g : σ !! l = Some g -> deref l σ = (σ, Return g).
Proof. intros H. unfold deref. by rewrite H. Qed.

Lemma deepcopy_Some l σ g :
  σ !! l = Some g -> deepcopy l σ = (σ ++ [g], Return (length σ)).
Proof. intros H. unfold deepcopy, bind. by rewrite (deref_Some _ _ _ H). Qed.

Lemma call_Some {A} l (m : M A) σ g :
  σ !! l = Some g -> call l m σ = (<[l := (m g).1]> σ, (m g).2).
Proof.
  intros H. unfold call, bind. rewrite (deref_Some _ _ _ H).
  by destruct (m g).
Qed.

(** [ls] are references to the games [gs]. *)
Definition refers (σ : list Game) (ls : list nat) (gs : list Game) : Prop :=
  Forall2 (fun l g => σ !! l = Some g) ls gs.

Lemma refers_prefix σ σ' ls gs :
  σ `prefix_of` σ' -> refers σ ls gs -> refers σ' ls gs.
Proof.
  intros Hpre Href. eapply Forall2_impl; [done|]. simpl.
  intros l g Hl. by eapply prefix_lookup_Some.
Qed.

(** The store-passing computation [x] and the computation on values [o]
    agree: [x] only adds objects to the store [σ], it raises when [o]
    does, with the same exception, and the references that it returns
    lead to the games that [o] returns. *)
Definition agrees (σ : list Game) (x : list Game * outcome (list nat))
  (o : outcome (list Game)) : Prop :=
  σ `prefix_of` x.1 /\
  match x.2, o with
  | Return ls, Return gs => refers x.1 ls gs
  | Raise e, Raise e' => e = e'
  | _, _ => False
  end.

Lemma for_fold_agrees {A} (l : list A)
  (body : list nat -> A -> ST (list Game) (list nat))
  (step : list Game -> A -> outcome (list Game)) (σ0 : list Game) :
  (forall x ls gs σ,
     x ∈ l -> σ0 `prefix_of` σ -> refers σ ls gs ->
     agrees σ (body ls x σ) (step gs x)) ->
  forall ls gs σ,
    σ0 `prefix_of` σ -> refers σ ls gs ->
    agrees σ (for_fold l body ls σ) (fold_outcome l step gs).
Proof.
  induction l as [|x l IH]; intros Hbody ls gs σ Hpre Href.
  - split; [done|]. done.
  - cbn [for_fold fold_outcome]. unfold bind.
    destruct (Hbody x ls gs σ) as [Hpre1 Hres1]; [left|done..|].
    destruct (body ls x σ) as [σ1 [ls1|e1]]; destruct (step gs x) as [gs1|e1'];
      simpl in Hpre1, Hres1; try done.
    assert (forall y ls gs σ,
              y ∈ l -> σ0 `prefix_of` σ -> refers σ ls gs ->
              agrees σ (body ls y σ) (step gs y)) as Hbody'.
    { intros y ls' gs' σ' Hy. apply Hbody. by right. }
    destruct (IH Hbody' ls1 gs1 σ1) as [Hpre2 Hres2]; [by etrans|done|].
    split; [by etrans|done].
Qed.

Lemma insert_snoc (σ : list Game) (x y : Game) :
  <[length σ := x]> (σ ++ [y]) = σ ++ [x].
Proof. rewrite insert_app_r_alt by done. by rewrite Nat.sub_diag. Qed.

Lemma lookup_snoc (σ : list Game) (x : Game) :
  (σ ++ [x]) !! length σ = Some x.
Proof. by apply list_lookup_middle. Qed.

(** One branch of [generate_outcomes]: the copy is a new object, the move
    and the recursive call work on the copy, and what they return is what
    the same steps return on the value of the game. *)
Lemma branch_agrees fuel game color roll (g0 : Game) ls gs σ :
  (forall game σ g0,
     σ !! game = Some g0 ->
     agrees σ (generate_outcomes fuel game σ) (outcome_states fuel g0)) ->
  σ !! game = Some g0 -> refers σ ls gs ->
  agrees σ
    ((let! g := deepcopy game in
      call g (move_camel fuel color roll) >>
      call g (modify (fun s =>
        set_die_remaining (die_remaining s ∖ {[color]}) s)) >>
      let! sub := generate_outcomes fuel g in
      ret (ls ++ sub)) σ)
    (match move_camel fuel color roll g0 with
     | (_, Raise e) => Raise e
     | (g', Return _) =>
         match outcome_states fuel
                 (set_die_remaining (die_remaining g' ∖ {[color]}) g') with
         | Raise e => Raise e
         | Return sub => Return (gs ++ sub)
         end
     end).
Proof.
  intros IH Hgame Href.
  unfold bind at 1. rewrite (deepcopy_Some _ _ _ Hgame).
  unfold bind at 1. rewrite (call_Some _ _ _ _ (lookup_snoc σ g0)).
  rewrite insert_snoc.
  destruct (move_camel fuel color roll g0) as [g' [[]|e]]; cbn [fst snd].
  - unfold bind at 1. rewrite (call_Some _ _ _ _ (lookup_snoc σ g')).
    rewrite insert_snoc. unfold modify. cbn [fst snd].
    set (g'' := set_die_remaining (die_remaining g' ∖ {[color]}) g').
    unfold bind.
    destruct (IH (length σ) (σ ++ [g'']) g'' (lookup_snoc σ g''))
      as [Hpre Hres].
    destruct (generate_outcomes fuel (length σ) (σ ++ [g''])) as [σ' [sub|e]];
      destruct (outcome_states fuel g'') as [gsub|e'];
      cbn [fst snd] in Hpre, Hres; try done.
    + assert (σ `prefix_of` σ') as Hpre'.
      { etrans; [|done]. by apply prefix_app_r. }
      split; [done|]. cbn [fst snd]. apply Forall2_app; [|done].
      by apply (refers_prefix σ).
    + split; [|done]. cbn [fst]. etrans; [|done]. by apply prefix_app_r.
  - split; [|done]. cbn [fst]. by apply prefix_app_r.
Qed.

(** [generate_outcomes] only adds objects to the store, and it returns
    references to the states that [outcome_states] computes from the
    value of the game. *)
Lemma generate_outcomes_agrees fuel :
  forall game σ g0,
    σ !! game = Some g0 ->
    agrees σ (generate_outcomes fuel game σ) (outcome_states fuel g0).
Proof.
  induction fuel as [|fuel IH]; intros game σ g0 Hgame.
  - split; done.
  - cbn [generate_outcomes outcome_states].
    unfold bind at 1. rewrite (deref_Some _ _ _ Hgame).
    destruct (decide (size (die_remaining g0) = 0%nat)).
    + split; [done|]. by repeat constructor.
    + apply (for_fold_agrees _ _ _ σ); [|done|constructor].
      intros color ls gs σ1 _ Hpre1 Href1.
      apply (for_fold_agrees _ _ _ σ); [|done..].
      intros roll ls' gs' σ2 _ Hpre2 Href2.
      apply branch_agrees; [done| |done].
      by eapply prefix_lookup_Some.
Qed.

(** Reading the outcomes does not change the store. *)
Lemma expected_payoffs_store fuel game σ :
  σ `prefix_of` (expected_payoffs fuel game σ).1.
Proof.
  unfold expected_payoffs.
  unfold bind at 1. unfold deref at 1.
  destruct (σ !! game) as [g0|] eqn:Hgame; [|done]. cbn [of_option ret].
  unfold bind at 1.
  destruct (generate_outcomes_agrees fuel game σ g0 Hgame) as [Hpre _].
  destruct (generate_outcomes fuel game σ) as [σ' [ls|e]]; [|done].
  cbn [fst] in Hpre. unfold bind at 1.
  match goal with
  | |- context [for_fold ls ?body ?acc σ'] =>
      assert (triple (fun s => s = σ') (for_fold ls body acc)
                (fun _ s => s = σ') (fun _ s => s = σ')) as Hloop
  end.
  { apply (triple_for_fold (fun _ s => s = σ')). intros b outcome _.
    eapply triple_bind with (R := fun _ s => s = σ').
    - eapply triple_bind with (R := fun _ s => s = σ').
      + intros s ->. unfold deref. by destruct (σ' !! outcome).
      + intros o s ->. unfold lift. by destruct (get_positions o).
    - intros positions.
      apply (triple_for_fold (fun _ s => s = σ')). intros b' c _.
      eapply triple_bind with (R := fun _ s => s = σ').
      + by apply triple_of_option.
      + intros [card|]; [|by apply triple_ret].
        eapply triple_bind with (R := fun _ s => s = σ').
        * by apply triple_of_option.
        * intros place. eapply triple_bind with (R := fun _ s => s = σ').
          -- by apply triple_of_option.
          -- intros total. by apply triple_ret. }
  specialize (Hloop σ' eq_refl).
  match goal with
  | |- context [for_fold ls ?body ?acc σ'] =>
      destruct (for_fold ls body acc σ') as [σ'' [expected|e]]
  end; by subst σ''.
Qed.

Lemma calculate_best_leg_bet_store fuel game σ :
  σ `prefix_of` (calculate_best_leg_bet fuel game σ).1.
Proof.
  unfold calculate_best_leg_bet. unfold bind at 1.
  assert (Hpre := expected_payoffs_store fuel game σ).
  destruct (expected_payoffs fuel game σ) as [σ' [[expected count]|e]];
    [|done].
  cbn [fst] in Hpre. unfold bind at 1.
  destruct (py_max_key Color.all expected) as [best|]; [|done].
  cbn [of_option ret]. unfold bind.
  destruct (expected !! best); [|done]. cbn [of_option ret].
  by destruct (decide (count = 0%nat)).
Qed.

(** ** The calculator works on copies (C9) *)

(** C9.  [calculate_best_leg_bet] and [generate_outcomes] leave every
    object of the store as it is, in particular the game of the caller,
    whether they return or raise: they only add the copies they make.
    And no branch of the enumeration sees what another branch does: when
    [generate_outcomes] is over, the references that it returns lead to
    the states that the moves produce when every branch is computed from
    the value of the game alone, and it raises exactly when that
    computation does. *)
Theorem enumeration_is_isolated fuel game σ :
  (forall l g, σ !! l = Some g ->
     (calculate_best_leg_bet fuel game σ).1 !! l = Some g) /\
  (forall l g, σ !! l = Some g ->
     (generate_outcomes fuel game σ).1 !! l = Some g) /\
  (forall g0, σ !! game = Some g0 ->
     match (generate_outcomes fuel game σ).2 with
     | Return ls =>
         exists gs, outcome_states fuel g0 = Return gs /\
                    refers (generate_outcomes fuel game σ).1 ls gs
     | Raise e => outcome_states fuel g0 = Raise e
     end).
Proof.
  split_and!.
  - intros l g Hl. eapply prefix_lookup_Some; [done|].
    apply calculate_best_leg_bet_store.
  - intros l g Hl. eapply prefix_lookup_Some; [done|].
    destruct (σ !! game) as [g0|] eqn:Hgame.
    + apply (generate_outcomes_agrees fuel game σ g0 Hgame).
    + destruct fuel; [done|]. cbn [generate_outcomes].
      unfold bind, deref. by rewrite Hgame.
  - intros g0 Hgame.
    destruct (generate_outcomes_agrees fuel game σ g0 Hgame) as [_ Hres].
    destruct (generate_outcomes fuel game σ) as [σ' [ls|e]];
      destruct (outcome_states fuel g0) as [gs|e'];
      cbn [fst snd] in *; try done; [eauto|congruence].
Qed.

(** The stacked game after the white, yellow, orange and green dice each
    gave a 1: the camels are on spots 3 to 6 and only the blue die is
    left. *)
Definition one_die_game : Game :=
  after (roll_dice 4 Color.GREEN 1)
    (after (roll_dice 4 Color.ORANGE 1)
       (after (roll_dice 4 Color.YELLOW 1)
          (after (roll_dice 4 Color.WHITE 1) stacked_game))).

Lemma one_die_game_reachable : reachable one_die_game.
Proof. unfold one_die_game. reachable_steps. Qed.

Lemma enumeration_is_isolated_witness :
  (calculate_best_leg_bet 4 0 [one_die_game]).1 !! 0%nat = Some one_die_game
  /\
  (generate_outcomes 4 0 [one_die_game]).1 !! 0%nat = Some one_die_game /\
  match (generate_outcomes 4 0 [one_die_game]).2 with
  | Return ls =>
      exists gs, outcome_states 4 one_die_game = Return gs /\
                 refers (generate_outcomes 4 0 [one_die_game]).1 ls gs
  | Raise e => outcome_states 4 one_die_game = Raise e
  end.
Proof.
  destruct (enumeration_is_isolated 4 0 [one_die_game]) as (H1 & H2 & H3).
  split_and!; [by apply H1|by apply H2|by apply H3].
Defined.

(** In that game the enumeration returns three outcomes. *)
Lemma one_die_game_outcomes :
  (calculate_best_leg_bet 4 0 [one_die_game]).2
  = Return (Color.BLUE, (15, 3)) /\
  length <$> (match (generate_outcomes 4 0 [one_die_game]).2 with
              | Return ls => Some ls
              | Raise _ => None
              end) = Some 3%nat.
Proof. by vm_compute. Qed.

(** ** The best leg bet (C2) *)

(** The active team takes a leg-bet card of each colour of [colors], one
    after the other (last colour first). *)
Definition after_leg_bets (colors : list Color) (g : Game) : Game :=
  foldr (fun color g => after (bet_on_leg color) g) g colors.

Lemma reachable_after_leg_bets colors g :
  reachable g -> reachable (after_leg_bets colors g).
Proof.
  intros Hg. induction colors as [|color colors IH]; [done|].
  by apply reachable_after_bet_on_leg.
Qed.

(** The game with one die left, after the teams took the fifteen leg-bet
    cards. *)
Definition no_cards_game : Game :=
  after_leg_bets (Color.all ++ Color.all ++ Color.all) one_die_game.

Lemma no_cards_game_reachable : reachable no_cards_game.
Proof. apply reachable_after_leg_bets, one_die_game_reachable. Qed.

(** When no colour has a leg-bet card left every total is 0, and
    [calculate_best_leg_bet] returns the blue camel, which has no
    card. *)
Lemma best_bet_without_card :
  leg_bet_cards no_cards_game !! Color.BLUE = Some [] /\
  (calculate_best_leg_bet 4 0 [no_cards_game]).2
  = Return (Color.BLUE, (0, 3)).
Proof. by vm_compute. Qed.

(** The game with one die left, after the teams took the three leg-bet
    cards of the blue camel and the three of the green one: the orange,
    the yellow and the white camel have their cards. *)
Definition two_empty_decks_game : Game :=
  after_leg_bets (replicate 3 Color.GREEN ++ replicate 3 Color.BLUE)
    one_die_game.

Lemma two_empty_decks_game_reachable : reachable two_empty_decks_game.
Proof. apply reachable_after_leg_bets, one_die_game_reachable. Qed.

(** C2.  The code breaks the claim.  In a game that can be reached, with
    the cards of the blue and of the green camel taken and those of the
    three other camels in their decks, the totals over the three
    outcomes are 0, 0, -3, -3 and -3, and [calculate_best_leg_bet]
    returns the blue camel: a colour without a card is not left out of
    the choice, and the bet that is returned as the best one to make
    cannot be made, [bet_on_leg] raises [InvalidMoveException] for
    it. *)
Lemma best_bet_cannot_be_made :
  let g := two_empty_decks_game in
  reachable g /\
  leg_bet_cards g !! Color.BLUE = Some [] /\
  leg_bet_cards g !! Color.GREEN = Some [] /\
  (forall c, c ∈ [Color.ORANGE; Color.YELLOW; Color.WHITE] ->
     leg_bet_cards g !! c = generate_initial_leg_bet_cards !! c) /\
  (exists expected,
     (expected_payoffs 4 0 [g]).2 = Return (expected, 3%nat) /\
     (fun c => expected !! c) <$> Color.all
     = [Some 0; Some 0; Some (-3); Some (-3); Some (-3)]) /\
  (calculate_best_leg_bet 4 0 [g]).2 = Return (Color.BLUE, (0, 3)) /\
  bet_on_leg Color.BLUE g = (g, Raise InvalidMoveException).
Proof.
  intros g. split; [apply two_empty_decks_game_reachable|].
  split; [by vm_compute|]. split; [by vm_compute|]. split.
  { intros c Hc. repeat apply elem_of_cons in Hc as [->|Hc];
      [by vm_compute..|by apply elem_of_nil in Hc]. }
  split; [|split; by vm_compute].
  match eval vm_compute in (expected_payoffs 4 0 [g]).2 with
  | Return (?expected, _) => exists expected
  end.
  split; by vm_compute.
Qed.

(** [max(d, key=d.get)] returns a key whose value is the greatest. *)
Lemma py_max_key_spec keys (d : gmap Color Z) best :
  py_max_key keys d = Some best ->
  best ∈ keys /\
  forall c, c ∈ keys -> default 0 (d !! c) <= default 0 (d !! best).
Proof.
  destruct keys as [|k keys]; [done|]. simpl. intros [= <-].
  set (pick := fun best c =>
                 if decide (default 0 (d !! c) > default 0 (d !! best))
                 then c else best).
  assert (forall l b,
            (foldl pick b l = b \/ foldl pick b l ∈ l) /\
            default 0 (d !! b) <= default 0 (d !! foldl pick b l) /\
            forall c, c ∈ l ->
              default 0 (d !! c) <= default 0 (d !! foldl pick b l)) as H.
  { induction l as [|x l IH]; intros b; simpl.
    - split_and!; [by left|lia|by intros c ?%elem_of_nil].
    - destruct (IH (pick b x)) as (Hin & Hge & Hall).
      assert (default 0 (d !! b) <= default 0 (d !! pick b x) /\
              default 0 (d !! x) <= default 0 (d !! pick b x) /\
              (pick b x = b \/ pick b x = x)) as (Hb & Hx & Hpick).
      { unfold pick. destruct (decide _); split_and!; auto; lia. }
      split_and!.
      + destruct Hin as [->|Hin].
        * destruct Hpick as [->| ->]; [by left|right; left].
        * right. by right.
      + lia.
      + intros c [->|Hc]%elem_of_cons; [lia|by apply Hall]. }
  destruct (H keys k) as (Hin & Hge & Hall). split.
  - destruct Hin as [->|Hin]; [left|by right].
  - intros c [->|Hc]%elem_of_cons; [done|by apply Hall].
Qed.

(** The totals of the colours that have no leg-bet card stay 0. *)
Lemma expected_payoffs_no_card fuel game σ g0 σ' expected count :
  σ !! game = Some g0 ->
  expected_payoffs fuel game σ = (σ', Return (expected, count)) ->
  forall c, leg_bet_cards g0 !! c = Some [] -> expected !! c = Some 0.
Proof.
  intros Hgame. unfold expected_payoffs.
  unfold bind at 1. rewrite (deref_Some _ _ _ Hgame).
  unfold bind at 1.
  destruct (generate_outcomes fuel game σ) as [σ1 [ls|e]]; [|done].
  set (payoffs := head <$> leg_bet_cards g0).
  set (P := fun expected : gmap Color Z =>
              forall c, leg_bet_cards g0 !! c = Some [] ->
                        expected !! c = Some 0).
  unfold bind at 1.
  match goal with
  | |- context [for_fold ls ?body ?acc σ1] =>
      assert (triple (fun _ => P acc) (for_fold ls body acc)
                (fun expected _ => P expected) (fun _ _ => True)) as Hloop
  end.
  { apply (triple_for_fold (fun expected _ => P expected)).
    intros b outcome _.
    eapply triple_bind with (R := fun _ _ => P b).
    - eapply triple_bind with (R := fun _ _ => P b).
      + intros s Hb. unfold deref. by destruct (s !! outcome).
      + intros o s Hb. unfold lift. by destruct (get_positions o).
    - intros positions.
      apply (triple_for_fold (fun expected _ => P expected)). intros b' c _.
      eapply triple_bind with (R := fun payoff _ =>
                                      P b' /\ payoffs !! c = Some payoff).
      + by apply triple_of_option.
      + intros [card|]; [|apply triple_ret; by intros ? []].
        eapply triple_bind with (R := fun _ _ =>
                                        P b' /\ payoffs !! c = Some (Some card)).
        * by apply triple_of_option.
        * intros place.
          eapply triple_bind with (R := fun _ _ =>
                                          P b' /\ payoffs !! c = Some (Some card)).
          -- by apply triple_of_option.
          -- intros total. apply triple_ret. intros _ [Hb' Hc] c' Hc'.
             rewrite lookup_insert_ne; [by apply Hb'|].
             intros ->. unfold payoffs in Hc. rewrite lookup_fmap, Hc' in Hc.
             done. }
  match goal with
  | H : triple _ (for_fold ls ?body ?acc) _ _ |- _ =>
      assert (P acc) as Hacc
  end.
  { intros c _. by destruct c. }
  specialize (Hloop σ1 Hacc).
  match goal with
  | |- context [for_fold ls ?body ?acc σ1] =>
      destruct (for_fold ls body acc σ1) as [σ2 [expected'|e]]
  end; [|done].
  intros [= -> <- <-]. done.
Qed.

(** When [calculate_best_leg_bet] returns, the total of every colour
    whose list of leg-bet cards was empty when the enumeration started
    is 0, and the colour that is returned has the greatest total.  A
    colour without a card is not left out of the choice: it is returned
    only when no colour has a positive total. *)
Theorem best_leg_bet fuel game σ g0 σ' best total count :
  σ !! game = Some g0 ->
  calculate_best_leg_bet fuel game σ = (σ', Return (best, (total, count))) ->
  exists expected,
    expected_payoffs fuel game σ
    = (σ', Return (expected, Z.to_nat count)) /\
    expected !! best = Some total /\
    (forall c, leg_bet_cards g0 !! c = Some [] -> expected !! c = Some 0) /\
    (forall c v, expected !! c = Some v -> v <= total) /\
    (leg_bet_cards g0 !! best = Some [] ->
     total = 0 /\ forall c v, expected !! c = Some v -> v <= 0).
Proof.
  intros Hgame. unfold calculate_best_leg_bet. unfold bind at 1.
  destruct (expected_payoffs fuel game σ) as [σ1 [[expected n]|e]] eqn:Hexp;
    [|done].
  unfold bind at 1.
  destruct (py_max_key Color.all expected) as [best'|] eqn:Hmax; [|done].
  cbn [of_option ret]. unfold bind.
  destruct (expected !! best') as [total'|] eqn:Hbest; [|done].
  cbn [of_option ret]. destruct (decide (n = 0%nat)); [done|].
  intros [= -> -> -> <-]. rewrite Nat2Z.id.
  exists expected. split; [done|]. split; [done|].
  assert (forall c, leg_bet_cards g0 !! c = Some [] -> expected !! c = Some 0)
    as Hzero by by eapply expected_payoffs_no_card.
  assert (forall c v, expected !! c = Some v -> v <= total) as Hgreatest.
  { intros c v Hc. apply py_max_key_spec in Hmax as [_ Hmax].
    specialize (Hmax c (elem_of_Color_all c)).
    by rewrite Hc, Hbest in Hmax. }
  split_and!; [done..|].
  intros Hnone. apply Hzero in Hnone.
  assert (total = 0) as -> by congruence. done.
Qed.

Lemma best_leg_bet_witness :
  exists expected,
    expected_payoffs 4 0 [no_cards_game]
    = ((calculate_best_leg_bet 4 0 [no_cards_game]).1,
       Return (expected, 3%nat)) /\
    forall c v, expected !! c = Some v -> v <= 0.
Proof.
  destruct (best_leg_bet 4 0 [no_cards_game] no_cards_game
              (calculate_best_leg_bet 4 0 [no_cards_game]).1
              Color.BLUE 0 3 eq_refl)
    as (expected & Hexp & _ & _ & Hgreatest & _).
  { by vm_compute. }
  exists expected. split; [done|]. done.
Defined.

(** ** The enumeration of a game that can end (C1) *)

(** With more recursion depth [move_camel] returns the same. *)
Lemma move_camel_mono fuel :
  forall fuel' c n g g' r,
    (fuel <= fuel')%nat ->
    move_camel fuel c n g = (g', Return r) ->
    move_camel fuel' c n g = (g', Return r).
Proof.
  induction fuel as [|fuel IH]; intros fuel' c n g g' r Hle; [done|].
  destruct fuel' as [|fuel']; [lia|].
  assert (forall c n g g' r,
            move_camel fuel c n g = (g', Return r) ->
            move_camel fuel' c n g = (g', Return r)) as IH'.
  { intros. apply (IH fuel'); [lia|done]. }
  clear IH. cbn [move_camel].
  destruct (decide (n = 0)); [done|]. intros H.
  unfold bind at 1 in H. unfold bind at 1.
  destruct (of_option KeyError (camels g !! c) g) as [g1 [pos|e]]; [|done].
  unfold bind at 1 in H. unfold bind at 1.
  destruct (get_spot pos g1) as [g2 [spot|e]]; [|done].
  unfold bind at 1 in H. unfold bind at 1.
  destruct (of_option AssertionError
              (DoublyLinkedList.find_chain c (s_camels spot)) g2)
    as [g3 [[below chain]|e]]; [|done].
  assert (forall g4 : Game,
    (let! landed := get_spot (pos + n) in
     match s_movement_card landed with
     | Some movement_card =>
         add_coins (mc_team movement_card) 1 >>
         move_camel fuel c (if mc_forward movement_card then 1 else -1)
     | None => ret tt
     end) g4 = (g', Return r) ->
    (let! landed := get_spot (pos + n) in
     match s_movement_card landed with
     | Some movement_card =>
         add_coins (mc_team movement_card) 1 >>
         move_camel fuel' c (if mc_forward movement_card then 1 else -1)
     | None => ret tt
     end) g4 = (g', Return r)) as Hcascade.
  { intros g4 Hc. unfold bind at 1 in Hc. unfold bind at 1.
    destruct (get_spot (pos + n) g4) as [g5 [landed|e]]; [|done].
    destruct (s_movement_card landed) as [card|]; [|done].
    unfold bind in Hc |- *.
    destruct (add_coins (mc_team card) 1 g5) as [g6 [[]|e]]; [|done].
    by apply IH'. }
  assert (forall (m k1 k2 : M unit) (g4 : Game),
    (forall g5, k1 g5 = (g', Return r) -> k2 g5 = (g', Return r)) ->
    (m >> k1) g4 = (g', Return r) -> (m >> k2) g4 = (g', Return r)) as Hseq.
  { intros m k1 k2 g4 Hk. unfold bind.
    destruct (m g4) as [g5 [[]|e]]; [apply Hk|done]. }
  destruct (decide (n > 0)).
  - destruct (decide (pos + n > BOARD_SPOTS)).
    + unfold bind in H |- *.
      destruct (move_camel fuel c (BOARD_SPOTS - pos) g3) as [gx [[]|e]] eqn:E;
        [|done].
      by rewrite (IH' _ _ _ _ _ E).
    + revert H. apply Hseq. intros g4. apply Hseq. intros g5.
      apply Hseq. intros g6. apply Hcascade.
  - revert H. apply Hseq. intros g4. apply Hseq. intros g5.
    apply Hseq. intros g6. apply Hcascade.
Qed.

(** When [move_camel] returns, what it returns does not depend on the
    recursion depth it was given. *)
Lemma move_camel_deterministic fuel1 fuel2 c n g g1 g2 r1 r2 :
  move_camel fuel1 c n g = (g1, Return r1) ->
  move_camel fuel2 c n g = (g2, Return r2) ->
  g1 = g2.
Proof.
  intros H1 H2.
  apply (move_camel_mono fuel1 (fuel1 `max` fuel2)) in H1; [|lia].
  apply (move_camel_mono fuel2 (fuel1 `max` fuel2)) in H2; [|lia].
  congruence.
Qed.

Lemma fold_outcome_Return {A B} (l : list A) (step : B -> A -> outcome B) :
  forall acc r,
    fold_outcome l step acc = Return r ->
    forall x, x ∈ l -> exists acc' r', step acc' x = Return r'.
Proof.
  induction l as [|y l IH]; intros acc r Hfold x Hx.
  - by apply elem_of_nil in Hx.
  - cbn [fold_outcome] in Hfold.
    destruct (step acc y) as [acc1|e] eqn:Hstep; [|done].
    apply elem_of_cons in Hx as [->|Hx]; [eauto|].
    by apply (IH acc1 r).
Qed.

(** When the enumeration returns, every branch returned. *)
Lemma outcome_states_branch fuel g gs color roll :
  outcome_states (S fuel) g = Return gs ->
  color ∈ die_remaining g -> roll ∈ [1; 2; 3] ->
  exists g' sub,
    move_camel fuel color roll g = (g', Return tt) /\
    outcome_states fuel (set_die_remaining (die_remaining g' ∖ {[color]}) g')
    = Return sub.
Proof.
  intros Hret Hcolor Hroll. cbn [outcome_states] in Hret.
  destruct (decide (size (die_remaining g) = 0%nat)) as [Hsize|_].
  { apply size_empty_inv in Hsize. set_solver. }
  eapply fold_outcome_Return in Hret as (acc & r & Hinner);
    [|by apply elem_of_elements].
  eapply fold_outcome_Return in Hinner as (acc' & r' & Hbranch); [|done].
  destruct (move_camel fuel color roll g) as [g' [[]|e]]; [|done].
  destruct (outcome_states fuel _) as [sub|e] eqn:Hsub; [|done].
  eauto.
Qed.

(** A move of a camel that stands on the last spot ends the game: the
    camels stay where they are and all the dice come back. *)
Lemma move_camel_on_last_spot fuel c n g g' r :
  camels g !! c = Some BOARD_SPOTS -> n > 0 ->
  move_camel fuel c n g = (g', Return r) ->
  camels g' = camels g /\ die_remaining g' = all_dice.
Proof.
  intros Hpos Hn. destruct fuel as [|fuel]; [done|]. cbn [move_camel].
  rewrite decide_False by lia.
  unfold bind at 1. rewrite Hpos. cbn [of_option ret].
  unfold bind at 1. destruct (get_spot BOARD_SPOTS g) as [g1 [spot|e]] eqn:Hspot;
    [|done].
  assert (g1 = g) as ->.
  { unfold get_spot in Hspot. by destruct (py_get (spots g) BOARD_SPOTS);
      injection Hspot. }
  unfold bind at 1.
  destruct (DoublyLinkedList.find_chain c (s_camels spot)) as [[below chain]|];
    [|done].
  cbn [of_option ret].
  rewrite decide_True by done. rewrite decide_True by lia.
  replace (BOARD_SPOTS - BOARD_SPOTS) with 0 by lia.
  destruct fuel as [|fuel]; [done|]. unfold bind. rewrite move_camel_zero.
  intros Hfinish.
  assert (Hspec := finish_game_camels_dice g g (conj eq_refl eq_refl)).
  rewrite Hfinish in Hspec. by destruct Hspec as (? & _ & ?).
Qed.

(** Two camels on the last spot, one of them with its die still to roll:
    every roll of one of the two ends the game and brings the die of the
    other back. *)
Definition never_ending (g : Game) : Prop :=
  exists c1 c2,
    c1 <> c2 /\
    camels g !! c1 = Some BOARD_SPOTS /\ camels g !! c2 = Some BOARD_SPOTS /\
    (c1 ∈ die_remaining g \/ c2 ∈ die_remaining g).

Lemma elem_of_all_dice (c : Color) : c ∈ all_dice.
Proof. destruct c; compute_done. Qed.

(** From such a state the enumeration does not return, whatever the
    recursion depth. *)
Lemma never_ending_raises fuel :
  forall g, never_ending g -> exists e, outcome_states fuel g = Raise e.
Proof.
  induction fuel as [|fuel IH]; intros g Hg; [by eexists|].
  destruct (outcome_states (S fuel) g) as [gs|e] eqn:Hret; [|by eexists].
  exfalso.
  assert (exists c c', c <> c' /\
            camels g !! c = Some BOARD_SPOTS /\
            camels g !! c' = Some BOARD_SPOTS /\ c ∈ die_remaining g)
    as (c & c' & Hne & Hc & Hc' & Hdie).
  { destruct Hg as (c1 & c2 & Hne & H1 & H2 & [Hd|Hd]).
    - exists c1, c2. done.
    - exists c2, c1. done. }
  destruct (outcome_states_branch fuel g gs c 1 Hret Hdie)
    as (g' & sub & Hmove & Hsub); [set_solver|].
  destruct (move_camel_on_last_spot fuel c 1 g g' tt Hc ltac:(lia) Hmove)
    as [Hcamels Hdice].
  destruct (IH (set_die_remaining (die_remaining g' ∖ {[c]}) g')) as [e He].
  - exists c', c. split_and!; [done|game_simpl; congruence..|].
    left. game_simpl. rewrite Hdice.
    apply elem_of_difference. split; [apply elem_of_all_dice|set_solver].
  - congruence.
Qed.

(** One branch of the enumeration, on values: the move, then the die is
    taken out. *)
Definition enum_step (color : Color) (roll : Z) (g : Game) : Game :=
  let g' := after (move_camel 4 color roll) g in
  set_die_remaining (die_remaining g' ∖ {[color]}) g'.

Lemma outcome_states_enum_step fuel g gs color roll :
  outcome_states fuel g = Return gs ->
  color ∈ die_remaining g -> roll ∈ [1; 2; 3] ->
  (move_camel 4 color roll g).2 = Return tt ->
  exists fuel' sub,
    outcome_states fuel' (enum_step color roll g) = Return sub.
Proof.
  intros Hret Hcolor Hroll Hmove. destruct fuel as [|fuel]; [done|].
  destruct (outcome_states_branch fuel g gs color roll Hret Hcolor Hroll)
    as (g' & sub & Hmove' & Hsub).
  exists fuel, sub. unfold enum_step, after.
  destruct (move_camel 4 color roll g) as [g4 r4] eqn:Hmove4.
  simpl in Hmove. subst r4.
  by rewrite (move_camel_deterministic _ _ _ _ _ _ _ _ _ Hmove4 Hmove').
Qed.

(** The stacked game after the six branches white 3, yellow 3, orange 3,
    green 3, blue 3 and green 3 of the enumeration: the blue camel went
    past the last spot, which ended the game and brought the dice back,
    and so did the green camel. *)
Definition both_on_last_spot : Game :=
  enum_step Color.GREEN 3
    (enum_step Color.BLUE 3
       (enum_step Color.GREEN 3
          (enum_step Color.ORANGE 3
             (enum_step Color.YELLOW 3
                (enum_step Color.WHITE 3 stacked_game))))).

Lemma both_on_last_spot_never_ending : never_ending both_on_last_spot.
Proof.
  exists Color.BLUE, Color.GREEN. split_and!; [done|by vm_compute..|].
  left. by vm_compute.
Qed.

Lemma outcome_states_stacked_game fuel :
  exists e, outcome_states fuel stacked_game = Raise e.
Proof.
  destruct (outcome_states fuel stacked_game) as [gs|e] eqn:Hret;
    [|by eexists].
  exfalso.
  eapply (outcome_states_enum_step _ _ _ Color.WHITE 3) in Hret
    as (fuel1 & gs1 & Hret); [|by vm_compute|set_solver|by vm_compute].
  eapply (outcome_states_enum_step _ _ _ Color.YELLOW 3) in Hret
    as (fuel2 & gs2 & Hret); [|by vm_compute|set_solver|by vm_compute].
  eapply (outcome_states_enum_step _ _ _ Color.ORANGE 3) in Hret
    as (fuel3 & gs3 & Hret); [|by vm_compute|set_solver|by vm_compute].
  eapply (outcome_states_enum_step _ _ _ Color.GREEN 3) in Hret
    as (fuel4 & gs4 & Hret); [|by vm_compute|set_solver|by vm_compute].
  eapply (outcome_states_enum_step _ _ _ Color.BLUE 3) in Hret
    as (fuel5 & gs5 & Hret); [|by vm_compute|set_solver|by vm_compute].
  eapply (outcome_states_enum_step _ _ _ Color.GREEN 3) in Hret
    as (fuel6 & gs6 & Hret); [|by vm_compute|set_solver|by vm_compute].
  destruct (never_ending_raises fuel6 _ both_on_last_spot_never_ending)
    as [e He].
  unfold both_on_last_spot in He. congruence.
Qed.

(** C1 fails on the code.  In a new game whose five camels start on the
    same spot, 2, the game is in progress and the five dice are left, but
    [generate_outcomes] does not return the 5! * 3^5 outcomes: a branch
    in which a camel goes past the last spot runs [finish_game], which
    puts the five dice back, so [g.die_remaining.discard(color)] leaves
    four dice instead of none and the recursion goes on; with two camels
    on the last spot it never ends.  Whatever the recursion depth that it
    is allowed, [generate_outcomes] raises, and so does
    [calculate_best_leg_bet]. *)
Theorem enumeration_of_stacked_game :
  reachable stacked_game /\
  playing stacked_game = true /\
  size (die_remaining stacked_game) = 5%nat /\
  forall fuel,
    exists e,
      (generate_outcomes fuel 0 [stacked_game]).2 = Raise e /\
      (calculate_best_leg_bet fuel 0 [stacked_game]).2 = Raise e.
Proof.
  split_and!; [apply stacked_game_reachable|by vm_compute..|].
  intros fuel. destruct (outcome_states_stacked_game fuel) as [e He].
  exists e.
  assert ((generate_outcomes fuel 0 [stacked_game]).2 = Raise e) as Hgen.
  { destruct (generate_outcomes_agrees fuel 0 [stacked_game] stacked_game
                eq_refl) as [_ Hres].
    rewrite He in Hres.
    destruct (generate_outcomes fuel 0 [stacked_game]) as [σ [ls|e']];
      cbn [fst snd] in *; [done|congruence]. }
  split; [done|].
  unfold calculate_best_leg_bet, expected_payoffs.
  unfold bind at 1. unfold bind at 1. unfold deref at 1.
  cbn [lookup list_lookup of_option ret]. unfold bind at 1.
  destruct (generate_outcomes fuel 0 [stacked_game]) as [σ [ls|e']];
    cbn [fst snd] in *; [done|congruence].
Qed.

(** ** The enumeration away from the last spot

    When no camel can reach the end of the board before the leg is over,
    no branch ends the game, and the enumeration returns the [k! * 3^k]
    outcomes of the [k] dice that are left. *)

(** Every camel stands on spot [b] or behind it. *)
Definition behind (b : Z) (g : Game) : Prop :=
  forall c p, camels g !! c = Some p -> p <= b.

Lemma behind_move_chain forward ip q below chain g b :
  behind b g -> Z.of_nat q <= b ->
  behind b (move_chain forward ip q below chain g).
Proof.
  intros Hb Hq c p. unfold move_chain. game_simpl.
  rewrite foldl_insert_lookup. destruct (decide (c ∈ chain)).
  - intros [= <-]. done.
  - apply Hb.
Qed.

Lemma behind_weaken b b' g : behind b g -> b <= b' -> behind b' g.
Proof. intros Hb Hle c p Hc. specialize (Hb c p Hc). lia. Qed.

(** A move of 1 to 3 spots, at least four spots before the end of the
    board: the camel lands, a card may push it one spot further or back,
    and the game goes on with the same dice. *)
Lemma move_camel_within_board fuel c n g b :
  game_inv g -> behind b g -> b + 4 <= BOARD_SPOTS ->
  1 <= n <= 3 -> (2 <= fuel)%nat ->
  exists g',
    move_camel fuel c n g = (g', Return tt) /\
    game_inv g' /\ behind (b + 4) g' /\
    die_remaining g' = die_remaining g.
Proof.
  intros Hinv Hb Hboard Hn Hfuel. unfold BOARD_SPOTS in *.
  destruct fuel as [|fuel]; [lia|].
  destruct (locate_camel g c Hinv)
    as (ip & sp & below & chain & Hip & Hpos & Hsp & Hfind & Hstack).
  assert (Hlen := inv_length g Hinv).
  assert (Z.of_nat ip <= b) as Hipb by by apply (Hb c).
  rewrite (move_camel_land g c ip sp below chain Hlen Hpos Hsp Hfind)
    by (unfold BOARD_SPOTS; lia).
  set (q := Z.to_nat (Z.of_nat ip + n)).
  assert (ip <> q) as Hne by lia.
  assert (q < 16)%nat as Hq by lia.
  rewrite bool_decide_eq_true_2 by lia.
  set (g1 := move_chain true ip q below chain g).
  assert (game_inv g1) as Hinv1 by by eapply move_chain_inv.
  assert (behind (b + 3) g1) as Hb1.
  { apply behind_move_chain; [|lia]. apply (behind_weaken b); [done|lia]. }
  destruct (card_at g q) as [card|] eqn:Hcard.
  2:{ exists g1. split; [reflexivity|]. split_and!; [done| |done].
      apply (behind_weaken (b + 3)); [done|lia]. }
  rewrite <- (card_at_move_chain true ip q below chain g q Hne) in Hcard.
  fold g1 in Hcard.
  destruct (card_at_neighbours g1 q card Hinv1 Hcard)
    as (Hq1 & [t Ht] & Hnext & Hprev).
  unfold cascade, bind. rewrite (add_coins_Some _ _ _ _ Ht).
  set (g2 := set_teams _ g1).
  assert (game_inv g2) as Hinv2.
  { apply game_inv_teams_insensitive; [by rewrite Ht|done]. }
  destruct fuel as [|fuel]; [lia|].
  destruct (locate_camel g2 c Hinv2)
    as (ip2 & sp2 & below2 & chain2 & Hip2 & Hpos2 & Hsp2 & Hfind2 & Hstack2).
  assert (ip2 = q) as ->.
  { apply find_chain_spec in Hfind as (_ & _ & rest & Hchain).
    assert (camels g2 !! c = Some (Z.of_nat q)) as Hc
      by apply (camels_move_chain _ _ _ _ _ _ _ _ Hchain).
    rewrite Hpos2 in Hc. injection Hc. lia. }
  assert (forall d : Z,
    d = 1 \/ d = -1 ->
    card_at g2 (Z.to_nat (Z.of_nat q + d)) = None ->
    exists g',
      move_camel (S fuel) c d g2 = (g', Return tt) /\
      game_inv g' /\ behind (b + 4) g' /\
      die_remaining g' = die_remaining g) as Hstep.
  { intros d Hd Hnone.
    rewrite (move_camel_land g2 c q sp2 below2 chain2
               (inv_length g2 Hinv2) Hpos2 Hsp2 Hfind2)
      by (unfold BOARD_SPOTS; lia).
    rewrite Hnone. eexists. split; [done|]. split_and!.
    - eapply move_chain_inv; [done..|lia|lia].
    - apply behind_move_chain; [|lia].
      apply (behind_weaken (b + 3)); [|lia]. done.
    - done. }
  destruct (mc_forward card).
  - apply Hstep; [by left|].
    replace (Z.to_nat (Z.of_nat q + 1)) with (S q) by lia. done.
  - apply Hstep; [by right|].
    replace (Z.to_nat (Z.of_nat q + -1)) with (q - 1)%nat by lia. done.
Qed.

Lemma fold_outcome_length {A} (P : Game -> Prop) (l : list A)
  (step : list Game -> A -> outcome (list Game)) (m : nat) :
  (forall x acc, x ∈ l ->
     exists sub, step acc x = Return (acc ++ sub) /\
                 length sub = m /\ Forall P sub) ->
  forall acc,
    exists r, fold_outcome l step acc = Return (acc ++ r) /\
              length r = (length l * m)%nat /\ Forall P r.
Proof.
  induction l as [|x l IH]; intros Hstep acc.
  - exists []. by rewrite app_nil_r.
  - destruct (Hstep x acc) as (sub & Hx & Hlen & HP); [left|].
    cbn [fold_outcome]. rewrite Hx.
    destruct (IH (fun y acc' Hy => Hstep y acc' (list_elem_of_further _ _ _ Hy))
                (acc ++ sub)) as (r & Hr & Hlen' & HP').
    exists (sub ++ r). rewrite Hr, app_assoc. split; [done|]. split.
    + rewrite length_app. simpl. lia.
    + by apply Forall_app.
Qed.

(** The number of outcomes, on values. *)
Lemma outcome_states_count (k : nat) :
  forall fuel g b,
    game_inv g -> size (die_remaining g) = k ->
    behind b g -> b + 4 * Z.of_nat k <= BOARD_SPOTS ->
    (k + 2 <= fuel)%nat ->
    exists gs,
      outcome_states fuel g = Return gs /\
      length gs = (fact k * 3 ^ k)%nat /\
      Forall (fun g' => die_remaining g' = ∅) gs.
Proof.
  induction k as [|k IH]; intros fuel g b Hinv Hsize Hb Hboard Hfuel.
  - destruct fuel as [|fuel]; [lia|]. cbn [outcome_states].
    rewrite decide_True by done. exists [g]. split_and!; [done..|].
    constructor; [|done]. by apply size_empty_inv, leibniz_equiv in Hsize.
  - destruct fuel as [|fuel]; [lia|]. cbn [outcome_states].
    rewrite decide_False by lia.
    set (m := (fact k * 3 ^ k)%nat).
    set (branch := fun color outcomes roll =>
           match move_camel fuel color roll g with
           | (_, Raise e) => Raise e
           | (g', Return _) =>
               match outcome_states fuel
                       (set_die_remaining
                          (die_remaining g' ∖ {[color]}) g') with
               | Raise e => Raise e
               | Return sub => Return (outcomes ++ sub)
               end
           end).
    assert (forall color roll acc,
              color ∈ die_remaining g -> roll ∈ [1; 2; 3] ->
              exists sub, branch color acc roll = Return (acc ++ sub) /\
                          length sub = m /\
                          Forall (fun g' => die_remaining g' = ∅) sub)
      as Hbranch.
    { intros color roll acc Hcolor Hroll. unfold branch.
      assert (1 <= roll <= 3) as Hrange by set_solver by lia.
      destruct (move_camel_within_board fuel color roll g b Hinv Hb)
        as (g' & -> & Hinv' & Hb' & Hdice'); [lia|done|lia|].
      destruct (IH fuel
                  (set_die_remaining (die_remaining g' ∖ {[color]}) g')
                  (b + 4)) as (sub & -> & Hlen & HP).
      - by apply game_inv_set_die_remaining.
      - game_simpl. rewrite Hdice'.
        rewrite size_difference by set_solver.
        rewrite size_singleton. lia.
      - done.
      - lia.
      - lia.
      - eauto. }
    assert (forall color acc,
              color ∈ elements (die_remaining g) ->
              exists sub,
                fold_outcome [1; 2; 3] (branch color) acc
                = Return (acc ++ sub) /\
                length sub = (3 * m)%nat /\
                Forall (fun g' => die_remaining g' = ∅) sub) as Hrolls.
    { intros color acc Hcolor%elem_of_elements.
      destruct (fold_outcome_length (fun g' => die_remaining g' = ∅)
                  [1; 2; 3] (branch color) m
                  (fun roll acc' Hroll => Hbranch color roll acc' Hcolor Hroll)
                  acc) as (r & Hr & Hlen & HP).
      exists r. split; [done|]. split; [|done]. rewrite Hlen. simpl. lia. }
    destruct (fold_outcome_length (fun g' => die_remaining g' = ∅)
                (elements (die_remaining g))
                (fun outcomes color =>
                   fold_outcome [1; 2; 3] (branch color) outcomes)
                (3 * m)%nat Hrolls []) as (r & Hr & Hlen & HP).
    exists r. split; [apply Hr|]. split; [|done].
    rewrite Hlen.
    change (length (elements (die_remaining g)))
      with (size (die_remaining g)).
    rewrite Hsize. unfold m.
    change (fact (S k)) with (fact k + k * fact k)%nat.
    rewrite Nat.pow_succ_r'. lia.
Qed.

(** The number of outcomes that [generate_outcomes] returns when no
    camel can reach the end of the board before the leg is over: the
    count of C1 holds for such games. *)
Lemma generate_outcomes_count (k : nat) fuel game σ g b :
  σ !! game = Some g ->
  game_inv g -> size (die_remaining g) = k ->
  behind b g -> b + 4 * Z.of_nat k <= BOARD_SPOTS ->
  (k + 2 <= fuel)%nat ->
  exists σ' ls,
    generate_outcomes fuel game σ = (σ', Return ls) /\
    length ls = (fact k * 3 ^ k)%nat /\
    Forall (fun l => exists g', σ' !! l = Some g' /\ die_remaining g' = ∅) ls.
Proof.
  intros Hgame Hinv Hsize Hb Hboard Hfuel.
  destruct (outcome_states_count k fuel g b Hinv Hsize Hb Hboard Hfuel)
    as (gs & Hgs & Hlen & Hempty).
  destruct (generate_outcomes_agrees fuel game σ g Hgame) as [_ Hres].
  rewrite Hgs in Hres.
  destruct (generate_outcomes fuel game σ) as [σ' [ls|e]];
    cbn [fst snd] in Hres; [|done].
  exists σ', ls. split; [done|]. split.
  - by rewrite (Forall2_length _ _ _ Hres).
  - clear Hlen Hgs. induction Hres as [|l g' ls gs Hl _ IH]; [constructor|].
    apply Forall_cons in Hempty as [Hg' Hempty].
    constructor; [eauto|by apply IH].
Qed.

(** * What else the code guarantees *)

(** ** The ranking of the camels *)

(** The camels from the first of the race to the last: the spots from
    the last one down, each stack from its top down. *)
Definition standing (g : Game) : list Color := reverse (board g).

Lemma rank_stack_lookup l :
  forall place results,
    NoDup l ->
    (forall i c, l !! i = Some c ->
       (rank_stack l place results).2 !! c = Some (place + Z.of_nat i)) /\
    (forall c, c ∉ l -> (rank_stack l place results).2 !! c = results !! c).
Proof.
  induction l as [|x l IH]; intros place results Hnd.
  - split; [by intros i c ?|done].
  - apply NoDup_cons in Hnd as [Hx Hnd]. cbn [rank_stack].
    destruct (IH (place + 1) (<[x := place]> results) Hnd) as [Hin Hout].
    split.
    + intros [|i] c Hc; simpl in Hc.
      * injection Hc as ->. rewrite Hout by done.
        rewrite lookup_insert_eq. f_equal. lia.
      * rewrite (Hin i c Hc). f_equal. lia.
    + intros c Hc. apply not_elem_of_cons in Hc as [Hne Hc].
      rewrite Hout by done. by apply lookup_insert_ne.
Qed.

Lemma get_positions_loop_ranking (sp : list Spot) (i : nat) :
  forall steps place results ranked,
    (i <= length sp)%nat -> (i < steps)%nat ->
    NoDup (ranked ++ reverse (concat (map s_camels (take i sp)))) ->
    place = 1 + Z.of_nat (length ranked) ->
    (length ranked + length (concat (map s_camels (take i sp))) = 5)%nat ->
    (forall k c, ranked !! k = Some c -> results !! c = Some (1 + Z.of_nat k)) ->
    exists r,
      get_positions_loop steps sp (Z.of_nat i - 1) place results = Return r /\
      forall k c,
        (ranked ++ reverse (concat (map s_camels (take i sp)))) !! k = Some c ->
        r !! c = Some (1 + Z.of_nat k).
Proof.
  induction i as [|i IH];
    intros steps place results ranked Hlen Hsteps Hnd Hplace Hsum Hres.
  - simpl in Hsum, Hnd |- *. destruct steps; [lia|].
    cbn [get_positions_loop].
    rewrite decide_False by lia. exists results. split; [done|].
    intros k c. rewrite app_nil_r. apply Hres.
  - destruct steps as [|steps]; [lia|].
    assert (is_Some (sp !! i)) as [spot Hspot] by (apply lookup_lt_is_Some; lia).
    rewrite (take_S_r _ _ _ Hspot), map_app, concat_app in Hnd, Hsum |- *.
    simpl in Hnd, Hsum |- *. rewrite app_nil_r in Hnd, Hsum |- *.
    rewrite length_app in Hsum. rewrite reverse_app in Hnd |- *.
    rewrite app_assoc in Hnd |- *.
    cbn [get_positions_loop]. destruct (decide (place < 6)) as [Hlt|Hge].
    + replace (Z.of_nat (S i) - 1) with (Z.of_nat i) by lia.
      rewrite py_get_nonneg by lia. rewrite Nat2Z.id, Hspot.
      assert (NoDup (reverse (s_camels spot))) as Hnds.
      { apply NoDup_app in Hnd as (Hnd & _ & _).
        by apply NoDup_app in Hnd as (_ & _ & ?). }
      destruct (rank_stack_lookup (reverse (s_camels spot)) place results Hnds)
        as [Hin Hout].
      destruct (rank_stack_spec (reverse (s_camels spot)) place results)
        as (r' & Hrank & _).
      rewrite Hrank in Hin, Hout |- *. cbn [snd] in Hin, Hout.
      apply IH; [lia|lia|done| | |].
      * rewrite length_app, !length_reverse. lia.
      * rewrite length_app, length_reverse. lia.
      * intros k c Hk. apply lookup_app_Some in Hk as [Hk|[Hge Hk]].
        -- rewrite Hout; [by apply Hres|].
           apply NoDup_app in Hnd as (Hnd & _ & _).
           apply NoDup_app in Hnd as (_ & Hdisj & _).
           apply Hdisj. by eapply list_elem_of_lookup_2.
        -- rewrite (Hin _ _ Hk). f_equal. lia.
    + exists results. split; [done|].
      assert (length ranked = 5%nat) as H5 by lia.
      assert (s_camels spot = []) as ->
        by (apply nil_length_inv; lia).
      assert (concat (map s_camels (take i sp)) = []) as ->
        by (apply nil_length_inv; lia).
      intros k c. rewrite !app_nil_r. apply Hres.
Qed.

(** A run of [get_positions], for the proofs that follow. *)
Lemma run_get_positions g :
  game_inv g ->
  exists positions,
    get_positions g = Return positions /\
    standing g ≡ₚ Color.all /\
    forall c i,
      positions !! c = Some (Z.of_nat i + 1) <-> standing g !! i = Some c.
Proof.
  intros Hinv. unfold get_positions.
  assert (Hlen := inv_length g Hinv).
  assert (Hperm := game_inv_board g Hinv).
  assert (standing g ≡ₚ Color.all) as Hst.
  { unfold standing. by rewrite reverse_Permutation. }
  assert (NoDup (standing g)) as Hnd.
  { rewrite Hst. apply NoDup_Color_all. }
  destruct (get_positions_loop_ranking (spots g) 16 (17 + length (spots g))
              1 ∅ []) as (r & Hrun & Hr).
  - lia.
  - lia.
  - rewrite firstn_all2 by lia. done.
  - done.
  - rewrite firstn_all2 by lia. fold (board g). by rewrite Hperm.
  - by intros k c ?.
  - exists r. split; [done|]. split; [done|].
    rewrite firstn_all2 in Hr by lia. simpl in Hr.
    intros c i. split.
    + intros Hc.
      assert (c ∈ standing g) as Hin.
      { rewrite Hst. apply elem_of_Color_all. }
      apply list_elem_of_lookup in Hin as [j Hj].
      rewrite (Hr j c Hj) in Hc.
      assert (i = j) as -> by (injection Hc; lia). done.
    + intros Hi. rewrite (Hr i c Hi). f_equal. lia.
Qed.

(** X1.  In a state of the board [get_positions] returns, and it gives
    place [i + 1] to the camel at index [i] of the standing and to no
    other camel: the five camels are ranked by spot, the furthest first,
    and on a spot by height, the top first. *)
Theorem get_positions_ranking g :
  game_inv g ->
  exists positions,
    get_positions g = Return positions /\
    standing g ≡ₚ Color.all /\
    forall c i,
      positions !! c = Some (Z.of_nat i + 1) <-> standing g !! i = Some c.
Proof. exact (run_get_positions g). Qed.

Lemma stacked_game_inv : game_inv stacked_game.
Proof. apply reachable_inv, stacked_game_reachable. Qed.

Lemma get_positions_ranking_witness :
  exists positions,
    get_positions stacked_game = Return positions /\
    standing stacked_game ≡ₚ Color.all /\
    forall c i,
      positions !! c = Some (Z.of_nat i + 1) <->
      standing stacked_game !! i = Some c.
Proof. apply get_positions_ranking, stacked_game_inv. Defined.

(** ** The records of the teams *)

Lemma set_teams_id g : set_teams (teams g) g = g.
Proof. by destruct g. Qed.

Lemma set_t_coins_id t : set_t_coins (t_coins t) t = t.
Proof. by destruct t. Qed.

(** A loop over the teams whose body rewrites the record of its team. *)
Lemma for_each_teams (body : TeamName -> M unit) (f : Team -> Team) names :
  (forall name g t, teams g !! name = Some t ->
     body name g = (set_teams (<[name := f t]> (teams g)) g, Return tt)) ->
  forall g,
    NoDup names ->
    (forall name, name ∈ names -> is_Some (teams g !! name)) ->
    exists ts,
      for_each names body g = (set_teams ts g, Return tt) /\
      forall name,
        ts !! name =
        if decide (name ∈ names) then f <$> teams g !! name
        else teams g !! name.
Proof.
  intros Hbody. induction names as [|name names IH]; intros g Hnd Hin.
  - exists (teams g). split; [by rewrite set_teams_id|].
    intros name. rewrite decide_False; [done|]. apply not_elem_of_nil.
  - apply NoDup_cons in Hnd as [Hname Hnd].
    destruct (Hin name) as [t Ht]; [by left|].
    cbn [for_each]. unfold bind. rewrite (Hbody _ _ _ Ht).
    destruct (IH (set_teams (<[name := f t]> (teams g)) g) Hnd)
      as (ts & Hrun & Hts).
    { intros name' Hin'. cbn [teams set_teams].
      rewrite lookup_insert_is_Some.
      destruct (decide (name = name')); [by left|].
      right. split; [done|]. apply Hin. by right. }
    exists ts. split; [by rewrite Hrun|].
    intros name'. rewrite (Hts name'). cbn [teams set_teams].
    destruct (decide (name' = name)) as [->|Hne].
    + rewrite decide_False by done. rewrite decide_True by by left.
      by rewrite lookup_insert_eq, Ht.
    + rewrite lookup_insert_ne by done.
      destruct (decide (name' ∈ names)).
      * rewrite decide_True; [done|by right].
      * rewrite decide_False; [done|].
        intros [?|?]%elem_of_cons; done.
Qed.

Lemma NoDup_team_names g : NoDup (team_names g).
Proof.
  unfold team_names. apply NoDup_filter.
  apply NoDup_ListNoDup. repeat constructor; set_solver.
Qed.

(** When the loop runs over all the teams, every record is rewritten. *)
Lemma for_each_all_teams (body : TeamName -> M unit) (f : Team -> Team)
    names g :
  (forall name g t, teams g !! name = Some t ->
     body name g = (set_teams (<[name := f t]> (teams g)) g, Return tt)) ->
  NoDup names ->
  (forall name, name ∈ names <-> is_Some (teams g !! name)) ->
  for_each names body g = (set_teams (f <$> teams g) g, Return tt).
Proof.
  intros Hbody Hnd Hnames.
  destruct (for_each_teams body f names Hbody g) as (ts & -> & Hts).
  - done.
  - intros name. by rewrite Hnames.
  - f_equal. f_equal. apply map_eq. intros name.
    rewrite (Hts name), lookup_fmap.
    destruct (decide (name ∈ names)) as [|Hout]; [done|].
    rewrite Hnames in Hout.
    destruct (teams g !! name); [|done]. by destruct Hout.
Qed.

(** ** The end of a leg, team by team *)

(** What the cards that a team holds bring it at the end of the leg. *)
Definition leg_gain (positions : gmap Color Z) (cards : list LegBetCard) : Z :=
  foldr (fun card acc =>
           get_payoff card (default 0 (positions !! lb_color card)) + acc)
        0 cards.

(** The record of a team once the leg is settled. *)
Definition settle_leg (positions : gmap Color Z) (t : Team) : Team :=
  set_t_placed_movement_card false
    (set_t_leg_bet_cards []
       (set_t_coins (t_coins t + leg_gain positions (t_leg_bet_cards t)) t)).

Lemma pay_cards positions name cards :
  (forall c, is_Some (positions !! c)) ->
  forall g t,
    teams g !! name = Some t ->
    for_each cards (fun card =>
      let! place := of_option KeyError (positions !! lb_color card) in
      add_coins name (get_payoff card place)) g =
    (set_teams
       (<[name := set_t_coins (t_coins t + leg_gain positions cards) t]>
          (teams g)) g, Return tt).
Proof.
  intros Htotal. induction cards as [|card cards IH]; intros g t Ht.
  - cbn [for_each leg_gain foldr]. rewrite Z.add_0_r, set_t_coins_id.
    rewrite insert_id by done. by rewrite set_teams_id.
  - cbn [for_each]. destruct (Htotal (lb_color card)) as [place Hplace].
    unfold bind at 1. unfold bind at 1. rewrite Hplace. cbn [of_option ret].
    rewrite (add_coins_Some _ _ _ _ Ht).
    rewrite (IH _ (set_t_coins (t_coins t + get_payoff card place) t))
      by (cbn [teams set_teams]; apply lookup_insert_eq).
    cbn [teams set_teams leg_gain foldr]. rewrite Hplace. cbn [default].
    rewrite insert_insert_eq. fold (leg_gain positions cards).
    assert (set_t_coins
              (t_coins (set_t_coins (t_coins t + get_payoff card place) t)
               + leg_gain positions cards)
              (set_t_coins (t_coins t + get_payoff card place) t) =
            set_t_coins
              (t_coins t + (get_payoff card place + leg_gain positions cards))
              t) as ->; [|done].
    unfold set_t_coins. cbn. f_equal. lia.
Qed.

Lemma get_positions_set_die_remaining v g :
  get_positions (set_die_remaining v g) = get_positions g.
Proof. done. Qed.

(** A run of [finish_leg], for the proofs that follow. *)
Lemma run_finish_leg g :
  game_inv g ->
  exists positions,
    get_positions g = Return positions /\
    finish_leg g =
    (finish_leg_state (settle_leg positions <$> teams g) g, Return tt).
Proof.
  intros Hinv.
  destruct (get_positions_total g Hinv) as (positions & Hpos & Htotal).
  exists positions. split; [done|].
  unfold finish_leg.
  unfold bind at 1. unfold modify at 1.
  unfold bind at 1. unfold lift at 1.
  rewrite get_positions_set_die_remaining, Hpos.
  unfold bind at 1. unfold gets at 1.
  set (g1 := set_die_remaining all_dice g).
  set (f1 := fun t =>
    set_t_leg_bet_cards []
      (set_t_coins (t_coins t + leg_gain positions (t_leg_bet_cards t)) t)).
  unfold bind at 1.
  rewrite (for_each_all_teams _ f1 (team_names g1) g1);
    [|
    |apply NoDup_team_names|intros name; apply elem_of_team_names].
  2:{ intros name g' t Ht. unfold bind at 1. unfold get_team at 1.
      rewrite Ht. cbn [of_option ret]. unfold bind at 1.
      rewrite (pay_cards positions name _ Htotal g' t Ht).
      rewrite (modify_team_Some name _ _
                 (set_t_coins
                    (t_coins t + leg_gain positions (t_leg_bet_cards t)) t))
        by (cbn [teams set_teams]; apply lookup_insert_eq).
      cbn [teams set_teams]. by rewrite insert_insert_eq. }
  unfold bind at 1. unfold modify at 1.
  unfold bind at 1.
  rewrite (for_each_all_teams _ (set_t_placed_movement_card false));
    [|
    |apply NoDup_team_names|].
  - unfold modify. cbn [teams set_teams set_leg_bet_cards].
    rewrite <-map_fmap_compose. reflexivity.
  - intros name g' t Ht. by apply modify_team_Some.
  - intros name. rewrite elem_of_team_names.
    cbn [teams set_teams set_leg_bet_cards]. by rewrite lookup_fmap, fmap_is_Some.
Qed.

(** X2.  In a state of the board [finish_leg] returns.  Every team
    gets what its leg-bet cards pay for the ranking of [get_positions],
    its hand is emptied and it may place its movement card again; the
    movement cards leave the board, the deck of leg bets is full again
    and the five dice are back.  Nothing else changes. *)
Theorem finish_leg_settles g :
  game_inv g ->
  exists positions,
    get_positions g = Return positions /\
    finish_leg g =
    (finish_leg_state (settle_leg positions <$> teams g) g, Return tt).
Proof. exact (run_finish_leg g). Qed.

(** ** Records up to the coins *)

(** The records of the teams with the coins erased: what the teams hold
    and have done, whatever they own. *)
Definition shape (ts : gmap TeamName Team) : gmap TeamName Team :=
  set_t_coins 0 <$> ts.

Lemma shape_lookup ts ts' name t :
  shape ts = shape ts' -> ts !! name = Some t ->
  exists t', ts' !! name = Some t' /\ set_t_coins 0 t' = set_t_coins 0 t.
Proof.
  intros Hshape Ht.
  assert (shape ts !! name = Some (set_t_coins 0 t)) as Hs
    by (unfold shape; by rewrite lookup_fmap, Ht).
  rewrite Hshape in Hs. unfold shape in Hs. rewrite lookup_fmap in Hs.
  destruct (ts' !! name) as [t'|]; [|done].
  exists t'. split; [done|]. simpl in Hs. congruence.
Qed.

Lemma shape_dom ts ts' : shape ts = shape ts' -> dom ts = dom ts'.
Proof.
  intros Hshape. unfold shape in Hshape.
  by rewrite <-(dom_fmap_L (set_t_coins 0) ts), Hshape, dom_fmap_L.
Qed.

Lemma shape_insert_coins ts name t v :
  ts !! name = Some t -> shape (<[name := set_t_coins v t]> ts) = shape ts.
Proof.
  intros Ht. unfold shape. rewrite fmap_insert.
  apply insert_id. by rewrite lookup_fmap, Ht.
Qed.

Lemma shape_fmap (f : Team -> Team) ts ts' :
  (forall t, set_t_coins 0 (f t) = f (set_t_coins 0 t)) ->
  shape ts = shape ts' -> shape (f <$> ts) = shape (f <$> ts').
Proof.
  intros Hf Hshape. unfold shape in *.
  rewrite <-!map_fmap_compose.
  rewrite (map_fmap_ext (set_t_coins 0 ∘ f) (f ∘ set_t_coins 0) ts)
    by (intros; apply Hf).
  rewrite (map_fmap_ext (set_t_coins 0 ∘ f) (f ∘ set_t_coins 0) ts')
    by (intros; apply Hf).
  by rewrite !map_fmap_compose, Hshape.
Qed.

(** Every record carries the name it is filed under. *)
Definition names_agree (ts : gmap TeamName Team) : Prop :=
  forall name t, ts !! name = Some t -> t_name t = name.

Lemma names_agree_shape ts ts' :
  shape ts = shape ts' -> names_agree ts -> names_agree ts'.
Proof.
  intros Hshape Hts name t' Ht'.
  destruct (shape_lookup ts' ts name t' (eq_sym Hshape) Ht') as (t & Ht & Heq).
  rewrite <-(Hts name t Ht).
  change (t_name (set_t_coins 0 t') = t_name (set_t_coins 0 t)). by rewrite Heq.
Qed.

(** The record of a team when a leg is over, but for the coins. *)
Definition reset_team (t : Team) : Team :=
  set_t_placed_movement_card false (set_t_leg_bet_cards [] t).

Lemma shape_settle_leg positions ts :
  shape (settle_leg positions <$> ts) = shape (reset_team <$> ts).
Proof.
  unfold shape. rewrite <-!map_fmap_compose. by apply map_fmap_ext.
Qed.

(** ** The end of the game, team by team *)

Lemma settle_overall_shape positions target cards :
  forall index g,
    (forall c, is_Some (positions !! c)) ->
    Forall (fun card => is_Some (teams g !! ob_team card)) cards ->
    exists ts,
      settle_overall positions target cards index g
      = (set_teams ts g, Return tt) /\
      shape ts = shape (teams g).
Proof.
  induction cards as [|card cards IH]; intros index g Htotal Hteams.
  - exists (teams g). by rewrite set_teams_id.
  - apply Forall_cons in Hteams as [[tc Htc] Hteams].
    assert (forall v index',
      exists ts,
        settle_overall positions target cards index'
          (set_teams (<[ob_team card := set_t_coins (t_coins tc + v) tc]>
                        (teams g)) g)
        = (set_teams ts g, Return tt) /\
        shape ts = shape (teams g)) as Hpaid.
    { intros v index'.
      destruct (IH index'
                  (set_teams
                     (<[ob_team card := set_t_coins (t_coins tc + v) tc]>
                        (teams g)) g) Htotal) as (ts & Hrun & Hshape).
      { eapply Forall_impl; [done|]. cbn [teams set_teams]. intros c Hc.
        rewrite lookup_insert_is_Some.
        destruct (decide (ob_team card = ob_team c)); auto. }
      exists ts. split; [by rewrite Hrun|].
      rewrite Hshape. cbn [teams set_teams]. by apply shape_insert_coins. }
    destruct (Htotal (ob_color card)) as [place Hplace].
    cbn [settle_overall]. unfold bind at 1.
    rewrite Hplace. cbn [of_option ret].
    destruct (decide (place = target)) as [->|Hne].
    + destruct (decide (index < length payoffs)%nat).
      * unfold bind. rewrite (add_coins_Some _ _ _ _ Htc). apply Hpaid.
      * apply (IH index g Htotal Hteams).
    + unfold bind. rewrite (add_coins_Some _ _ _ _ Htc). apply Hpaid.
Qed.

Lemma py_max_spec l m :
  py_max l = Some m -> m ∈ l /\ forall x, x ∈ l -> x <= m.
Proof.
  destruct l as [|x l]; [done|]. simpl. intros [= <-].
  revert x. induction l as [|y l IH]; intros x; simpl.
  - split; [by left|]. intros z ->%list_elem_of_singleton. lia.
  - destruct (IH (Z.max x y)) as [Hin Hmax]. split.
    + apply elem_of_cons in Hin as [->|Hin].
      * destruct (Z.max_spec x y) as [[_ ->]|[_ ->]]; [right|]; by left.
      * by do 2 right.
    + intros z [->|[->|Hz]%elem_of_cons]%elem_of_cons.
      * assert (Z.max x y <= foldl Z.max (Z.max x y) l) by (apply Hmax; by left).
        lia.
      * assert (Z.max x y <= foldl Z.max (Z.max x y) l) by (apply Hmax; by left).
        lia.
      * apply Hmax. by right.
Qed.

Lemma elem_of_team_values g t :
  t ∈ team_values g <-> exists name, teams g !! name = Some t.
Proof.
  unfold team_values. rewrite list_elem_of_omap. split.
  - intros (name & _ & Ht). by exists name.
  - intros (name & Ht). exists name. split; [|done].
    destruct name; compute_done.
Qed.

(** The teams that no team beats. *)
Definition leads (ts : gmap TeamName Team) (w : gset TeamName) : Prop :=
  forall name,
    name ∈ w <->
    exists t, ts !! name = Some t /\
      forall name' t', ts !! name' = Some t' -> t_coins t' <= t_coins t.

(** A run of [finish_game], for the proofs that follow. *)
Lemma run_finish_game g :
  game_inv g ->
  exists ts w,
    finish_game g =
      (set_playing false (set_winners (Some w) (finish_leg_state ts g)),
       Return tt) /\
    shape ts = shape (reset_team <$> teams g) /\
    w <> ∅ /\
    (names_agree (teams g) -> leads ts w).
Proof.
  intros Hinv. unfold finish_game.
  destruct (run_finish_leg g Hinv) as (positions0 & _ & Hleg).
  set (ts1 := settle_leg positions0 <$> teams g) in *.
  assert (dom ts1 = dom (teams g)) as Hdom1 by apply dom_fmap_L.
  set (g1 := finish_leg_state ts1 g) in *.
  assert (game_inv g1) as Hinv1 by by apply game_inv_finish_leg_state.
  destruct (get_positions_total g1 Hinv1) as (positions & Hpos & Htotal).
  destruct (settle_overall_shape positions 1 (overall_winner_cards g1) 0 g1
              Htotal (inv_winner_cards g1 Hinv1)) as (ts2 & Hrun2 & Hshape2).
  set (g2 := set_teams ts2 g1) in *.
  assert (game_inv g2) as Hinv2.
  { apply game_inv_set_teams; [done|]. by apply shape_dom. }
  destruct (settle_overall_shape positions 5 (overall_loser_cards g2) 0 g2
              Htotal (inv_loser_cards g2 Hinv2)) as (ts3 & Hrun3 & Hshape3).
  set (g3 := set_teams ts3 g2) in *.
  assert (is_Some (py_max (map t_coins (team_values g3)))) as [max_coins Hmax].
  { assert (team_values g3 <> []) as Hne.
    { apply (team_values_nonempty g3 (active_team g1)).
      unfold g3. cbn [teams set_teams].
      apply elem_of_dom. rewrite (shape_dom _ _ Hshape3).
      apply elem_of_dom. by apply (inv_active g2). }
    destruct (team_values g3); [done|]. simpl. eauto. }
  exists ts3. eexists. split.
  { unfold bind at 1. rewrite Hleg.
    unfold bind at 1. unfold lift at 1. rewrite Hpos.
    unfold bind at 1. unfold gets at 1.
    unfold bind at 1. rewrite Hrun2.
    unfold bind at 1. unfold gets at 1.
    unfold bind at 1. rewrite Hrun3.
    unfold bind at 1. unfold gets at 1.
    unfold bind at 1. rewrite Hmax. unfold of_option, ret.
    unfold bind, modify. reflexivity. }
  assert (shape ts3 = shape (reset_team <$> teams g)) as Hshape.
  { rewrite Hshape3. unfold g2. cbn [teams set_teams]. rewrite Hshape2.
    unfold g1, finish_leg_state. cbn [teams set_teams set_spots
      set_leg_bet_cards]. apply shape_settle_leg. }
  split; [done|].
  apply py_max_spec in Hmax as [Hin Hmax].
  apply list_elem_of_fmap in Hin as (tmax & -> & Htmax).
  apply elem_of_team_values in Htmax as [nmax Hnmax].
  unfold g3 in Hnmax. cbn [teams set_teams] in Hnmax.
  assert (forall name' t', ts3 !! name' = Some t' -> t_coins t' <= t_coins tmax)
    as Hle.
  { intros name' t' Ht'. apply Hmax. apply list_elem_of_fmap.
    exists t'. split; [done|]. apply elem_of_team_values. by exists name'. }
  split.
  - intros Hempty.
    assert (t_name tmax ∈ (∅ : gset TeamName)) as Hin; [|set_solver].
    rewrite <-Hempty. apply elem_of_list_to_set, list_elem_of_fmap.
    exists tmax. split; [done|]. apply list_elem_of_filter. split; [done|].
    apply elem_of_team_values. by exists nmax.
  - intros Hnames.
    assert (names_agree ts3) as Hnames3.
    { apply (names_agree_shape (reset_team <$> teams g)); [done|].
      intros name t. rewrite lookup_fmap.
      destruct (teams g !! name) as [t0|] eqn:Ht0; [|done].
      simpl. intros [= <-]. exact (Hnames _ _ Ht0). }
    intros name. rewrite elem_of_list_to_set, list_elem_of_fmap. split.
    + intros (t & -> & Ht). apply list_elem_of_filter in Ht as [Hcoins Ht].
      apply elem_of_team_values in Ht as [name Ht].
      unfold g3 in Ht. cbn [teams set_teams] in Ht.
      rewrite (Hnames3 _ _ Ht). exists t. split; [done|].
      rewrite Hcoins. apply Hle.
    + intros (t & Ht & Hbest). exists t. split; [by rewrite (Hnames3 _ _ Ht)|].
      apply list_elem_of_filter. split.
      * specialize (Hbest _ _ Hnmax). specialize (Hle _ _ Ht). lia.
      * apply elem_of_team_values. by exists name.
Qed.

(** X3.  In a state of the board [finish_game] returns.  It ends
    the leg, pays the overall bets, stops the game and names winners:
    the teams hold and have done what they had at the end of the leg,
    whatever their coins, the set of winners is not empty, and, when
    every record is filed under its name, the winners are the teams
    that no team beats in coins. *)
Theorem finish_game_result g :
  game_inv g ->
  exists ts w,
    finish_game g =
      (set_playing false (set_winners (Some w) (finish_leg_state ts g)),
       Return tt) /\
    shape ts = shape (reset_team <$> teams g) /\
    w <> ∅ /\
    (names_agree (teams g) -> leads ts w).
Proof. exact (run_finish_game g). Qed.

(** ** What a move changes *)

(** From [g] to [g'] the table is the same, or the one of a new leg
    when [leg_ended]: the teams hold and have done the same things (with
    hands emptied and card flags lowered when the leg ended), the
    movement cards lie where they lay (or are gone), the deck of leg
    bets is the same (or full again), and the overall bets are the same.
    Coins and camels are free. *)
Record evolves (leg_ended : bool) (g g' : Game) : Prop := {
  ev_teams :
    shape (teams g') =
    shape (if leg_ended then reset_team <$> teams g else teams g);
  ev_cards :
    s_movement_card <$> spots g' =
    if leg_ended then (fun _ => None) <$> spots g
    else s_movement_card <$> spots g;
  ev_deck :
    leg_bet_cards g' =
    if leg_ended then generate_initial_leg_bet_cards else leg_bet_cards g;
  ev_winner_cards : overall_winner_cards g' = overall_winner_cards g;
  ev_loser_cards : overall_loser_cards g' = overall_loser_cards g
}.

(** The flags of the game are as they were. *)
Definition unfinished (g g' : Game) : Prop :=
  playing g' = playing g /\ winners g' = winners g.

(** The game has been ended, with the teams that no team beats as
    winners. *)
Definition finished (g g' : Game) : Prop :=
  playing g' = false /\
  exists w, winners g' = Some w /\ w <> ∅ /\
            (names_agree (teams g) -> leads (teams g') w).

Lemma evolves_refl g : evolves false g g.
Proof. by split. Qed.

Lemma reset_team_idemp t : reset_team (reset_team t) = reset_team t.
Proof. done. Qed.

Lemma shape_reset ts ts' :
  shape ts = shape ts' -> shape (reset_team <$> ts) = shape (reset_team <$> ts').
Proof. by apply shape_fmap. Qed.

Lemma evolves_trans a b g1 g2 g3 :
  evolves a g1 g2 -> evolves b g2 g3 -> evolves (a || b) g1 g3.
Proof.
  intros [Ht1 Hc1 Hd1 Hw1 Hl1] [Ht2 Hc2 Hd2 Hw2 Hl2].
  split; [| | |congruence..].
  - rewrite Ht2. destruct a, b; cbn [orb].
    + rewrite (shape_reset _ _ Ht1). unfold shape.
      by rewrite <-!map_fmap_compose.
    + done.
    + by apply shape_reset.
    + done.
  - rewrite Hc2. destruct a, b; cbn [orb]; try done.
    + apply (f_equal length) in Hc1. rewrite !length_fmap in Hc1.
      apply list_eq_same_length with (length (spots g1));
        rewrite ?length_fmap; try done.
      intros i x y _. rewrite !list_lookup_fmap.
      destruct (spots g2 !! i), (spots g1 !! i); simpl; congruence.
    + apply (f_equal length) in Hc1. rewrite !length_fmap in Hc1.
      apply list_eq_same_length with (length (spots g1));
        rewrite ?length_fmap; try done.
      intros i x y _. rewrite !list_lookup_fmap.
      destruct (spots g2 !! i), (spots g1 !! i); simpl; congruence.
  - rewrite Hd2. by destruct a, b.
Qed.

Lemma evolves_move_chain forward ip q below chain g :
  evolves false g (move_chain forward ip q below chain g).
Proof.
  split; try done. unfold move_chain. cbn [spots set_spots set_camels].
  rewrite !(list_fmap_alter s_movement_card _ id), !list_alter_id; try done.
  - by apply Forall_forall.
  - by apply Forall_forall.
Qed.

Lemma evolves_coins g name t v :
  teams g !! name = Some t ->
  evolves false g (set_teams (<[name := set_t_coins v t]> (teams g)) g).
Proof.
  intros Ht. split; try done. cbn [teams set_teams].
  by apply shape_insert_coins.
Qed.

Lemma names_agree_reset ts : names_agree ts -> names_agree (reset_team <$> ts).
Proof.
  intros Hts name t. rewrite lookup_fmap.
  destruct (ts !! name) as [t0|] eqn:Ht0; [|done].
  simpl. intros [= <-]. exact (Hts _ _ Ht0).
Qed.

Lemma names_agree_evolves a g g' :
  evolves a g g' -> names_agree (teams g) -> names_agree (teams g').
Proof.
  intros [Ht _ _ _ _] Hn. destruct a.
  - apply (names_agree_shape (reset_team <$> teams g)); [done|].
    by apply names_agree_reset.
  - by apply (names_agree_shape (teams g)).
Qed.

(** What [finish_game] does. *)
Lemma finish_game_effect g :
  game_inv g ->
  exists g',
    finish_game g = (g', Return tt) /\
    evolves true g g' /\ active_team g' = active_team g /\
    die_remaining g' = all_dice /\ finished g g'.
Proof.
  intros Hinv.
  destruct (run_finish_game g Hinv) as (ts & w & Hrun & Hshape & Hw & Hleads).
  eexists. split; [done|]. split_and!; try done.
  - split; try done.
    cbn [spots set_playing set_winners finish_leg_state set_spots].
    change (map ?f ?l) with (f <$> l). rewrite <-list_fmap_compose.
    by apply list_fmap_ext.
  - split; [done|]. by exists w.
Qed.

(** A run of [move_camel], for the proofs that follow. *)
Lemma run_move_camel fuel :
  forall c n g,
    game_inv g ->
    (n < 0 -> n = -1 /\ forall p, camels g !! c = Some p -> 1 <= p) ->
    let g' := (move_camel fuel c n g).1 in
    active_team g' = active_team g /\
    ((evolves false g g' /\ die_remaining g' = die_remaining g /\
      unfinished g g') \/
     (evolves true g g' /\ die_remaining g' = all_dice /\ finished g g')).
Proof.
  induction fuel as [|fuel IH]; intros c n g Hinv Hn.
  { split; [done|]. left. by split; [apply evolves_refl|]. }
  destruct (decide (n = 0)) as [->|Hn0].
  { split; [done|]. left. by split; [apply evolves_refl|]. }
  destruct (locate_camel g c Hinv)
    as (ip & sp & below & chain & Hip & Hpos & Hsp & Hfind & Hstack).
  assert (Hlen := inv_length g Hinv).
  destruct (decide (n > 0 /\ Z.of_nat ip + n > BOARD_SPOTS))
    as [[Hn1 Hover]|Hland].
  - intros g'. subst g'.
    rewrite (move_camel_overflow g c ip sp below chain Hlen Hpos Hsp Hfind)
      by done.
    unfold bind.
    assert (game_inv (move_camel fuel c (BOARD_SPOTS - Z.of_nat ip) g).1)
      as Hinv1.
    { apply move_camel_inv; [done|]. unfold BOARD_SPOTS. lia. }
    destruct (IH c (BOARD_SPOTS - Z.of_nat ip) g Hinv) as [Hact Hcase].
    { unfold BOARD_SPOTS. lia. }
    destruct (move_camel fuel c (BOARD_SPOTS - Z.of_nat ip) g) as [g1 [[]|e]];
      cbn [fst] in *; [|done].
    destruct (finish_game_effect g1 Hinv1)
      as (g2 & -> & Hev & Hact2 & Hdice & Hplaying & w & Hw & Hne & Hleads).
    cbn [fst]. split; [congruence|]. right.
    destruct Hcase as [(Hev1 & _ & _)|(Hev1 & _ & _)].
    + split; [apply (evolves_trans false true _ _ _ Hev1 Hev)|].
      split; [done|]. split; [done|]. exists w. split_and!; try done.
      intros Hnames. apply Hleads. by eapply names_agree_evolves.
    + split; [apply (evolves_trans true true _ _ _ Hev1 Hev)|].
      split; [done|]. split; [done|]. exists w. split_and!; try done.
      intros Hnames. apply Hleads. by eapply names_agree_evolves.
  - assert (0 <= Z.of_nat ip + n <= BOARD_SPOTS) as Hrange.
    { unfold BOARD_SPOTS in *. destruct (decide (n < 0)) as [Hneg|]; [|lia].
      destruct (Hn Hneg) as [-> Hp]. specialize (Hp _ Hpos). lia. }
    intros g'. subst g'.
    rewrite (move_camel_land g c ip sp below chain Hlen Hpos Hsp Hfind)
      by done.
    set (q := Z.to_nat (Z.of_nat ip + n)).
    assert (ip <> q) as Hne by lia.
    assert (q < 16)%nat as Hq by (unfold BOARD_SPOTS in *; lia).
    set (g1 := move_chain (bool_decide (n > 0)) ip q below chain g).
    assert (game_inv g1) as Hinv1 by by eapply move_chain_inv.
    assert (evolves false g g1) as Hev1 by apply evolves_move_chain.
    destruct (card_at g q) as [card|] eqn:Hcard.
    2:{ split; [done|]. left. by split. }
    rewrite <- (card_at_move_chain (bool_decide (n > 0)) ip q below chain g q Hne)
      in Hcard. fold g1 in Hcard.
    destruct (card_at_neighbours g1 q card Hinv1 Hcard)
      as (Hq1 & [t Ht] & _ & _).
    unfold cascade, bind. rewrite (add_coins_Some _ _ _ _ Ht).
    set (g2 := set_teams _ g1).
    assert (evolves false g1 g2) as Hev2 by by apply evolves_coins.
    destruct (IH c (if mc_forward card then 1 else -1) g2) as [Hact Hcase].
    + by apply game_inv_teams_insensitive.
    + intros Hlt. split; [destruct (mc_forward card); [lia|done]|].
      intros p. unfold g2. cbn [camels set_teams].
      apply find_chain_spec in Hfind as (_ & _ & rest & Hchain).
      unfold g1. rewrite (camels_move_chain _ _ _ _ _ _ _ _ Hchain).
      intros [= <-]. lia.
    + split; [by rewrite Hact|].
      pose proof (evolves_trans false false _ _ _ Hev1 Hev2) as Hev12.
      destruct Hcase as [(Hev & Hdice & Hfl)|(Hev & Hdice & Hfl)].
      * left. split; [apply (evolves_trans false false _ _ _ Hev12 Hev)|].
        split; [by rewrite Hdice|]. destruct Hfl as [Hp Hw].
        split; [by rewrite Hp|by rewrite Hw].
      * right. split; [apply (evolves_trans false true _ _ _ Hev12 Hev)|].
        split; [done|]. destruct Hfl as (Hpl & w & Hw & Hwne & Hleads).
        split; [done|]. exists w. split_and!; try done.
        intros Hnames. apply Hleads.
        by apply (names_agree_evolves false g g2).
Qed.

(** X4.  What a move of a camel does to the table, whether it
    returns or raises.  The turn stays where it is.  Either the move
    leaves the teams (up to their coins),
    the movement cards, the decks, the dice and the flags of the game as
    they are, or it ends the game: the leg is settled, the dice are back
    and the teams that no team beats in coins are the winners.  A move
    backwards is the one that a card asks for: one spot, not from
    spot 0. *)
Theorem move_camel_effect fuel :
  forall c n g,
    game_inv g ->
    (n < 0 -> n = -1 /\ forall p, camels g !! c = Some p -> 1 <= p) ->
    let g' := (move_camel fuel c n g).1 in
    active_team g' = active_team g /\
    ((evolves false g g' /\ die_remaining g' = die_remaining g /\
      unfinished g g') \/
     (evolves true g g' /\ die_remaining g' = all_dice /\ finished g g')).
Proof. exact (run_move_camel fuel). Qed.

(** ** Turns and rolls *)

(** [finish_turn] hands the turn to the next team in the order of
    [TeamName], the first one after the last. *)
Lemma finish_turn_next g :
  game_inv g ->
  exists next,
    finish_turn g = (set_active_team next g, Return tt) /\
    is_Some (teams g !! next) /\
    TeamName.value next =
    (TeamName.value (active_team g) + 1) `mod` Z.of_nat (size (teams g)).
Proof.
  intros Hinv. destruct (inv_teams g Hinv) as (n & Hn & Hdom).
  assert (Hsize := size_teams g n ltac:(lia) Hdom).
  assert (Hmem := teams_playing g n Hdom).
  assert (Hact := inv_active g Hinv). apply Hmem in Hact.
  unfold finish_turn, bind, get. rewrite Hsize.
  destruct n as [|[|[|[|[|[|[|[|[|n]]]]]]]]]; try lia;
    (rewrite decide_False by done);
    destruct (active_team g);
    first [ by apply bool_decide_pack in Hact; vm_compute in Hact
          | simpl; eexists; split; [reflexivity|];
            split; [apply Hmem; compute_done|reflexivity] ].
Qed.

Lemma finish_leg_effect g :
  game_inv g ->
  exists g',
    finish_leg g = (g', Return tt) /\
    evolves true g g' /\ active_team g' = active_team g /\
    die_remaining g' = all_dice /\ unfinished g g'.
Proof.
  intros Hinv. destruct (run_finish_leg g Hinv) as (positions & _ & ->).
  eexists. split; [done|]. split_and!; try done.
  split; try done.
  - apply shape_settle_leg.
  - cbn [spots finish_leg_state set_spots].
    change (map ?f ?l) with (f <$> l). rewrite <-list_fmap_compose.
    by apply list_fmap_ext.
Qed.

(** A run of [roll_dice], for the proofs that follow. *)
Lemma run_roll_dice fuel color move g :
  game_inv g -> die_remaining g <> ∅ -> move > 0 -> (4 <= fuel)%nat ->
  exists g',
    roll_dice fuel color move g = (g', Return (color, move)) /\
    TeamName.value (active_team g') =
    (TeamName.value (active_team g) + 1) `mod` Z.of_nat (size (teams g)) /\
    ((evolves false g g' /\ unfinished g g' /\
      die_remaining g' = die_remaining g ∖ {[color]} /\
      die_remaining g' <> ∅) \/
     (evolves true g g' /\ unfinished g g' /\
      die_remaining g' = all_dice /\ die_remaining g ∖ {[color]} = ∅) \/
     (evolves true g g' /\ finished g g' /\ die_remaining g' = all_dice)).
Proof.
  intros Hinv Hdice Hmove Hfuel. unfold roll_dice.
  unfold bind at 1. unfold gets at 1.
  destruct (inv_active g Hinv) as [t Ht].
  unfold bind at 1. rewrite (add_coins_Some _ _ _ _ Ht).
  set (g1 := set_teams _ g).
  assert (game_inv g1) as Hinv1.
  { apply game_inv_teams_insensitive; [by rewrite Ht|done]. }
  assert (evolves false g g1) as Hev1 by by apply evolves_coins.
  unfold bind at 1. unfold gets at 1. cbn [die_remaining g1 set_teams].
  rewrite decide_False by done.
  unfold bind at 1. unfold modify at 1.
  set (g2 := set_die_remaining _ g1).
  assert (game_inv g2) as Hinv2 by by apply game_inv_set_die_remaining.
  assert (evolves false g g2) as Hev2 by (by destruct Hev1).
  assert (Hinv3 := move_camel_inv fuel color move g2 Hinv2 ltac:(lia)).
  assert (Hret := move_camel_returns fuel color move g2 Hinv2 Hmove Hfuel).
  destruct (run_move_camel fuel color move g2 Hinv2 ltac:(lia))
    as [Hact3 Hcase3].
  unfold bind at 1. destruct (move_camel fuel color move g2) as [g3 r].
  cbn [fst snd] in *. subst r.
  unfold bind at 1. unfold gets at 1.
  assert (size (teams g3) = size (teams g)) as Hsize.
  { rewrite <-!(size_dom (D := gset TeamName)).
    assert (dom (teams g3) = dom (teams g)) as ->; [|done].
    destruct Hcase3 as [([Hsh _ _ _ _] & _)|([Hsh _ _ _ _] & _)];
      apply shape_dom in Hsh; rewrite Hsh; cbn [teams g2 g1 set_teams
        set_die_remaining]; rewrite ?dom_fmap_L, dom_insert_L;
      apply elem_of_dom_2 in Ht; set_solver. }
  assert (names_agree (teams g) -> names_agree (teams g2)) as Hnames2.
  { by apply (names_agree_evolves false). }
  destruct Hcase3 as [(Hev3 & Hdice3 & Hfl3)|(Hev3 & Hdice3 & Hfl3)].
  - cbn [die_remaining g2 set_die_remaining] in Hdice3.
    assert (playing g3 = playing g /\ winners g3 = winners g) as [Hp3 Hw3].
    { destruct Hfl3 as [Hp3 Hw3]. split; [exact Hp3|exact Hw3]. }
    destruct (decide (size (die_remaining g3) = 0%nat)) as [Hempty|Hsome].
    + destruct (finish_leg_effect g3 Hinv3)
        as (g4 & Hleg & Hev4 & Hact4 & Hdice4 & Hfl4).
      unfold bind at 1. rewrite Hleg.
      assert (game_inv g4) as Hinv4.
      { destruct (finish_leg_spec g3 Hinv3) as (ts & Hdom & Hleg').
        rewrite Hleg in Hleg'. injection Hleg' as ->.
        by apply game_inv_finish_leg_state. }
      destruct (finish_turn_next g4 Hinv4) as (next & Hturn & _ & Hval).
      unfold bind at 1. rewrite Hturn. unfold ret.
      eexists. split; [done|]. cbn [active_team set_active_team].
      split.
      { rewrite Hval, Hact4, Hact3.
        assert (size (teams g4) = size (teams g3)) as ->; [|by rewrite Hsize].
        rewrite <-!(size_dom (D := gset TeamName)).
        destruct Hev4 as [Hsh _ _ _ _]. apply shape_dom in Hsh.
        by rewrite Hsh, dom_fmap_L. }
      right. left.
      pose proof (evolves_trans false false _ _ _ Hev2 Hev3) as Hev23.
      pose proof (evolves_trans false true _ _ _ Hev23 Hev4) as Hev.
      split; [by destruct Hev|]. split.
      { destruct Hfl4 as [Hp4 Hw4].
        split; cbn [playing winners set_active_team]; congruence. }
      split; [done|]. apply size_empty_inv in Hempty.
      rewrite Hdice3 in Hempty. by apply leibniz_equiv.
    + unfold bind at 1. unfold ret at 1.
      destruct (finish_turn_next g3 Hinv3) as (next & Hturn & _ & Hval).
      unfold bind at 1. rewrite Hturn. unfold ret.
      eexists. split; [done|]. cbn [active_team set_active_team].
      split; [by rewrite Hval, Hact3, Hsize|].
      left.
      pose proof (evolves_trans false false _ _ _ Hev2 Hev3) as Hev.
      split; [by destruct Hev|]. split.
      { split; cbn [playing winners set_active_team]; congruence. }
      cbn [die_remaining set_active_team]. split; [done|].
      intros Hnil. apply Hsome. by rewrite Hnil.
  - rewrite decide_False.
    2:{ rewrite Hdice3. intros Hnil%size_empty_inv.
        apply all_dice_nonempty. by apply leibniz_equiv. }
    unfold bind at 1. unfold ret at 1.
    destruct (finish_turn_next g3 Hinv3) as (next & Hturn & _ & Hval).
    unfold bind at 1. rewrite Hturn. unfold ret.
    eexists. split; [done|]. cbn [active_team set_active_team].
    split; [by rewrite Hval, Hact3, Hsize|].
    right. right.
    pose proof (evolves_trans false true _ _ _ Hev2 Hev3) as Hev.
    split; [by destruct Hev|]. split; [|done].
    destruct Hfl3 as (Hpl & w & Hw & Hwne & Hleads).
    split; [done|]. exists w. split_and!; try done.
    intros Hnames. by apply Hleads, Hnames2.
Qed.

(** X5.  What a roll of the dice does to the table.  With a die left
    and a roll of at least 1, [roll_dice] returns the colour and the
    roll, and the turn passes to the next team.  Then either the die has
    left the leg, which goes on with the same table, or it was the last
    die and a new leg begins, or the game is over. *)
Theorem roll_dice_effect fuel color move g :
  game_inv g -> die_remaining g <> ∅ -> move > 0 -> (4 <= fuel)%nat ->
  exists g',
    roll_dice fuel color move g = (g', Return (color, move)) /\
    TeamName.value (active_team g') =
    (TeamName.value (active_team g) + 1) `mod` Z.of_nat (size (teams g)) /\
    ((evolves false g g' /\ unfinished g g' /\
      die_remaining g' = die_remaining g ∖ {[color]} /\
      die_remaining g' <> ∅) \/
     (evolves true g g' /\ unfinished g g' /\
      die_remaining g' = all_dice /\ die_remaining g ∖ {[color]} = ∅) \/
     (evolves true g g' /\ finished g g' /\ die_remaining g' = all_dice)).
Proof. exact (run_roll_dice fuel color move g). Qed.

(** ** The player actions, exactly *)

(** A run of [bet_on_leg], for the proofs that follow. *)
Lemma run_bet_on_leg color g :
  game_inv g ->
  match leg_bet_cards g !! color with
  | Some (card :: rest) =>
      exists next t,
        teams g !! active_team g = Some t /\
        bet_on_leg color g =
        (set_active_team next
           (set_teams
              (<[active_team g :=
                   set_t_leg_bet_cards (card :: t_leg_bet_cards t) t]>
                 (teams g))
              (set_leg_bet_cards (<[color := rest]> (leg_bet_cards g)) g)),
         Return (lb_max_payoff card)) /\
        TeamName.value next =
        (TeamName.value (active_team g) + 1) `mod` Z.of_nat (size (teams g))
  | Some [] => bet_on_leg color g = (g, Raise InvalidMoveException)
  | None => bet_on_leg color g = (g, Raise KeyError)
  end.
Proof.
  intros Hinv.
  destruct (leg_bet_cards g !! color) as [[|card rest]|] eqn:Hcards.
  { unfold bet_on_leg, can_bet_on_leg, bind, get. by rewrite Hcards. }
  2:{ unfold bet_on_leg, can_bet_on_leg, bind, get. by rewrite Hcards. }
  assert (exists next t,
    teams g !! active_team g = Some t /\
    bet_on_leg color g =
    (set_active_team next
       (set_teams
          (<[active_team g :=
               set_t_leg_bet_cards (card :: t_leg_bet_cards t) t]>
             (teams g))
          (set_leg_bet_cards (<[color := rest]> (leg_bet_cards g)) g)),
     Return (lb_max_payoff card)) /\
    TeamName.value next =
    (TeamName.value (active_team g) + 1) `mod` Z.of_nat (size (teams g)));
    [|done].
  unfold bet_on_leg, can_bet_on_leg.
  unfold bind at 1. unfold bind at 1. unfold get at 1. unfold bind at 1.
  rewrite Hcards.
  cbn [of_option ret]. rewrite bool_decide_true by (simpl; lia).
  cbn [negb]. unfold bind at 1. unfold gets at 1.
  unfold bind at 1. rewrite Hcards. cbn [of_option ret].
  unfold bind at 1. unfold modify at 1.
  unfold bind at 1. unfold gets at 1.
  set (g1 := set_leg_bet_cards _ g).
  assert (game_inv g1) as Hinv1 by by apply game_inv_set_leg_bet_cards.
  destruct (inv_active g1 Hinv1) as [t Ht].
  unfold bind at 1. rewrite (modify_team_Some _ _ _ _ Ht).
  set (g2 := set_teams _ g1).
  assert (game_inv g2) as Hinv2.
  { apply game_inv_teams_insensitive; [by rewrite Ht|done]. }
  destruct (finish_turn_next g2 Hinv2) as (next & Hturn & _ & Hval).
  unfold bind at 1. rewrite Hturn. unfold ret.
  exists next, t. split; [done|]. split; [done|].
  rewrite Hval. cbn [active_team teams g2 g1 set_teams set_leg_bet_cards].
  do 2 f_equal. rewrite <-!(size_dom (D := gset TeamName)), dom_insert_L.
  apply elem_of_dom_2 in Ht. f_equal. set_solver.
Qed.

(** X6.  [bet_on_leg] in full.  When the deck of the colour has a
    card, the active team takes the first one, [bet_on_leg] returns what
    the card pays at most and the turn passes to the next team; when the
    deck is empty it raises [InvalidMoveException], and [KeyError] when
    there is no deck for the colour, and the state is as it was. *)
Theorem bet_on_leg_result color g :
  game_inv g ->
  match leg_bet_cards g !! color with
  | Some (card :: rest) =>
      exists next t,
        teams g !! active_team g = Some t /\
        bet_on_leg color g =
        (set_active_team next
           (set_teams
              (<[active_team g :=
                   set_t_leg_bet_cards (card :: t_leg_bet_cards t) t]>
                 (teams g))
              (set_leg_bet_cards (<[color := rest]> (leg_bet_cards g)) g)),
         Return (lb_max_payoff card)) /\
        TeamName.value next =
        (TeamName.value (active_team g) + 1) `mod` Z.of_nat (size (teams g))
  | Some [] => bet_on_leg color g = (g, Raise InvalidMoveException)
  | None => bet_on_leg color g = (g, Raise KeyError)
  end.
Proof. exact (run_bet_on_leg color g). Qed.

(** A run of [place_movement_card], for the proofs that follow. *)
Lemma run_place_movement_card direction position g :
  game_inv g -> placement_allowed g position ->
  exists next t,
    teams g !! active_team g = Some t /\
    place_movement_card direction position g =
    (set_active_team next
       (set_teams
          (<[active_team g := set_t_placed_movement_card true t]> (teams g))
          (set_spots
             (alter (set_s_movement_card
                       (Some {| mc_team := active_team g;
                                mc_forward := direction |}))
                    (Z.to_nat position) (spots g)) g)),
     Return tt) /\
    TeamName.value next =
    (TeamName.value (active_team g) + 1) `mod` Z.of_nat (size (teams g)).
Proof.
  intros Hinv Hallowed. unfold place_movement_card.
  destruct (inv_active g Hinv) as [t Ht].
  destruct (can_place_movement_card_spec g position t (inv_length g Hinv) Ht)
    as (ok & Hcan & Hok).
  unfold bind at 1. rewrite Hcan.
  apply Hok in Hallowed as Htrue. subst ok. cbn [negb].
  assert (1 <= position <= BOARD_SPOTS) as Hrange by apply Hallowed.
  unfold bind at 1. unfold gets at 1.
  unfold bind at 1. unfold modify_spot at 1.
  rewrite (inv_length g Hinv), py_norm_nonneg
    by (unfold BOARD_SPOTS in *; lia).
  set (g1 := set_spots _ g).
  assert (game_inv g1) as Hinv1 by by apply game_inv_place_card.
  unfold bind at 1. unfold gets at 1.
  unfold bind at 1. cbn [active_team g1 set_spots].
  assert (teams g1 !! active_team g = Some t) as Ht1 by done.
  rewrite (modify_team_Some _ _ _ _ Ht1).
  set (g2 := set_teams _ g1).
  assert (game_inv g2) as Hinv2.
  { apply game_inv_teams_insensitive; [by rewrite Ht1|done]. }
  destruct (finish_turn_next g2 Hinv2) as (next & -> & _ & Hval).
  exists next, t. split; [done|]. split; [done|].
  rewrite Hval. cbn [active_team teams g2 g1 set_teams set_spots].
  do 2 f_equal. rewrite <-!(size_dom (D := gset TeamName)), dom_insert_L.
  apply elem_of_dom_2 in Ht. f_equal. set_solver.
Qed.

(** X7.  [place_movement_card] where a card may be placed: the
    card of the active team lies on the spot, with the direction that
    was asked for, the team is marked as having placed its card, and the
    turn passes to the next team.  Nothing else changes. *)
Theorem place_movement_card_result direction position g :
  game_inv g -> placement_allowed g position ->
  exists next t,
    teams g !! active_team g = Some t /\
    place_movement_card direction position g =
    (set_active_team next
       (set_teams
          (<[active_team g := set_t_placed_movement_card true t]> (teams g))
          (set_spots
             (alter (set_s_movement_card
                       (Some {| mc_team := active_team g;
                                mc_forward := direction |}))
                    (Z.to_nat position) (spots g)) g)),
     Return tt) /\
    TeamName.value next =
    (TeamName.value (active_team g) + 1) `mod` Z.of_nat (size (teams g)).
Proof. exact (run_place_movement_card direction position g). Qed.

(** A run of [make_overall_bet], for the proofs that follow. *)
Lemma run_make_overall_bet winner color g :
  game_inv g ->
  exists t,
    teams g !! active_team g = Some t /\
    if decide (color ∈ t_overall_bets_made t) then
      make_overall_bet winner color g = (g, Raise InvalidMoveException)
    else
      let card := {| ob_color := color; ob_team := active_team g |} in
      let g1 :=
        set_teams
          (<[active_team g :=
               set_t_overall_bets_made ({[color]} ∪ t_overall_bets_made t) t]>
             (teams g)) g in
      make_overall_bet winner color g =
      (if winner
       then set_overall_winner_cards (overall_winner_cards g ++ [card]) g1
       else set_overall_loser_cards (overall_loser_cards g ++ [card]) g1,
       Return tt).
Proof.
  intros Hinv. destruct (inv_active g Hinv) as [t Ht].
  exists t. split; [done|].
  destruct (decide (color ∈ t_overall_bets_made t)) as [Hin|Hout].
  - unfold make_overall_bet, can_make_overall_bet, bind, get, get_team.
    rewrite Ht. cbn [of_option ret].
    by rewrite bool_decide_false by (by intros ?).
  - cbn zeta. unfold make_overall_bet, can_make_overall_bet.
    unfold bind at 1. unfold bind at 1. unfold get at 1. unfold bind at 1.
    unfold get_team at 1. rewrite Ht. cbn [of_option ret].
    rewrite bool_decide_true by done.
    cbn [negb]. unfold bind at 1. unfold gets at 1.
    unfold bind at 1. rewrite (modify_team_Some _ _ _ _ Ht).
    by destruct winner.
Qed.

(** X27.  [make_overall_bet] in full.  A second bet of the active
    team on a colour raises [InvalidMoveException] and leaves the state
    as it was.  A first one adds the card of the team to the end of the
    list of bets on the winner, or on the loser, and the colour to the
    bets of the team; the rest of the state, the turn included, is as it
    was. *)
Theorem make_overall_bet_result winner color g :
  game_inv g ->
  exists t,
    teams g !! active_team g = Some t /\
    if decide (color ∈ t_overall_bets_made t) then
      make_overall_bet winner color g = (g, Raise InvalidMoveException)
    else
      let card := {| ob_color := color; ob_team := active_team g |} in
      let g1 :=
        set_teams
          (<[active_team g :=
               set_t_overall_bets_made ({[color]} ∪ t_overall_bets_made t) t]>
             (teams g)) g in
      make_overall_bet winner color g =
      (if winner
       then set_overall_winner_cards (overall_winner_cards g ++ [card]) g1
       else set_overall_loser_cards (overall_loser_cards g ++ [card]) g1,
       Return tt).
Proof. exact (run_make_overall_bet winner color g). Qed.

(** ** What the table always looks like *)

(** The leg-bet cards of a colour, in the order of the deck. *)
Definition cards_of (color : Color) : list LegBetCard :=
  map (fun v => {| lb_color := color; lb_max_payoff := v |}) [5; 3; 2].

(** The leg-bet cards that a team holds. *)
Definition hand_of (g : Game) (name : TeamName) : list LegBetCard :=
  match teams g !! name with
  | Some t => t_leg_bet_cards t
  | None => []
  end.

(** The leg-bet cards that the teams hold. *)
Definition hands (g : Game) : list LegBetCard :=
  concat (map (hand_of g) TeamName.all).

(** A state of the table between two actions:
    - every record is filed under its name;
    - a game that goes on has no winners, a game that is over has some;
    - a team has placed a movement card exactly when a card of that
      team lies on the board, and then there is one such card;
    - the leg-bet cards of a colour are the 5, the 3 and the 2, the
      first ones in the hands of the teams and the other ones in the
      deck;
    - a team has bet on a colour for the race exactly when one overall
      bet card says so, and no overall bet card comes twice. *)
Record table_inv (g : Game) : Prop := {
  ti_names : names_agree (teams g);
  ti_flags :
    match winners g with
    | None => playing g = true
    | Some w => playing g = false /\ w <> ∅
    end;
  ti_owned : forall name t,
    teams g !! name = Some t ->
    (t_placed_movement_card t = true <->
     exists q card, card_at g q = Some card /\ mc_team card = name);
  ti_one : forall q q' card card',
    card_at g q = Some card -> card_at g q' = Some card' ->
    mc_team card = mc_team card' -> q = q';
  ti_deck : forall color,
    exists held,
      leg_bet_cards g !! color = Some (drop held (cards_of color)) /\
      filter (fun card => lb_color card = color) (hands g)
      ≡ₚ take held (cards_of color);
  ti_bets : forall name t c,
    teams g !! name = Some t ->
    (c ∈ t_overall_bets_made t <->
     {| ob_color := c; ob_team := name |}
     ∈ overall_winner_cards g ++ overall_loser_cards g);
  ti_bets_once : NoDup (overall_winner_cards g ++ overall_loser_cards g)
}.

Lemma card_at_fmap g q :
  card_at g q = default None ((s_movement_card <$> spots g) !! q).
Proof. unfold card_at. rewrite list_lookup_fmap. by destruct (spots g !! q). Qed.

Lemma shape_fields t t' :
  set_t_coins 0 t' = set_t_coins 0 t ->
  t_name t' = t_name t /\
  t_leg_bet_cards t' = t_leg_bet_cards t /\
  t_placed_movement_card t' = t_placed_movement_card t /\
  t_overall_bets_made t' = t_overall_bets_made t.
Proof.
  intros H.
  split_and!;
    [apply (f_equal t_name) in H|apply (f_equal t_leg_bet_cards) in H
    |apply (f_equal t_placed_movement_card) in H
    |apply (f_equal t_overall_bets_made) in H]; exact H.
Qed.

Lemma generate_initial_leg_bet_cards_lookup color :
  generate_initial_leg_bet_cards !! color = Some (cards_of color).
Proof. by destruct color. Qed.

Lemma hands_ext g g' :
  (forall name, hand_of g' name = hand_of g name) -> hands g' = hands g.
Proof.
  intros H. unfold hands. f_equal. apply map_ext. intros name. apply H.
Qed.

Lemma hands_empty g :
  (forall name, hand_of g name = []) -> hands g = [].
Proof. intros H. unfold hands. simpl. by rewrite !H. Qed.

(** A move, the end of a leg and the end of the game keep the table in
    order. *)
Lemma table_inv_evolves a g g' :
  table_inv g -> evolves a g g' ->
  unfinished g g' \/ finished g g' ->
  table_inv g'.
Proof.
  intros [Hnames Hflags Howned Hone Hdeck Hbets Honce] Hev Hfl.
  assert (Hnames' := names_agree_evolves a g g' Hev Hnames).
  destruct Hev as [Hsh Hcards Hd Hw Hl].
  assert (forall name t', teams g' !! name = Some t' ->
            exists t, teams g !! name = Some t /\
              t_overall_bets_made t' = t_overall_bets_made t /\
              if a then t_leg_bet_cards t' = [] /\
                        t_placed_movement_card t' = false
              else t_leg_bet_cards t' = t_leg_bet_cards t /\
                   t_placed_movement_card t' = t_placed_movement_card t)
    as Hteam.
  { intros name t' Ht'.
    destruct (shape_lookup _ _ name t' Hsh Ht') as (t0 & Ht0 & Heq).
    apply shape_fields in Heq as (_ & Hhand & Hflag & Hb).
    destruct a.
    - rewrite lookup_fmap in Ht0.
      destruct (teams g !! name) as [t|]; [|done].
      simpl in Ht0. injection Ht0 as <-. exists t. split; [done|].
      cbn in *. by rewrite <-Hhand, <-Hflag, <-Hb.
    - exists t0. split; [done|]. by rewrite <-Hhand, <-Hflag, <-Hb. }
  assert (forall q, card_at g' q = if a then None else card_at g q) as Hcard.
  { intros q. rewrite !card_at_fmap, Hcards. destruct a; [|done].
    rewrite list_lookup_fmap. by destruct (spots g !! q). }
  split.
  - done.
  - destruct Hfl as [[-> ->]|[-> (w & -> & ? & _)]]; [done|by split].
  - intros name t' Ht'. destruct (Hteam name t' Ht') as (t & Ht & _ & Hrest).
    destruct a.
    + destruct Hrest as [_ ->]. split; [done|].
      intros (q & card & Hq & _). by rewrite Hcard in Hq.
    + destruct Hrest as [_ ->]. rewrite (Howned name t Ht).
      by setoid_rewrite Hcard.
  - intros q q' card card'. rewrite !Hcard. destruct a; [done|]. apply Hone.
  - intros color. destruct a.
    + exists 0%nat. rewrite Hd, generate_initial_leg_bet_cards_lookup.
      split; [done|]. rewrite hands_empty; [done|].
      intros name. unfold hand_of.
      destruct (teams g' !! name) as [t'|] eqn:Ht'; [|done].
      by destruct (Hteam name t' Ht') as (t & _ & _ & -> & _).
    + destruct (Hdeck color) as (held & Hdk & Hh). exists held.
      rewrite Hd. split; [done|]. rewrite (hands_ext g g'); [done|].
      intros name. unfold hand_of.
      destruct (teams g' !! name) as [t'|] eqn:Ht'.
      * destruct (Hteam name t' Ht') as (t & -> & _ & -> & _). done.
      * destruct (teams g !! name) as [t|] eqn:Ht; [|done].
        assert (is_Some (teams g' !! name)) as [? ?]; [|congruence].
        apply elem_of_dom. rewrite (shape_dom _ _ Hsh).
        by apply elem_of_dom.
  - intros name t' c Ht'. destruct (Hteam name t' Ht') as (t & Ht & -> & _).
    rewrite Hw, Hl. by apply Hbets.
  - by rewrite Hw, Hl.
Qed.

Lemma concat_map_update {X} (f f' : TeamName -> list X) l a x :
  NoDup l -> a ∈ l -> f' a = x :: f a ->
  (forall n, n <> a -> f' n = f n) ->
  concat (map f' l) ≡ₚ x :: concat (map f l).
Proof.
  intros Hnd Ha Hfa Hf. induction l as [|n l IH]; [by apply elem_of_nil in Ha|].
  apply NoDup_cons in Hnd as [Hn Hnd]. simpl.
  destruct (decide (n = a)) as [->|Hne].
  - rewrite Hfa. simpl. do 2 f_equiv.
    assert (map f' l = map f l) as ->; [|done].
    apply map_ext_in. intros n Hin%list_elem_of_In. apply Hf. by intros ->.
  - apply elem_of_cons in Ha as [->|Ha]; [done|].
    rewrite (Hf n Hne), (IH Hnd Ha). by rewrite Permutation_middle.
Qed.

Lemma NoDup_TeamName_all : NoDup TeamName.all.
Proof. apply NoDup_ListNoDup. repeat constructor; set_solver. Qed.

Lemma elem_of_TeamName_all (n : TeamName) : n ∈ TeamName.all.
Proof. destruct n; compute_done. Qed.

Lemma cards_of_color color card : card ∈ cards_of color -> lb_color card = color.
Proof.
  unfold cards_of. intros (v & -> & _)%list_elem_of_fmap. done.
Qed.

Lemma table_inv_bet_on_leg color g :
  game_inv g -> table_inv g -> table_inv (bet_on_leg color g).1.
Proof.
  intros Hinv Htable. assert (Hres := run_bet_on_leg color g Hinv).
  destruct (leg_bet_cards g !! color) as [[|card rest]|] eqn:Hcards;
    [by rewrite Hres| |by rewrite Hres].
  destruct Hres as (next & t & Ht & -> & _). cbn [fst].
  destruct Htable as [Hnames Hflags Howned Hone Hdeck Hbets Honce].
  set (t1 := set_t_leg_bet_cards (card :: t_leg_bet_cards t) t).
  assert (forall name t', <[active_team g := t1]> (teams g) !! name = Some t' ->
            exists t0, teams g !! name = Some t0 /\
              t_name t' = t_name t0 /\
              t_placed_movement_card t' = t_placed_movement_card t0 /\
              t_overall_bets_made t' = t_overall_bets_made t0) as Hteam.
  { intros name t'. destruct (decide (name = active_team g)) as [->|Hne].
    - rewrite lookup_insert_eq. intros [= <-]. by exists t.
    - rewrite lookup_insert_ne by done. intros Ht'. by exists t'. }
  split; game_simpl; try done.
  - intros name t' Ht'. destruct (Hteam name t' Ht') as (t0 & Ht0 & -> & _).
    by apply Hnames.
  - intros name t' Ht'.
    destruct (Hteam name t' Ht') as (t0 & Ht0 & _ & -> & _).
    by apply Howned.
  - intros color'.
    assert (hands
              (set_active_team next
                 (set_teams (<[active_team g := t1]> (teams g))
                    (set_leg_bet_cards (<[color := rest]> (leg_bet_cards g)) g)))
            ≡ₚ card :: hands g) as Hhands.
    { unfold hands. apply (concat_map_update _ _ _ (active_team g)).
      - apply NoDup_TeamName_all.
      - apply elem_of_TeamName_all.
      - unfold hand_of. game_simpl. by rewrite lookup_insert_eq, Ht.
      - intros n Hn. unfold hand_of. game_simpl.
        by rewrite lookup_insert_ne. }
    destruct (Hdeck color) as (held & Hdk & Hh).
    rewrite Hcards in Hdk. injection Hdk as Hdk.
    assert (cards_of color !! held = Some card) as Hcard.
    { rewrite <-(Nat.add_0_r held), <-lookup_drop, <-Hdk. done. }
    assert (lb_color card = color) as Hcolor.
    { apply cards_of_color. by eapply list_elem_of_lookup_2. }
    destruct (decide (color' = color)) as [->|Hne].
    + exists (S held). rewrite lookup_insert_eq. split.
      * f_equal. rewrite (drop_S _ _ _ Hcard) in Hdk. by injection Hdk.
      * rewrite Hhands, filter_cons_True by done.
        rewrite (take_S_r _ _ _ Hcard), Hh.
        by rewrite Permutation_cons_append.
    + destruct (Hdeck color') as (held' & Hdk' & Hh'). exists held'.
      rewrite lookup_insert_ne by done. split; [done|].
      rewrite Hhands, filter_cons_False by congruence. done.
  - intros name t' c Ht'.
    destruct (Hteam name t' Ht') as (t0 & Ht0 & _ & _ & ->).
    by apply Hbets.
Qed.

Lemma card_at_place g position card q :
  (Z.to_nat position < length (spots g))%nat ->
  card_at
    (set_spots
       (alter (set_s_movement_card (Some card)) (Z.to_nat position) (spots g))
       g) q =
  if decide (q = Z.to_nat position) then Some card else card_at g q.
Proof.
  intros Hlt. unfold card_at. game_simpl.
  rewrite list_lookup_alter.
  destruct (decide (Z.to_nat position = q)) as [<-|Hne].
  - rewrite decide_True by done.
    destruct (lookup_lt_is_Some_2 _ _ Hlt) as [s ->]. done.
  - by rewrite decide_False by done.
Qed.

Lemma table_inv_place_movement_card direction position g :
  game_inv g -> table_inv g ->
  table_inv (place_movement_card direction position g).1.
Proof.
  intros Hinv Htable.
  destruct (inv_active g Hinv) as [t Ht].
  destruct (can_place_movement_card_spec g position t (inv_length g Hinv) Ht)
    as (ok & Hcan & Hok).
  destruct ok.
  2:{ unfold place_movement_card, bind. by rewrite Hcan. }
  assert (placement_allowed g position) as Hallowed by by apply Hok.
  destruct (run_place_movement_card direction position g Hinv Hallowed)
    as (next & t' & Ht' & -> & _).
  assert (t' = t) as -> by congruence. cbn [fst]. clear Ht'.
  destruct Hallowed as ((t0 & Ht0 & Hflag) & Hrange & _ & _ & Hhere & _).
  assert (t0 = t) as -> by congruence.
  assert (Z.to_nat position < length (spots g))%nat as Hlt.
  { rewrite (inv_length g Hinv). unfold BOARD_SPOTS in *. lia. }
  destruct Htable as [Hnames Hflags Howned Hone Hdeck Hbets Honce].
  set (card := {| mc_team := active_team g; mc_forward := direction |}).
  set (t1 := set_t_placed_movement_card true t).
  assert (forall q c,
    card_at
      (set_active_team next
         (set_teams (<[active_team g := t1]> (teams g))
            (set_spots
               (alter (set_s_movement_card (Some card)) (Z.to_nat position)
                      (spots g)) g))) q = Some c <->
    (q = Z.to_nat position /\ c = card) \/
    (q <> Z.to_nat position /\ card_at g q = Some c)) as Hcard.
  { intros q c.
    change (card_at (set_active_team ?a (set_teams ?ts ?g0)) q)
      with (card_at g0 q).
    rewrite (card_at_place g position card q Hlt).
    destruct (decide (q = Z.to_nat position)); naive_solver. }
  assert (forall q c, card_at g q = Some c -> mc_team c <> active_team g)
    as Hnone.
  { intros q c Hq Hteam.
    assert (t_placed_movement_card t = true); [|congruence].
    apply (Howned _ t Ht). by exists q, c. }
  split; game_simpl; try done.
  - intros name t'. destruct (decide (name = active_team g)) as [->|Hne].
    + rewrite lookup_insert_eq. intros [= <-]. exact (Hnames _ _ Ht).
    + rewrite lookup_insert_ne by done. by apply Hnames.
  - intros name t'. destruct (decide (name = active_team g)) as [->|Hne].
    + rewrite lookup_insert_eq. intros [= <-]. split; [|done].
      intros _. exists (Z.to_nat position), card. split; [|done].
      apply Hcard. by left.
    + rewrite lookup_insert_ne by done. intros Hname.
      rewrite (Howned name t' Hname). split.
      * intros (q & c & Hq & Hc). exists q, c. split; [|done].
        apply Hcard. right. split; [|done]. intros ->. congruence.
      * intros (q & c & [[-> ->]|[_ Hq]]%Hcard & Hc); [done|]. by exists q, c.
  - intros q q' c c' [[-> ->]|[Hq Hc]]%Hcard [[-> ->]|[Hq' Hc']]%Hcard Hteam;
      try done.
    + by destruct (Hnone q' c' Hc').
    + by destruct (Hnone q c Hc).
    + by apply (Hone q q' c c').
  - intros color. destruct (Hdeck color) as (held & Hdk & Hh).
    exists held. split; [done|].
    rewrite (hands_ext g); [done|]. intros name. unfold hand_of. game_simpl.
    destruct (decide (name = active_team g)) as [->|Hne].
    + by rewrite lookup_insert_eq, Ht.
    + by rewrite lookup_insert_ne.
  - intros name t' c. destruct (decide (name = active_team g)) as [->|Hne].
    + rewrite lookup_insert_eq. intros [= <-]. exact (Hbets _ _ c Ht).
    + rewrite lookup_insert_ne by done. by apply Hbets.
Qed.

Lemma table_inv_make_overall_bet winner color g :
  game_inv g -> table_inv g ->
  table_inv (make_overall_bet winner color g).1.
Proof.
  intros Hinv Htable.
  destruct (run_make_overall_bet winner color g Hinv) as (t & Ht & Hres).
  destruct (decide (color ∈ t_overall_bets_made t)) as [Hin|Hout];
    [by rewrite Hres|].
  cbn zeta in Hres. rewrite Hres. cbn [fst]. clear Hres.
  destruct Htable as [Hnames Hflags Howned Hone Hdeck Hbets Honce].
  set (card := {| ob_color := color; ob_team := active_team g |}).
  set (t1 := set_t_overall_bets_made ({[color]} ∪ t_overall_bets_made t) t).
  set (g1 := set_teams (<[active_team g := t1]> (teams g)) g).
  set (g' := if winner
             then set_overall_winner_cards (overall_winner_cards g ++ [card]) g1
             else set_overall_loser_cards (overall_loser_cards g ++ [card]) g1).
  assert (teams g' = <[active_team g := t1]> (teams g)) as Hteams
    by (by destruct winner).
  assert (spots g' = spots g) as Hspots by (by destruct winner).
  assert (overall_winner_cards g' ++ overall_loser_cards g'
          ≡ₚ card :: overall_winner_cards g ++ overall_loser_cards g) as Hperm.
  { destruct winner; unfold g'; game_simpl.
    - rewrite <-app_assoc. cbn [app]. symmetry. apply Permutation_middle.
    - rewrite app_assoc. symmetry. apply Permutation_cons_append. }
  assert (card ∉ overall_winner_cards g ++ overall_loser_cards g) as Hnew.
  { intros Hc. apply Hout. by apply (Hbets _ t color Ht). }
  assert (forall q, card_at g' q = card_at g q) as Hcard.
  { intros q. unfold card_at. by rewrite Hspots. }
  split.
  - rewrite Hteams. intros name t'.
    destruct (decide (name = active_team g)) as [->|Hne].
    + rewrite lookup_insert_eq. intros [= <-]. exact (Hnames _ _ Ht).
    + rewrite lookup_insert_ne by done. by apply Hnames.
  - by destruct winner.
  - rewrite Hteams. intros name t'. setoid_rewrite Hcard.
    destruct (decide (name = active_team g)) as [->|Hne].
    + rewrite lookup_insert_eq. intros [= <-]. exact (Howned _ _ Ht).
    + rewrite lookup_insert_ne by done. by apply Howned.
  - intros q q' c c'. rewrite !Hcard. apply Hone.
  - intros color'. destruct (Hdeck color') as (held & Hdk & Hh).
    exists held. split; [by destruct winner|].
    rewrite (hands_ext g); [done|]. intros name. unfold hand_of.
    rewrite Hteams. destruct (decide (name = active_team g)) as [->|Hne].
    + by rewrite lookup_insert_eq, Ht.
    + by rewrite lookup_insert_ne.
  - rewrite Hteams. intros name t' c. rewrite Hperm, elem_of_cons.
    destruct (decide (name = active_team g)) as [->|Hne].
    + rewrite lookup_insert_eq. intros [= <-]. cbn.
      rewrite elem_of_union, elem_of_singleton, <-(Hbets _ t c Ht).
      unfold card. split; [intros [->|?]; auto|intros [[= ->]|?]; auto].
    + rewrite lookup_insert_ne by done. intros Ht'.
      rewrite (Hbets _ t' c Ht'). unfold card. split; [auto|].
      intros [[= _ ?]|?]; done.
  - rewrite Hperm. by constructor.
Qed.

Lemma table_inv_new_game number_of_teams rolls g :
  (forall c, 1 <= rolls c <= 3) ->
  new_game number_of_teams rolls = Return g ->
  table_inv g.
Proof.
  intros Hrolls. unfold new_game.
  destruct (decide (number_of_teams < 2 \/ number_of_teams > 8)) as [|Hok];
    [done|].
  set (n := Z.to_nat number_of_teams).
  destruct (take n TeamName.all) as [|first names] eqn:Hnames; [done|].
  destruct (generate_initial_board_inv rolls Hrolls)
    as (sp & cm & -> & Hlen & Hpres & Hspots).
  intros [= <-].
  assert (forall name t,
    (list_to_map (map (fun n => (n, new_team n)) (first :: names))
       : gmap TeamName Team) !! name = Some t -> t = new_team name) as Hteam.
  { intros name t Ht. apply elem_of_list_to_map_2 in Ht.
    apply list_elem_of_fmap in Ht as (n' & [= -> ->] & _). done. }
  assert (forall q,
    card_at {| teams := list_to_map (map (fun n => (n, new_team n))
                                         (first :: names));
               active_team := first; die_remaining := all_dice;
               camels := cm; spots := sp;
               leg_bet_cards := generate_initial_leg_bet_cards;
               overall_winner_cards := []; overall_loser_cards := [];
               playing := true; winners := None |} q = None) as Hcard.
  { intros q. unfold card_at. game_simpl.
    destruct (sp !! q) as [s|] eqn:Hs; [|done].
    by destruct (Hspots q s Hs) as (_ & ? & _). }
  split; game_simpl.
  - intros name t Ht. by rewrite (Hteam name t Ht).
  - done.
  - intros name t Ht. rewrite (Hteam name t Ht). split; [done|].
    intros (q & card & Hq & _). by rewrite Hcard in Hq.
  - intros q q' card card' Hq. by rewrite Hcard in Hq.
  - intros color. exists 0%nat.
    rewrite generate_initial_leg_bet_cards_lookup. split; [done|].
    rewrite hands_empty; [done|]. intros name. unfold hand_of. game_simpl.
    destruct (_ !! name) as [t|] eqn:Ht; [|done].
    by rewrite (Hteam name t Ht).
  - intros name t c Ht. rewrite (Hteam name t Ht). cbn.
    split; [set_solver|]. by intros ?%elem_of_nil.
  - constructor.
Qed.

(** Every state that a game goes through has an orderly table. *)
Lemma reachable_table_inv g : reachable g -> table_inv g.
Proof.
  induction 1 as [n rolls g Hrolls Hnew
                 |fuel color move g x Hreach Htable Hfuel Hcolor Hmove <-
                 |color g x Hreach Htable <-
                 |direction position g x Hreach Htable <-
                 |winner color g x Hreach Htable <-].
  - by eapply table_inv_new_game.
  - destruct (reachable_inv g Hreach) as [Hinv Hdice].
    destruct (run_roll_dice fuel color move g Hinv Hdice ltac:(lia) Hfuel)
      as (g' & -> & _ & Hcase). cbn [fst].
    destruct Hcase as [(Hev & Hfl & _)|[(Hev & Hfl & _)|(Hev & Hfl & _)]];
      eapply table_inv_evolves; eauto.
  - apply table_inv_bet_on_leg; [|done]. by apply reachable_inv.
  - apply table_inv_place_movement_card; [|done]. by apply reachable_inv.
  - apply table_inv_make_overall_bet; [|done]. by apply reachable_inv.
Qed.

(** ** Camels and movement cards *)

(** No camel stands on a movement card. *)
Definition cards_clear (g : Game) : Prop :=
  forall q card, card_at g q = Some card -> camels_at g q = [].

Lemma camels_at_move_chain forward ip q below chain g x :
  ip <> q -> (q < length (spots g))%nat -> (ip < length (spots g))%nat ->
  camels_at (move_chain forward ip q below chain g) x =
  if decide (x = q) then
    (if forward then camels_at g q ++ chain else chain ++ camels_at g q)
  else if decide (x = ip) then below
  else camels_at g x.
Proof.
  intros Hne Hq Hip. unfold camels_at.
  destruct (spots g !! x) as [s|] eqn:Hs.
  - destruct (move_chain_lookup_Some forward ip q below chain g x s Hne Hs)
      as (s' & -> & ->).
    destruct (decide (x = q)) as [->|]; [by rewrite Hs|done].
  - assert (spots (move_chain forward ip q below chain g) !! x = None) as ->.
    { apply lookup_ge_None in Hs. apply lookup_ge_None.
      unfold move_chain. cbn [spots set_spots set_camels].
      by rewrite !length_alter. }
    apply lookup_ge_None in Hs.
    rewrite !decide_False by lia. done.
Qed.

Lemma cards_clear_no_cards g :
  (forall q, card_at g q = None) -> cards_clear g.
Proof. intros H q card. by rewrite H. Qed.

Lemma card_at_evolves_true g g' q :
  evolves true g g' -> card_at g' q = None.
Proof.
  intros [_ Hcards _ _ _]. rewrite card_at_fmap, Hcards, list_lookup_fmap.
  by destruct (spots g !! q).
Qed.

Lemma camels_at_set_teams ts g q : camels_at (set_teams ts g) q = camels_at g q.
Proof. done. Qed.

Lemma card_at_set_teams ts g q : card_at (set_teams ts g) q = card_at g q.
Proof. done. Qed.

(** A move on a board without a camel on a card lands on the spot it
    aims at, or next to it when a card lies there. *)
Lemma move_chain_clear forward ip q sp below chain c g :
  game_inv g -> cards_clear g ->
  spots g !! ip = Some sp -> s_camels sp = below ++ chain ->
  DoublyLinkedList.find_chain c (s_camels sp) = Some (below, chain) ->
  ip <> q -> (q < 16)%nat -> card_at g q = None ->
  cards_clear (move_chain forward ip q below chain g).
Proof.
  intros Hinv Hclear Hsp Hstack Hfind Hne Hq Hcard x card.
  assert (Hlen := inv_length g Hinv).
  assert (ip < 16)%nat as Hip by (apply lookup_lt_Some in Hsp; lia).
  rewrite card_at_move_chain by done.
  rewrite camels_at_move_chain by lia. intros Hx.
  destruct (decide (x = q)) as [->|Hxq]; [congruence|].
  destruct (decide (x = ip)) as [->|Hxi]; [|by apply (Hclear x card)].
  specialize (Hclear ip card Hx). unfold camels_at in Hclear.
  rewrite Hsp, Hstack in Hclear.
  apply find_chain_spec in Hfind as (_ & _ & rest & ->).
  by destruct below.
Qed.

Lemma move_camel_clear fuel c n g :
  game_inv g -> cards_clear g -> n > 0 -> (4 <= fuel)%nat ->
  cards_clear (move_camel fuel c n g).1.
Proof.
  intros Hinv Hclear Hn Hfuel.
  destruct (locate_camel g c Hinv)
    as (ip & sp & below & chain & Hip & Hpos & Hsp & Hfind & Hstack).
  assert (Hlen := inv_length g Hinv).
  destruct fuel as [|fuel]; [lia|].
  destruct (decide (Z.of_nat ip + n > BOARD_SPOTS)) as [Hover|Hin].
  - rewrite (move_camel_overflow g c ip sp below chain Hlen Hpos Hsp Hfind)
      by done.
    unfold bind.
    assert (game_inv (move_camel fuel c (BOARD_SPOTS - Z.of_nat ip) g).1)
      as Hinv1.
    { apply move_camel_inv; [done|]. unfold BOARD_SPOTS. lia. }
    assert ((move_camel fuel c (BOARD_SPOTS - Z.of_nat ip) g).2 = Return tt)
      as Hret.
    { destruct (decide (BOARD_SPOTS - Z.of_nat ip = 0)) as [->|Hne].
      - destruct fuel; [lia|done].
      - apply (move_camel_land_returns _ _ _ _ ip); try done; [|lia].
        unfold BOARD_SPOTS in *. lia. }
    destruct (move_camel fuel c (BOARD_SPOTS - Z.of_nat ip) g) as [g1 r].
    cbn [fst snd] in *. subst r.
    destruct (finish_game_effect g1 Hinv1) as (g2 & -> & Hev & _).
    apply cards_clear_no_cards. intros q.
    by apply (card_at_evolves_true g1).
  - assert (0 <= Z.of_nat ip + n <= BOARD_SPOTS) as Hrange by lia.
    rewrite (move_camel_land g c ip sp below chain Hlen Hpos Hsp Hfind)
      by (done || lia).
    rewrite bool_decide_true by done.
    set (q := Z.to_nat (Z.of_nat ip + n)).
    assert (ip <> q) as Hne by lia.
    assert (q < 16)%nat as Hq by (unfold BOARD_SPOTS in *; lia).
    set (g1 := move_chain true ip q below chain g).
    assert (game_inv g1) as Hinv1 by by eapply move_chain_inv.
    destruct (card_at g q) as [card|] eqn:Hcard.
    2:{ by apply (move_chain_clear true ip q sp below chain c). }
    assert (camels_at g q = []) as Hempty by by apply (Hclear q card).
    assert (card_at g1 q = Some card) as Hcard1.
    { unfold g1. by rewrite card_at_move_chain. }
    destruct (card_at_neighbours g1 q card Hinv1 Hcard1)
      as (Hq1 & [t Ht] & Hnext & Hprev).
    unfold cascade, bind. rewrite (add_coins_Some _ _ _ _ Ht).
    set (g2 := set_teams _ g1).
    assert (game_inv g2) as Hinv2 by by apply game_inv_teams_insensitive.
    apply find_chain_spec in Hfind as Hchain.
    destruct Hchain as (_ & _ & rest & Hchain).
    assert (camels g2 !! c = Some (Z.of_nat q)) as Hpos2.
    { unfold g2. cbn [camels set_teams]. unfold g1.
      by rewrite (camels_move_chain _ _ _ _ _ _ _ _ Hchain). }
    assert (camels_at g2 q = chain) as Hstack2.
    { unfold g2. rewrite camels_at_set_teams. unfold g1.
      rewrite camels_at_move_chain by lia.
      by rewrite decide_True, Hempty by done. }
    assert (exists s2, spots g2 !! q = Some s2 /\ s_camels s2 = chain)
      as (s2 & Hs2 & Hcam2).
    { unfold camels_at in Hstack2.
      destruct (spots g2 !! q) as [s2|] eqn:Hs2; [by exists s2|].
      apply lookup_ge_None in Hs2. rewrite (inv_length g2 Hinv2) in Hs2. lia. }
    assert (DoublyLinkedList.find_chain c (s_camels s2) = Some ([], chain))
      as Hfind2.
    { rewrite Hcam2, Hchain. simpl. by rewrite decide_True. }
    assert (forall x card', card_at g2 x = Some card' ->
              x <> ip -> x <> q -> camels_at g2 x = []) as Hrest.
    { intros x card' Hx Hxi Hxq. unfold g2 in Hx |- *.
      rewrite card_at_set_teams in Hx. rewrite camels_at_set_teams.
      unfold g1 in Hx |- *. rewrite card_at_move_chain in Hx by done.
      rewrite camels_at_move_chain by lia.
      rewrite !decide_False by done. by apply (Hclear x card'). }
    assert (card_at g2 ip = None) as Hcardip.
    { unfold g2. rewrite card_at_set_teams. unfold g1.
      rewrite card_at_move_chain by done.
      destruct (card_at g ip) as [card'|] eqn:Hc; [|done].
      specialize (Hclear ip card' Hc). unfold camels_at in Hclear.
      rewrite Hsp, Hstack, Hchain in Hclear. by destruct below. }
    destruct fuel as [|fuel]; [lia|].
    destruct (decide (mc_forward card = true /\ q = 15%nat)) as [[Hfw ->]|Hstay].
    + rewrite Hfw.
      rewrite (move_camel_overflow g2 c 15 s2 [] chain
                 (inv_length g2 Hinv2) Hpos2 Hs2 Hfind2)
        by (unfold BOARD_SPOTS; lia).
      unfold bind. change (BOARD_SPOTS - Z.of_nat 15) with 0.
      destruct fuel as [|fuel]; [lia|]. rewrite move_camel_zero.
      destruct (finish_game_effect g2 Hinv2) as (g3 & -> & Hev & _).
      apply cards_clear_no_cards. intros x.
      by apply (card_at_evolves_true g2).
    + set (d := if mc_forward card then 1 else -1).
      assert (0 <= Z.of_nat q + d <= BOARD_SPOTS) as Hrange2.
      { unfold d, BOARD_SPOTS. destruct (mc_forward card); [|lia].
        assert (q <> 15%nat) by (intros ?; by apply Hstay). lia. }
      rewrite (move_camel_land g2 c q s2 [] chain
                 (inv_length g2 Hinv2) Hpos2 Hs2 Hfind2)
        by (done || (unfold d; destruct (mc_forward card); lia)).
      set (q' := Z.to_nat (Z.of_nat q + d)).
      assert (q <> q') as Hne' by (unfold d in *; destruct (mc_forward card); lia).
      assert (q' < 16)%nat as Hq' by (unfold BOARD_SPOTS in *; lia).
      assert (card_at g2 q' = None) as Hcard'.
      { unfold g2. rewrite card_at_set_teams.
        unfold q', d. destruct (mc_forward card).
        - replace (Z.to_nat (Z.of_nat q + 1)) with (S q) by lia. done.
        - replace (Z.to_nat (Z.of_nat q + -1)) with (q - 1)%nat by lia. done. }
      rewrite Hcard'. cbn [cascade ret fst].
      assert (q' < length (spots g2))%nat as Hq'2
        by (rewrite (inv_length g2 Hinv2); lia).
      assert (q < length (spots g2))%nat as Hq2
        by (rewrite (inv_length g2 Hinv2); lia).
      intros x card'.
      rewrite card_at_move_chain by done.
      rewrite (camels_at_move_chain _ q q' [] chain g2 x Hne' Hq'2 Hq2).
      intros Hx.
      destruct (decide (x = q')) as [->|Hxq']; [congruence|].
      destruct (decide (x = q)) as [->|Hxq]; [done|].
      destruct (decide (x = ip)) as [->|Hxi]; [congruence|].
      by apply (Hrest x card').
Qed.

(** The state in which [roll_dice] leaves the game. *)
Lemma roll_dice_unfold fuel color move g :
  game_inv g -> die_remaining g <> ∅ -> move > 0 -> (4 <= fuel)%nat ->
  exists t next,
    teams g !! active_team g = Some t /\
    let g2 :=
      set_die_remaining (die_remaining g ∖ {[color]})
        (set_teams
           (<[active_team g := set_t_coins (t_coins t + 1) t]> (teams g)) g) in
    let g3 := (move_camel fuel color move g2).1 in
    game_inv g2 /\ game_inv g3 /\
    (roll_dice fuel color move g).1 =
    set_active_team next
      (if decide (size (die_remaining g3) = 0%nat) then (finish_leg g3).1
       else g3).
Proof.
  intros Hinv Hdice Hmove Hfuel.
  destruct (inv_active g Hinv) as [t Ht].
  exists t.
  set (g1 := set_teams
               (<[active_team g := set_t_coins (t_coins t + 1) t]> (teams g)) g).
  assert (game_inv g1) as Hinv1.
  { apply game_inv_teams_insensitive; [by rewrite Ht|done]. }
  set (g2 := set_die_remaining (die_remaining g ∖ {[color]}) g1).
  assert (game_inv g2) as Hinv2 by by apply game_inv_set_die_remaining.
  assert (Hinv3 := move_camel_inv fuel color move g2 Hinv2 ltac:(lia)).
  assert (Hret := move_camel_returns fuel color move g2 Hinv2 Hmove Hfuel).
  set (g4 := if decide (size (die_remaining (move_camel fuel color move g2).1)
                        = 0%nat)
             then (finish_leg (move_camel fuel color move g2).1).1
             else (move_camel fuel color move g2).1).
  assert (game_inv g4) as Hinv4.
  { unfold g4. destruct (decide _); [|done].
    destruct (finish_leg_spec _ Hinv3) as (ts & Hdom & ->).
    by apply game_inv_finish_leg_state. }
  destruct (finish_turn_next g4 Hinv4) as (next & Hturn & _).
  exists next. split; [done|]. cbn zeta. split; [done|]. split; [done|].
  fold g4. unfold roll_dice.
  unfold bind at 1. unfold gets at 1.
  unfold bind at 1. rewrite (add_coins_Some _ _ _ _ Ht). fold g1.
  unfold bind at 1. unfold gets at 1. cbn [die_remaining g1 set_teams].
  rewrite decide_False by done.
  unfold bind at 1. unfold modify at 1. fold g2.
  unfold bind at 1. unfold g4 in *. clear g4.
  destruct (move_camel fuel color move g2) as [g3 r].
  cbn [fst snd] in *. subst r.
  unfold bind at 1. unfold gets at 1.
  destruct (decide (size (die_remaining g3) = 0%nat)).
  - destruct (finish_leg_spec _ Hinv3) as (ts & Hdom & Hleg).
    rewrite Hleg in Hturn |- *. cbn [fst] in *.
    unfold bind at 1. rewrite Hleg.
    unfold bind at 1. rewrite Hturn. done.
  - unfold bind at 1. unfold ret at 1.
    unfold bind at 1. rewrite Hturn. done.
Qed.

Lemma roll_dice_clear fuel color move g :
  game_inv g -> cards_clear g ->
  die_remaining g <> ∅ -> move > 0 -> (4 <= fuel)%nat ->
  cards_clear (roll_dice fuel color move g).1.
Proof.
  intros Hinv Hclear Hdice Hmove Hfuel.
  destruct (roll_dice_unfold fuel color move g Hinv Hdice Hmove Hfuel)
    as (t & next & Ht & Hinv2 & Hinv3 & ->). cbn zeta in *.
  set (g2 := set_die_remaining _ _) in *.
  assert (cards_clear (move_camel fuel color move g2).1) as Hclear3.
  { by apply move_camel_clear. }
  destruct (decide _); [|done].
  destruct (finish_leg_effect _ Hinv3) as (g4 & -> & Hev & _).
  apply cards_clear_no_cards. intros q.
  change (card_at (set_active_team next ?g0) q) with (card_at g0 q).
  by apply (card_at_evolves_true _ _ _ Hev).
Qed.

Lemma new_game_no_cards number_of_teams rolls g :
  (forall c, 1 <= rolls c <= 3) ->
  new_game number_of_teams rolls = Return g ->
  forall q, card_at g q = None.
Proof.
  intros Hrolls. unfold new_game.
  destruct (decide _); [done|].
  destruct (take _ TeamName.all) as [|first names]; [done|].
  destruct (generate_initial_board_inv rolls Hrolls)
    as (sp & cm & -> & Hlen & Hpres & Hspots).
  intros [= <-] q. unfold card_at. game_simpl.
  destruct (sp !! q) as [s|] eqn:Hs; [|done].
  by destruct (Hspots q s Hs) as (_ & ? & _).
Qed.

Lemma reachable_cards_clear g : reachable g -> cards_clear g.
Proof.
  induction 1 as [n rolls g Hrolls Hnew
                 |fuel color move g x Hreach Hclear Hfuel Hcolor Hmove <-
                 |color g x Hreach Hclear <-
                 |direction position g x Hreach Hclear <-
                 |winner color g x Hreach Hclear <-].
  - apply cards_clear_no_cards. by eapply new_game_no_cards.
  - destruct (reachable_inv g Hreach) as [Hinv Hdice].
    apply roll_dice_clear; try done. lia.
  - destruct (reachable_inv g Hreach) as [Hinv Hdice].
    assert (Hres := run_bet_on_leg color g Hinv).
    destruct (leg_bet_cards g !! color) as [[|card rest]|];
      [by rewrite Hres| |by rewrite Hres].
    destruct Hres as (next & t & _ & -> & _). exact Hclear.
  - destruct (reachable_inv g Hreach) as [Hinv Hdice].
    destruct (inv_active g Hinv) as [t Ht].
    destruct (can_place_movement_card_spec g position t (inv_length g Hinv) Ht)
      as (ok & Hcan & Hok).
    destruct ok.
    2:{ unfold place_movement_card, bind. by rewrite Hcan. }
    assert (placement_allowed g position) as Hallowed by by apply Hok.
    destruct (run_place_movement_card direction position g Hinv Hallowed)
      as (next & t' & _ & -> & _). cbn [fst].
    destruct Hallowed as (_ & Hrange & _ & _ & _ & Hempty).
    intros q card.
    change (card_at (set_active_team ?a (set_teams ?ts ?g0)) q)
      with (card_at g0 q).
    change (camels_at (set_active_team ?a (set_teams ?ts ?g0)) q)
      with (camels_at g0 q).
    rewrite card_at_place
      by (rewrite (inv_length g Hinv); unfold BOARD_SPOTS in *; lia).
    assert (forall x,
      camels_at
        (set_spots
           (alter (set_s_movement_card
                     (Some {| mc_team := active_team g;
                              mc_forward := direction |}))
                  (Z.to_nat position) (spots g)) g) x = camels_at g x) as ->.
    { intros x. unfold camels_at. game_simpl. rewrite list_lookup_alter.
      destruct (decide (Z.to_nat position = x)) as [->|]; [|done].
      by destruct (spots g !! x). }
    destruct (decide (q = Z.to_nat position)) as [->|]; [done|].
    apply Hclear.
  - destruct (reachable_inv g Hreach) as [Hinv Hdice].
    destruct (run_make_overall_bet winner color g Hinv) as (t & Ht & Hres).
    destruct (decide _); [by rewrite Hres|].
    cbn zeta in Hres. rewrite Hres. by destruct winner.
Qed.

(** ** What holds in every state of a game *)

(** The stacked game after the white, yellow, orange and green dice each
    gave a 3: only the blue die is left, and the blue camel stands on
    spot 14. *)
Definition last_roll_game : Game :=
  after (roll_dice 4 Color.GREEN 3)
    (after (roll_dice 4 Color.ORANGE 3)
       (after (roll_dice 4 Color.YELLOW 3)
          (after (roll_dice 4 Color.WHITE 3) stacked_game))).

(** Build a reachable state action by action, by the shape of the
    term. *)
Ltac reachable_walk :=
  repeat lazymatch goal with
    | |- reachable stacked_game => apply stacked_game_reachable
    | |- reachable (after (roll_dice _ _ _) _) =>
        apply reachable_after_roll_dice; [|lia|by vm_compute|lia]
    | |- reachable (after (bet_on_leg _) _) =>
        apply reachable_after_bet_on_leg
    | |- reachable (after (place_movement_card _ _) _) =>
        apply reachable_after_place_movement_card
    | |- reachable (after (make_overall_bet _ _) _) =>
        apply reachable_after_make_overall_bet
    end.

Lemma last_roll_game_reachable : reachable last_roll_game.
Proof. unfold last_roll_game. reachable_walk. Qed.

(** X8.  In a game that was played from the start by the player
    actions, [is_playing] returns the flag and [get_winners] raises
    [ValueError] as long as the game goes on; once it is over
    [get_winners] returns the winners, a set that is not empty: the
    assertion in it never fails. *)
Theorem get_winners_spec g :
  reachable g ->
  is_playing g = (g, Return (playing g)) /\
  if playing g then
    get_winners g = (g, Raise ValueError) /\ winners g = None
  else
    exists w, get_winners g = (g, Return w) /\ winners g = Some w /\ w <> ∅.
Proof.
  intros Hreach. split; [done|].
  assert (Hflags := ti_flags g (reachable_table_inv g Hreach)).
  unfold get_winners, bind, get.
  destruct (winners g) as [w|], (playing g); try done.
  - by destruct Hflags.
  - exists w. by destruct Hflags.
Qed.

Lemma get_winners_spec_witness :
  is_playing stacked_game = (stacked_game, Return (playing stacked_game)) /\
  if playing stacked_game then
    get_winners stacked_game = (stacked_game, Raise ValueError) /\
    winners stacked_game = None
  else
    exists w, get_winners stacked_game = (stacked_game, Return w) /\
              winners stacked_game = Some w /\ w <> ∅.
Proof. apply get_winners_spec, stacked_game_reachable. Defined.

(** X9.  When a roll ends the game, [get_winners] returns the
    teams that no team beats in coins. *)
Theorem roll_that_ends_the_game fuel color move g :
  reachable g -> (4 <= fuel)%nat ->
  color ∈ die_remaining g -> 1 <= move <= 3 ->
  let g' := (roll_dice fuel color move g).1 in
  playing g = true -> playing g' = false ->
  exists w, get_winners g' = (g', Return w) /\ leads (teams g') w.
Proof.
  intros Hreach Hfuel Hcolor Hmove g' Hon Hoff.
  destruct (reachable_inv g Hreach) as [Hinv Hdice].
  destruct (run_roll_dice fuel color move g Hinv Hdice ltac:(lia) Hfuel)
    as (g1 & Hrun & _ & Hcase).
  unfold g' in *. rewrite Hrun in *. cbn [fst] in *.
  destruct Hcase as [(_ & [Hp _] & _)|[(_ & [Hp _] & _)|(_ & Hfin & _)]];
    [congruence..|].
  destruct Hfin as (_ & w & Hw & _ & Hleads).
  exists w. split.
  - unfold get_winners, bind, get. by rewrite Hoff, Hw.
  - apply Hleads. apply (ti_names g (reachable_table_inv g Hreach)).
Qed.

Lemma roll_that_ends_the_game_witness :
  let g' := (roll_dice 4 Color.BLUE 3 last_roll_game).1 in
  exists w, get_winners g' = (g', Return w) /\ leads (teams g') w.
Proof.
  apply roll_that_ends_the_game.
  - apply last_roll_game_reachable.
  - lia.
  - by vm_compute.
  - lia.
  - by vm_compute.
  - by vm_compute.
Defined.

(** The stacked game after team A placed a forward card on spot 5. *)
Definition one_card_game : Game :=
  after (place_movement_card true 5) stacked_game.

Lemma one_card_game_reachable : reachable one_card_game.
Proof. unfold one_card_game. reachable_walk. Qed.

(** X10.  The movement cards of a game.  A card lies on one of
    the spots 1 to 15, with no card on the spots next to it and no camel
    on it; it belongs to a team that plays and is marked as having
    placed its card, and it is the only card of that team.  A team that
    is marked as having placed its card has a card on the board. *)
Theorem movement_cards_on_the_board g :
  reachable g ->
  (forall q card,
     card_at g q = Some card ->
     (1 <= q <= 15)%nat /\
     card_at g (S q) = None /\ card_at g (q - 1) = None /\
     camels_at g q = [] /\
     (exists t, teams g !! mc_team card = Some t /\
                t_placed_movement_card t = true) /\
     (forall q' card', card_at g q' = Some card' ->
                       mc_team card' = mc_team card -> q' = q)) /\
  (forall name t,
     teams g !! name = Some t -> t_placed_movement_card t = true ->
     exists q card, card_at g q = Some card /\ mc_team card = name).
Proof.
  intros Hreach.
  destruct (reachable_inv g Hreach) as [Hinv _].
  assert (Htable := reachable_table_inv g Hreach).
  split.
  - intros q card Hq.
    destruct (card_at_neighbours g q card Hinv Hq) as (Hq1 & [t Ht] & Hn & Hp).
    split_and!; try done.
    + unfold card_at in Hq.
      destruct (spots g !! q) eqn:Hs; [|done].
      apply lookup_lt_Some in Hs. rewrite (inv_length g Hinv) in Hs. lia.
    + by apply (reachable_cards_clear g Hreach q card).
    + exists t. split; [done|].
      apply (ti_owned g Htable _ t Ht). by exists q, card.
    + intros q' card' Hq' Hteam. by apply (ti_one g Htable q' q card' card).
  - intros name t Ht Hflag. by apply (ti_owned g Htable name t Ht).
Qed.

Lemma movement_cards_on_the_board_witness :
  card_at one_card_game 5
  = Some {| mc_team := TeamName.A; mc_forward := true |} /\
  (forall q card,
     card_at one_card_game q = Some card ->
     (1 <= q <= 15)%nat /\
     card_at one_card_game (S q) = None /\
     card_at one_card_game (q - 1) = None /\
     camels_at one_card_game q = [] /\
     (exists t, teams one_card_game !! mc_team card = Some t /\
                t_placed_movement_card t = true) /\
     (forall q' card', card_at one_card_game q' = Some card' ->
                       mc_team card' = mc_team card -> q' = q)) /\
  (forall name t,
     teams one_card_game !! name = Some t ->
     t_placed_movement_card t = true ->
     exists q card, card_at one_card_game q = Some card /\ mc_team card = name).
Proof.
  split; [by vm_compute|].
  apply movement_cards_on_the_board, one_card_game_reachable.
Defined.

(** X11.  The leg-bet cards of a colour are the 5, the 3 and the
    2: the first ones are in the hands of the teams, the other ones in
    the deck, in this order. *)
Theorem leg_bet_cards_are_conserved g color :
  reachable g ->
  exists held,
    leg_bet_cards g !! color = Some (drop held (cards_of color)) /\
    filter (fun card => lb_color card = color) (hands g)
    ≡ₚ take held (cards_of color).
Proof. intros Hreach. apply (ti_deck g (reachable_table_inv g Hreach)). Qed.

Lemma leg_bet_cards_are_conserved_witness :
  exists held,
    leg_bet_cards blocked_game !! Color.BLUE
    = Some (drop held (cards_of Color.BLUE)) /\
    filter (fun card => lb_color card = Color.BLUE) (hands blocked_game)
    ≡ₚ take held (cards_of Color.BLUE).
Proof.
  apply leg_bet_cards_are_conserved.
  unfold blocked_game. reachable_walk.
Defined.

(** X12.  The overall bets of a game: no card comes twice in the
    two lists, and a team has a colour among its bets exactly when a
    card of the team on that colour is in one of the two lists. *)
Theorem overall_bets_are_made_once g :
  reachable g ->
  NoDup (overall_winner_cards g ++ overall_loser_cards g) /\
  forall name t c,
    teams g !! name = Some t ->
    c ∈ t_overall_bets_made t <->
    {| ob_color := c; ob_team := name |}
    ∈ overall_winner_cards g ++ overall_loser_cards g.
Proof.
  intros Hreach. assert (Htable := reachable_table_inv g Hreach).
  split; [apply (ti_bets_once g Htable)|apply (ti_bets g Htable)].
Qed.

Lemma overall_bets_are_made_once_witness :
  NoDup (overall_winner_cards blocked_game ++ overall_loser_cards blocked_game)
  /\
  forall name t c,
    teams blocked_game !! name = Some t ->
    c ∈ t_overall_bets_made t <->
    {| ob_color := c; ob_team := name |}
    ∈ overall_winner_cards blocked_game ++ overall_loser_cards blocked_game.
Proof.
  apply overall_bets_are_made_once. unfold blocked_game. reachable_walk.
Defined.

(** ** The order of the turns *)

Lemma team_value_bound g name :
  game_inv g -> is_Some (teams g !! name) ->
  0 <= TeamName.value name < Z.of_nat (size (teams g)).
Proof.
  intros Hinv Hname. destruct (inv_teams g Hinv) as (n & Hn & Hdom).
  rewrite (size_teams g n ltac:(lia) Hdom).
  apply (teams_playing g n Hdom) in Hname.
  destruct n as [|[|[|[|[|[|[|[|[|n]]]]]]]]]; try lia;
    destruct name;
    first [ by pose proof (bool_decide_pack _ Hname) as H; vm_compute in H
          | simpl; lia ].
Qed.

Lemma team_value_inj a b : TeamName.value a = TeamName.value b -> a = b.
Proof. by destruct a, b. Qed.

Lemma set_active_team_id g : set_active_team (active_team g) g = g.
Proof. by destruct g. Qed.

Lemma iter_finish_turn g k :
  game_inv g ->
  exists a,
    Nat.iter k (after finish_turn) g = set_active_team a g /\
    is_Some (teams g !! a) /\
    TeamName.value a =
    (TeamName.value (active_team g) + Z.of_nat k)
      `mod` Z.of_nat (size (teams g)).
Proof.
  intros Hinv. induction k as [|k (a & Hiter & Ha & Hval)].
  - exists (active_team g). split; [by rewrite set_active_team_id|].
    split; [by apply inv_active|].
    rewrite Z.add_0_r, Z.mod_small; [done|].
    apply team_value_bound; [done|by apply inv_active].
  - rewrite Nat.iter_succ, Hiter. unfold after at 1.
    assert (game_inv (set_active_team a g)) as Hinv'
      by by apply game_inv_set_active_team.
    destruct (finish_turn_next _ Hinv') as (next & -> & Hnext & Hvalnext).
    exists next. split; [done|]. split; [done|].
    rewrite Hvalnext. cbn [active_team teams set_active_team].
    rewrite Hval, Zplus_mod_idemp_l. f_equal. lia.
Qed.

(** X13.  The turn goes round.  [finish_turn] hands the turn to the
    next team in the order of [TeamName], the first one after the last,
    so that after as many turns as there are teams it is back where it
    was, and not before. *)
Theorem turn_order g :
  game_inv g ->
  let n := size (teams g) in
  (exists next,
     finish_turn g = (set_active_team next g, Return tt) /\
     is_Some (teams g !! next) /\
     TeamName.value next =
     (TeamName.value (active_team g) + 1) `mod` Z.of_nat n) /\
  Nat.iter n (after finish_turn) g = g /\
  (forall k, (0 < k < n)%nat ->
     active_team (Nat.iter k (after finish_turn) g) <> active_team g).
Proof.
  intros Hinv n. split; [by apply finish_turn_next|].
  pose proof (team_value_bound g (active_team g) Hinv (inv_active g Hinv))
    as Hbound. fold n in Hbound.
  split.
  - destruct (iter_finish_turn g n Hinv) as (a & -> & _ & Hval).
    fold n in Hval.
    assert (a = active_team g) as ->; [|apply set_active_team_id].
    apply team_value_inj. rewrite Hval.
    replace (TeamName.value (active_team g) + Z.of_nat n)
      with (TeamName.value (active_team g) + 1 * Z.of_nat n) by lia.
    rewrite Z.mod_add by lia. by apply Z.mod_small.
  - intros k Hk. destruct (iter_finish_turn g k Hinv) as (a & -> & _ & Hval).
    fold n in Hval. cbn [active_team set_active_team]. intros ->.
    destruct (decide (TeamName.value (active_team g) + Z.of_nat k
                      < Z.of_nat n)) as [Hlt|Hge].
    + rewrite Z.mod_small in Hval by lia. lia.
    + assert ((TeamName.value (active_team g) + Z.of_nat k) `mod` Z.of_nat n
              = TeamName.value (active_team g) + Z.of_nat k - Z.of_nat n)
        as Hmod.
      { symmetry. apply (Z.mod_unique _ _ 1); lia. }
      lia.
Qed.

Lemma turn_order_witness :
  let n := size (teams stacked_game) in
  (exists next,
     finish_turn stacked_game = (set_active_team next stacked_game, Return tt)
     /\ is_Some (teams stacked_game !! next) /\
     TeamName.value next =
     (TeamName.value (active_team stacked_game) + 1) `mod` Z.of_nat n) /\
  Nat.iter n (after finish_turn) stacked_game = stacked_game /\
  (forall k, (0 < k < n)%nat ->
     active_team (Nat.iter k (after finish_turn) stacked_game)
     <> active_team stacked_game).
Proof. apply turn_order, stacked_game_inv. Defined.

(** ** A new game *)

(** The board while [generate_initial_board] places the camels, with the
    order of the stacks: a camel that comes later goes under the ones
    that are on its spot. *)
Definition stacked_inv (rolls : Color -> Z) (placed : list Color)
  (sp : list Spot) (cm : gmap Color Z) : Prop :=
  length sp = 16%nat /\
  (forall i s, sp !! i = Some s ->
     s_camels s = filter (fun c => rolls c - 1 = Z.of_nat i) (reverse placed)) /\
  (forall c, cm !! c = if decide (c ∈ placed) then Some (rolls c - 1) else None).

Lemma place_camels_order rolls (l : list Color) :
  (forall c, 1 <= rolls c <= 3) ->
  forall placed sp cm,
    stacked_inv rolls placed sp cm ->
    exists sp' cm',
      foldl (place_camel rolls) (Return (sp, cm)) l = Return (sp', cm') /\
      stacked_inv rolls (placed ++ l) sp' cm'.
Proof.
  intros Hrolls. induction l as [|c l IH]; intros placed sp cm Hinv.
  - exists sp, cm. by rewrite app_nil_r.
  - destruct Hinv as (Hlen & Hspots & Hcm).
    specialize (Hrolls c) as Hroll.
    set (n := Z.to_nat (rolls c - 1)).
    assert (is_Some (sp !! n)) as [s Hs] by (apply lookup_lt_is_Some; lia).
    cbn [foldl]. unfold place_camel at 2.
    rewrite Hlen, py_norm_nonneg by lia. fold n. rewrite Hs.
    replace (placed ++ c :: l) with ((placed ++ [c]) ++ l)
      by by rewrite <- app_assoc.
    apply IH. split_and!.
    + by rewrite length_insert.
    + intros i s'. rewrite reverse_app. cbn [reverse app].
      change (reverse [c]) with [c]. cbn [app].
      destruct (decide (i = n)) as [->|Hne].
      * rewrite list_lookup_insert_eq by lia. intros [= <-].
        cbn [s_camels set_s_camels DoublyLinkedList.insert_single_head].
        rewrite filter_cons_True by (unfold n; lia).
        unfold DoublyLinkedList.insert_single_head. f_equal. by apply Hspots.
      * rewrite list_lookup_insert_ne by done. intros Hs'.
        rewrite filter_cons_False by (unfold n in Hne; lia).
        by apply Hspots.
    + intros c'. destruct (decide (c' = c)) as [->|Hne].
      * rewrite lookup_insert_eq, decide_True; [done|].
        apply elem_of_app. right. by left.
      * rewrite lookup_insert_ne by done. rewrite Hcm.
        destruct (decide (c' ∈ placed)).
        -- rewrite decide_True; [done|]. apply elem_of_app. by left.
        -- rewrite decide_False; [done|].
           intros [?|?%list_elem_of_singleton]%elem_of_app; done.
Qed.

(** X14.  [Game(number_of_teams)] raises [ValueError] unless there
    are two to eight teams.  Otherwise the first teams of [TeamName]
    play with 3 coins each, team A begins, the decks are full, no bet is
    made, and every camel stands on the spot that its die gives, under
    the camels whose colours come before it in [Color]; no movement card
    lies on the board. *)
Theorem new_game_spec number_of_teams rolls :
  (forall c, 1 <= rolls c <= 3) ->
  if decide (2 <= number_of_teams <= 8) then
    exists g,
      new_game number_of_teams rolls = Return g /\
      teams g =
        list_to_map
          (map (fun n => (n, new_team n))
               (take (Z.to_nat number_of_teams) TeamName.all)) /\
      active_team g = TeamName.A /\
      die_remaining g = all_dice /\
      leg_bet_cards g = generate_initial_leg_bet_cards /\
      overall_winner_cards g = [] /\ overall_loser_cards g = [] /\
      playing g = true /\ winners g = None /\
      length (spots g) = 16%nat /\
      (forall c, camels g !! c = Some (rolls c - 1)) /\
      (forall q, (q < 16)%nat ->
         camels_at g q =
         filter (fun c => rolls c - 1 = Z.of_nat q) (reverse Color.all) /\
         card_at g q = None)
  else new_game number_of_teams rolls = Raise ValueError.
Proof.
  intros Hrolls. unfold new_game.
  destruct (decide (2 <= number_of_teams <= 8)) as [Hn|Hn].
  2:{ rewrite decide_True; [done|lia]. }
  rewrite decide_False by lia.
  destruct (take (Z.to_nat number_of_teams) TeamName.all)
    as [|first names] eqn:Hnames.
  { apply (f_equal length) in Hnames. rewrite length_take in Hnames.
    simpl in Hnames. lia. }
  assert (first = TeamName.A) as ->.
  { destruct (Z.to_nat number_of_teams) as [|k] eqn:Hk; [lia|].
    simpl in Hnames. by injection Hnames. }
  destruct (generate_initial_board_inv rolls Hrolls)
    as (sp & cm & Hboard & _ & _ & Hspots).
  destruct (place_camels_order rolls Color.all Hrolls []
              (map (fun i => new_spot (Z.of_nat i))
                   (seq 0 (Z.to_nat (BOARD_SPOTS + 1)))) ∅)
    as (sp' & cm' & Hboard' & Hlen & Hstacks & Hcm).
  { split_and!; [done| |done].
    intros i s Hs. apply list_elem_of_lookup_2, list_elem_of_In in Hs.
    apply in_map_iff in Hs as (k & <- & _). done. }
  assert (Hb := Hboard). unfold generate_initial_board in Hb.
  rewrite Hb in Hboard'. injection Hboard' as <- <-.
  rewrite Hboard. eexists. split; [reflexivity|]. game_simpl.
  split_and!; try done.
  - intros c. rewrite Hcm. rewrite decide_True; [done|].
    apply elem_of_Color_all.
  - intros q Hq. unfold camels_at, card_at. game_simpl.
    destruct (lookup_lt_is_Some_2 sp q ltac:(lia)) as [s Hs]. rewrite Hs.
    split; [by apply Hstacks|]. by destruct (Hspots q s Hs) as (_ & ? & _).
Qed.

Lemma new_game_spec_witness :
  exists g,
    new_game 2 (fun _ => 3) = Return g /\
    teams g =
      list_to_map
        (map (fun n => (n, new_team n)) (take (Z.to_nat 2) TeamName.all)) /\
    active_team g = TeamName.A /\
    die_remaining g = all_dice /\
    leg_bet_cards g = generate_initial_leg_bet_cards /\
    overall_winner_cards g = [] /\ overall_loser_cards g = [] /\
    playing g = true /\ winners g = None /\
    length (spots g) = 16%nat /\
    (forall c, camels g !! c = Some ((fun _ => 3) c - 1)) /\
    (forall q, (q < 16)%nat ->
       camels_at g q =
       filter (fun c => (fun _ : Color => 3) c - 1 = Z.of_nat q)
              (reverse Color.all) /\
       card_at g q = None).
Proof. apply (new_game_spec 2 (fun _ => 3)). intros c. lia. Defined.

(** ** The calculator away from the finish line *)

(** The outcomes when no camel can reach the end of the board before
    the leg is over: their number, and each one is a state of the board
    with no die left. *)
Lemma outcome_states_leaves (k : nat) :
  forall fuel g b,
    game_inv g -> size (die_remaining g) = k ->
    behind b g -> b + 4 * Z.of_nat k <= BOARD_SPOTS ->
    (k + 2 <= fuel)%nat ->
    exists gs,
      outcome_states fuel g = Return gs /\
      length gs = (fact k * 3 ^ k)%nat /\
      Forall (fun g' => game_inv g' /\ die_remaining g' = ∅) gs.
Proof.
  set (P := fun g' => game_inv g' /\ die_remaining g' = ∅).
  induction k as [|k IH]; intros fuel g b Hinv Hsize Hb Hboard Hfuel.
  - destruct fuel as [|fuel]; [lia|]. cbn [outcome_states].
    rewrite decide_True by done. exists [g]. split_and!; [done..|].
    constructor; [|done]. split; [done|].
    by apply size_empty_inv, leibniz_equiv in Hsize.
  - destruct fuel as [|fuel]; [lia|]. cbn [outcome_states].
    rewrite decide_False by lia.
    set (m := (fact k * 3 ^ k)%nat).
    set (branch := fun color outcomes roll =>
           match move_camel fuel color roll g with
           | (_, Raise e) => Raise e
           | (g', Return _) =>
               match outcome_states fuel
                       (set_die_remaining
                          (die_remaining g' ∖ {[color]}) g') with
               | Raise e => Raise e
               | Return sub => Return (outcomes ++ sub)
               end
           end).
    assert (forall color roll acc,
              color ∈ die_remaining g -> roll ∈ [1; 2; 3] ->
              exists sub, branch color acc roll = Return (acc ++ sub) /\
                          length sub = m /\ Forall P sub)
      as Hbranch.
    { intros color roll acc Hcolor Hroll. unfold branch.
      assert (1 <= roll <= 3) as Hrange by set_solver by lia.
      destruct (move_camel_within_board fuel color roll g b Hinv Hb)
        as (g' & -> & Hinv' & Hb' & Hdice'); [lia|done|lia|].
      destruct (IH fuel
                  (set_die_remaining (die_remaining g' ∖ {[color]}) g')
                  (b + 4)) as (sub & -> & Hlen & HP).
      - by apply game_inv_set_die_remaining.
      - game_simpl. rewrite Hdice'.
        rewrite size_difference by set_solver.
        rewrite size_singleton. lia.
      - done.
      - lia.
      - lia.
      - eauto. }
    assert (forall color acc,
              color ∈ elements (die_remaining g) ->
              exists sub,
                fold_outcome [1; 2; 3] (branch color) acc
                = Return (acc ++ sub) /\
                length sub = (3 * m)%nat /\ Forall P sub) as Hrolls.
    { intros color acc Hcolor%elem_of_elements.
      destruct (fold_outcome_length P
                  [1; 2; 3] (branch color) m
                  (fun roll acc' Hroll => Hbranch color roll acc' Hcolor Hroll)
                  acc) as (r & Hr & Hlen & HP).
      exists r. split; [done|]. split; [|done]. rewrite Hlen. simpl. lia. }
    destruct (fold_outcome_length P
                (elements (die_remaining g))
                (fun outcomes color =>
                   fold_outcome [1; 2; 3] (branch color) outcomes)
                (3 * m)%nat Hrolls []) as (r & Hr & Hlen & HP).
    exists r. split; [apply Hr|]. split; [|done].
    rewrite Hlen.
    change (length (elements (die_remaining g)))
      with (size (die_remaining g)).
    rewrite Hsize. unfold m.
    change (fact (S k)) with (fact k + k * fact k)%nat.
    rewrite Nat.pow_succ_r'. lia.
Qed.











(** X15.  Away from the finish line the enumeration is complete.
    In a state of the board with [k] dice left where no camel can be
    moved past spot 15 before the leg is over (every camel stands on a
    spot up to [b], and [b + 4 * k <= 15]: a die moves a camel 3 spots
    at most and a card one more), [generate_outcomes] returns
    [k! * 3 ^ k] games, each one a state of the board with no die left,
    and the objects that were there before the call are as they
    were. *)
Theorem generate_outcomes_leaves (k : nat) fuel game σ g b :
  σ !! game = Some g ->
  game_inv g -> size (die_remaining g) = k ->
  behind b g -> b + 4 * Z.of_nat k <= BOARD_SPOTS ->
  (k + 2 <= fuel)%nat ->
  exists σ' ls,
    generate_outcomes fuel game σ = (σ', Return ls) /\
    (σ `prefix_of` σ') /\
    length ls = (fact k * 3 ^ k)%nat /\
    Forall (fun l => exists g', σ' !! l = Some g' /\
                                game_inv g' /\ die_remaining g' = ∅) ls.
Proof.
  intros Hgame Hinv Hsize Hb Hboard Hfuel.
  destruct (outcome_states_leaves k fuel g b Hinv Hsize Hb Hboard Hfuel)
    as (gs & Hgs & Hlen & Hleaves).
  destruct (generate_outcomes_agrees fuel game σ g Hgame) as [Hpre Hres].
  rewrite Hgs in Hres.
  destruct (generate_outcomes fuel game σ) as [σ' [ls|e]];
    cbn [fst snd] in Hpre, Hres; [|done].
  exists σ', ls. split_and!; try done.
  - by rewrite (Forall2_length _ _ _ Hres).
  - clear Hlen Hgs. induction Hres as [|l g' ls gs Hl _ IH]; [constructor|].
    apply Forall_cons in Hleaves as [[Hg' Hdice] Hleaves].
    constructor; [eauto|by apply IH].
Qed.


(** A new game of two teams in which every die shows 1, after the white
    and the yellow die each gave a 1: three dice are left, and no camel
    is further than spot 2. *)
Definition early_game : Game :=
  after (roll_dice 4 Color.YELLOW 1)
    (after (roll_dice 4 Color.WHITE 1) (game_of (new_game 2 (fun _ => 1)))).

Lemma early_game_reachable : reachable early_game.
Proof.
  unfold early_game.
  do 2 (apply reachable_after_roll_dice; [|lia|by vm_compute|lia]).
  apply (reach_new 2 (fun _ => 1)); [intros; lia|done].
Qed.

Lemma early_game_behind : behind 2 early_game.
Proof. intros c p. destruct c; vm_compute; intros [= <-]; done. Qed.

Lemma generate_outcomes_leaves_witness :
  exists σ' ls,
    generate_outcomes 5 0 [early_game] = (σ', Return ls) /\
    ([early_game] `prefix_of` σ') /\
    length ls = (fact 3 * 3 ^ 3)%nat /\
    Forall (fun l => exists g', σ' !! l = Some g' /\
                                game_inv g' /\ die_remaining g' = ∅) ls.
Proof.
  apply (generate_outcomes_leaves 3 5 0 [early_game] early_game 2).
  - done.
  - apply reachable_inv, early_game_reachable.
  - by vm_compute.
  - apply early_game_behind.
  - unfold BOARD_SPOTS. lia.
  - lia.
Defined.


(** ** The theorems at work *)

Lemma blocked_game_inv : game_inv blocked_game.
Proof. apply reachable_inv. unfold blocked_game. reachable_walk. Qed.

(** In the blocked game team B holds the 5 and the 2 of the blue camel,
    which leads: the end of the leg brings it 7 coins. *)
Lemma finish_leg_settles_witness :
  (exists positions,
     get_positions blocked_game = Return positions /\
     finish_leg blocked_game =
     (finish_leg_state (settle_leg positions <$> teams blocked_game)
                       blocked_game, Return tt)) /\
  coins_of blocked_game TeamName.B = Some 3 /\
  coins_of (finish_leg blocked_game).1 TeamName.B = Some 10.
Proof.
  split; [apply finish_leg_settles, blocked_game_inv|].
  split; by vm_compute.
Defined.

Lemma finish_game_result_witness :
  exists ts w,
    finish_game blocked_game =
      (set_playing false
         (set_winners (Some w) (finish_leg_state ts blocked_game)),
       Return tt) /\
    shape ts = shape (reset_team <$> teams blocked_game) /\
    w <> ∅ /\
    (names_agree (teams blocked_game) -> leads ts w).
Proof. apply finish_game_result, blocked_game_inv. Defined.

Lemma move_camel_effect_witness :
  let g' := (move_camel 4 Color.WHITE 3 stacked_game).1 in
  active_team g' = active_team stacked_game /\
  ((evolves false stacked_game g' /\
    die_remaining g' = die_remaining stacked_game /\
    unfinished stacked_game g') \/
   (evolves true stacked_game g' /\ die_remaining g' = all_dice /\
    finished stacked_game g')).
Proof. apply move_camel_effect; [apply stacked_game_inv|lia]. Defined.

Lemma stacked_game_dice : die_remaining stacked_game <> ∅.
Proof. apply reachable_inv, stacked_game_reachable. Qed.

Lemma roll_dice_effect_witness :
  exists g',
    roll_dice 4 Color.WHITE 3 stacked_game = (g', Return (Color.WHITE, 3)) /\
    TeamName.value (active_team g') =
    (TeamName.value (active_team stacked_game) + 1)
      `mod` Z.of_nat (size (teams stacked_game)).
Proof.
  destruct (roll_dice_effect 4 Color.WHITE 3 stacked_game stacked_game_inv
              stacked_game_dice ltac:(lia) ltac:(lia))
    as (g' & Hrun & Hturn & _).
  by exists g'.
Defined.

Lemma bet_on_leg_result_witness :
  match leg_bet_cards stacked_game !! Color.BLUE with
  | Some (card :: rest) =>
      exists next t,
        teams stacked_game !! active_team stacked_game = Some t /\
        bet_on_leg Color.BLUE stacked_game =
        (set_active_team next
           (set_teams
              (<[active_team stacked_game :=
                   set_t_leg_bet_cards (card :: t_leg_bet_cards t) t]>
                 (teams stacked_game))
              (set_leg_bet_cards
                 (<[Color.BLUE := rest]> (leg_bet_cards stacked_game))
                 stacked_game)),
         Return (lb_max_payoff card)) /\
        TeamName.value next =
        (TeamName.value (active_team stacked_game) + 1)
          `mod` Z.of_nat (size (teams stacked_game))
  | Some [] =>
      bet_on_leg Color.BLUE stacked_game
      = (stacked_game, Raise InvalidMoveException)
  | None => bet_on_leg Color.BLUE stacked_game = (stacked_game, Raise KeyError)
  end.
Proof. apply bet_on_leg_result, stacked_game_inv. Defined.

Lemma stacked_game_placement : placement_allowed stacked_game 5.
Proof.
  destruct (can_place_movement_card_spec stacked_game 5
              (new_team TeamName.A)) as (b & Hcan & Hb); [done..|].
  apply Hb. vm_compute in Hcan. congruence.
Qed.

Lemma place_movement_card_result_witness :
  exists next t,
    teams stacked_game !! active_team stacked_game = Some t /\
    place_movement_card true 5 stacked_game =
    (set_active_team next
       (set_teams
          (<[active_team stacked_game := set_t_placed_movement_card true t]>
             (teams stacked_game))
          (set_spots
             (alter (set_s_movement_card
                       (Some {| mc_team := active_team stacked_game;
                                mc_forward := true |}))
                    (Z.to_nat 5) (spots stacked_game)) stacked_game)),
     Return tt) /\
    TeamName.value next =
    (TeamName.value (active_team stacked_game) + 1)
      `mod` Z.of_nat (size (teams stacked_game)).
Proof.
  apply place_movement_card_result;
    [apply stacked_game_inv|apply stacked_game_placement].
Defined.

Lemma make_overall_bet_result_witness :
  exists t,
    teams stacked_game !! active_team stacked_game = Some t /\
    if decide (Color.BLUE ∈ t_overall_bets_made t) then
      make_overall_bet true Color.BLUE stacked_game
      = (stacked_game, Raise InvalidMoveException)
    else
      let card :=
        {| ob_color := Color.BLUE; ob_team := active_team stacked_game |} in
      let g1 :=
        set_teams
          (<[active_team stacked_game :=
               set_t_overall_bets_made
                 ({[Color.BLUE]} ∪ t_overall_bets_made t) t]>
             (teams stacked_game)) stacked_game in
      make_overall_bet true Color.BLUE stacked_game =
      (set_overall_winner_cards (overall_winner_cards stacked_game ++ [card])
         g1, Return tt).
Proof. apply (make_overall_bet_result true), stacked_game_inv. Defined.

(** ** The nodes of a stack *)

Section linkedlist_properties.
Import linkedlist.
Context {T : Type}.
Implicit Types (h : gmap nat (Node T)) (m : Mem T).
Implicit Types (rs : list nat) (xs : list T) (p nx : option nat).

(** The nodes [rs] hold [xs] and are linked one to the next; the first
    one has [p] as [prev], the last one [nx] as [next]. *)
Fixpoint seg h p rs xs nx : Prop :=
  match rs, xs with
  | [], [] => True
  | r :: rs', x :: xs' =>
      exists n, h !! r = Some n /\ data n = x /\ prev n = p /\
                next n = match rs' with [] => nx | r' :: _ => Some r' end /\
                seg h (Some r) rs' xs' nx
  | _, _ => False
  end.

(** A chain of nodes between two [None]: what a list owns, and what
    [remove_chain] cuts off. *)
Definition linked h rs xs : Prop := NoDup rs /\ seg h None rs xs None.

(** The list object [self] is the list [xs], held by the nodes [rs] from
    [head] to [tail]. *)
Definition represents m (self : nat) rs xs : Prop :=
  exists d, lists m !! self = Some d /\
            head d = rs !! 0%nat /\ tail d = last rs /\
            linked (nodes m) rs xs.

Lemma seg_cons h p r rs x xs nx n :
  h !! r = Some n -> data n = x -> prev n = p ->
  next n = match rs with [] => nx | r' :: _ => Some r' end ->
  seg h (Some r) rs xs nx ->
  seg h p (r :: rs) (x :: xs) nx.
Proof. intros. exists n. by split_and!. Qed.

Lemma seg_length h p rs xs nx : seg h p rs xs nx -> length rs = length xs.
Proof.
  revert p xs. induction rs as [|r rs IH]; intros p [|x xs]; simpl; try done.
  intros (n & _ & _ & _ & _ & H). f_equal. eauto.
Qed.

Lemma seg_frame h h' p rs xs nx :
  (forall r, r ∈ rs -> h' !! r = h !! r) ->
  seg h p rs xs nx -> seg h' p rs xs nx.
Proof.
  revert p xs. induction rs as [|r rs IH]; intros p [|x xs] Hagree; simpl;
    try done.
  intros (n & Hn & Hd & Hp & Hx & H). exists n. split_and!; try done.
  - rewrite Hagree; [done|]. by left.
  - apply IH; [|done]. intros r' Hr'. apply Hagree. by right.
Qed.

Lemma seg_dom h p rs xs nx r :
  seg h p rs xs nx -> r ∈ rs -> is_Some (h !! r).
Proof.
  revert p xs. induction rs as [|r' rs IH]; intros p [|x xs]; simpl; try done.
  - by intros _ ?%elem_of_nil.
  - intros (n & Hn & _ & _ & _ & H) [->|Hin]%elem_of_cons; eauto.
Qed.

Lemma seg_app h p rs1 rs2 xs1 xs2 nx :
  length rs1 = length xs1 ->
  seg h p (rs1 ++ rs2) (xs1 ++ xs2) nx <->
  seg h p rs1 xs1 (match rs2 with [] => nx | r :: _ => Some r end) /\
  seg h (match last rs1 with None => p | Some l => Some l end) rs2 xs2 nx.
Proof.
  revert p xs1. induction rs1 as [|r rs1 IH]; intros p [|x xs1] Hlen;
    simpl in *; try done.
  - tauto.
  - injection Hlen as Hlen. specialize (IH (Some r) xs1 Hlen).
    assert (match last (r :: rs1) with None => p | Some l => Some l end
            = match last rs1 with None => Some r | Some l => Some l end) as ->.
    { destruct rs1 as [|r1 rs1]; [done|]. rewrite last_cons_cons.
      destruct (last (r1 :: rs1)) eqn:E; [done|].
      by apply last_None in E. }
    split.
    + intros (n & Hn & Hd & Hp & Hx & H). apply IH in H as [H1 H2].
      split; [|done]. exists n. split_and!; try done.
      destruct rs1; [|done]. simpl in Hx. by destruct rs2.
    + intros [(n & Hn & Hd & Hp & Hx & H1) H2].
      exists n. split_and!; try done.
      * destruct rs1; [|done]. simpl. by destruct rs2.
      * by apply IH.
Qed.

(** Writing [next] of the last node of a segment. *)
Lemma seg_set_next h p rs r xs nx n v :
  r ∉ rs -> h !! r = Some n ->
  seg h p (rs ++ [r]) xs nx ->
  seg (<[r := with_next v n]> h) p (rs ++ [r]) xs v.
Proof.
  intros Hr Hn H.
  pose proof (seg_length _ _ _ _ _ H) as Hlen.
  rewrite length_app in Hlen. simpl in Hlen.
  destruct (decide (xs = [])) as [->|Hxs]; [simpl in Hlen; lia|].
  destruct (exists_last Hxs) as (xs1 & x & ->).
  rewrite length_app in Hlen. simpl in Hlen.
  apply seg_app in H as [H1 H2]; [|lia].
  apply seg_app; [lia|]. split.
  - eapply seg_frame; [|done]. intros r' Hr'.
    apply lookup_insert_ne. by intros ->.
  - simpl in *. destruct H2 as (n' & Hn' & Hd & Hp & _ & _).
    assert (n' = n) as -> by congruence.
    exists (with_next v n). by rewrite lookup_insert_eq.
Qed.

(** Writing [prev] of the first node of a segment. *)
Lemma seg_set_prev h p r rs xs nx n v :
  r ∉ rs -> h !! r = Some n ->
  seg h p (r :: rs) xs nx ->
  seg (<[r := with_prev v n]> h) v (r :: rs) xs nx.
Proof.
  intros Hr Hn H. destruct xs as [|x xs]; [done|]. simpl in *.
  destruct H as (n' & Hn' & Hd & Hp & Hx & H).
  assert (n' = n) as -> by congruence.
  exists (with_prev v n). rewrite lookup_insert_eq. split_and!; try done.
  eapply seg_frame; [|done]. intros r' Hr'.
  apply lookup_insert_ne. by intros ->.
Qed.

Lemma linked_dom h rs xs r : linked h rs xs -> r ∈ rs -> is_Some (h !! r).
Proof. intros [_ H]. by eapply seg_dom. Qed.

Lemma linked_length h rs xs : linked h rs xs -> length rs = length xs.
Proof. intros [_ H]. by eapply seg_length. Qed.

(** Running a method step by step. *)
Ltac step :=
  unfold and_then, get_list, set_list, get_node, set_node, pure, fail;
  cbn [nodes lists head tail curr data prev next
       with_head with_tail with_curr with_prev with_next].

Ltac lookups :=
  repeat first
    [ rewrite lookup_insert_eq
    | rewrite lookup_insert_ne by congruence
    | match goal with
      | H : ?h !! ?k = Some _ |- context [?h !! ?k] => rewrite H
      end ].

Ltac run := repeat progress (step; lookups).

(** X17.  [insert_single_head] puts a value in front of a list, in
    a node that was not there before; the other lists and the nodes of
    other lists are as they were. *)
Theorem insert_single_head_spec self val m rs xs :
  represents m self rs xs ->
  exists m' r,
    insert_single_head self val m = (m', Ok tt) /\
    nodes m !! r = None /\
    represents m' self (r :: rs) (val :: xs) /\
    (forall l, l <> self -> lists m' !! l = lists m !! l) /\
    (forall r', r' ∉ r :: rs -> nodes m' !! r' = nodes m !! r').
Proof.
  intros (d & Hd & Hhead & Htail & Hnd & Hseg).
  set (r := fresh (dom (nodes m))).
  assert (nodes m !! r = None) as Hr.
  { apply not_elem_of_dom. apply is_fresh. }
  assert (r ∉ rs) as Hrs.
  { intros Hin. destruct (seg_dom _ _ _ _ _ _ Hseg Hin) as [n Hn]. congruence. }
  unfold insert_single_head, new_node. step. fold r. rewrite Hd.
  destruct rs as [|h0 rs]; simpl in Hhead; rewrite Hhead; step.
  - run.
    eexists _, r. split; [reflexivity|]. split; [done|]. split_and!.
    + eexists. cbn [lists nodes]. rewrite lookup_insert_eq.
      split; [reflexivity|]. do 2 (split; [done|]). split.
      * apply NoDup_singleton.
      * destruct xs; [|done]. simpl. lookups. by eexists.
    + intros l Hl. cbn [lists]. by lookups.
    + intros r' Hr'. cbn [nodes]. apply lookup_insert_ne.
      intros <-. apply Hr'. by left.
  - destruct (seg_dom _ _ _ _ _ h0 Hseg) as [n0 Hn0]; [by left|].
    assert (h0 <> r) as Hne by (intros ->; congruence).
    run.
    eexists _, r. split; [reflexivity|]. split; [done|]. split_and!.
    + eexists. cbn [lists nodes]. rewrite lookup_insert_eq.
      split; [reflexivity|]. split; [done|].
      split; [by rewrite last_cons_cons|]. split.
      * by constructor.
      * destruct xs as [|x xs]; [done|].
        eapply seg_cons; [by lookups|done..|].
        apply (seg_set_prev _ None h0 rs (x :: xs) None n0 (Some r));
          [by apply NoDup_cons in Hnd as []|by lookups|].
        eapply seg_frame; [|done]. intros r' Hr'.
        assert (r' <> r) by (by intros ->). by lookups.
    + intros l Hl. cbn [lists]. by lookups.
    + intros r' Hr'. cbn [nodes].
      assert (r' <> r) by (intros ->; apply Hr'; by left).
      assert (r' <> h0) by (intros ->; apply Hr'; right; by left).
      by lookups.
Qed.

Lemma represents_head_tail m self rs xs :
  represents m self rs xs ->
  exists d, lists m !! self = Some d /\ head d = rs !! 0%nat /\ tail d = last rs.
Proof. intros (d & ? & ? & ? & _). by exists d. Qed.

Lemma last_snoc_or {A} (l : list A) :
  l = [] \/ exists l' x, l = l' ++ [x].
Proof.
  destruct (last l) as [x|] eqn:E.
  - right. apply last_Some in E as [l' ->]. by exists l', x.
  - left. by apply last_None.
Qed.

(** A run of [remove_chain], for the proofs that follow. *)
Lemma run_remove_chain self node m rs1 rs2 xs1 xs2 :
  represents m self (rs1 ++ node :: rs2) (xs1 ++ xs2) ->
  length rs1 = length xs1 ->
  exists m',
    remove_chain self node m = (m', Ok tt) /\
    represents m' self rs1 xs1 /\
    linked (nodes m') (node :: rs2) xs2 /\
    (forall l, l <> self -> lists m' !! l = lists m !! l) /\
    (forall r, r ∉ rs1 ++ node :: rs2 -> nodes m' !! r = nodes m !! r).
Proof.
  intros (d & Hd & Hhead & Htail & Hnd & Hseg) Hlen.
  apply seg_app in Hseg as [H1 H2]; [|done].
  apply NoDup_app in Hnd as (Hnd1 & Hdisj & Hnd2).
  assert (exists n, nodes m !! node = Some n /\
            prev n = match last rs1 with None => None | Some l => Some l end)
    as (n & Hn & Hprev).
  { destruct xs2 as [|x xs2]; [done|].
    destruct H2 as (n & ? & _ & ? & _). by exists n. }
  unfold remove_chain. run. rewrite Hprev.
  destruct (last_snoc_or rs1) as [->|(rs1' & p & ->)].
  - destruct xs1; [|done]. simpl in *. run.
    eexists. split; [reflexivity|]. split_and!.
    + eexists. cbn [lists nodes]. rewrite lookup_insert_eq.
      split; [reflexivity|]. do 2 (split; [done|]). split; [constructor|done].
    + done.
    + intros l Hl. cbn [lists]. by lookups.
    + done.
  - rewrite last_snoc in *. run.
    destruct (seg_dom _ _ _ _ _ p H1) as [np Hnp]; [set_solver|].
    assert (p <> node) as Hne.
    { intros ->. apply (Hdisj node); set_solver. }
    assert (node ∉ rs1' ++ [p]) as Hnode.
    { intros Hin. apply (Hdisj node Hin). by left. }
    run.
    eexists. split; [reflexivity|]. split_and!.
    + eexists. cbn [lists nodes]. rewrite lookup_insert_eq.
      split; [reflexivity|]. split_and!.
      * cbn. rewrite Hhead. destruct rs1'; done.
      * cbn. by rewrite last_snoc.
      * split; [done|].
        eapply seg_frame; [|eapply seg_set_next; [|done|done]].
        -- intros r Hr. assert (r <> node) by (by intros ->). by lookups.
        -- apply NoDup_app in Hnd1 as (_ & Hd1 & _).
           intros Hin. apply (Hd1 p Hin). by left.
    + split; [done|]. cbn [nodes].
      apply (seg_set_prev _ (Some p) node rs2 xs2 None n None);
        [by apply NoDup_cons in Hnd2 as []|by lookups|].
      eapply seg_frame; [|done]. intros r Hr.
      assert (r <> p).
      { intros ->. apply (Hdisj p); [set_solver|done]. }
      by lookups.
    + intros l Hl. cbn [lists]. by lookups.
    + intros r Hr. cbn [nodes].
      assert (r <> node) by (intros ->; apply Hr; set_solver).
      assert (r <> p) by (intros ->; apply Hr; set_solver).
      by lookups.
Qed.

(** X18.  [remove_chain] cuts a list before [node]: the list keeps
    the nodes before it, and the nodes from [node] on are a chain of
    their own, linked as they were.  The other lists and nodes are as
    they were. *)
Theorem remove_chain_spec self node m rs1 rs2 xs1 xs2 :
  represents m self (rs1 ++ node :: rs2) (xs1 ++ xs2) ->
  length rs1 = length xs1 ->
  exists m',
    remove_chain self node m = (m', Ok tt) /\
    represents m' self rs1 xs1 /\
    linked (nodes m') (node :: rs2) xs2 /\
    (forall l, l <> self -> lists m' !! l = lists m !! l) /\
    (forall r, r ∉ rs1 ++ node :: rs2 -> nodes m' !! r = nodes m !! r).
Proof. exact (run_remove_chain self node m rs1 rs2 xs1 xs2). Qed.

(** A run of [insert_chain_tail], for the proofs that follow. *)
Lemma run_insert_chain_tail self node tl m rs1 rs2 xs1 xs2 :
  represents m self rs1 xs1 ->
  linked (nodes m) (node :: rs2) xs2 ->
  last (node :: rs2) = Some tl ->
  (forall r, r ∈ rs1 -> r ∉ node :: rs2) ->
  exists m',
    insert_chain_tail self node tl m = (m', Ok tt) /\
    represents m' self (rs1 ++ node :: rs2) (xs1 ++ xs2) /\
    (forall l, l <> self -> lists m' !! l = lists m !! l) /\
    (forall r, r ∉ rs1 ++ node :: rs2 -> nodes m' !! r = nodes m !! r).
Proof.
  intros (d & Hd & Hhead & Htail & Hnd1 & H1) [Hnd2 H2] Hlast Hdisj.
  pose proof (seg_length _ _ _ _ _ H1) as Hlen.
  unfold insert_chain_tail. run. rewrite Htail.
  destruct (last_snoc_or rs1) as [->|(rs1' & t & ->)].
  - destruct xs1; [|done]. simpl in *. run.
    eexists. split; [reflexivity|]. split_and!.
    + eexists. cbn [lists nodes]. rewrite lookup_insert_eq.
      split; [reflexivity|]. by split_and!.
    + intros l Hl. cbn [lists]. by lookups.
    + done.
  - rewrite last_snoc. run.
    destruct (seg_dom _ _ _ _ _ t H1) as [nt Hnt]; [set_solver|].
    destruct (seg_dom _ _ _ _ _ node H2) as [n Hn]; [set_solver|].
    assert (t <> node) as Hne.
    { intros ->. apply (Hdisj node); set_solver. }
    run.
    eexists. split; [reflexivity|]. split_and!.
    + eexists. cbn [lists nodes]. rewrite lookup_insert_eq.
      split; [reflexivity|]. split_and!.
      * cbn. rewrite Hhead. by destruct rs1'.
      * cbn. by rewrite last_app, Hlast.
      * split; [apply NoDup_app; by split_and!|].
        apply seg_app; [done|]. rewrite last_snoc. split.
        -- eapply seg_frame; [|eapply seg_set_next; [|done|done]].
           ++ intros r Hr. assert (r <> node).
              { intros ->. apply (Hdisj node Hr). by left. }
              by lookups.
           ++ apply NoDup_app in Hnd1 as (_ & Hd1 & _).
              intros Hin. apply (Hd1 t Hin). by left.
        -- apply (seg_set_prev _ None node rs2 xs2 None n (Some t));
             [by apply NoDup_cons in Hnd2 as []|by lookups|].
           eapply seg_frame; [|done]. intros r Hr.
           assert (r <> t).
           { intros ->. apply (Hdisj t); [set_solver|done]. }
           by lookups.
    + intros l Hl. cbn [lists]. by lookups.
    + intros r Hr. cbn [nodes].
      assert (r <> node) by (intros ->; apply Hr; set_solver).
      assert (r <> t) by (intros ->; apply Hr; set_solver).
      by lookups.
Qed.

(** X19.  [insert_chain_tail] puts a chain behind the last node of
    a list (on top of the stack).  The other lists and nodes are as they
    were. *)
Theorem insert_chain_tail_spec self node tl m rs1 rs2 xs1 xs2 :
  represents m self rs1 xs1 ->
  linked (nodes m) (node :: rs2) xs2 ->
  last (node :: rs2) = Some tl ->
  (forall r, r ∈ rs1 -> r ∉ node :: rs2) ->
  exists m',
    insert_chain_tail self node tl m = (m', Ok tt) /\
    represents m' self (rs1 ++ node :: rs2) (xs1 ++ xs2) /\
    (forall l, l <> self -> lists m' !! l = lists m !! l) /\
    (forall r, r ∉ rs1 ++ node :: rs2 -> nodes m' !! r = nodes m !! r).
Proof. exact (run_insert_chain_tail self node tl m rs1 rs2 xs1 xs2). Qed.

(** A run of [insert_chain_head], for the proofs that follow. *)
Lemma run_insert_chain_head self node tl m rs1 rs2 xs1 xs2 :
  represents m self rs1 xs1 ->
  linked (nodes m) (node :: rs2) xs2 ->
  last (node :: rs2) = Some tl ->
  (forall r, r ∈ rs1 -> r ∉ node :: rs2) ->
  exists m',
    insert_chain_head self node tl m = (m', Ok tt) /\
    represents m' self ((node :: rs2) ++ rs1) (xs2 ++ xs1) /\
    (forall l, l <> self -> lists m' !! l = lists m !! l) /\
    (forall r, r ∉ rs1 ++ node :: rs2 -> nodes m' !! r = nodes m !! r).
Proof.
  intros (d & Hd & Hhead & Htail & Hnd1 & H1) [Hnd2 H2] Hlast Hdisj.
  pose proof (seg_length _ _ _ _ _ H2) as Hlen.
  unfold insert_chain_head. run. rewrite Hhead.
  destruct rs1 as [|h0 rs1].
  - destruct xs1; [|done]. simpl in *. run.
    eexists. split; [reflexivity|]. split_and!.
    + eexists. cbn [lists nodes]. rewrite lookup_insert_eq.
      split; [reflexivity|]. rewrite !app_nil_r. by split_and!.
    + intros l Hl. cbn [lists]. by lookups.
    + done.
  - cbn [lookup list_lookup]. run.
    destruct (seg_dom _ _ _ _ _ h0 H1) as [n0 Hn0]; [set_solver|].
    destruct (seg_dom _ _ _ _ _ tl H2) as [nt Hnt].
    { apply last_Some in Hlast as [l' ->]. set_solver. }
    assert (tl ∈ node :: rs2) as Htl.
    { apply last_Some in Hlast as [l' ->]. set_solver. }
    assert (h0 <> tl) as Hne.
    { intros ->. apply (Hdisj tl); [by left|done]. }
    run.
    eexists. split; [reflexivity|]. split_and!.
    + eexists. cbn [lists nodes]. rewrite lookup_insert_eq.
      split; [reflexivity|]. split_and!.
      * done.
      * cbn [tail with_head]. rewrite Htail, last_app.
        destruct (last (h0 :: rs1)) eqn:E; [done|]. by apply last_None in E.
      * split.
        { apply NoDup_app. split_and!; [done| |done].
          intros r Hr Hr1. by apply (Hdisj r). }
        apply seg_app; [done|]. rewrite Hlast. split.
        -- apply last_Some in Hlast as [l' Hl'].
           rewrite Hl' in *.
           eapply seg_set_next.
           ++ apply NoDup_app in Hnd2 as (_ & Hd2 & _).
              intros Hin. apply (Hd2 tl Hin). by left.
           ++ by lookups.
           ++ eapply seg_frame; [|done]. intros r Hr.
              assert (r <> h0).
              { intros ->. apply (Hdisj h0); [by left|done]. }
              by lookups.
        -- eapply seg_frame;
             [|apply (seg_set_prev (nodes m) None h0 rs1 xs1 None n0 (Some tl));
               [by apply NoDup_cons in Hnd1 as []|done|done]].
           intros r Hr. assert (r <> tl).
           { intros ->. by apply (Hdisj tl). }
           by lookups.
    + intros l Hl. cbn [lists]. by lookups.
    + intros r Hr. cbn [nodes].
      assert (r <> tl) by (intros ->; apply Hr; set_solver).
      assert (r <> h0) by (intros ->; apply Hr; set_solver).
      by lookups.
Qed.

(** X20.  [insert_chain_head] puts a chain in front of the first
    node of a list (under the stack).  The other lists and nodes are as
    they were. *)
Theorem insert_chain_head_spec self node tl m rs1 rs2 xs1 xs2 :
  represents m self rs1 xs1 ->
  linked (nodes m) (node :: rs2) xs2 ->
  last (node :: rs2) = Some tl ->
  (forall r, r ∈ rs1 -> r ∉ node :: rs2) ->
  exists m',
    insert_chain_head self node tl m = (m', Ok tt) /\
    represents m' self ((node :: rs2) ++ rs1) (xs2 ++ xs1) /\
    (forall l, l <> self -> lists m' !! l = lists m !! l) /\
    (forall r, r ∉ rs1 ++ node :: rs2 -> nodes m' !! r = nodes m !! r).
Proof. exact (run_insert_chain_head self node tl m rs1 rs2 xs1 xs2). Qed.

Lemma represents_frame m m' self rs xs :
  represents m self rs xs ->
  lists m' !! self = lists m !! self ->
  (forall r, r ∈ rs -> nodes m' !! r = nodes m !! r) ->
  represents m' self rs xs.
Proof.
  intros (d & Hd & Hhead & Htail & Hnd & Hseg) Hl Hn.
  exists d. rewrite Hl. split_and!; try done.
  split; [done|]. by eapply seg_frame.
Qed.

(** X21.  The steps of a move, as [move_camel] takes them: the
    chain from [node] to the top of the list [src] leaves it and joins
    the list [dst], on top of it when [forward] and underneath
    otherwise. *)
Theorem move_between_lists (forward : bool) src dst node m
    rs1 rs2 rsd below chain ys :
  src <> dst ->
  represents m src (rs1 ++ node :: rs2) (below ++ chain) ->
  length rs1 = length below ->
  represents m dst rsd ys ->
  (forall r, r ∈ rsd -> r ∉ rs1 ++ node :: rs2) ->
  exists d top m',
    lists m !! src = Some d /\ tail d = Some top /\
    and_then (remove_chain src node)
      (fun _ => if forward then insert_chain_tail dst node top
                else insert_chain_head dst node top) m = (m', Ok tt) /\
    represents m' src rs1 below /\
    represents m' dst
      (if forward then rsd ++ node :: rs2 else (node :: rs2) ++ rsd)
      (if forward then ys ++ chain else chain ++ ys).
Proof.
  intros Hne Hsrc Hlen Hdst Hdisj.
  destruct (represents_head_tail _ _ _ _ Hsrc) as (d & Hd & _ & Htail).
  assert (exists top, last (node :: rs2) = Some top) as [top Htop].
  { destruct (last (node :: rs2)) eqn:E; [by eexists|].
    by apply last_None in E. }
  assert (tail d = Some top) as Htail'.
  { by rewrite Htail, last_app, Htop. }
  destruct (run_remove_chain _ _ _ _ _ _ _ Hsrc Hlen)
    as (m1 & Hrun1 & Hsrc1 & Hchain & Hl1 & Hn1).
  assert (represents m1 dst rsd ys) as Hdst1.
  { eapply represents_frame; [done|by apply Hl1|].
    intros r Hr. apply Hn1. by apply Hdisj. }
  assert (forall r, r ∈ rs1 -> r ∉ rsd ++ node :: rs2) as Hfresh.
  { destruct Hsrc as (_ & _ & _ & _ & Hnd & _).
    apply NoDup_app in Hnd as (_ & Hd1 & _).
    intros r Hr [Hin|Hin]%elem_of_app; [|by apply (Hd1 r)].
    apply (Hdisj r Hin). set_solver. }
  assert (forall r, r ∈ rsd -> r ∉ node :: rs2) as Hdisj'.
  { intros r Hr Hin. apply (Hdisj r Hr). set_solver. }
  exists d, top. unfold and_then. rewrite Hrun1.
  destruct forward.
  - destruct (run_insert_chain_tail dst node top m1 rsd rs2 ys chain)
      as (m2 & Hrun2 & Hdst2 & Hl2 & Hn2); try done.
    exists m2. split_and!; try done.
    eapply represents_frame; [done|by apply Hl2|].
    intros r Hr. apply Hn2. by apply Hfresh.
  - destruct (run_insert_chain_head dst node top m1 rsd rs2 ys chain)
      as (m2 & Hrun2 & Hdst2 & Hl2 & Hn2); try done.
    exists m2. split_and!; try done.
    eapply represents_frame; [done|by apply Hl2|].
    intros r Hr. apply Hn2. by apply Hfresh.
Qed.

(** X22.  [extend] appends the nodes of another list.  The other
    list is not changed: it shares its nodes with the extended list from
    then on.  With an empty list nothing happens. *)
Theorem extend_spec self dll m rs1 rs2 xs1 xs2 :
  self <> dll ->
  represents m self rs1 xs1 ->
  represents m dll rs2 xs2 ->
  (forall r, r ∈ rs1 -> r ∉ rs2) ->
  exists m',
    extend self dll m = (m', Ok tt) /\
    represents m' self (rs1 ++ rs2) (xs1 ++ xs2) /\
    lists m' !! dll = lists m !! dll /\
    (rs2 = [] -> m' = m).
Proof.
  intros Hne Hself (o & Ho & Hhead & Htail & Hlinked) Hdisj.
  unfold extend. run. rewrite Hhead.
  destruct rs2 as [|node rs2].
  - pose proof (linked_length _ _ _ Hlinked) as Hlen.
    destruct xs2; [|done].
    cbn. exists m. rewrite !app_nil_r. by split_and!.
  - cbn [lookup list_lookup]. rewrite Htail.
    destruct (last (node :: rs2)) as [tl|] eqn:Hlast;
      [|by apply last_None in Hlast].
    destruct (run_insert_chain_tail self node tl m rs1 rs2 xs1 xs2)
      as (m' & Hrun & Hrep & Hl & _); try done.
    exists m'. split_and!; try done. rewrite <-Ho. by apply Hl.
Qed.

Lemma drain_spec rs :
  forall steps self m d p xs acc,
    lists m !! self = Some d -> curr d = Some (rs !! 0%nat) ->
    seg (nodes m) p rs xs None ->
    (length rs < steps)%nat ->
    exists m' d',
      drain steps self acc m = (m', Ok (acc ++ xs)) /\
      nodes m' = nodes m /\
      lists m' !! self = Some d' /\
      head d' = head d /\ tail d' = tail d /\ curr d' = Some None /\
      (forall l, l <> self -> lists m' !! l = lists m !! l).
Proof.
  induction rs as [|r rs IH]; intros steps self m d p xs acc Hd Hcurr Hseg Hlt.
  - destruct xs; [|done]. destruct steps as [|steps]; [simpl in Hlt; lia|].
    cbn [drain]. unfold __next__. run. rewrite Hcurr. cbn. run.
    exists m, d. rewrite app_nil_r. by split_and!.
  - destruct xs as [|x xs]; [done|].
    destruct Hseg as (n & Hn & Hdata & Hprev & Hnext & Hseg).
    destruct steps as [|steps]; [simpl in Hlt; lia|].
    cbn [drain]. unfold __next__. run. rewrite Hcurr. cbn. run.
    edestruct (IH steps self
                 {| nodes := nodes m;
                    lists := <[self := with_curr (Some (next n)) d]> (lists m) |}
                 (with_curr (Some (next n)) d) (Some r) xs (acc ++ [data n]))
      as (m' & d' & Hrun & Hnodes & Hd' & Hh & Ht & Hc & Hl).
    + cbn [lists]. by lookups.
    + cbn. rewrite Hnext. by destruct rs.
    + done.
    + simpl in Hlt. lia.
    + exists m', d'. rewrite Hrun, Hdata, <-app_assoc. split_and!; try done.
      intros l Hl'. rewrite (Hl l Hl'). cbn [lists]. by lookups.
Qed.

(** X23.  Iterating over a list gives its values from [head] to
    [tail]; the nodes and the other lists are as they were, and the
    iterator is exhausted: one more [__next__] raises
    [StopIteration]. *)
Theorem to_list_spec steps self m rs xs :
  represents m self rs xs ->
  (length xs < steps)%nat ->
  exists m',
    to_list steps self m = (m', Ok xs) /\
    nodes m' = nodes m /\
    represents m' self rs xs /\
    (forall l, l <> self -> lists m' !! l = lists m !! l) /\
    __next__ self m' = (m', Err StopIteration).
Proof.
  intros (d & Hd & Hhead & Htail & Hnd & Hseg) Hlt.
  unfold to_list, __iter__. run.
  edestruct (drain_spec rs steps self
               {| nodes := nodes m;
                  lists := <[self := with_curr (Some (head d)) d]> (lists m) |}
               (with_curr (Some (head d)) d) None xs [])
    as (m' & d' & Hrun & Hnodes & Hd' & Hh & Ht & Hc & Hl).
  - cbn [lists]. by lookups.
  - cbn. by rewrite Hhead.
  - done.
  - by rewrite (seg_length _ _ _ _ _ Hseg).
  - exists m'. rewrite Hrun. split_and!; try done.
    + exists d'. rewrite Hnodes. cbn in *. split_and!; try done; congruence.
    + intros l Hl'. rewrite (Hl l Hl'). cbn [lists]. by lookups.
    + unfold __next__. run. rewrite Hc. by run.
Qed.

(** A list that has not been iterated over has no [curr]. *)
Lemma next_before_iter m :
  exists l m',
    @new_list T m = (m', Ok l) /\
    lists m !! l = None /\
    represents m' l [] [] /\
    __next__ l m' = (m', Err AttributeError).
Proof.
  eexists _, _. split; [reflexivity|]. split_and!.
  - apply not_elem_of_dom. apply is_fresh.
  - eexists. cbn [lists]. rewrite lookup_insert_eq.
    split; [reflexivity|]. split_and!; try done. split; [constructor|done].
  - unfold __next__. by run.
Qed.

(** X24.  Cutting a chain off a list and putting it back behind
    the same list restores the memory as it was. *)
Theorem remove_insert_round_trip self node m rs1 rs2 xs :
  represents m self (rs1 ++ node :: rs2) xs ->
  exists d top m1,
    lists m !! self = Some d /\ tail d = Some top /\
    remove_chain self node m = (m1, Ok tt) /\
    insert_chain_tail self node top m1 = (m, Ok tt).
Proof.
  intros (d & Hd & Hhead & Htail & Hnd & Hseg).
  pose proof (seg_length _ _ _ _ _ Hseg) as Hlen.
  rewrite <-(take_drop (length rs1) xs) in Hseg.
  apply seg_app in Hseg as [H1 H2];
    [|rewrite length_take, length_app in *; simpl in *; lia].
  apply NoDup_app in Hnd as (Hnd1 & Hdisj & Hnd2).
  assert (exists top, last (node :: rs2) = Some top) as [top Htop].
  { destruct (last (node :: rs2)) eqn:E; [by eexists|].
    by apply last_None in E. }
  assert (tail d = Some top) as Htail' by (by rewrite Htail, last_app, Htop).
  destruct (drop (length rs1) xs) as [|x xs2]; [done|].
  destruct H2 as (n & Hn & _ & Hprev & _).
  exists d, top.
  destruct m as [h ls]. cbn [nodes lists] in *.
  destruct d as [hd tl cu]. cbn [head tail curr] in *.
  clear Htail. subst tl.
  destruct (last_snoc_or rs1) as [->|(rs1' & p & ->)].
  - cbn in Hhead, Hprev. subst.
    eexists. split; [done|]. split; [done|]. split.
    { unfold remove_chain. run. rewrite Hprev. run. reflexivity. }
    unfold insert_chain_tail. run.
    f_equal. f_equal. rewrite !insert_insert_eq. apply insert_id. exact Hd.
  - rewrite last_snoc in Hprev.
    destruct (seg_dom _ _ _ _ _ p H1) as [np Hnp]; [set_solver|].
    assert (p <> node) as Hne.
    { intros ->. apply (Hdisj node); set_solver. }
    assert (next np = Some node) as Hnext.
    { revert H1. generalize (take (length (rs1' ++ [p])) xs). intros xs1 H1.
      pose proof (seg_length _ _ _ _ _ H1) as Hlen1.
      rewrite length_app in Hlen1. simpl in Hlen1.
      destruct (last_snoc_or xs1) as [->|(xs1' & x1 & ->)];
        [simpl in Hlen1; lia|].
      rewrite length_app in Hlen1. simpl in Hlen1.
      apply seg_app in H1 as [_ H1]; [|lia].
      destruct H1 as (n' & Hn' & _ & _ & Hx & _). congruence. }
    eexists. split; [done|]. split; [done|]. split.
    { unfold remove_chain. run. rewrite Hprev. run. reflexivity. }
    unfold insert_chain_tail. run.
    subst. f_equal. f_equal.
    + apply map_eq. intros k.
      destruct (decide (k = node)) as [->|]; lookups.
      { destruct n. cbn in *. by subst. }
      destruct (decide (k = p)) as [->|]; lookups; [|done].
      destruct np. cbn in *. by subst.
    + rewrite !insert_insert_eq. apply insert_id. exact Hd.
Qed.

End linkedlist_properties.

(** A memory with two stacks: list 0 holds blue, green and orange in
    the nodes 0, 1 and 2, list 1 holds yellow and white in the nodes 3
    and 4. *)
Definition two_stacks : linkedlist.Mem Color :=
  {| linkedlist.nodes :=
       list_to_map
         [(0%nat, {| linkedlist.data := Color.BLUE;
                     linkedlist.prev := None; linkedlist.next := Some 1%nat |});
          (1%nat, {| linkedlist.data := Color.GREEN;
                     linkedlist.prev := Some 0%nat;
                     linkedlist.next := Some 2%nat |});
          (2%nat, {| linkedlist.data := Color.ORANGE;
                     linkedlist.prev := Some 1%nat; linkedlist.next := None |});
          (3%nat, {| linkedlist.data := Color.YELLOW;
                     linkedlist.prev := None; linkedlist.next := Some 4%nat |});
          (4%nat, {| linkedlist.data := Color.WHITE;
                     linkedlist.prev := Some 3%nat; linkedlist.next := None |})];
     linkedlist.lists :=
       list_to_map
         [(0%nat, {| linkedlist.head := Some 0%nat;
                     linkedlist.tail := Some 2%nat;
                     linkedlist.curr := None |});
          (1%nat, {| linkedlist.head := Some 3%nat;
                     linkedlist.tail := Some 4%nat;
                     linkedlist.curr := None |})] |}.

Lemma two_stacks_first :
  represents two_stacks 0 [0; 1; 2]%nat
    [Color.BLUE; Color.GREEN; Color.ORANGE].
Proof.
  eexists. split; [by vm_compute|]. split; [done|]. split; [done|].
  split; [by apply NoDup_ListNoDup; repeat constructor; set_solver|].
  repeat (eexists; split_and!; [by vm_compute|done..|]). done.
Defined.

Lemma two_stacks_second :
  represents two_stacks 1 [3; 4]%nat [Color.YELLOW; Color.WHITE].
Proof.
  eexists. split; [by vm_compute|]. split; [done|]. split; [done|].
  split; [by apply NoDup_ListNoDup; repeat constructor; set_solver|].
  repeat (eexists; split_and!; [by vm_compute|done..|]). done.
Defined.

Lemma insert_single_head_spec_witness :
  exists m' r,
    linkedlist.insert_single_head 1 Color.BLUE two_stacks
    = (m', linkedlist.Ok tt) /\
    linkedlist.nodes two_stacks !! r = None /\
    represents m' 1 (r :: [3; 4]%nat)
      (Color.BLUE :: [Color.YELLOW; Color.WHITE]) /\
    (forall l, l <> 1%nat ->
       linkedlist.lists m' !! l = linkedlist.lists two_stacks !! l) /\
    (forall r', r' ∉ r :: [3; 4]%nat ->
       linkedlist.nodes m' !! r' = linkedlist.nodes two_stacks !! r').
Proof. apply insert_single_head_spec, two_stacks_second. Defined.

Lemma remove_chain_spec_witness :
  exists m',
    linkedlist.remove_chain 0 1 two_stacks = (m', linkedlist.Ok tt) /\
    represents m' 0 [0%nat] [Color.BLUE] /\
    linked (linkedlist.nodes m') [1; 2]%nat [Color.GREEN; Color.ORANGE].
Proof.
  destruct (remove_chain_spec 0 1 two_stacks [0%nat] [2%nat]
              [Color.BLUE] [Color.GREEN; Color.ORANGE]
              two_stacks_first eq_refl) as (m' & Hrun & Hrep & Hchain & _).
  by exists m'.
Defined.

(** The two stacks once green and orange are cut off the first one. *)
Definition cut_stacks : linkedlist.Mem Color :=
  (linkedlist.remove_chain 0 1 two_stacks).1.

Lemma cut_stacks_second :
  represents cut_stacks 1 [3; 4]%nat [Color.YELLOW; Color.WHITE].
Proof.
  eexists. split; [by vm_compute|]. split; [done|]. split; [done|].
  split; [by apply NoDup_ListNoDup; repeat constructor; set_solver|].
  repeat (eexists; split_and!; [by vm_compute|done..|]). done.
Defined.

Lemma cut_stacks_chain :
  linked (linkedlist.nodes cut_stacks) [1; 2]%nat [Color.GREEN; Color.ORANGE].
Proof.
  split; [by apply NoDup_ListNoDup; repeat constructor; set_solver|].
  repeat (eexists; split_and!; [by vm_compute|done..|]). done.
Defined.

Lemma cut_stacks_disjoint : forall r : nat, r ∈ [3; 4]%nat -> r ∉ [1; 2]%nat.
Proof. intros r. set_solver. Defined.

Lemma insert_chain_tail_spec_witness :
  exists m',
    linkedlist.insert_chain_tail 1 1 2 cut_stacks = (m', linkedlist.Ok tt) /\
    represents m' 1 ([3; 4] ++ [1; 2])%nat
      ([Color.YELLOW; Color.WHITE] ++ [Color.GREEN; Color.ORANGE]).
Proof.
  destruct (insert_chain_tail_spec 1 1 2 cut_stacks [3; 4]%nat [2%nat]
              [Color.YELLOW; Color.WHITE] [Color.GREEN; Color.ORANGE]
              cut_stacks_second cut_stacks_chain eq_refl cut_stacks_disjoint)
    as (m' & Hrun & Hrep & _).
  by exists m'.
Defined.

Lemma insert_chain_head_spec_witness :
  exists m',
    linkedlist.insert_chain_head 1 1 2 cut_stacks = (m', linkedlist.Ok tt) /\
    represents m' 1 ([1; 2] ++ [3; 4])%nat
      ([Color.GREEN; Color.ORANGE] ++ [Color.YELLOW; Color.WHITE]).
Proof.
  destruct (insert_chain_head_spec 1 1 2 cut_stacks [3; 4]%nat [2%nat]
              [Color.YELLOW; Color.WHITE] [Color.GREEN; Color.ORANGE]
              cut_stacks_second cut_stacks_chain eq_refl cut_stacks_disjoint)
    as (m' & Hrun & Hrep & _).
  by exists m'.
Defined.

Lemma two_stacks_disjoint :
  forall r : nat, r ∈ [3; 4]%nat -> r ∉ ([0] ++ 1 :: [2])%nat.
Proof. intros r. set_solver. Defined.

Lemma move_between_lists_witness :
  exists d top m',
    linkedlist.lists two_stacks !! 0%nat = Some d /\
    linkedlist.tail d = Some top /\
    linkedlist.and_then (linkedlist.remove_chain 0 1)
      (fun _ => linkedlist.insert_chain_tail 1 1 top) two_stacks
    = (m', linkedlist.Ok tt) /\
    represents m' 0 [0%nat] [Color.BLUE] /\
    represents m' 1 ([3; 4] ++ 1 :: [2])%nat
      ([Color.YELLOW; Color.WHITE] ++ [Color.GREEN; Color.ORANGE]).
Proof.
  assert (0 <> 1)%nat as Hne by lia.
  exact (move_between_lists true 0 1 1 two_stacks [0%nat] [2%nat] [3; 4]%nat
           [Color.BLUE] [Color.GREEN; Color.ORANGE]
           [Color.YELLOW; Color.WHITE]
           Hne two_stacks_first eq_refl two_stacks_second two_stacks_disjoint).
Defined.

Lemma two_stacks_apart : forall r : nat, r ∈ [0; 1; 2]%nat -> r ∉ [3; 4]%nat.
Proof. intros r. set_solver. Defined.

Lemma extend_spec_witness :
  exists m',
    linkedlist.extend 0 1 two_stacks = (m', linkedlist.Ok tt) /\
    represents m' 0 ([0; 1; 2] ++ [3; 4])%nat
      ([Color.BLUE; Color.GREEN; Color.ORANGE]
       ++ [Color.YELLOW; Color.WHITE]) /\
    linkedlist.lists m' !! 1%nat = linkedlist.lists two_stacks !! 1%nat.
Proof.
  assert (0 <> 1)%nat as Hne by lia.
  destruct (extend_spec 0 1 two_stacks [0; 1; 2]%nat [3; 4]%nat
              [Color.BLUE; Color.GREEN; Color.ORANGE]
              [Color.YELLOW; Color.WHITE]
              Hne two_stacks_first two_stacks_second two_stacks_apart)
    as (m' & Hrun & Hrep & Hl & _).
  by exists m'.
Defined.

Lemma to_list_spec_witness :
  exists m',
    linkedlist.to_list 4 0 two_stacks
    = (m', linkedlist.Ok [Color.BLUE; Color.GREEN; Color.ORANGE]) /\
    linkedlist.__next__ 0 m' = (m', linkedlist.Err linkedlist.StopIteration).
Proof.
  destruct (to_list_spec 4 0 two_stacks [0; 1; 2]%nat
              [Color.BLUE; Color.GREEN; Color.ORANGE] two_stacks_first)
    as (m' & Hrun & _ & _ & _ & Hnext); [simpl; lia|].
  by exists m'.
Defined.

Lemma remove_insert_round_trip_witness :
  exists d top m1,
    linkedlist.lists two_stacks !! 0%nat = Some d /\
    linkedlist.tail d = Some top /\
    linkedlist.remove_chain 0 1 two_stacks = (m1, linkedlist.Ok tt) /\
    linkedlist.insert_chain_tail 0 1 top m1 = (two_stacks, linkedlist.Ok tt).
Proof.
  exact (remove_insert_round_trip 0 1 two_stacks [0%nat] [2%nat]
           [Color.BLUE; Color.GREEN; Color.ORANGE] two_stacks_first).
Defined.

(** ** Text in columns *)

Section utils_properties.
Import utils.
Implicit Types (s sep : str) (ls : list str).

(** The number of lines of a text and the length of its longest line. *)
Definition height s : nat := length (split_lines s).
Definition width s : nat := foldr Nat.max 0%nat (map length (split_lines s)).

(** The lines of a text in a column of [h] lines: empty lines are added
    above them when [from_bottom], below them otherwise. *)
Definition column (from_bottom : bool) (h : nat) s : list str :=
  if from_bottom then replicate (h - height s) [] ++ split_lines s
  else split_lines s ++ replicate (h - height s) [].

Lemma split_lines_nonempty s : split_lines s <> [].
Proof.
  destruct s as [|c s]; [done|]. cbn [split_lines].
  destruct (decide (c = newline)); [done|]. by destruct (split_lines s).
Qed.

Lemma split_lines_no_newline s :
  Forall (fun line => newline ∉ line) (split_lines s).
Proof.
  induction s as [|c s IH]; cbn [split_lines].
  - constructor; [apply not_elem_of_nil|constructor].
  - destruct (decide (c = newline)) as [->|Hc].
    + constructor; [apply not_elem_of_nil|done].
    + pose proof (split_lines_nonempty s) as Hne.
      destruct (split_lines s) as [|line lines]; [done|].
      apply Forall_cons in IH as [Hline Hlines]. constructor; [|done].
      intros [Heq|?]%elem_of_cons; [by apply Hc|done].
Qed.

Lemma join_split_lines s : join [newline] (split_lines s) = s.
Proof.
  induction s as [|c s IH]; [done|]. cbn [split_lines].
  destruct (decide (c = newline)) as [->|Hc].
  - pose proof (split_lines_nonempty s).
    destruct (split_lines s) as [|line lines] eqn:E; [done|].
    cbn [join app]. f_equal. exact IH.
  - pose proof (split_lines_nonempty s).
    destruct (split_lines s) as [|line lines] eqn:E; [done|].
    destruct lines as [|line' lines]; simpl in *; by rewrite <-IH.
Qed.

Lemma split_lines_app line s :
  newline ∉ line ->
  split_lines (line ++ newline :: s) = line :: split_lines s.
Proof.
  induction line as [|c line IH]; intros Hline.
  - cbn [app split_lines]. by rewrite decide_True.
  - apply not_elem_of_cons in Hline as [Hc Hline]. cbn [app split_lines].
    rewrite decide_False by done. by rewrite (IH Hline).
Qed.

Lemma split_lines_line line : newline ∉ line -> split_lines line = [line].
Proof.
  induction line as [|c line IH]; intros Hline; [done|].
  apply not_elem_of_cons in Hline as [Hc Hline]. cbn [split_lines].
  rewrite decide_False by done. by rewrite (IH Hline).
Qed.

Lemma split_lines_join ls :
  ls <> [] -> Forall (fun line => newline ∉ line) ls ->
  split_lines (join [newline] ls) = ls.
Proof.
  induction ls as [|line ls IH]; intros Hne Hls; [done|].
  apply Forall_cons in Hls as [Hline Hls].
  destruct ls as [|line' ls].
  - simpl. by apply split_lines_line.
  - cbn [join app]. rewrite split_lines_app by done. f_equal. by apply IH.
Qed.

Lemma foldl_max_foldr (n : nat) (l : list nat) :
  foldl Nat.max n l = Nat.max n (foldr Nat.max 0%nat l).
Proof.
  revert n. induction l as [|x l IH]; intros n; simpl; [lia|].
  rewrite IH. lia.
Qed.

Lemma max_len_Ok ls :
  ls <> [] -> max_len ls = Ok (foldr Nat.max 0%nat (map length ls)).
Proof.
  destruct ls as [|s ls]; [done|]. intros _. simpl.
  by rewrite foldl_max_foldr.
Qed.

Lemma foldr_max_le (l : list nat) x :
  x ∈ l -> (x <= foldr Nat.max 0 l)%nat.
Proof.
  induction l as [|y l IH]; [by intros ?%elem_of_nil|].
  intros [->|Hx]%elem_of_cons; simpl; [lia|]. specialize (IH Hx). lia.
Qed.

Lemma foldr_max_app (l k : list nat) :
  foldr Nat.max 0%nat (l ++ k)
  = Nat.max (foldr Nat.max 0%nat l) (foldr Nat.max 0%nat k).
Proof. induction l as [|x l IH]; simpl; [done|]. rewrite IH. lia. Qed.

Lemma foldr_max_replicate_0 n :
  foldr Nat.max 0%nat (map length (replicate n ([] : str))) = 0%nat.
Proof. induction n as [|n IH]; simpl; [done|]. by rewrite IH. Qed.

Lemma column_width from_bottom h s :
  foldr Nat.max 0%nat (map length (column from_bottom h s)) = width s.
Proof.
  unfold column, width.
  destruct from_bottom; rewrite map_app, foldr_max_app, foldr_max_replicate_0;
    lia.
Qed.

Lemma column_length from_bottom h s :
  (height s <= h)%nat -> length (column from_bottom h s) = h.
Proof.
  intros Hh. unfold column, height in *.
  destruct from_bottom; rewrite length_app, length_replicate; lia.
Qed.

Lemma column_nonempty from_bottom h s : column from_bottom h s <> [].
Proof.
  unfold column. pose proof (split_lines_nonempty s).
  destruct from_bottom; destruct (split_lines s), (replicate _ _); done.
Qed.

Lemma column_no_newline from_bottom h s :
  Forall (fun line => newline ∉ line) (column from_bottom h s).
Proof.
  unfold column. destruct from_bottom; apply Forall_app; split;
    try apply split_lines_no_newline;
    apply Forall_replicate, not_elem_of_nil.
Qed.

Lemma ljust_length w line :
  (length line <= w)%nat -> length (ljust w line) = w.
Proof. intros Hle. unfold ljust. rewrite length_app, length_replicate. lia. Qed.

Lemma ljust_no_newline w line : newline ∉ line -> newline ∉ ljust w line.
Proof.
  intros Hline. unfold ljust. rewrite elem_of_app. intros [?|Hin]; [done|].
  by apply elem_of_replicate in Hin as [? _].
Qed.

Lemma foldr_max_uniform ls (w : nat) :
  ls <> [] -> Forall (fun line => length line = w) ls ->
  foldr Nat.max 0%nat (map length ls) = w.
Proof.
  intros Hne Hall. destruct Hall as [|line ls Hline Hall]; [done|].
  simpl. rewrite Hline. clear Hne Hline.
  induction Hall as [|x l Hx _ IH]; simpl; [lia|]. rewrite Hx. lia.
Qed.

(** The lines of the text that [multiline_concat] builds from two
    columns. *)
Definition side_by_side (from_bottom : bool) s1 s2 sep : list str :=
  let h := Nat.max (height s1) (height s2) in
  zip_with (fun a b => ljust (width s1) a ++ sep ++ ljust (width s2) b)
           (column from_bottom h s1) (column from_bottom h s2).

Lemma multiline_concat_Ok s1 s2 from_bottom sep :
  multiline_concat s1 s2 from_bottom sep
  = Ok (join [newline] (side_by_side from_bottom s1 s2 sep)).
Proof.
  unfold multiline_concat.
  fold (height s1) (height s2).
  change (if from_bottom
          then replicate (Nat.max (height s1) (height s2) - height s1) []
               ++ split_lines s1
          else split_lines s1
               ++ replicate (Nat.max (height s1) (height s2) - height s1) [])
    with (column from_bottom (Nat.max (height s1) (height s2)) s1).
  change (if from_bottom
          then replicate (Nat.max (height s1) (height s2) - height s2) []
               ++ split_lines s2
          else split_lines s2
               ++ replicate (Nat.max (height s1) (height s2) - height s2) [])
    with (column from_bottom (Nat.max (height s1) (height s2)) s2).
  rewrite !max_len_Ok by apply column_nonempty.
  rewrite !column_width. unfold side_by_side.
  rewrite zip_with_fmap_l, zip_with_fmap_r. done.
Qed.

Lemma side_by_side_length from_bottom s1 s2 sep :
  length (side_by_side from_bottom s1 s2 sep)
  = Nat.max (height s1) (height s2).
Proof.
  unfold side_by_side. cbn zeta.
  rewrite length_zip_with, !column_length by lia. lia.
Qed.

Lemma side_by_side_lines from_bottom s1 s2 sep line :
  line ∈ side_by_side from_bottom s1 s2 sep ->
  length line = (width s1 + length sep + width s2)%nat /\
  (newline ∉ sep -> newline ∉ line).
Proof.
  unfold side_by_side. cbn zeta.
  intros (a & b & -> & Ha & Hb)%elem_of_zip_with.
  assert (forall from_bottom h s x,
            x ∈ column from_bottom h s ->
            (length x <= width s)%nat /\ newline ∉ x) as Hcol.
  { intros fb h s x Hx. split.
    - rewrite <-(column_width fb h). apply foldr_max_le.
      apply list_elem_of_fmap. by exists x.
    - revert x Hx. apply Forall_forall, column_no_newline. }
  destruct (Hcol _ _ _ _ Ha) as [Hla Hna], (Hcol _ _ _ _ Hb) as [Hlb Hnb].
  split.
  - rewrite !length_app, !ljust_length by done. lia.
  - intros Hsep. rewrite !elem_of_app.
    intros [?%ljust_no_newline|[?|?%ljust_no_newline]]; done.
Qed.

(** A run of [multiline_concat], for the proofs that follow. *)
Lemma run_multiline_concat s1 s2 from_bottom sep :
  newline ∉ sep ->
  exists r,
    multiline_concat s1 s2 from_bottom sep = Ok r /\
    split_lines r = side_by_side from_bottom s1 s2 sep /\
    height r = Nat.max (height s1) (height s2) /\
    width r = (width s1 + length sep + width s2)%nat /\
    Forall (fun line =>
              length line = (width s1 + length sep + width s2)%nat)
           (split_lines r).
Proof.
  intros Hsep. eexists. split; [apply multiline_concat_Ok|].
  assert (split_lines (join [newline] (side_by_side from_bottom s1 s2 sep))
          = side_by_side from_bottom s1 s2 sep) as Hsplit.
  { apply split_lines_join.
    - intros Hnil. apply (f_equal length) in Hnil.
      rewrite side_by_side_length in Hnil. simpl in Hnil.
      pose proof (split_lines_nonempty s1). unfold height in Hnil.
      destruct (split_lines s1); [done|simpl in Hnil; lia].
    - apply Forall_forall. intros line Hline.
      by apply (side_by_side_lines from_bottom s1 s2 sep line). }
  assert (Forall (fun line =>
                    length line = (width s1 + length sep + width s2)%nat)
                 (side_by_side from_bottom s1 s2 sep)) as Hall.
  { apply Forall_forall. intros line Hline.
    by apply (side_by_side_lines from_bottom s1 s2 sep line). }
  split; [done|]. unfold height. unfold width at 1. rewrite Hsplit.
  split; [apply side_by_side_length|]. split; [|done].
  apply foldr_max_uniform; [|done].
  intros Hnil. apply (f_equal length) in Hnil.
  rewrite side_by_side_length in Hnil. simpl in Hnil.
  pose proof (split_lines_nonempty s1). unfold height in Hnil.
  destruct (split_lines s1); [done|simpl in Hnil; lia].
Qed.

(** X25.  With a separator that has no line break,
    [multiline_concat] returns, and what it returns is a rectangle: as
    many lines as the taller text has, each one the padded line of the
    left text, the separator and the padded line of the right text, all
    of the same length. *)
Theorem multiline_concat_rectangle s1 s2 from_bottom sep :
  newline ∉ sep ->
  exists r,
    multiline_concat s1 s2 from_bottom sep = Ok r /\
    split_lines r = side_by_side from_bottom s1 s2 sep /\
    height r = Nat.max (height s1) (height s2) /\
    width r = (width s1 + length sep + width s2)%nat /\
    Forall (fun line =>
              length line = (width s1 + length sep + width s2)%nat)
           (split_lines r).
Proof. exact (run_multiline_concat s1 s2 from_bottom sep). Qed.

(** X26.  [multiline_concat_list] raises [TypeError] without a
    text and gives a single text back as it is; with a separator that
    has no line break it puts several texts side by side in a
    rectangle, as high as the highest of them and as wide as all of them
    and the separators between them. *)
Theorem multiline_concat_list_rectangle from_bottom sep first rest :
  newline ∉ sep ->
  multiline_concat_list [] from_bottom sep = Err TypeError /\
  multiline_concat_list [first] from_bottom sep = Ok first /\
  exists r,
    multiline_concat_list (first :: rest) from_bottom sep = Ok r /\
    height r = foldr Nat.max 0%nat (map height (first :: rest)) /\
    width r =
    (foldr Nat.add 0 (map width (first :: rest)) + length rest * length sep)%nat
    /\
    (rest <> [] ->
     Forall (fun line => length line = width r) (split_lines r)).
Proof.
  intros Hsep. split; [done|]. split; [done|].
  revert first. induction rest as [|y rest IH]; intros first.
  - exists first. simpl. split_and!; [done|lia|lia|done].
  - destruct (run_multiline_concat first y from_bottom sep Hsep)
      as (r1 & Hrun & _ & Hh1 & Hw1 & Hall1).
    destruct (IH r1) as (r & Hr & Hh & Hw & Hall).
    exists r. split.
    { cbn [multiline_concat_list foldl] in Hr |- *. by rewrite Hrun. }
    split; [|split].
    + rewrite Hh. cbn [map foldr]. rewrite Hh1. lia.
    + rewrite Hw. cbn [map foldr length]. rewrite Hw1. lia.
    + intros _. destruct rest as [|z rest]; [|by apply Hall].
      cbn [multiline_concat_list foldl] in Hr. injection Hr as <-.
      by rewrite Hw1.
Qed.

End utils_properties.

(** The default separator: four spaces. *)
Definition four_spaces : list ascii := replicate 4 utils.space.

Lemma four_spaces_no_newline : utils.newline ∉ four_spaces.
Proof. by intros [? _]%elem_of_replicate. Qed.

Lemma multiline_concat_rectangle_witness :
  let s1 := ["a"; "b"; utils.newline; "c"]%char in
  let s2 := ["d"]%char in
  exists r,
    utils.multiline_concat s1 s2 true four_spaces = utils.Ok r /\
    utils.split_lines r = side_by_side true s1 s2 four_spaces /\
    height r = Nat.max (height s1) (height s2) /\
    width r = (width s1 + length four_spaces + width s2)%nat /\
    Forall (fun line =>
              length line = (width s1 + length four_spaces + width s2)%nat)
           (utils.split_lines r).
Proof. apply multiline_concat_rectangle, four_spaces_no_newline. Defined.

Lemma multiline_concat_list_rectangle_witness :
  let first := ["a"; "b"; utils.newline; "c"]%char in
  let rest := [["d"]%char; ["e"; utils.newline; utils.newline; "f"]%char] in
  utils.multiline_concat_list [] true four_spaces = utils.Err utils.TypeError
  /\
  utils.multiline_concat_list [first] true four_spaces = utils.Ok first /\
  exists r,
    utils.multiline_concat_list (first :: rest) true four_spaces = utils.Ok r
    /\
    height r = foldr Nat.max 0%nat (map height (first :: rest)) /\
    width r =
    (foldr Nat.add 0 (map width (first :: rest))
     + length rest * length four_spaces)%nat /\
    (rest <> [] ->
     Forall (fun line => length line = width r) (utils.split_lines r)).
Proof. apply multiline_concat_list_rectangle, four_spaces_no_newline. Defined.
